(** * go-crypt: the crypt(3) hash-string codec

    A shallow embedding of the packages [hash/parse] (lexer, parser) and
    [hash] (schema compiler, Marshal, Unmarshal) of
    sergeymakinen/go-crypt, and the properties of the codec proved on it.

    Conventions of the embedding:
    - a Go [string] is a list of bytes ([list ascii]); [s[lo:hi]] is [slice];
    - [Pos] and every [int] that only counts or indexes is a [nat]; the two
      counters of [Unmarshal] that go below zero are [Z];
    - a Go function that returns [(T, error)] returns a [result]; the third
      outcome [Panic] stands for a run-time panic of the Go program (index
      out of range, nil dereference), which the theorems show unreachable
      where a claim needs a result;
    - the lexer's goroutine and channel are the list of tokens sent, in
      order: the channel is unbuffered and has one reader. *)

From Stdlib Require Import String Ascii List Arith Lia Bool ZArith.
Import ListNotations.

Set Implicit Arguments.
Set Warnings "-register-all".
Local Open Scope list_scope.

(** ** Go strings *)

Definition gostring := list ascii.

Definition str (s : string) : gostring := list_ascii_of_string s.

(** [s[lo:hi]] *)
Definition slice (s : gostring) (lo hi : nat) : gostring :=
  firstn (hi - lo) (skipn lo s).

Definition byte_eqb (a b : ascii) : bool := Ascii.eqb a b.

Fixpoint gostring_eqb (a b : gostring) : bool :=
  match a, b with
  | [], [] => true
  | x :: a', y :: b' => byte_eqb x y && gostring_eqb a' b'
  | _, _ => false
  end.

(** [strings.HasPrefix(s, p)] *)
Fixpoint HasPrefix (s p : gostring) {struct p} : bool :=
  match p, s with
  | [], _ => true
  | c :: p', d :: s' => byte_eqb c d && HasPrefix s' p'
  | _ :: _, [] => false
  end.

(** [strings.TrimPrefix(s, p)] *)
Definition TrimPrefix (s p : gostring) : gostring :=
  if HasPrefix s p then skipn (length p) s else s.

(** [strings.IndexAny(s, chars)]; [None] is Go's [-1]. *)
Fixpoint IndexAny (s chars : gostring) : option nat :=
  match s with
  | [] => None
  | c :: s' =>
      if existsb (byte_eqb c) chars then Some 0
      else option_map S (IndexAny s' chars)
  end.

(** [strings.IndexByte(s, c)] *)
Definition IndexByte (s : gostring) (c : ascii) : option nat :=
  IndexAny s [c].

(** ** Results *)

Inductive result (A E : Type) : Type :=
| Ok (a : A)
| Err (e : E)
| Panic.
Arguments Ok {A E} a.
Arguments Err {A E} e.
Arguments Panic {A E}.

(** ** Package [parse]: the lexer (lex.go) *)

Inductive tokenType : Type :=
| tokenError | tokenPrefix | tokenDollar | tokenComma | tokenValue | tokenEOF.

Record token : Type := mkToken {
  tokType : tokenType;
  tokPos : nat;
  tokValue : gostring
}.

Record lexer : Type := mkLexer {
  input : gostring;
  pos : nat;
  start : nat;
  tokens : list token        (* what was sent on the channel, oldest first *)
}.

(** The two state functions; Go's [nil] state is [None]. *)
Inductive stateFn : Type := lexPrefixFn | lexFragmentFn.

Definition set_pos (l : lexer) (p : nat) : lexer :=
  mkLexer (input l) p (start l) (tokens l).

(** The method [Next() byte] of the lexer; out of range panics. *)
Definition Next (l : lexer) : option (ascii * lexer) :=
  match nth_error (input l) (pos l) with
  | Some c => Some (c, set_pos l (pos l + 1))
  | None => None
  end.

Definition emit (l : lexer) (t : tokenType) : lexer :=
  mkLexer (input l) (pos l) (pos l)
    (tokens l ++ [mkToken t (start l) (slice (input l) (start l) (pos l))]).

Definition errorf (l : lexer) (msg : gostring) : option stateFn * lexer :=
  (None,
   mkLexer (input l) (pos l) (start l)
     (tokens l ++ [mkToken tokenError (pos l) msg])).

Definition delimChars : gostring := str "$,".

Definition lexPrefix (l : lexer) : option stateFn * lexer :=
  let after_dollar :=
    if HasPrefix (skipn (pos l) (input l)) (str "$") then
      let l := set_pos l (pos l + 1) in
      match IndexAny (skipn (pos l) (input l)) delimChars with
      | Some i =>
          if Nat.eqb i 0 then inr (errorf l (str "missing prefix identifier"))
          else inl (emit (set_pos l (pos l + (i + 1))) tokenPrefix)
      | None =>
          inr (errorf (set_pos l (length (input l))) (str "missing prefix end"))
      end
    else inl l in
  match after_dollar with
  | inr stop => stop
  | inl l =>
      let l :=
        if HasPrefix (skipn (pos l) (input l)) (str "_")
        then emit (set_pos l (pos l + 1)) tokenPrefix
        else l in
      (Some lexFragmentFn, l)
  end.

Definition lexFragment (l : lexer) : option (option stateFn * lexer) :=
  match IndexAny (skipn (pos l) (input l)) delimChars with
  | Some i =>
      let l := emit (set_pos l (pos l + i)) tokenValue in
      match Next l with
      | Some (c, l) =>
          let l :=
            if byte_eqb c "$" then emit l tokenDollar
            else if byte_eqb c "," then emit l tokenComma
            else l in
          Some (Some lexFragmentFn, l)
      | None => None
      end
  | None =>
      let l := set_pos l (length (input l)) in
      let l := if start l <? pos l then emit l tokenValue else l in
      Some (None, emit l tokenEOF)
  end.

Definition apply_state (s : stateFn) (l : lexer) : option (option stateFn * lexer) :=
  match s with
  | lexPrefixFn => Some (lexPrefix l)
  | lexFragmentFn => lexFragment l
  end.

(** The method [run()] of the lexer: the loop [for state := lexPrefix; state != nil;]
    bounded by [fuel] steps; [None] when the steps run out or a step panics. *)
Fixpoint run (fuel : nat) (state : option stateFn) (l : lexer) : option lexer :=
  match state with
  | None => Some l
  | Some s =>
      match fuel with
      | 0 => None
      | S fuel' =>
          match apply_state s l with
          | Some (state', l') => run fuel' state' l'
          | None => None
          end
      end
  end.

(** [lex(input string)], with everything the goroutine sends. *)
Definition lex (inp : gostring) : option (list token) :=
  option_map tokens
    (run (length inp + 2) (Some lexPrefixFn) (mkLexer inp 0 0 [])).

(** ** Package [parse]: nodes (node.go) and [Parse] (lex.go) *)

Inductive NodeType : Type := NodePrefix | NodeGroup | NodeValue.

Definition NodeType_String (t : NodeType) : gostring :=
  match t with
  | NodePrefix => str "prefix"
  | NodeGroup => str "group"
  | NodeValue => str "value"
  end.

Record PrefixNode : Type := mkPrefixNode {
  Text : gostring;
  prefix_end : nat
}.

Record ValueNode : Type := mkValueNode {
  Value : gostring;
  value_pos : nat;
  value_end : nat
}.

Record GroupNode : Type := mkGroupNode {
  Values : list ValueNode
}.

Inductive FragmentNode : Type :=
| FValue (v : ValueNode)
| FGroup (g : GroupNode).

Record Tree : Type := mkTree {
  Prefix : option PrefixNode;
  Fragments : list FragmentNode
}.

Record SyntaxError : Type := mkSyntaxError {
  syn_Offset : nat;
  syn_Msg : gostring
}.

(** The loop of [Parse], reading the tokens in the order they were sent.
    Receiving from the closed channel gives the zero token, whose type is
    [tokenError] (the first constant). Appending a nil value to a group
    (a comma with no value before it) is outside the model: [Panic]. *)
Fixpoint parseLoop (ts : list token) (tree : Tree)
    (group : option GroupNode) (value : option ValueNode)
  : result Tree SyntaxError :=
  match ts with
  | [] => Err (mkSyntaxError 0 [])
  | t :: ts' =>
      match tokType t with
      | tokenError => Err (mkSyntaxError (tokPos t) (tokValue t))
      | tokenPrefix =>
          parseLoop ts'
            (mkTree (Some (mkPrefixNode (tokValue t) (length (tokValue t))))
                    (Fragments tree))
            group value
      | tokenDollar | tokenEOF =>
          let '(tree, group, value) :=
            match value with
            | Some v =>
                match group with
                | Some g =>
                    (mkTree (Prefix tree)
                       (Fragments tree ++ [FGroup (mkGroupNode (Values g ++ [v]))]),
                     None, None)
                | None =>
                    (mkTree (Prefix tree) (Fragments tree ++ [FValue v]),
                     None, None)
                end
            | None => (tree, group, value)
            end in
          match tokType t with
          | tokenEOF => Ok tree
          | _ => parseLoop ts' tree group value
          end
      | tokenComma =>
          let g := match group with Some g => g | None => mkGroupNode [] end in
          match value with
          | Some v => parseLoop ts' tree (Some (mkGroupNode (Values g ++ [v]))) None
          | None => Panic
          end
      | tokenValue =>
          parseLoop ts' tree group
            (Some (mkValueNode (tokValue t) (tokPos t)
                     (tokPos t + length (tokValue t))))
      end
  end.

Definition Parse (hash : gostring) : result Tree SyntaxError :=
  match lex hash with
  | Some ts => parseLoop ts (mkTree None []) None None
  | None => Panic
  end.

Definition FragmentNode_Type (f : FragmentNode) : NodeType :=
  match f with FValue _ => NodeValue | FGroup _ => NodeGroup end.

(** [String()] of a fragment: a group prints as the empty string. *)
Definition FragmentNode_String (f : FragmentNode) : gostring :=
  match f with FValue v => Value v | FGroup _ => [] end.

(** [End()]: for a group, the end of its last value; a group with no value
    would index out of range. *)
Definition GroupNode_End (g : GroupNode) : option nat :=
  match rev (Values g) with
  | v :: _ => Some (value_end v)
  | [] => None
  end.

Definition FragmentNode_End (f : FragmentNode) : option nat :=
  match f with
  | FValue v => Some (value_end v)
  | FGroup g => GroupNode_End g
  end.


(** ** Package [hashutil]: alphabets *)

Record Encoding : Type := mkEncoding {
  encoder : gostring
}.

(** [decodeMap[c]] as [NewEncoding] fills it: [0xFF] everywhere, then
    [byte(i)] at [encoder[i]], later positions overwriting earlier ones. *)
Fixpoint decodeMap_from (enc : gostring) (i : nat) (c : ascii) (cur : nat) : nat :=
  match enc with
  | [] => cur
  | e :: enc' =>
      decodeMap_from enc' (S i) c (if byte_eqb e c then i mod 256 else cur)
  end.

Definition decodeMap (e : Encoding) (c : ascii) : nat :=
  decodeMap_from (encoder e) 0 c 255.

(** [IndexAnyInvalid]; [None] is Go's [-1]. *)
Fixpoint IndexAnyInvalid (e : Encoding) (b : gostring) : option nat :=
  match b with
  | [] => None
  | c :: b' =>
      if Nat.eqb (decodeMap e c) 255 then Some 0
      else option_map S (IndexAnyInvalid e b')
  end.

Definition HashEncoding : Encoding :=
  mkEncoding (str "./0123456789ABCDEFGHIJKLMNOPQRSTUVWXYZabcdefghijklmnopqrstuvwxyz").

Definition Base64Encoding : Encoding :=
  mkEncoding (str "ABCDEFGHIJKLMNOPQRSTUVWXYZabcdefghijklmnopqrstuvwxyz0123456789+/").

(** ** Go types and values, as far as package [hash] inspects them *)

(** A value stored in a struct field. [VPtr None] is a nil pointer;
    [VOther z] is a value of a kind the codec does not support (bool,
    float, map, struct, ...), [z] telling whether it is the zero value. *)
Inductive govalue : Type :=
| VInt (z : Z)
| VUint (z : Z)
| VString (s : gostring)
| VBytes (b : gostring)
| VPtr (p : option govalue)
| VOther (zero : bool).

(** The methods [MarshalText] and [UnmarshalText] a named type may have;
    an error is its message. [UnmarshalText] is given the text. *)
Record TextMethods : Type := mkTextMethods {
  MarshalText : option (govalue -> result gostring gostring);
  UnmarshalText : option (gostring -> result govalue gostring)
}.

Record StructField (T : Type) : Type := mkStructField {
  sfName : gostring;
  sfExported : bool;         (* PkgPath == "" *)
  sfAnonymous : bool;
  sfType : T;
  sfTag : gostring           (* Tag.Get("hash") *)
}.
Arguments mkStructField {T}.

Inductive gotype : Type :=
| TInt (bits : nat)
| TUint (bits : nat)
| TString
| TOther                                   (* bool, float, map, ... *)
| TPtr (elem : gotype)
| TSlice (elem : gotype)
| TArray (len : nat) (elem : gotype)
| TStruct (fields : list (StructField gotype))
| TNamed (methods : TextMethods) (underlying : gotype).

Inductive Kind : Type :=
| KInt | KUint | KString | KOther | KPtr | KSlice | KArray | KStruct.

Fixpoint kindOf (t : gotype) : Kind :=
  match t with
  | TInt _ => KInt
  | TUint _ => KUint
  | TString => KString
  | TOther => KOther
  | TPtr _ => KPtr
  | TSlice _ => KSlice
  | TArray _ _ => KArray
  | TStruct _ => KStruct
  | TNamed _ u => kindOf u
  end.

Fixpoint stripNamed (t : gotype) : gotype :=
  match t with
  | TNamed _ u => stripNamed u
  | _ => t
  end.

(** [uint8], the element type the codec looks for in arrays and slices *)
Definition isUint8 (t : gotype) : bool :=
  match stripNamed t with
  | TUint 8 => true
  | _ => false
  end.

(** [func indirectType(typ reflect.Type) reflect.Type] *)
Fixpoint indirectType (t : gotype) : gotype :=
  match t with
  | TPtr e => indirectType e
  | TNamed m u =>
      match stripNamed u with
      | TPtr _ => indirectType u
      | _ => t
      end
  | _ => t
  end.

(** The methods the method set of [t] holds, and those of [*t]. *)
Definition methodsOf (t : gotype) : TextMethods :=
  match t with
  | TNamed m _ => m
  | _ => mkTextMethods None None
  end.

(** ** Package [hash]: the schema (typeinfo.go) *)

Definition hashPrefix : gostring := str "HashPrefix".

Record fieldOpts : Type := mkFieldOpts {
  opt_Prefix : bool;
  OmitEmpty : bool;
  Group : bool;
  Param : gostring;
  Encoding_ : option Encoding;
  Length : nat;
  Inline : bool;
  Base : nat
}.

Record fieldInfo : Type := mkFieldInfo {
  Index : list nat;
  Name : gostring;
  Type_ : gotype;
  Opts : fieldOpts
}.

Record typeInfo : Type := mkTypeInfo {
  ti_Struct : gotype;
  ti_Type : gotype;
  HashPrefix : option fieldInfo;
  Fields : list fieldInfo;
  NumReqValues : nat
}.

Record TagParamError : Type := mkTagParamError {
  tpe_Struct : gotype;
  Field1 : gostring;
  Field2 : gostring;
  Tag1 : gostring;
  Tag2 : gostring
}.

(** The errors of the schema compiler: a [TagParamError], or the
    [errors.New("invalid tag in field ...")] of [normalize], kept as the
    struct, the field name and the tag it prints. *)
Inductive ConfigError : Type :=
| ErrTagParam (e : TagParamError)
| ErrInvalidTag (st : gotype) (field : gostring) (tag : gostring).

(** [func (f fieldInfo) String() string] *)
Definition fieldInfo_String (f : fieldInfo) : gostring :=
  if Group (Opts f) then str "grouped param"
  else if negb (gostring_eqb (Param (Opts f)) []) then str "param"
  else str "value".

(** ** Package [strconv] of the Go library, as far as the codec calls it

    Numbers are exact integers; the bounds of the bit size are checked as
    the library does. An error is kept as its kind; [Quote] leaves out the
    escaping of quotes, backslashes and unprintable bytes, which only
    changes the text of a message. *)

Inductive NumError : Type := ErrSyntax | ErrRange | ErrBase.

Definition byte_val (c : ascii) : nat := nat_of_ascii c.

(** the value of a digit: [0-9], then letters of either case from 10 *)
Definition digitVal (c : ascii) : option nat :=
  let n := byte_val c in
  if (48 <=? n) && (n <=? 57) then Some (n - 48)
  else if (97 <=? n) && (n <=? 122) then Some (n - 97 + 10)
  else if (65 <=? n) && (n <=? 90) then Some (n - 65 + 10)
  else None.

Fixpoint parseDigits (s : gostring) (base : nat) (maxVal : Z) (n : Z)
  : result Z NumError :=
  match s with
  | [] => Ok n
  | c :: s' =>
      match digitVal c with
      | None => Err ErrSyntax
      | Some d =>
          if base <=? d then Err ErrSyntax
          else
            let n1 := (n * Z.of_nat base + Z.of_nat d)%Z in
            if (maxVal <? n1)%Z then Err ErrRange
            else parseDigits s' base maxVal n1
      end
  end.

(** [strconv.ParseUint(s, base, bitSize)] for a base from 2 to 36; base 0
    (the literal syntax of Go) is never asked for by a compiled schema and
    is left outside the model. *)
Definition ParseUint (s : gostring) (base bitSize : nat) : result Z NumError :=
  match s with
  | [] => Err ErrSyntax
  | _ =>
      if Nat.eqb base 0 then Panic
      else if (base <? 2) || (36 <? base) then Err ErrBase
      else parseDigits s base (2 ^ Z.of_nat bitSize - 1)%Z 0%Z
  end.

(** [strconv.ParseInt(s, base, bitSize)] *)
Definition ParseInt (s : gostring) (base bitSize : nat) : result Z NumError :=
  match s with
  | [] => Err ErrSyntax
  | c :: s' =>
      let neg := byte_eqb c "-" in
      let digits := if neg || byte_eqb c "+" then s' else s in
      match ParseUint digits base 64 with
      | Ok un =>
          let cutoff := (2 ^ (Z.of_nat bitSize - 1))%Z in
          if negb neg && (cutoff <=? un)%Z then Err ErrRange
          else if neg && (cutoff <? un)%Z then Err ErrRange
          else Ok (if neg then (- un)%Z else un)
      | Err ErrRange => Err ErrRange
      | Err e => Err e
      | Panic => Panic
      end
  end.

Definition digitChar (d : nat) : ascii :=
  if d <? 10 then ascii_of_nat (48 + d) else ascii_of_nat (97 + d - 10).

Fixpoint formatDigits (fuel : nat) (base : nat) (n : nat) (acc : gostring) : gostring :=
  match fuel with
  | 0 => acc
  | S fuel' =>
      let acc := digitChar (n mod base) :: acc in
      if n / base =? 0 then acc else formatDigits fuel' base (n / base) acc
  end.

(** [strconv.FormatUint(n, base)]; a base outside 2..36 panics. *)
Definition FormatUint (n : Z) (base : nat) : result gostring NumError :=
  if (base <? 2) || (36 <? base) then Panic
  else Ok (formatDigits (S (Z.to_nat n)) base (Z.to_nat n) []).

(** [strconv.FormatInt(n, base)] *)
Definition FormatInt (n : Z) (base : nat) : result gostring NumError :=
  if (base <? 2) || (36 <? base) then Panic
  else
    let digits := formatDigits (S (Z.abs_nat n)) base (Z.abs_nat n) [] in
    Ok (if (n <? 0)%Z then "-"%char :: digits else digits).

Definition dquote : ascii := ascii_of_nat 34.

Definition Quote (s : gostring) : gostring := dquote :: s ++ [dquote].

Definition QuoteRuneToASCII (c : ascii) : gostring :=
  "'"%char :: c :: ["'"%char].

Definition NumError_Error (fn s : gostring) (e : NumError) : gostring :=
  str "strconv." ++ fn ++ str ": parsing " ++ Quote s ++ str ": " ++
  match e with
  | ErrSyntax => str "invalid syntax"
  | ErrRange => str "value out of range"
  | ErrBase => str "invalid base"
  end.

(** ** The schema compiler (typeinfo.go) *)

(** The parts of a tag, as the loop [for tag != ""] of [getRawTypeInfo]
    cuts them at each [strings.IndexByte(tag, ',')]; every round shortens
    the tag, so [length tag] rounds are enough. *)
Fixpoint tagPartsFuel (fuel : nat) (tag : gostring) : list gostring :=
  match tag, fuel with
  | [], _ => []
  | _, 0 => []
  | _, S fuel' =>
      match IndexByte tag "," with
      | None => [tag]
      | Some i => slice tag 0 i :: tagPartsFuel fuel' (skipn (i + 1) tag)
      end
  end.

Definition tagParts (tag : gostring) : list gostring :=
  tagPartsFuel (length tag) tag.

Definition set_Param (o : fieldOpts) (p : gostring) : fieldOpts :=
  mkFieldOpts (opt_Prefix o) (OmitEmpty o) (Group o) p (Encoding_ o)
    (Length o) (Inline o) (Base o).
Definition set_OmitEmpty (o : fieldOpts) : fieldOpts :=
  mkFieldOpts (opt_Prefix o) true (Group o) (Param o) (Encoding_ o)
    (Length o) (Inline o) (Base o).
Definition set_Group (o : fieldOpts) : fieldOpts :=
  mkFieldOpts (opt_Prefix o) (OmitEmpty o) true (Param o) (Encoding_ o)
    (Length o) (Inline o) (Base o).
Definition set_Length (o : fieldOpts) (n : nat) : fieldOpts :=
  mkFieldOpts (opt_Prefix o) (OmitEmpty o) (Group o) (Param o) (Encoding_ o)
    n (Inline o) (Base o).
Definition set_Inline (o : fieldOpts) : fieldOpts :=
  mkFieldOpts (opt_Prefix o) (OmitEmpty o) (Group o) (Param o) (Encoding_ o)
    (Length o) true (Base o).
Definition set_Base (o : fieldOpts) (b : nat) : fieldOpts :=
  mkFieldOpts (opt_Prefix o) (OmitEmpty o) (Group o) (Param o) (Encoding_ o)
    (Length o) (Inline o) b.
Definition set_Encoding (o : fieldOpts) (e : option Encoding) : fieldOpts :=
  mkFieldOpts (opt_Prefix o) (OmitEmpty o) (Group o) (Param o) e
    (Length o) (Inline o) (Base o).

(** One round of the [switch] on a part of the tag. *)
Definition applyTagPart (o : fieldOpts) (part : gostring) : fieldOpts :=
  if HasPrefix part (str "param:") then set_Param o (skipn 6 part)
  else if gostring_eqb part (str "omitempty") then set_OmitEmpty o
  else if gostring_eqb part (str "group") then set_Group o
  else if HasPrefix part (str "length:") then
    match ParseUint (skipn 7 part) 10 32 with
    | Ok v =>
        if Nat.eqb (Length o) 0 || (Z.to_nat v <? Length o)
        then set_Length o (Z.to_nat v) else o
    | _ => o
    end
  else if gostring_eqb part (str "inline") then set_Inline o
  else if HasPrefix part (str "base:") then
    match ParseUint (skipn 5 part) 10 8 with
    | Ok i =>
        if (2 <=? i)%Z && (i <=? 36)%Z then set_Base o (Z.to_nat i) else o
    | _ => o
    end
  else if HasPrefix part (str "enc:") then
    if gostring_eqb (skipn 4 part) (str "base64") then set_Encoding o (Some Base64Encoding)
    else if gostring_eqb (skipn 4 part) (str "none") then set_Encoding o None
    else o
  else o.

(** The [fieldInfo] that [getRawTypeInfo] builds for the field [i] of a
    struct: the defaults, the prefix mark, the length of a byte array,
    then the tag. *)
Definition rawFieldInfo (i : nat) (name : gostring) (ty : gotype) (tag : gostring)
  : fieldInfo :=
  let isPrefix := gostring_eqb name hashPrefix in
  let o := mkFieldOpts isPrefix false false []
             (if isPrefix then None else Some HashEncoding) 0 false 10 in
  let o :=
    match stripNamed (indirectType ty) with
    | TArray n e => if isUint8 e then set_Length o n else o
    | _ => o
    end in
  mkFieldInfo [i] name ty (fold_left applyTagPart (tagParts tag) o).

Definition prependIndex (i : nat) (fi : fieldInfo) : fieldInfo :=
  mkFieldInfo (i :: Index fi) (Name fi) (Type_ fi) (Opts fi).

(** [getRawTypeInfo(t).Fields]. The Go function is called on a struct type
    and strips the pointers of an embedded field before it recurses; here
    the recursion itself steps through pointers and type names, so that
    every call is on a part of the type. *)
Fixpoint rawFields (t : gotype) : list fieldInfo :=
  match t with
  | TPtr e => rawFields e
  | TNamed _ u => rawFields u
  | TStruct fs =>
      (fix loop (i : nat) (fs : list (StructField gotype)) : list fieldInfo :=
         match fs with
         | [] => []
         | mkStructField name exported anon ty tag :: fs' =>
             (if (negb exported && negb anon) || gostring_eqb tag (str "-")
              then []
              else
                match anon, kindOf (indirectType ty) with
                | true, KStruct => map (prependIndex i) (rawFields ty)
                | _, _ => [rawFieldInfo i name ty tag]
                end)
             ++ loop (S i) fs'
         end) 0 fs
  | _ => []
  end.

Definition getRawTypeInfo (t : gotype) : typeInfo :=
  mkTypeInfo t t None (rawFields t) 0.

(** [reflect.Type.Field(i)] on a struct type *)
Fixpoint structFields (t : gotype) : option (list (StructField gotype)) :=
  match t with
  | TStruct fs => Some fs
  | TNamed _ u => structFields u
  | _ => None
  end.

(** [reflect.Type.FieldByIndex(index)]: after the first step a pointer to
    a struct is followed; [None] where Go panics. *)
Fixpoint FieldByIndexFrom (first : bool) (t : gotype) (index : list nat)
  : option (StructField gotype) :=
  match index with
  | [] => None
  | x :: index' =>
      let t := if first then t
               else match stripNamed t with
                    | TPtr e => if match kindOf e with KStruct => true | _ => false end
                                then e else t
                    | _ => t
                    end in
      match structFields t with
      | Some fs =>
          match nth_error fs x, index' with
          | Some f, [] => Some f
          | Some f, _ => FieldByIndexFrom false (sfType f) index'
          | None, _ => None
          end
      | None => None
      end
  end.

Definition FieldByIndex (t : gotype) (index : list nat) : option (StructField gotype) :=
  FieldByIndexFrom true t index.

(** [ti.Type.FieldByIndex(fi.Index).Tag.Get("hash")] *)
Definition tagOf (t : gotype) (fi : fieldInfo) : option gostring :=
  option_map (@sfTag gotype) (FieldByIndex t (Index fi)).

(** The comparison given to [sort.Slice] in [field]. *)
Fixpoint indexLess (a b : list nat) : bool :=
  match a, b with
  | v :: a', w :: b' => if Nat.eqb v w then indexLess a' b' else v <? w
  | _, _ => false
  end.

Definition fieldLess (a b : fieldInfo) : bool :=
  if negb (Nat.eqb (length (Index a)) (length (Index b)))
  then length (Index a) <? length (Index b)
  else indexLess (Index a) (Index b).

(** [sort.Slice] as an insertion sort. The library's sort is not stable,
    and [field] sorts only lists on which [fieldLess] is a strict total
    order (no two index paths of one length), where every sort agrees. *)
Fixpoint insertField (f : fieldInfo) (l : list fieldInfo) : list fieldInfo :=
  match l with
  | [] => [f]
  | g :: l' => if fieldLess g f then g :: insertField f l' else f :: l
  end.

Definition sortFields (l : list fieldInfo) : list fieldInfo :=
  fold_right insertField [] l.

(** The first loop of [field]: the fields of the parameter, or the
    conflict of two of them at one depth. *)
Fixpoint fieldCollect (ti : typeInfo) (param : gostring)
    (rest fields : list fieldInfo) : result (list fieldInfo) ConfigError :=
  match rest with
  | [] => Ok fields
  | fi1 :: rest' =>
      if negb (gostring_eqb (Param (Opts fi1)) param)
      then fieldCollect ti param rest' fields
      else
        match find (fun fi2 => Nat.eqb (length (Index fi1)) (length (Index fi2))) fields with
        | Some fi2 =>
            match tagOf (ti_Type ti) fi1, tagOf (ti_Type ti) fi2 with
            | Some tag1, Some tag2 =>
                Err (ErrTagParam
                       (mkTagParamError (ti_Struct ti) (Name fi1) (Name fi2) tag1 tag2))
            | _, _ => Panic
            end
        | None => fieldCollect ti param rest' (fields ++ [fi1])
        end
  end.

(** The method [field(param string)] of [typeInfo] *)
Definition field (ti : typeInfo) (param : gostring) : result fieldInfo ConfigError :=
  match fieldCollect ti param (Fields ti) [] with
  | Ok fields =>
      match sortFields fields with
      | f :: _ => Ok f
      | [] => Panic
      end
  | Err e => Err e
  | Panic => Panic
  end.

Definition isValid (o : fieldOpts) : bool :=
  (if OmitEmpty o then negb (Inline o) else true)
  && (if Group o then negb (gostring_eqb (Param o) []) else true)
  && (if negb (gostring_eqb (Param o) []) then negb (opt_Prefix o) else true)
  && (if Inline o then negb (opt_Prefix o) && (0 <? Length o) else true).

(** The loop of [normalize] over [ti.Fields], with the locals [fields] and
    [params] and the two fields of [ti] it writes. *)
Fixpoint normalizeLoop (ti : typeInfo) (rest : list fieldInfo)
    (fields : list fieldInfo) (params : list gostring)
    (prefix : option fieldInfo) (numReq : nat) : result typeInfo ConfigError :=
  match rest with
  | [] => Ok (mkTypeInfo (ti_Struct ti) (ti_Type ti) prefix fields numReq)
  | f :: rest' =>
      let o := Opts f in
      if negb (isValid o) then
        match tagOf (ti_Type ti) f with
        | Some tag => Err (ErrInvalidTag (ti_Struct ti) (Name f) tag)
        | None => Panic
        end
      else if opt_Prefix o then
        normalizeLoop ti rest' fields params (Some f) numReq
      else
        let numReq :=
          if negb (Group o) && negb (OmitEmpty o) && negb (Inline o)
          then S numReq else numReq in
        if gostring_eqb (Param o) [] then
          normalizeLoop ti rest' (fields ++ [f]) params prefix numReq
        else if existsb (gostring_eqb (Param o)) params then
          normalizeLoop ti rest' fields params prefix numReq
        else
          match field ti (Param o) with
          | Ok fi =>
              normalizeLoop ti rest' (fields ++ [fi]) (Param o :: params) prefix numReq
          | Err e => Err e
          | Panic => Panic
          end
  end.

(** The method [normalize()] of [typeInfo]; the result is [ti] as the
    method leaves it. *)
Definition normalize (ti : typeInfo) : result typeInfo ConfigError :=
  normalizeLoop ti (Fields ti) [] [] (HashPrefix ti) (NumReqValues ti).

(** [getTypeInfo(t reflect.Type)]. The cache
    [typeCache] only keeps what this computes: a hit returns the value a
    miss would build. *)
Definition getTypeInfo (t : gotype) : result typeInfo ConfigError :=
  let typ := indirectType t in
  normalize (mkTypeInfo t typ None (rawFields typ) 0).

(** ** Records

    The struct value behind [v]: the value of each field, by index path.
    Walking an index path through a nil embedded pointer panics in Go;
    the model takes embedded pointers as allocated. Fields of interface
    type are not modelled. *)
Definition record := list nat -> govalue.

Fixpoint index_eqb (a b : list nat) : bool :=
  match a, b with
  | [], [] => true
  | x :: a', y :: b' => Nat.eqb x y && index_eqb a' b'
  | _, _ => false
  end.

Definition setField (r : record) (idx : list nat) (v : govalue) : record :=
  fun i => if index_eqb i idx then v else r i.

(** [func indirect(v reflect.Value) reflect.Value]; [None] is the zero
    [reflect.Value], which is not valid. *)
Fixpoint indirect (v : govalue) : option govalue :=
  match v with
  | VPtr None => None
  | VPtr (Some v') => indirect v'
  | _ => Some v
  end.

(** [func isEmpty(v reflect.Value) bool]; for a value of another kind,
    [VOther e], [e] is the answer (false for a struct). *)
Definition isEmpty (v : govalue) : bool :=
  match v with
  | VString s => Nat.eqb (length s) 0
  | VBytes b => Nat.eqb (length b) 0
  | VInt z => Z.eqb z 0
  | VUint z => Z.eqb z 0
  | VPtr p => match p with None => true | Some _ => false end
  | VOther e => e
  end.

(** ** Marshal (marshal.go) *)

Inductive MarshalError : Type :=
| MConfig (e : ConfigError)
| UnsupportedTypeError (ty : option gotype) (st : option gotype) (field : gostring)
| UnsupportedValueError (st : gotype) (field : gostring) (msg : gostring).

Definition bitsOf (t : gotype) : nat :=
  match stripNamed t with
  | TInt b => b
  | TUint b => b
  | _ => 0
  end.

Definition elemIsUint8 (t : gotype) : bool :=
  match stripNamed t with
  | TArray _ e => isUint8 e
  | TSlice e => isUint8 e
  | _ => false
  end.

(** [func marshal(t reflect.Type, fi *fieldInfo, v reflect.Value)]. The
    type of [v] is the field's type with its pointers followed; a value
    that is not of that type cannot be in a Go struct: [Panic]. Only a
    [MarshalText] in the method set of the value's type is called. *)
Definition marshal (t : gotype) (fi : fieldInfo) (v : option govalue)
  : result gostring MarshalError :=
  match v with
  | None => Ok []
  | Some v =>
      let ft := indirectType (Type_ fi) in
      match MarshalText (methodsOf ft) with
      | Some m =>
          match m v with
          | Ok b => Ok b
          | Err msg => Err (UnsupportedValueError t (Name fi) msg)
          | Panic => Panic
          end
      | None =>
          let unsupported := Err (UnsupportedTypeError (Some (Type_ fi)) (Some t) (Name fi)) in
          if opt_Prefix (Opts fi)
             && negb match kindOf ft with KString => true | _ => false end
          then unsupported
          else
            match kindOf ft, v with
            | KArray, VBytes b => if elemIsUint8 ft then Ok b else unsupported
            | KSlice, VBytes b => if elemIsUint8 ft then Ok b else unsupported
            | KInt, VInt z =>
                match FormatInt z (Base (Opts fi)) with
                | Ok s => Ok s
                | _ => Panic
                end
            | KUint, VUint z =>
                match FormatUint z (Base (Opts fi)) with
                | Ok s => Ok s
                | _ => Panic
                end
            | KString, VString s => Ok s
            | KOther, VOther _ => unsupported
            | KStruct, VOther _ => unsupported
            | KArray, VOther _ => if elemIsUint8 ft then Panic else unsupported
            | KSlice, VOther _ => if elemIsUint8 ft then Panic else unsupported
            | _, _ => Panic
            end
      end
  end.

(** [func marshalValue(t reflect.Type, fi *fieldInfo, v reflect.Value)] *)
Definition marshalValue (t : gotype) (fi : fieldInfo) (v : option govalue)
  : result gostring MarshalError :=
  match marshal t fi v with
  | Ok s =>
      if (0 <? Length (Opts fi)) && negb (Nat.eqb (length s) (Length (Opts fi)))
      then Err (UnsupportedValueError t (Name fi) (str "length mismatch"))
      else
        match Encoding_ (Opts fi) with
        | Some enc =>
            match IndexAnyInvalid enc s with
            | Some i =>
                Err (UnsupportedValueError t (Name fi)
                       (str "invalid character "
                        ++ QuoteRuneToASCII (nth i s zero)))
            | None => Ok s
            end
        | None => Ok s
        end
  | Err e => Err e
  | Panic => Panic
  end.

(** What [Marshal] writes between the previous field and this one. *)
Definition separator (prevFi : option fieldInfo) (fi : fieldInfo) : gostring :=
  match prevFi with
  | Some p =>
      if negb (Inline (Opts p)) then
        if Group (Opts p) && Group (Opts fi) then [","%char] else ["$"%char]
      else []
  | None => []
  end.

(** The loop of [Marshal] over [info.Fields], with [buf] and [prevFi]. *)
Fixpoint marshalLoop (t : gotype) (r : record) (fields : list fieldInfo)
    (buf : gostring) (prevFi : option fieldInfo) : result gostring MarshalError :=
  match fields with
  | [] => Ok buf
  | fi :: fields' =>
      let fv := r (Index fi) in
      if OmitEmpty (Opts fi) && isEmpty fv then marshalLoop t r fields' buf prevFi
      else
        match marshalValue t fi (indirect fv) with
        | Ok s =>
            let buf := buf ++ separator prevFi fi in
            let buf :=
              if negb (gostring_eqb (Param (Opts fi)) [])
              then buf ++ Param (Opts fi) ++ ["="%char] else buf in
            marshalLoop t r fields' (buf ++ s) (Some fi)
        | Err e => Err e
        | Panic => Panic
        end
  end.

(** [Marshal] after the schema is compiled. *)
Definition marshalWith (t : gotype) (info : typeInfo) (r : record)
  : result gostring MarshalError :=
  let start :=
    match HashPrefix info with
    | Some p => marshalValue t p (indirect (r (Index p)))
    | None => Ok []
    end in
  match start with
  | Ok buf => marshalLoop t r (Fields info) buf None
  | Err e => Err e
  | Panic => Panic
  end.

(** [func Marshal(v interface{}) (string, error)]; [v] is the struct [r]
    of type [t], or a chain of non-nil pointers to it. *)
Definition Marshal (t : gotype) (r : record) : result gostring MarshalError :=
  match kindOf (indirectType t) with
  | KStruct =>
      match getTypeInfo t with
      | Ok info => marshalWith t info r
      | Err e => Err (MConfig e)
      | Panic => Panic
      end
  | _ => Err (UnsupportedTypeError (Some t) None [])
  end.

(** ** Unmarshal (unmarshal.go) *)

Record UnmarshalTypeError : Type := mkUnmarshalTypeError {
  ute_Value : gostring;         (* "EOF", "prefix", "group", "value" *)
  ute_Type : gotype;
  ute_Offset : nat;
  ute_Struct : option gotype;   (* [None] is the empty name *)
  ute_Field : gostring;
  ute_Msg : gostring
}.

Inductive UnmarshalError : Type :=
| InvalidUnmarshalError (t : gotype)
| USyntax (e : SyntaxError)
| UConfig (e : ConfigError)
| UType (e : UnmarshalTypeError).

(** The nodes [unmarshal] is called on. *)
Inductive Node : Type :=
| NPrefix (p : PrefixNode)
| NValue (v : ValueNode).

Definition Node_String (n : Node) : gostring :=
  match n with NPrefix p => Text p | NValue v => Value v end.

Definition Node_End (n : Node) : nat :=
  match n with NPrefix p => prefix_end p | NValue v => value_end v end.

Definition Node_Type (n : Node) : NodeType :=
  match n with NPrefix _ => NodePrefix | NValue _ => NodeValue end.

Definition mkError (nt : NodeType) (off : nat) (ti : typeInfo) (fi : fieldInfo)
    (msg : gostring) : UnmarshalError :=
  UType (mkUnmarshalTypeError (NodeType_String nt) (Type_ fi) off
           (Some (ti_Struct ti)) (Name fi) msg).

(** [func newUnmarshalError(node parse.Node, ti, fi, msg) error] *)
Definition newUnmarshalError (node : Node) (ti : typeInfo) (fi : fieldInfo)
    (msg : gostring) : UnmarshalError :=
  mkError (Node_Type node) (Node_End node) ti fi msg.

Definition zeroByte : ascii := zero.

(** The end of [unmarshal], from [ft := indirectType(fi.Type)]: the text
    [s] is decoded into the value [old] points to. An [UnmarshalText] of
    the type or of its pointer type is called when there is one. *)
Definition decodeValue (node : Node) (ti : typeInfo) (fi : fieldInfo)
    (s : gostring) (old : option govalue) : result govalue UnmarshalError :=
  let ft := indirectType (Type_ fi) in
  match UnmarshalText (methodsOf ft) with
  | Some um =>
      match um s with
      | Ok v => Ok v
      | Err msg => Err (newUnmarshalError node ti fi msg)
      | Panic => Panic
      end
  | None =>
      let unsupported := Err (newUnmarshalError node ti fi (str "unsupported type")) in
      if opt_Prefix (Opts fi)
         && negb match kindOf ft with KString => true | _ => false end
      then unsupported
      else
        match kindOf ft with
        | KSlice => if elemIsUint8 ft then Ok (VBytes s) else unsupported
        | KArray =>
            if elemIsUint8 ft then
              let n := match stripNamed ft with TArray n _ => n | _ => 0 end in
              let cur := match old with
                         | Some (VBytes b) => b
                         | _ => repeat zeroByte n
                         end in
              let k := Nat.min (length s) n in
              Ok (VBytes (firstn k s ++ skipn k cur))
            else unsupported
        | KInt =>
            match ParseInt s (Base (Opts fi)) (bitsOf ft) with
            | Ok z => Ok (VInt z)
            | Err e => Err (newUnmarshalError node ti fi
                              (NumError_Error (str "ParseInt") s e))
            | Panic => Panic
            end
        | KUint =>
            match ParseUint s (Base (Opts fi)) (bitsOf ft) with
            | Ok z => Ok (VUint z)
            | Err e => Err (newUnmarshalError node ti fi
                              (NumError_Error (str "ParseUint") s e))
            | Panic => Panic
            end
        | KString => Ok (VString s)
        | _ => unsupported
        end
  end.

(** [func unmarshal(node parse.Node, ti, fi, v reflect.Value) error].
    The result is the value left in [v] and the text left in the node:
    an inline field cuts its characters off the node's [Value]. The type
    assertion of an inline field on a prefix node panics. *)
Definition unmarshal (node : Node) (ti : typeInfo) (fi : fieldInfo)
    (old : option govalue) : result (govalue * gostring) UnmarshalError :=
  let o := Opts fi in
  let s := Node_String node in
  let s := if negb (gostring_eqb (Param o) [])
           then TrimPrefix s (Param o ++ ["="%char]) else s in
  let mismatch := Err (newUnmarshalError node ti fi (str "length mismatch")) in
  let cut : result (gostring * gostring) UnmarshalError :=
    if 0 <? Length o then
      if Inline o then
        if length s <? Length o then mismatch
        else
          match node with
          | NValue val => Ok (firstn (Length o) (Value val), skipn (Length o) (Value val))
          | NPrefix _ => Panic
          end
      else if negb (Nat.eqb (length s) (Length o)) then mismatch
      else Ok (s, Node_String node)
    else Ok (s, Node_String node) in
  match cut with
  | Ok (s, remaining) =>
      let invalid :=
        match Encoding_ o with
        | Some enc => IndexAnyInvalid enc s
        | None => None
        end in
      match invalid with
      | Some i =>
          Err (newUnmarshalError node ti fi
                 (str "invalid character " ++ QuoteRuneToASCII (nth i s zeroByte)))
      | None =>
          match decodeValue node ti fi s old with
          | Ok v => Ok (v, remaining)
          | Err e => Err e
          | Panic => Panic
          end
      end
  | Err e => Err e
  | Panic => Panic
  end.

(** Storing through [unmarshalIndirect]: the pointers of the field's type
    are allocated around the decoded value. *)
Fixpoint wrapPointers (t : gotype) (v : govalue) : govalue :=
  match t with
  | TPtr e => VPtr (Some (wrapPointers e v))
  | _ => v
  end.

(** The locals of [Unmarshal] that the loop over the fields changes, with
    the fragments of the tree (an inline field changes the text of a value
    node) and the struct. [group] points to a [GroupNode] that is, or
    wraps the value node of, the fragment whose index it holds: the group
    is always taken from [tree.Fragments[fragIdx]], and [fragIdx] does not
    move while [group] is not nil. *)
Record ustate : Type := mkUstate {
  fragIdx : nat;
  numGroupValues : Z;
  group : option nat;
  numValues : Z;
  numReqValues : Z;
  frags : list FragmentNode;
  rec : record
}.

Definition valuesOf (f : FragmentNode) : list ValueNode :=
  match f with
  | FValue v => [v]
  | FGroup g => Values g
  end.

(** [group.Values] *)
Definition groupValues (st : ustate) : list ValueNode :=
  match group st with
  | Some i => match nth_error (frags st) i with
              | Some f => valuesOf f
              | None => []
              end
  | None => []
  end.

(** [group.End()]; [None] where it indexes an empty slice. *)
Definition groupEnd (st : ustate) : option nat :=
  GroupNode_End (mkGroupNode (groupValues st)).

Fixpoint replaceNth {A : Type} (l : list A) (n : nat) (x : A) : list A :=
  match l, n with
  | [], _ => []
  | _ :: l', 0 => x :: l'
  | y :: l', S n' => y :: replaceNth l' n' x
  end.

Definition setValueText (v : ValueNode) (s : gostring) : ValueNode :=
  mkValueNode s (value_pos v) (value_end v).

(** The write [val.Value = ...] to the [j]-th value node of fragment [i]. *)
Definition writeValue (fs : list FragmentNode) (i j : nat) (s : gostring)
  : list FragmentNode :=
  match nth_error fs i with
  | Some (FValue v) => replaceNth fs i (FValue (setValueText v s))
  | Some (FGroup g) =>
      match nth_error (Values g) j with
      | Some v =>
          replaceNth fs i
            (FGroup (mkGroupNode (replaceNth (Values g) j (setValueText v s))))
      | None => fs
      end
  | None => fs
  end.

(** The first value of the group that starts with [param=], and its place. *)
Fixpoint findParam (vals : list ValueNode) (p : gostring) (j : nat)
  : option (nat * ValueNode) :=
  match vals with
  | [] => None
  | v :: vals' =>
      if HasPrefix (Value v) (p ++ ["="%char]) then Some (j, v)
      else findParam vals' p (S j)
  end.

Definition eofError (hashLen : nat) (ti : typeInfo) (fi : fieldInfo)
    (msg : gostring) : UnmarshalError :=
  UType (mkUnmarshalTypeError (str "EOF") (Type_ fi) hashLen
           (Some (ti_Struct ti)) (Name fi) msg).

(** The call [unmarshal(node, ti, fi, unmarshalIndirect(val.FieldByIndex(fi.Index)))]
    on the [j]-th value node of fragment [i], with its two writes. *)
Definition bind (ti : typeInfo) (fi : fieldInfo) (v : ValueNode) (i j : nat)
    (st : ustate) : result ustate UnmarshalError :=
  match unmarshal (NValue v) ti fi (indirect (rec st (Index fi))) with
  | Ok (x, remaining) =>
      Ok (mkUstate (fragIdx st) (numGroupValues st) (group st)
            (numValues st) (numReqValues st)
            (writeValue (frags st) i j remaining)
            (setField (rec st) (Index fi) (wrapPointers (Type_ fi) x)))
  | Err e => Err e
  | Panic => Panic
  end.

(** The start of the loop body: a field that is not grouped ends the
    open group. *)
Definition endOfGroup (ti : typeInfo) (fi : fieldInfo) (st : ustate)
  : result ustate UnmarshalError :=
  match group st with
  | Some _ =>
      if negb (Group (Opts fi)) then
        if (0 <? numGroupValues st)%Z then
          match groupEnd st with
          | Some e => Err (mkError NodeGroup e ti fi (str "excessive fragment"))
          | None => Panic
          end
        else Ok (mkUstate (fragIdx st + 1) (numGroupValues st) None
                   (numValues st) (numReqValues st) (frags st) (rec st))
      else Ok st
  | None => Ok st
  end.

Definition notFound (frag : FragmentNode) (ti : typeInfo) (fi : fieldInfo)
  : result ustate UnmarshalError :=
  match FragmentNode_End frag with
  | Some e => Err (mkError (FragmentNode_Type frag) e ti fi
                     (fieldInfo_String fi ++ str " not found"))
  | None => Panic
  end.

(** The [switch] of the loop body on the fragment [frag]. *)
Definition bindFragment (ti : typeInfo) (fi : fieldInfo) (frag : FragmentNode)
    (st : ustate) : result ustate UnmarshalError :=
  let o := Opts fi in
  let isGroup := match frag with FGroup _ => true | FValue _ => false end in
  if Group o && (isGroup || negb (OmitEmpty o)) then
    let st :=
      match frag with
      | FGroup g =>
          match group st with
          | None => mkUstate (fragIdx st) (Z.of_nat (length (Values g)))
                      (Some (fragIdx st)) (numValues st) (numReqValues st)
                      (frags st) (rec st)
          | Some _ => st
          end
      | FValue _ =>
          mkUstate (fragIdx st) 1 (Some (fragIdx st)) (numValues st)
            (numReqValues st) (frags st) (rec st)
      end in
    match findParam (groupValues st) (Param o) 0 with
    | Some (j, value) =>
        match bind ti fi value (fragIdx st) j st with
        | Ok st => Ok (mkUstate (fragIdx st) (numGroupValues st - 1) (group st)
                         (numValues st) (numReqValues st) (frags st) (rec st))
        | Err e => Err e
        | Panic => Panic
        end
    | None => if negb (OmitEmpty o) then notFound frag ti fi else Ok st
    end
  else
    match frag with
    | FValue v =>
        if negb (Group o) then
          if gostring_eqb (Param o) [] || HasPrefix (Value v) (Param o) then
            match bind ti fi v (fragIdx st) 0 st with
            | Ok st =>
                Ok (mkUstate
                      (if negb (Inline o) then fragIdx st + 1 else fragIdx st)
                      (numGroupValues st) (group st)
                      (numValues st - 1)
                      (if negb (OmitEmpty o) then numReqValues st - 1
                       else numReqValues st)
                      (frags st) (rec st))
            | Err e => Err e
            | Panic => Panic
            end
          else if OmitEmpty o then Ok st
          else notFound frag ti fi
        else if OmitEmpty o then Ok st
        else notFound frag ti fi
    | FGroup _ =>
        if OmitEmpty o then Ok st else notFound frag ti fi
    end.

(** The body of [for _, fi := range ti.Fields]: [Ok] is the state at the
    end of the round (also after [continue]), [Err] a [return]. *)
Definition unmarshalField (hashLen : nat) (ti : typeInfo) (fi : fieldInfo)
    (st : ustate) : result ustate UnmarshalError :=
  match endOfGroup ti fi st with
  | Ok st =>
      if length (frags st) <=? fragIdx st then
        if OmitEmpty (Opts fi) then Ok st
        else Err (eofError hashLen ti fi (str "unexpected EOF"))
      else if OmitEmpty (Opts fi)
              && match group st with None => true | Some _ => false end
              && (numValues st - numReqValues st <=? 0)%Z
      then Ok (mkUstate (fragIdx st) (numGroupValues st) (group st)
                 (numValues st - 1) (numReqValues st) (frags st) (rec st))
      else
        match nth_error (frags st) (fragIdx st) with
        | Some frag => bindFragment ti fi frag st
        | None => Panic
        end
  | Err e => Err e
  | Panic => Panic
  end.

Fixpoint unmarshalFields (hashLen : nat) (ti : typeInfo) (fields : list fieldInfo)
    (st : ustate) : result ustate UnmarshalError :=
  match fields with
  | [] => Ok st
  | fi :: fields' =>
      match unmarshalField hashLen ti fi st with
      | Ok st => unmarshalFields hashLen ti fields' st
      | Err e => Err e
      | Panic => Panic
      end
  end.

Definition excessive (nt : NodeType) (t : gotype) (off : nat) : UnmarshalError :=
  UType (mkUnmarshalTypeError (NodeType_String nt) t off None []
           (str "excessive fragment")).

(** What follows the loop: the open group must be used up, and no
    fragment may be left. [t] is [reflect.TypeOf(v)]. *)
Definition afterFields (t : gotype) (st : ustate) : result record UnmarshalError :=
  let closed : result nat UnmarshalError :=
    match group st with
    | Some _ =>
        if (0 <? numGroupValues st)%Z then
          match groupEnd st with
          | Some e => Err (excessive NodeGroup t e)
          | None => Panic
          end
        else Ok (fragIdx st + 1)
    | None => Ok (fragIdx st)
    end in
  match closed with
  | Ok fragIdx =>
      if fragIdx <? length (frags st) then
        match nth_error (frags st) fragIdx with
        | Some frag =>
            match FragmentNode_End frag with
            | Some e => Err (excessive (FragmentNode_Type frag) t e)
            | None => Panic
            end
        | None => Panic
        end
      else Ok (rec st)
  | Err e => Err e
  | Panic => Panic
  end.

(** The prefix step of [Unmarshal]. *)
Definition unmarshalPrefix (hashLen : nat) (ti : typeInfo) (tree : Tree)
    (r : record) : result record UnmarshalError :=
  match HashPrefix ti with
  | Some pf =>
      match Prefix tree with
      | Some p =>
          match unmarshal (NPrefix p) ti pf (indirect (r (Index pf))) with
          | Ok (x, _) => Ok (setField r (Index pf) (wrapPointers (Type_ pf) x))
          | Err e => Err e
          | Panic => Panic
          end
      | None =>
          if negb (OmitEmpty (Opts pf))
          then Err (eofError hashLen ti pf (str "prefix not found"))
          else Ok r
      end
  | None => Ok r
  end.

(** [Unmarshal] from the parse tree and the compiled schema on. *)
Definition unmarshalTree (hashLen : nat) (t : gotype) (ti : typeInfo)
    (tree : Tree) (r : record) : result record UnmarshalError :=
  match unmarshalPrefix hashLen ti tree r with
  | Ok r =>
      let st := mkUstate 0 0 None (Z.of_nat (length (Fragments tree)))
                  (Z.of_nat (NumReqValues ti)) (Fragments tree) r in
      match unmarshalFields hashLen ti (Fields ti) st with
      | Ok st => afterFields t st
      | Err e => Err e
      | Panic => Panic
      end
  | Err e => Err e
  | Panic => Panic
  end.

(** [func Unmarshal(hash string, v interface{}) error]. [t] is the type of
    [v] and [r] the struct it points to; the result is the struct after
    the call. On an error Go leaves the struct as far as it was filled;
    the model drops it. *)
Definition Unmarshal (hash : gostring) (t : gotype) (r : record)
  : result record UnmarshalError :=
  match kindOf t, kindOf (indirectType t) with
  | KPtr, KStruct =>
      match Parse hash with
      | Ok tree =>
          match getTypeInfo t with
          | Ok ti => unmarshalTree (length hash) t ti tree r
          | Err e => Err (UConfig e)
          | Panic => Panic
          end
      | Err e => Err (USyntax e)
      | Panic => Panic
      end
  | _, _ => Err (InvalidUnmarshalError t)
  end.

(** ** Values and types for examples *)

Definition zeroRecord : record := fun _ => VString [].

Definition noMethods : TextMethods := mkTextMethods None None.

Definition sf (name tag : string) (ty : gotype) : StructField gotype :=
  mkStructField (str name) true false ty (str tag).


(** Schemas of the test suite (unmarshal_test.go, marshal_test.go). *)

Definition tString : gotype := TString.

(** [struct { HashPrefix string }] *)
Definition prefixOnly : gotype :=
  TPtr (TStruct [sf "HashPrefix" "" TString]).

(** The struct of the test "optional fields". *)
Definition optionalFields : gotype :=
  TPtr (TStruct
    [sf "HashPrefix" "" TString;
     sf "A" "" TString;
     sf "O1" "omitempty" TString;
     sf "O2" "omitempty" TString;
     sf "B" "" TString;
     sf "O3" "omitempty" TString;
     sf "C" "" TString;
     sf "O4" "omitempty" TString;
     sf "O5" "omitempty" TString;
     sf "O6" "omitempty" TString]).

(** The struct of the test "inline fields": the second field is not inline. *)
Definition inlineFields : gotype :=
  TPtr (TStruct
    [sf "S1" "inline,length:3" TString;
     sf "S2" "length:3" TString]).

(** Two inline fields of length 3 and nothing after them. *)
Definition twoInlineFields : gotype :=
  TPtr (TStruct
    [sf "S1" "inline,length:3" TString;
     sf "S2" "inline,length:3" TString]).

(** The struct of the tests "excessive param in group" and "missing group". *)
Definition twoGrouped : gotype :=
  TPtr (TStruct
    [sf "S1" "param:x,group" TString;
     sf "S2" "param:y,group" TString]).

(** The struct of the test "missing param". *)
Definition oneParam : gotype :=
  TPtr (TStruct [sf "S" "param:x" TString]).

(** [struct { S string }] *)
Definition oneValue : gotype :=
  TPtr (TStruct [sf "S" "" TString]).

(** The struct [hash] of [TestUnmarshal] and [BenchmarkUnmarshal]. *)
Definition testHash : gotype :=
  TPtr (TStruct
    [sf "HashPrefix" "" TString;
     sf "Version" "param:v,base:16" (TUint 8);
     sf "M" "param:m,group" (TUint 32);
     sf "T" "param:t,group" (TUint 32);
     sf "P" "param:p,group" (TUint 32);
     sf "Data" "param:data,group,omitempty" TString;
     sf "Salt" "" TString;
     sf "Hash" "enc:base64" TString;
     sf "R1" "param:r1" TString;
     sf "O1" "omitempty" TString;
     sf "O2" "omitempty" TString;
     sf "R2" "" TString;
     sf "O3" "omitempty" TString;
     sf "R3" "" TString;
     sf "O4" "omitempty" TString]).

(** The zero value of [testHash]. *)
Definition zeroTestHash : record :=
  fun i =>
    match i with
    | [1] | [2] | [3] | [4] => VUint 0
    | _ => VString []
    end.

(** A grouped parameter, an optional value and a required value. *)
Definition groupThenOptional : gotype :=
  TPtr (TStruct
    [sf "M" "param:m,group" TString;
     sf "O" "omitempty" TString;
     sf "R" "" TString]).

(** A required value, two optional ones and a required one. *)
Definition twoOptional : gotype :=
  TPtr (TStruct
    [sf "A" "" TString;
     sf "O1" "omitempty" TString;
     sf "O2" "omitempty" TString;
     sf "B" "" TString]).

(** What the tests compare: the fields [0 .. n-1] of the result. *)
Definition fieldsOf (n : nat) (x : result record UnmarshalError)
  : result (list govalue) UnmarshalError :=
  match x with
  | Ok r => Ok (map (fun i => r [i]) (seq 0 n))
  | Err e => Err e
  | Panic => Panic
  end.


(** One grouped parameter [x]. *)
Definition oneGroupedParam : gotype :=
  TPtr (TStruct [sf "S" "param:x,group" TString]).

(** ** Shapes used in the statements *)

(** What the fragment state sends: values, each followed by the delimiter
    that ended it, then a last value when text is left, then EOF. *)
Inductive fragmentTokens : list token -> Prop :=
| ft_eof (t : token) :
    tokType t = tokenEOF -> fragmentTokens [t]
| ft_last (v t : token) :
    tokType v = tokenValue -> tokType t = tokenEOF -> fragmentTokens [v; t]
| ft_delim (v d : token) (ts : list token) :
    tokType v = tokenValue ->
    tokType d = tokenDollar \/ tokType d = tokenComma ->
    fragmentTokens ts -> fragmentTokens (v :: d :: ts).

(** The field [S1] of [inlineFields] as the compiler builds it, and the
    locals of [Unmarshal] at the start of the loop on [foobar]. *)
Definition inlineS1 : fieldInfo :=
  mkFieldInfo [0] (str "S1") TString
    (mkFieldOpts false false false [] (Some HashEncoding) 3 true 10).

Definition inlineInfo : typeInfo :=
  mkTypeInfo inlineFields (indirectType inlineFields) None
    [inlineS1;
     mkFieldInfo [1] (str "S2") TString
       (mkFieldOpts false false false [] (Some HashEncoding) 3 false 10)]
    1.

Definition foobarStart : ustate :=
  mkUstate 0 0 None 1 1 [FValue (mkValueNode (str "foobar") 0 6)] zeroRecord.

Definition foobarAfterS1 : ustate :=
  match unmarshalField 6 inlineInfo inlineS1 foobarStart with
  | Ok st => st
  | _ => foobarStart
  end.

(** ** The joining rule of [Marshal], field by field *)

(** The fields that [Marshal] writes, in order, each with the text
    [marshalValue] gives for it; the first error ends it. *)
Fixpoint rendered (t : gotype) (r : record) (fields : list fieldInfo)
  : result (list (fieldInfo * gostring)) MarshalError :=
  match fields with
  | [] => Ok []
  | fi :: fields' =>
      if OmitEmpty (Opts fi) && isEmpty (r (Index fi)) then rendered t r fields'
      else
        match marshalValue t fi (indirect (r (Index fi))) with
        | Ok s =>
            match rendered t r fields' with
            | Ok l => Ok ((fi, s) :: l)
            | Err e => Err e
            | Panic => Panic
            end
        | Err e => Err e
        | Panic => Panic
        end
  end.

(** Between two written fields: nothing after an inline field; otherwise
    a comma between two grouped fields, and a dollar in every other case. *)
Definition joinSeparator (prev fi : fieldInfo) : gostring :=
  if Inline (Opts prev) then []
  else if Group (Opts prev) && Group (Opts fi) then [","%char]
  else ["$"%char].

(** The text of a written field: [param=] before the text of a field
    that has a parameter name. *)
Definition fieldText (fi : fieldInfo) (s : gostring) : gostring :=
  if gostring_eqb (Param (Opts fi)) [] then s
  else Param (Opts fi) ++ ["="%char] ++ s.

Fixpoint joinFrom (prev : option fieldInfo) (l : list (fieldInfo * gostring))
  : gostring :=
  match l with
  | [] => []
  | (fi, s) :: l' =>
      match prev with
      | Some p => joinSeparator p fi
      | None => []
      end ++ fieldText fi s ++ joinFrom (Some fi) l'
  end.

(** The struct of the test "inline fields" with [foo] and [bar]. *)
Definition fooBar : record :=
  fun i =>
    match i with
    | [0] => VString (str "foo")
    | [1] => VString (str "bar")
    | _ => VString []
    end.

(** Two grouped parameters and a value, and a struct of that type. *)
Definition groupedThenValue : gotype :=
  TPtr (TStruct
    [sf "M" "param:m,group" TString;
     sf "T" "param:t,group" TString;
     sf "Salt" "" TString]).

Definition groupedRecord : record :=
  fun i =>
    match i with
    | [0] => VString (str "1")
    | [1] => VString (str "2")
    | _ => VString (str "s")
    end.

(** ** Parameter names of a struct *)

(** The depth of a field: the length of its index path. *)
Definition depth (f : fieldInfo) : nat := length (Index f).

Definition hasParam (p : gostring) (f : fieldInfo) : bool :=
  gostring_eqb (Param (Opts f)) p.

(** Two fields at different places of the list, [g1] before [g2], have the
    same parameter name at the same depth. *)
Definition conflictAt (fields : list fieldInfo) (g1 g2 : fieldInfo) : Prop :=
  (exists l1 l2 l3, fields = l1 ++ g1 :: l2 ++ g2 :: l3)
  /\ Param (Opts g1) <> []
  /\ Param (Opts g2) = Param (Opts g1)
  /\ depth g1 = depth g2.

(** The struct of the test "field override": an embedded pointer to
    [inline], which has [S] with [param:s], then [S] with [param:s] and
    [I]. *)
Definition fieldOverride : gotype :=
  TPtr (TStruct
    [mkStructField (str "inline") false true
       (TPtr (TStruct [sf "S" "param:s" TString])) [];
     sf "S" "param:s" TString;
     sf "I" "" (TInt 64)]).

(** The struct of the test "duplicated param name". *)
Definition duplicatedParam : gotype :=
  TPtr (TStruct
    [sf "S1" "param:x" TString;
     sf "S2" "param:x" TString]).

(** What the loop of [normalize] keeps true of its locals [fields] and
    [params] after the fields [done]: [fields] holds one field for every
    name in [params], the one [field] returns, and none for another
    name; the names of [done] are in [params]. *)
Definition paramsInv (ti : typeInfo) (done fields : list fieldInfo)
    (params : list gostring) : Prop :=
  (forall p, In p params ->
     p <> [] /\ exists g, field ti p = Ok g /\ filter (hasParam p) fields = [g])
  /\ (forall p, p <> [] -> ~ In p params -> filter (hasParam p) fields = [])
  /\ (forall f, In f done -> Param (Opts f) <> [] -> In (Param (Opts f)) params).

(** The struct that [normalize] starts from in [getTypeInfo(t)]. *)
Definition rawInfo (t : gotype) : typeInfo :=
  mkTypeInfo t (indirectType t) None (rawFields (indirectType t)) 0.

(** ** The text of a parse tree, and schemas of plain text fields *)

Fixpoint joinWith (sep : ascii) (l : list gostring) : gostring :=
  match l with
  | [] => []
  | [s] => s
  | s :: l' => s ++ sep :: joinWith sep l'
  end.

(** A fragment as the grammar writes it: the values of a group joined by
    commas. *)
Definition fragmentText (f : FragmentNode) : gostring :=
  joinWith "," (map Value (valuesOf f)).

(** The prefix, then the fragments joined by dollars. *)
Definition treeText (tree : Tree) : gostring :=
  match Prefix tree with
  | Some p => Text p
  | None => []
  end ++ joinWith "$" (map fragmentText (Fragments tree)).

(** Texts written one after the other, with a dollar before each but the
    first when nothing was written before. *)
Fixpoint emitJoin (started : bool) (l : list gostring) : gostring :=
  match l with
  | [] => []
  | s :: l' => (if started then "$"%char :: s else s) ++ emitJoin true l'
  end.

Definition isTextType (t : gotype) : bool :=
  match t with
  | TString => true
  | TSlice (TUint 8) => true
  | _ => false
  end.

(** The value of a text field that holds [s]. *)
Definition textValue (t : gotype) (s : gostring) : govalue :=
  match t with
  | TString => VString s
  | _ => VBytes s
  end.

(** A field bound to a fragment of its own: a string or a byte slice with
    no parameter name, not grouped and not inline. It may be omitempty
    and have a length and an encoding. *)
Definition plainField (f : fieldInfo) : bool :=
  gostring_eqb (Param (Opts f)) []
  && negb (Group (Opts f)) && negb (Inline (Opts f))
  && isTextType (Type_ f).

Definition plainPrefix (f : fieldInfo) : bool :=
  gostring_eqb (Param (Opts f)) [] && negb (Inline (Opts f))
  && match Type_ f with TString => true | _ => false end.

Fixpoint distinctIndices (l : list (list nat)) : bool :=
  match l with
  | [] => true
  | i :: l' => negb (existsb (index_eqb i) l') && distinctIndices l'
  end.

Definition schemaIndices (ti : typeInfo) : list (list nat) :=
  match HashPrefix ti with
  | Some pf => [Index pf]
  | None => []
  end ++ map Index (Fields ti).

Definition plainSchema (ti : typeInfo) : bool :=
  forallb plainField (Fields ti)
  && match HashPrefix ti with
     | Some pf => plainPrefix pf
     | None => true
     end
  && distinctIndices (schemaIndices ti).

(** The input has a prefix only when the schema has a prefix field, and a
    prefix field with a length is not left without a prefix. *)
Definition prefixAgrees (ti : typeInfo) (tree : Tree) : bool :=
  match HashPrefix ti, Prefix tree with
  | Some _, Some _ => true
  | None, None => true
  | Some pf, None => Nat.eqb (Length (Opts pf)) 0
  | None, Some _ => false
  end.

Definition noEmptyFragment (tree : Tree) : bool :=
  forallb (fun f => match f with
                    | FValue v => negb (Nat.eqb (length (Value v)) 0)
                    | FGroup _ => true
                    end) (Fragments tree).

(** The struct that [Unmarshal] is given is the zero value of its type, as
    far as the schema reads it. *)
Definition isZeroFor (ti : typeInfo) (r : record) : bool :=
  forallb (fun f => isEmpty (r (Index f))) (Fields ti)
  && match HashPrefix ti with
     | Some pf => match r (Index pf) with
                  | VString [] => true
                  | _ => false
                  end
     | None => true
     end.

(** The input of the test "optional fields", its tree, the compiled
    schema and the struct that [Unmarshal] leaves. *)
Definition optionalInput : gostring := str "$test$a$b$c".

Definition optionalTree : Tree :=
  match Parse optionalInput with
  | Ok tree => tree
  | _ => mkTree None []
  end.

Definition optionalInfo : typeInfo :=
  match getTypeInfo optionalFields with
  | Ok ti => ti
  | _ => rawInfo optionalFields
  end.

Definition optionalResult : record :=
  match Unmarshal optionalInput optionalFields zeroRecord with
  | Ok r => r
  | _ => zeroRecord
  end.

(** [struct { S1 int }], and a required, an optional and a required value *)
Definition oneInt : gotype :=
  TPtr (TStruct [sf "S1" "" (TInt 64)]).

Definition oneOptional : gotype :=
  TPtr (TStruct
    [sf "A" "" TString;
     sf "O" "omitempty" TString;
     sf "B" "" TString]).

(** What [Marshal] gives for the struct that [Unmarshal] leaves. *)
Definition roundTrip (s : gostring) (t : gotype) (r0 : record)
  : result gostring MarshalError :=
  match Unmarshal s t r0 with
  | Ok r => Marshal t r
  | _ => Panic
  end.

(** ** Fragments left and required fields left *)

(** The fields that are not omitempty. *)
Definition countRequired (fields : list fieldInfo) : Z :=
  Z.of_nat (length (filter (fun f => negb (OmitEmpty (Opts f))) fields)).

(** The fragments from the cursor on, less the required fields among
    [rest]. *)
Definition surplus (st : ustate) (rest : list fieldInfo) : Z :=
  (Z.of_nat (length (frags st)) - Z.of_nat (fragIdx st) - countRequired rest)%Z.

(** The two counters of [Unmarshal] follow the surplus: their difference
    is the surplus as long as it is positive, and is not above it after. *)
Definition countersTrack (st : ustate) (rest : list fieldInfo) : Prop :=
  (numValues st - numReqValues st <= surplus st rest)%Z
  /\ ((0 < surplus st rest)%Z ->
      (numValues st - numReqValues st)%Z = surplus st rest).

(** ** Package [hashutil]: [Encode] and [Decode] (hashutil.go)

    A byte used as a number (an index of the alphabet, an entry of
    [decodeMap]) is a [nat] below 256; a byte of text is an [ascii]. *)

(** [func (enc Encoding) Encode(c byte) byte] *)
Definition Encode (e : Encoding) (c : nat) : ascii :=
  if length (encoder e) <=? c then ascii_of_nat 255
  else nth c (encoder e) zero.

(** [func (enc Encoding) Decode(c byte) byte] *)
Definition Decode (e : Encoding) (c : ascii) : nat := decodeMap e c.

(** No byte occurs twice. *)
Fixpoint distinctBytes (s : gostring) : bool :=
  match s with
  | [] => true
  | c :: s' => negb (existsb (byte_eqb c) s') && distinctBytes s'
  end.

(** ** Package [descrypt]: numbers in the hash alphabet (des.go) *)

Definition wrap32 (z : Z) : Z := (z mod 2 ^ 32)%Z.

(** [func EncodeInt(val uint32) []byte] *)
Definition EncodeInt (val : Z) : gostring :=
  map (fun i =>
         Encode HashEncoding
           (Z.to_nat (Z.land (Z.shiftr val (Z.of_nat (i * 6))) 63)))
      [0; 1; 2; 3].

(** The loop of [DecodeInt], from the index [i] with the sum [v]. *)
Fixpoint DecodeIntFrom (b : gostring) (i : nat) (v : Z) : Z :=
  match b with
  | [] => v
  | c :: b' =>
      if i <? 4 then
        DecodeIntFrom b' (S i)
          (wrap32 (v + wrap32 (Z.shiftl (Z.of_nat (Decode HashEncoding c))
                                 (Z.of_nat (i * 6)))))
      else v
  end.

(** [func DecodeInt(b []byte) uint32] *)
Definition DecodeInt (b : gostring) : Z := DecodeIntFrom b 0 0%Z.

(** ** Package [cryptoutil] *)

(** [func Permute(b, t []byte) []byte]; [None] where [b[j]] is out of
    range. *)
Fixpoint Permute (b t : gostring) : option gostring :=
  match t with
  | [] => Some []
  | j :: t' =>
      match nth_error b (nat_of_ascii j), Permute b t' with
      | Some x, Some r => Some (x :: r)
      | _, _ => None
      end
  end.

Definition bytesOf (l : list nat) : gostring := map ascii_of_nat l.

(** [permFinal] of md5crypt.go *)
Definition md5_permFinal : gostring :=
  bytesOf [12; 6; 0; 13; 7; 1; 14; 8; 2; 15; 9; 3; 5; 10; 4; 11].

(** [permFinal] of sha256.go *)
Definition sha256_permFinal : gostring :=
  bytesOf [20; 10; 0; 11; 1; 21; 2; 22; 12; 23; 13; 3; 14; 4; 24; 5;
           25; 15; 26; 16; 6; 17; 7; 27; 8; 28; 18; 29; 19; 9; 30; 31].

(** The table that sends every place below [n] to itself. *)
Definition identityTable (n : nat) : gostring := bytesOf (seq 0 n).

(** [permFinal] of sha512.go *)
Definition sha512_permFinal : gostring :=
  bytesOf [42; 21; 0; 1; 43; 22; 23; 2; 44; 45; 24; 3; 4; 46; 25; 26;
           5; 47; 48; 27; 6; 7; 49; 28; 29; 8; 50; 51; 30; 9; 10; 52;
           31; 32; 11; 53; 54; 33; 12; 13; 55; 34; 35; 14; 56; 57; 36; 15;
           16; 58; 37; 38; 17; 59; 60; 39; 18; 19; 61; 40; 41; 20; 62; 63].

(** The table that undoes [t]: its entry [i] is the first place of [t]
    that holds [i]. *)
Definition inverseTable (t : gostring) : gostring :=
  map (fun i => match IndexByte t (ascii_of_nat i) with
                | Some j => ascii_of_nat j
                | None => zero
                end)
      (seq 0 (length t)).

(** ** What the tree of [Parse] keeps of the input *)

(** A value node lies in the input [inp]: its text is the input from its
    start to its end, and holds no delimiter. *)
Definition valueIn (inp : gostring) (v : ValueNode) : Prop :=
  value_pos v <= value_end v
  /\ value_end v <= length inp
  /\ Value v = slice inp (value_pos v) (value_end v)
  /\ IndexAny (Value v) delimChars = None.

(** The same for a value token of the lexer. *)
Definition tokenIn (inp : gostring) (t : token) : Prop :=
  tokType t = tokenValue ->
  tokPos t + length (tokValue t) <= length inp
  /\ tokValue t = slice inp (tokPos t) (tokPos t + length (tokValue t))
  /\ IndexAny (tokValue t) delimChars = None.

(** Every value node of the fragments lies in the input. *)
Definition fragmentsIn (inp : gostring) (fs : list FragmentNode) : Prop :=
  Forall (fun f => Forall (valueIn inp) (valuesOf f)) fs.

(** The groups of the tree have two values or more. *)
Definition groupsFull (fs : list FragmentNode) : Prop :=
  Forall (fun f => match f with
                   | FGroup g => 2 <= length (Values g)
                   | FValue _ => True
                   end) fs.

(** ** Package [crypt]: the registry of check functions (crypt.go) *)

(** The errors [Check] returns: the two of the package, or the error of
    a check function, kept as its message. *)
Inductive cryptError : Type :=
| ErrHash
| ErrPasswordMismatch
| ErrScheme (msg : gostring).

(** A check function; [None] is a nil error. *)
Definition checkFn : Type := gostring -> gostring -> option cryptError.

(** The map [hashCache], from a prefix to the function stored for it. *)
Definition hashCacheMap : Type := gostring -> option checkFn.

(** [func RegisterHash(prefix string, check func(hash, password string) error)] *)
Definition RegisterHash (cache : hashCacheMap) (prefix : gostring)
    (check : checkFn) : hashCacheMap :=
  fun p => if gostring_eqb p prefix then Some check else cache p.

(** [func Check(hash, password string) error] on the map [cache] *)
Definition Check (cache : hashCacheMap) (hash password : gostring)
  : option cryptError :=
  let dollar : option gostring :=
    if HasPrefix hash (str "$") then
      match IndexAny (skipn 1 hash) (str "$,") with
      | Some i =>
          if Nat.eqb i 0 then None else Some (slice hash 0 (i + 2))
      | None => None
      end
    else Some [] in
  match dollar with
  | None => Some ErrHash
  | Some prefix =>
      let prefix := if HasPrefix hash (str "_") then str "_" else prefix in
      match cache prefix with
      | Some check => check hash password
      | None => Some ErrHash
      end
  end.

(** The text of the prefix of a tree; empty when it has none. *)
Definition prefixText (tree : Tree) : gostring :=
  match Prefix tree with
  | Some p => Text p
  | None => []
  end.

(** ** Writing a tree and parsing it again *)

(** The text of fragments given by the texts of their values: the values
    of a fragment joined by commas, the fragments by dollars. *)
Definition renderFragments (frs : list (list gostring)) : gostring :=
  joinWith "$" (map (joinWith ",") frs).

(** The value nodes of the texts [vs] laid out from the offset [p], one
    byte (the comma) between two of them. *)
Fixpoint placeValues (p : nat) (vs : list gostring) : list ValueNode :=
  match vs with
  | [] => []
  | v :: vs' =>
      mkValueNode v p (p + length v) :: placeValues (p + length v + 1) vs'
  end.

(** One value is a value fragment, more are a group. *)
Definition fragmentOf (vals : list ValueNode) : FragmentNode :=
  match vals with
  | [v] => FValue v
  | _ => FGroup (mkGroupNode vals)
  end.

(** The fragments laid out from the offset [p], one byte (the dollar)
    between two of them. *)
Fixpoint placeFragments (p : nat) (frs : list (list gostring))
  : list FragmentNode :=
  match frs with
  | [] => []
  | vs :: frs' =>
      fragmentOf (placeValues p vs)
      :: placeFragments (p + length (joinWith "," vs) + 1) frs'
  end.

(** Every fragment has a value, and no value holds a delimiter. *)
Definition fragmentsClean (frs : list (list gostring)) : Prop :=
  Forall (fun vs => vs <> []
                    /\ Forall (fun v => IndexAny v delimChars = None) vs) frs.

(** The last value of the last fragment is not empty. *)
Definition lastValueFull (frs : list (list gostring)) : Prop :=
  forall (front : list gostring) (v : gostring),
    concat frs = front ++ [v] -> v <> [].

(** The prefixes of the grammar: none, [_], or [$id] with the delimiter
    that ends it. *)
Definition prefixShape (pre : gostring) : Prop :=
  pre = [] \/ pre = str "_"
  \/ exists (id : gostring) (d : ascii),
       pre = "$"%char :: id ++ [d] /\ id <> []
       /\ IndexAny id delimChars = None
       /\ (d = "$"%char \/ d = ","%char).

(** After no prefix the text starts with neither [$] nor [_]; after a
    dollar prefix it does not start with [_]. *)
Definition startsClean (pre text : gostring) : Prop :=
  (pre = [] -> HasPrefix text (str "$") = false)
  /\ (pre <> str "_" -> HasPrefix text (str "_") = false).

(** The prefix node of a prefix text. *)
Definition prefixNodeOf (pre : gostring) : option PrefixNode :=
  match pre with
  | [] => None
  | _ => Some (mkPrefixNode pre (length pre))
  end.

(** The group that [Parse] holds while it reads a fragment: none before
    the first comma, then the values read so far. *)
Definition groupOf (vals : list ValueNode) : option GroupNode :=
  match vals with
  | [] => None
  | _ => Some (mkGroupNode vals)
  end.

(** The text after the values of a fragment: nothing after the last
    fragment, else a dollar and the fragments that follow. *)
Definition afterFragment (frs : list (list gostring)) : gostring :=
  match frs with
  | [] => []
  | _ => "$"%char :: renderFragments frs
  end.

(** ** The schemes that use the codec: md5, desext, sha256 *)

(** [func (e UnsupportedPrefixError) Error() string] *)
Definition UnsupportedPrefixError (s : gostring) : gostring :=
  str "unsupported prefix " ++ Quote s.

(** [func (h *hashPrefix) UnmarshalText(text []byte) error] of a scheme
    whose constant [Prefix] is [prefix]; the result is what [*h] holds. *)
Definition hashPrefix_UnmarshalText (prefix text : gostring)
  : result govalue gostring :=
  if negb (gostring_eqb text prefix) then Err (UnsupportedPrefixError text)
  else Ok (VString prefix).

(** [type hashPrefix string] with its method *)
Definition hashPrefixType (prefix : gostring) : gotype :=
  TNamed (mkTextMethods None (Some (hashPrefix_UnmarshalText prefix))) TString.

Definition bytesType : gotype := TSlice (TUint 8).

(** md5.go: [Prefix] and [type scheme struct] *)
Definition md5_Prefix : gostring := str "$1$".

Definition md5_scheme : gotype :=
  TStruct
    [sf "HashPrefix" "" (hashPrefixType md5_Prefix);
     sf "Salt" "" bytesType;
     sf "Sum" "length:22" bytesType].

(** A struct of three fields: a prefix and two byte slices or arrays. *)
Definition scheme3 (prefix salt sum : gostring) : record :=
  fun i =>
    match i with
    | [0] => VString prefix
    | [1] => VBytes salt
    | _ => VBytes sum
    end.

(** [func Salt(hash string) (salt []byte, err error)] of md5.go *)
Definition md5_Salt (hash : gostring) : result gostring UnmarshalError :=
  match Unmarshal hash (TPtr md5_scheme) (scheme3 [] [] []) with
  | Ok r => match r [1] with VBytes b => Ok b | _ => Panic end
  | Err e => Err e
  | Panic => Panic
  end.

(** desext.go: [type hashRounds uint32] with [MarshalText] and
    [UnmarshalText], [Prefix] and [type scheme struct] *)
Definition hashRounds : gotype :=
  TNamed
    (mkTextMethods
       (Some (fun v => match v with
                       | VUint r => Ok (EncodeInt r)
                       | _ => Panic
                       end))
       (Some (fun text => Ok (VUint (DecodeInt text)))))
    (TUint 32).

Definition desext_Prefix : gostring := str "_".

Definition desext_scheme : gotype :=
  TStruct
    [sf "HashPrefix" "" (hashPrefixType desext_Prefix);
     sf "Rounds" "length:4,inline" hashRounds;
     sf "Salt" "length:4,inline" bytesType;
     sf "Sum" "" (TArray 11 (TUint 8))].

(** A struct of type [desext.scheme]. *)
Definition desext_value (prefix : gostring) (rounds : Z) (salt sum : gostring)
  : record :=
  fun i =>
    match i with
    | [0] => VString prefix
    | [1] => VUint rounds
    | [2] => VBytes salt
    | _ => VBytes sum
    end.

(** [func Params(hash string) (salt []byte, rounds uint32, err error)] of
    desext.go *)
Definition desext_Params (hash : gostring)
  : result (gostring * Z) UnmarshalError :=
  match Unmarshal hash (TPtr desext_scheme)
          (desext_value [] 0 [] (repeat zeroByte 11)) with
  | Ok r =>
      match r [2], r [1] with
      | VBytes salt, VUint rounds => Ok (salt, rounds)
      | _, _ => Panic
      end
  | Err e => Err e
  | Panic => Panic
  end.

(** sha256.go: [Prefix], [ImplicitRounds] and [type scheme struct] *)
Definition sha256_Prefix : gostring := str "$5$".

Definition sha256_ImplicitRounds : Z := 5000.

Definition sha256_scheme : gotype :=
  TStruct
    [sf "HashPrefix" "" (hashPrefixType sha256_Prefix);
     sf "Rounds" "param:rounds,omitempty" (TUint 32);
     sf "Salt" "" bytesType;
     sf "Sum" "" (TArray 43 (TUint 8))].

(** A struct of type [sha256.scheme]. *)
Definition sha256_value (prefix : gostring) (rounds : Z) (salt sum : gostring)
  : record :=
  fun i =>
    match i with
    | [0] => VString prefix
    | [1] => VUint rounds
    | [2] => VBytes salt
    | _ => VBytes sum
    end.

(** [func Params(hash string) (salt []byte, rounds uint32, err error)] of
    sha256.go *)
Definition sha256_Params (hash : gostring)
  : result (gostring * Z) UnmarshalError :=
  match Unmarshal hash (TPtr sha256_scheme)
          (sha256_value [] 0 [] (repeat zeroByte 43)) with
  | Ok r =>
      match r [2], r [1] with
      | VBytes salt, VUint rounds =>
          Ok (salt, if (rounds =? 0)%Z then sha256_ImplicitRounds else rounds)
      | _, _ => Panic
      end
  | Err e => Err e
  | Panic => Panic
  end.

(** The schema [getTypeInfo] compiles for a pointer to [md5.scheme]. *)
Definition md5_typeInfo : typeInfo :=
  mkTypeInfo (TPtr md5_scheme) md5_scheme
    (Some (mkFieldInfo [0] (str "HashPrefix") (hashPrefixType md5_Prefix)
             (mkFieldOpts true false false [] None 0 false 10)))
    [mkFieldInfo [1] (str "Salt") bytesType
       (mkFieldOpts false false false [] (Some HashEncoding) 0 false 10);
     mkFieldInfo [2] (str "Sum") bytesType
       (mkFieldOpts false false false [] (Some HashEncoding) 22 false 10)]
    2.

(** The schema [getTypeInfo] compiles for a pointer to [sha256.scheme]. *)
Definition sha256_typeInfo : typeInfo :=
  mkTypeInfo (TPtr sha256_scheme) sha256_scheme
    (Some (mkFieldInfo [0] (str "HashPrefix") (hashPrefixType sha256_Prefix)
             (mkFieldOpts true false false [] None 0 false 10)))
    [mkFieldInfo [1] (str "Rounds") (TUint 32)
       (mkFieldOpts false true false (str "rounds") (Some HashEncoding) 0 false 10);
     mkFieldInfo [2] (str "Salt") bytesType
       (mkFieldOpts false false false [] (Some HashEncoding) 0 false 10);
     mkFieldInfo [3] (str "Sum") (TArray 43 (TUint 8))
       (mkFieldOpts false false false [] (Some HashEncoding) 43 false 10)]
    2.

(** The schema [getTypeInfo] compiles for a pointer to [desext.scheme]. *)
Definition desext_typeInfo : typeInfo :=
  mkTypeInfo (TPtr desext_scheme) desext_scheme
    (Some (mkFieldInfo [0] (str "HashPrefix") (hashPrefixType desext_Prefix)
             (mkFieldOpts true false false [] None 0 false 10)))
    [mkFieldInfo [1] (str "Rounds") hashRounds
       (mkFieldOpts false false false [] (Some HashEncoding) 4 true 10);
     mkFieldInfo [2] (str "Salt") bytesType
       (mkFieldOpts false false false [] (Some HashEncoding) 4 true 10);
     mkFieldInfo [3] (str "Sum") (TArray 11 (TUint 8))
       (mkFieldOpts false false false [] (Some HashEncoding) 11 false 10)]
    1.

(** ** More schemes: argon2, sunmd5, nthash, bcrypt, des, sha1 *)

(** [func (h *hashPrefix) UnmarshalText(text []byte) error] of a scheme
    with several prefixes: the [switch] keeps the text when it is one of
    them. *)
Definition hashPrefixes_UnmarshalText (prefixes : list gostring)
    (text : gostring) : result govalue gostring :=
  if existsb (gostring_eqb text) prefixes then Ok (VString text)
  else Err (UnsupportedPrefixError text).

Definition hashPrefixesType (prefixes : list gostring) : gotype :=
  TNamed (mkTextMethods None (Some (hashPrefixes_UnmarshalText prefixes)))
    TString.

(** argon2.go: the prefixes, the versions and [type scheme struct] *)
Definition argon2_Prefix2d : gostring := str "$argon2d$".
Definition argon2_Prefix2i : gostring := str "$argon2i$".
Definition argon2_Prefix2id : gostring := str "$argon2id$".

Definition argon2_Version10 : Z := 16.
Definition argon2_Version13 : Z := 19.

Definition argon2_prefixes : list gostring :=
  [argon2_Prefix2d; argon2_Prefix2i; argon2_Prefix2id].

Definition argon2_scheme : gotype :=
  TStruct
    [sf "HashPrefix" "" (hashPrefixesType argon2_prefixes);
     sf "Version" "param:v,omitempty" (TUint 8);
     sf "Memory" "param:m,group" (TUint 32);
     sf "Time" "param:t,group" (TUint 32);
     sf "Threads" "param:p,group" (TUint 8);
     sf "Salt" "enc:base64" bytesType;
     sf "Sum" "enc:base64" bytesType].

(** A struct of type [argon2.scheme]. *)
Definition argon2_value (prefix : gostring) (version memory time threads : Z)
    (salt sum : gostring) : record :=
  fun i =>
    match i with
    | [0] => VString prefix
    | [1] => VUint version
    | [2] => VUint memory
    | [3] => VUint time
    | [4] => VUint threads
    | [5] => VBytes salt
    | _ => VBytes sum
    end.

(** [type CompatibilityOptions struct] of argon2.go *)
Record argon2_CompatibilityOptions : Type := mkArgon2Options {
  argon2_opt_Prefix : gostring;
  argon2_opt_Version : Z
}.

(** What [argon2.Params] returns beside the error. *)
Record argon2_params : Type := mkArgon2Params {
  argon2_salt : gostring;
  argon2_memory : Z;
  argon2_time : Z;
  argon2_threads : Z;
  argon2_opts : argon2_CompatibilityOptions
}.

(** [func Params(hash string) (salt []byte, memory, time uint32,
    threads uint8, opts *CompatibilityOptions, err error)] of argon2.go *)
Definition argon2_Params (hash : gostring)
  : result argon2_params UnmarshalError :=
  match Unmarshal hash (TPtr argon2_scheme) (argon2_value [] 0 0 0 0 [] []) with
  | Ok r =>
      match r [0], r [1], r [2], r [3], r [4], r [5] with
      | VString prefix, VUint version, VUint memory, VUint time,
        VUint threads, VBytes salt =>
          Ok (mkArgon2Params salt memory time threads
                (mkArgon2Options prefix
                   (if (version =? 0)%Z then argon2_Version10 else version)))
      | _, _, _, _, _, _ => Panic
      end
  | Err e => Err e
  | Panic => Panic
  end.

(** The schema [getTypeInfo] compiles for a pointer to [argon2.scheme]. *)
Definition argon2_typeInfo : typeInfo :=
  mkTypeInfo (TPtr argon2_scheme) argon2_scheme
    (Some (mkFieldInfo [0] (str "HashPrefix") (hashPrefixesType argon2_prefixes)
             (mkFieldOpts true false false [] None 0 false 10)))
    [mkFieldInfo [1] (str "Version") (TUint 8)
       (mkFieldOpts false true false (str "v") (Some HashEncoding) 0 false 10);
     mkFieldInfo [2] (str "Memory") (TUint 32)
       (mkFieldOpts false false true (str "m") (Some HashEncoding) 0 false 10);
     mkFieldInfo [3] (str "Time") (TUint 32)
       (mkFieldOpts false false true (str "t") (Some HashEncoding) 0 false 10);
     mkFieldInfo [4] (str "Threads") (TUint 8)
       (mkFieldOpts false false true (str "p") (Some HashEncoding) 0 false 10);
     mkFieldInfo [5] (str "Salt") bytesType
       (mkFieldOpts false false false [] (Some Base64Encoding) 0 false 10);
     mkFieldInfo [6] (str "Sum") bytesType
       (mkFieldOpts false false false [] (Some Base64Encoding) 0 false 10)]
    2.

(** sunmd5.go: the prefixes, [type saltScheme struct] and
    [type scheme struct], which embeds it *)
Definition sunmd5_PrefixNonZeroRounds : gostring := str "$md5,".
Definition sunmd5_PrefixZeroRounds : gostring := str "$md5$".

Definition sunmd5_prefixes : list gostring :=
  [sunmd5_PrefixNonZeroRounds; sunmd5_PrefixZeroRounds].

Definition sunmd5_saltScheme : gotype :=
  TStruct
    [sf "HashPrefix" "" (hashPrefixesType sunmd5_prefixes);
     sf "Rounds" "param:rounds" (TUint 32);
     sf "Salt" "omitempty" bytesType;
     sf "Separator" "length:0,omitempty" (TPtr TString)].

Definition sunmd5_scheme : gotype :=
  TStruct
    [mkStructField (str "saltScheme") false true sunmd5_saltScheme [];
     sf "Sum" "" (TArray 22 (TUint 8))].

(** A struct of type [sunmd5.scheme]; [separator] tells whether the
    pointer [Separator] is set, to the empty string. *)
Definition sunmd5_value (prefix : gostring) (rounds : Z) (salt : gostring)
    (separator : bool) (sum : gostring) : record :=
  fun i =>
    match i with
    | [0; 0] => VString prefix
    | [0; 1] => VUint rounds
    | [0; 2] => VBytes salt
    | [0; 3] => VPtr (if separator then Some (VString []) else None)
    | _ => VBytes sum
    end.

(** [type CompatibilityOptions struct] of sunmd5.go *)
Record sunmd5_CompatibilityOptions : Type := mkSunmd5Options {
  sunmd5_opt_Prefix : gostring;
  DisableSaltSeparator : bool
}.

(** [func Params(hash string) (salt []byte, rounds uint32,
    opts *CompatibilityOptions, err error)] of sunmd5.go *)
Definition sunmd5_Params (hash : gostring)
  : result (gostring * Z * sunmd5_CompatibilityOptions) UnmarshalError :=
  match Unmarshal hash (TPtr sunmd5_scheme)
          (sunmd5_value [] 0 [] false (repeat zeroByte 22)) with
  | Ok r =>
      match r [0; 2], r [0; 1], r [0; 0], r [0; 3] with
      | VBytes salt, VUint rounds, VString prefix, VPtr sep =>
          Ok (salt, rounds,
              mkSunmd5Options prefix
                match sep with None => true | Some _ => false end)
      | _, _, _, _ => Panic
      end
  | Err e => Err e
  | Panic => Panic
  end.

(** The schema [getTypeInfo] compiles for a pointer to [sunmd5.scheme]. *)
Definition sunmd5_typeInfo : typeInfo :=
  mkTypeInfo (TPtr sunmd5_scheme) sunmd5_scheme
    (Some (mkFieldInfo [0; 0] (str "HashPrefix") (hashPrefixesType sunmd5_prefixes)
             (mkFieldOpts true false false [] None 0 false 10)))
    [mkFieldInfo [0; 1] (str "Rounds") (TUint 32)
       (mkFieldOpts false false false (str "rounds") (Some HashEncoding) 0 false 10);
     mkFieldInfo [0; 2] (str "Salt") bytesType
       (mkFieldOpts false true false [] (Some HashEncoding) 0 false 10);
     mkFieldInfo [0; 3] (str "Separator") (TPtr TString)
       (mkFieldOpts false true false [] (Some HashEncoding) 0 false 10);
     mkFieldInfo [1] (str "Sum") (TArray 22 (TUint 8))
       (mkFieldOpts false false false [] (Some HashEncoding) 22 false 10)]
    2.

(** nthash.go: [Prefix] and [type scheme struct] *)
Definition nthash_Prefix : gostring := str "$3$".

Definition nthash_scheme : gotype :=
  TStruct
    [sf "HashPrefix" "" (hashPrefixType nthash_Prefix);
     sf "Empty" "" (TArray 0 (TUint 8));
     sf "Sum" "" (TArray 32 (TUint 8))].

(** The schema [getTypeInfo] compiles for a pointer to [nthash.scheme]. *)
Definition nthash_typeInfo : typeInfo :=
  mkTypeInfo (TPtr nthash_scheme) nthash_scheme
    (Some (mkFieldInfo [0] (str "HashPrefix") (hashPrefixType nthash_Prefix)
             (mkFieldOpts true false false [] None 0 false 10)))
    [mkFieldInfo [1] (str "Empty") (TArray 0 (TUint 8))
       (mkFieldOpts false false false [] (Some HashEncoding) 0 false 10);
     mkFieldInfo [2] (str "Sum") (TArray 32 (TUint 8))
       (mkFieldOpts false false false [] (Some HashEncoding) 32 false 10)]
    2.

(** bcrypt.go: the prefixes, [type hashCost uint8] with [MarshalText],
    and [type scheme struct] *)
Definition bcrypt_Prefix2 : gostring := str "$2$".
Definition bcrypt_Prefix2a : gostring := str "$2a$".
Definition bcrypt_Prefix2b : gostring := str "$2b$".

Definition bcrypt_prefixes : list gostring :=
  [bcrypt_Prefix2; bcrypt_Prefix2a; bcrypt_Prefix2b].

(** [func (h hashCost) MarshalText() ([]byte, error)] *)
Definition hashCost_MarshalText (v : govalue) : result gostring gostring :=
  match v with
  | VUint h =>
      match FormatUint h 10 with
      | Ok s => Ok (if (h <? 10)%Z then "0"%char :: s else s)
      | _ => Panic
      end
  | _ => Panic
  end.

Definition hashCost : gotype :=
  TNamed (mkTextMethods (Some hashCost_MarshalText) None) (TUint 8).

Definition bcrypt_scheme : gotype :=
  TStruct
    [sf "HashPrefix" "" (hashPrefixesType bcrypt_prefixes);
     sf "Cost" "length:2" hashCost;
     sf "Salt" "length:22,inline" bytesType;
     sf "Sum" "" (TArray 31 (TUint 8))].

(** A struct of type [bcrypt.scheme]. *)
Definition bcrypt_value (prefix : gostring) (cost : Z) (salt sum : gostring)
  : record :=
  fun i =>
    match i with
    | [0] => VString prefix
    | [1] => VUint cost
    | [2] => VBytes salt
    | _ => VBytes sum
    end.

(** [func Params(hash string) (salt []byte, cost uint8,
    opts *CompatibilityOptions, err error)] of bcrypt.go; the options
    hold the prefix only. *)
Definition bcrypt_Params (hash : gostring)
  : result (gostring * Z * gostring) UnmarshalError :=
  match Unmarshal hash (TPtr bcrypt_scheme)
          (bcrypt_value [] 0 [] (repeat zeroByte 31)) with
  | Ok r =>
      match r [2], r [1], r [0] with
      | VBytes salt, VUint cost, VString prefix => Ok (salt, cost, prefix)
      | _, _, _ => Panic
      end
  | Err e => Err e
  | Panic => Panic
  end.

(** The schema [getTypeInfo] compiles for a pointer to [bcrypt.scheme]. *)
Definition bcrypt_typeInfo : typeInfo :=
  mkTypeInfo (TPtr bcrypt_scheme) bcrypt_scheme
    (Some (mkFieldInfo [0] (str "HashPrefix") (hashPrefixesType bcrypt_prefixes)
             (mkFieldOpts true false false [] None 0 false 10)))
    [mkFieldInfo [1] (str "Cost") hashCost
       (mkFieldOpts false false false [] (Some HashEncoding) 2 false 10);
     mkFieldInfo [2] (str "Salt") bytesType
       (mkFieldOpts false false false [] (Some HashEncoding) 22 true 10);
     mkFieldInfo [3] (str "Sum") (TArray 31 (TUint 8))
       (mkFieldOpts false false false [] (Some HashEncoding) 31 false 10)]
    2.

(** des.go: [Prefix], the empty string, and [type scheme struct] *)
Definition des_Prefix : gostring := [].

Definition des_scheme : gotype :=
  TStruct
    [sf "HashPrefix" "omitempty" (hashPrefixType des_Prefix);
     sf "Salt" "length:2,inline" bytesType;
     sf "Sum" "" (TArray 11 (TUint 8))].

(** [func Salt(hash string) (salt []byte, err error)] of des.go *)
Definition des_Salt (hash : gostring) : result gostring UnmarshalError :=
  match Unmarshal hash (TPtr des_scheme)
          (scheme3 [] [] (repeat zeroByte 11)) with
  | Ok r => match r [1] with VBytes b => Ok b | _ => Panic end
  | Err e => Err e
  | Panic => Panic
  end.

(** The schema [getTypeInfo] compiles for a pointer to [des.scheme]. *)
Definition des_typeInfo : typeInfo :=
  mkTypeInfo (TPtr des_scheme) des_scheme
    (Some (mkFieldInfo [0] (str "HashPrefix") (hashPrefixType des_Prefix)
             (mkFieldOpts true true false [] None 0 false 10)))
    [mkFieldInfo [1] (str "Salt") bytesType
       (mkFieldOpts false false false [] (Some HashEncoding) 2 true 10);
     mkFieldInfo [2] (str "Sum") (TArray 11 (TUint 8))
       (mkFieldOpts false false false [] (Some HashEncoding) 11 false 10)]
    1.

(** sha1.go: [Prefix] and [type scheme struct] *)
Definition sha1_Prefix : gostring := str "$sha1$".

Definition sha1_scheme : gotype :=
  TStruct
    [sf "HashPrefix" "" (hashPrefixType sha1_Prefix);
     sf "Rounds" "" (TUint 32);
     sf "Salt" "" bytesType;
     sf "Sum" "" (TArray 28 (TUint 8))].

(** [func Params(hash string) (salt []byte, rounds uint32, err error)] of
    sha1.go; the struct has the fields of [sha256.scheme], and
    [sha256_value] builds it. *)
Definition sha1_Params (hash : gostring)
  : result (gostring * Z) UnmarshalError :=
  match Unmarshal hash (TPtr sha1_scheme)
          (sha256_value [] 0 [] (repeat zeroByte 28)) with
  | Ok r =>
      match r [2], r [1] with
      | VBytes salt, VUint rounds => Ok (salt, rounds)
      | _, _ => Panic
      end
  | Err e => Err e
  | Panic => Panic
  end.

(** The schema [getTypeInfo] compiles for a pointer to [sha1.scheme]. *)
Definition sha1_typeInfo : typeInfo :=
  mkTypeInfo (TPtr sha1_scheme) sha1_scheme
    (Some (mkFieldInfo [0] (str "HashPrefix") (hashPrefixType sha1_Prefix)
             (mkFieldOpts true false false [] None 0 false 10)))
    [mkFieldInfo [1] (str "Rounds") (TUint 32)
       (mkFieldOpts false false false [] (Some HashEncoding) 0 false 10);
     mkFieldInfo [2] (str "Salt") bytesType
       (mkFieldOpts false false false [] (Some HashEncoding) 0 false 10);
     mkFieldInfo [3] (str "Sum") (TArray 28 (TUint 8))
       (mkFieldOpts false false false [] (Some HashEncoding) 28 false 10)]
    3.

(** The zero value of [sunmd5.scheme], which [Params] and [Check] give
    to [Unmarshal]. *)
Definition sunmd5_zero : record :=
  sunmd5_value [] 0 [] false (repeat zeroByte 22).

(** The zero value of [argon2.scheme]. *)
Definition argon2_zero : record := argon2_value [] 0 0 0 0 [] [].

(** ** The values that the fields read, and canonical inputs *)

(** A call of [unmarshal] on a value node by the loop of [Unmarshal]: the
    field, the index of the fragment at the cursor, the place of the node
    among the values of the fragment, and the node as it is before the
    call. *)
Record reading : Type := mkReading {
  rd_field : fieldInfo;
  rd_frag : nat;
  rd_pos : nat;
  rd_node : ValueNode
}.

(** The node that the [switch] of the loop body hands to [unmarshal] for
    the field [fi] and the fragment [frag] at the cursor, with its place
    among the values; none when the field is bound to nothing. *)
Definition nodeOf (fi : fieldInfo) (frag : FragmentNode) (st : ustate)
  : option (nat * ValueNode) :=
  let o := Opts fi in
  let isGroup := match frag with FGroup _ => true | FValue _ => false end in
  if Group o && (isGroup || negb (OmitEmpty o)) then
    let st :=
      match frag with
      | FGroup g =>
          match group st with
          | None => mkUstate (fragIdx st) (Z.of_nat (length (Values g)))
                      (Some (fragIdx st)) (numValues st) (numReqValues st)
                      (frags st) (rec st)
          | Some _ => st
          end
      | FValue _ =>
          mkUstate (fragIdx st) 1 (Some (fragIdx st)) (numValues st)
            (numReqValues st) (frags st) (rec st)
      end in
    findParam (groupValues st) (Param o) 0
  else
    match frag with
    | FValue v =>
        if negb (Group o)
           && (gostring_eqb (Param o) [] || HasPrefix (Value v) (Param o))
        then Some (0, v) else None
    | FGroup _ => None
    end.

(** The call of [unmarshal] in the round of the field [fi], if the round
    makes one, from the state [st] that the round is in after it has
    ended the open group. *)
Definition readingAt (fi : fieldInfo) (st : ustate) : option reading :=
  if length (frags st) <=? fragIdx st then None
  else if OmitEmpty (Opts fi)
          && match group st with None => true | Some _ => false end
          && (numValues st - numReqValues st <=? 0)%Z
  then None
  else
    match nth_error (frags st) (fragIdx st) with
    | Some frag =>
        match nodeOf fi frag st with
        | Some (j, v) => Some (mkReading fi (fragIdx st) j v)
        | None => None
        end
    | None => None
    end.

(** The call of [unmarshal] in the round of the field [fi] from the state
    [st], if the round makes one. *)
Definition readingOf (ti : typeInfo) (fi : fieldInfo) (st : ustate)
  : option reading :=
  match endOfGroup ti fi st with
  | Ok st => readingAt fi st
  | _ => None
  end.

(** The calls of [unmarshal] that the loop over [fields] makes from the
    state [st], in order. *)
Fixpoint readings (hashLen : nat) (ti : typeInfo) (fields : list fieldInfo)
    (st : ustate) : list reading :=
  match fields with
  | [] => []
  | fi :: fields' =>
      match unmarshalField hashLen ti fi st with
      | Ok st1 =>
          match readingOf ti fi st with
          | Some rd => [rd]
          | None => []
          end ++ readings hashLen ti fields' st1
      | _ => []
      end
  end.

(** The state in which the loop of [Unmarshal] starts. *)
Definition startOf (tree : Tree) (ti : typeInfo) (r : record) : ustate :=
  mkUstate 0 0 None (Z.of_nat (length (Fragments tree)))
    (Z.of_nat (NumReqValues ti)) (Fragments tree) r.

(** The calls of [unmarshal] on value nodes that [Unmarshal(s, &v)]
    makes. *)
Definition readingsOf (s : gostring) (t : gotype) (r0 : record)
  : list reading :=
  match Parse s, getTypeInfo t with
  | Ok tree, Ok ti =>
      match unmarshalPrefix (length s) ti tree r0 with
      | Ok r1 => readings (length s) ti (Fields ti) (startOf tree ti r1)
      | _ => []
      end
  | _, _ => []
  end.

(** The text that a reading takes from its node: the first bytes up to
    its length for an inline field, the whole text otherwise. *)
Definition readText (rd : reading) : gostring :=
  let o := Opts (rd_field rd) in
  if (0 <? Length o) && Inline o
  then firstn (Length o) (Value (rd_node rd))
  else Value (rd_node rd).


(** The reading [rd] takes the value that follows the one of the reading
    before it, as [Marshal] lays the fields out: the first value of the
    hash at the start; the same value after an inline field; the next
    value of the same group when both fields are grouped; the first
    value of the next fragment in every other case. *)
Definition follows (prev : option reading) (rd : reading) : bool :=
  match prev with
  | None => Nat.eqb (rd_frag rd) 0 && Nat.eqb (rd_pos rd) 0
  | Some p =>
      if Inline (Opts (rd_field p)) then
        Nat.eqb (rd_frag rd) (rd_frag p) && Nat.eqb (rd_pos rd) (rd_pos p)
      else if Group (Opts (rd_field p)) && Group (Opts (rd_field rd)) then
        Nat.eqb (rd_frag rd) (rd_frag p) && Nat.eqb (rd_pos rd) (rd_pos p + 1)
      else
        Nat.eqb (rd_frag rd) (rd_frag p + 1) && Nat.eqb (rd_pos rd) 0
  end.

Fixpoint inOrder (prev : option reading) (l : list reading) : bool :=
  match l with
  | [] => true
  | rd :: l' => follows prev rd && inOrder (Some rd) l'
  end.

(** [Marshal] writes the field of the reading [rd], and writes for it
    the text that it read: the field is not left out as empty, and
    [marshalValue] gives a text that is, after the name of the parameter
    and [=], the text read. *)
Definition writes (t : gotype) (r : record) (rd : reading) : bool :=
  let fi := rd_field rd in
  negb (OmitEmpty (Opts fi) && isEmpty (r (Index fi)))
  && match marshalValue t fi (indirect (r (Index fi))) with
     | Ok m => gostring_eqb (fieldText fi m) (readText rd)
     | _ => false
     end.

(** [Marshal] writes the prefix of the tree for the prefix field; a
    schema without a prefix field has a tree without a prefix. *)
Definition writesPrefix (t : gotype) (ti : typeInfo) (tree : Tree)
    (r : record) : bool :=
  match HashPrefix ti with
  | Some pf =>
      match marshalValue t pf (indirect (r (Index pf))) with
      | Ok m => gostring_eqb m (prefixText tree)
      | _ => false
      end
  | None => match Prefix tree with None => true | Some _ => false end
  end.

(** The field [f] is the field of one of the readings. *)
Definition isRead (rds : list reading) (f : fieldInfo) : bool :=
  existsb (fun rd => index_eqb (Index (rd_field rd)) (Index f)) rds.

(** The omitempty fields that read nothing are empty in the struct given
    to [Unmarshal], as they are in a new struct. *)
Definition optionalUnset (ti : typeInfo) (r0 : record) (rds : list reading)
  : bool :=
  forallb (fun f => negb (OmitEmpty (Opts f)) || isRead rds f
                    || isEmpty (r0 (Index f)))
    (Fields ti).

(** A canonical input for the struct type [t]: [s] is the text of its
    parse tree; an optional field that reads nothing is empty; the fields
    read the values of the tree one after the other, as [Marshal] lays
    them out; and for every field that read a value, and for the prefix
    field, [Marshal] writes from the result [r] the text that was
    read. *)
Definition canonical (s : gostring) (t : gotype) (r0 r : record) : bool :=
  match Parse s, getTypeInfo t with
  | Ok tree, Ok ti =>
      gostring_eqb (treeText tree) s
      && writesPrefix t ti tree r
      && optionalUnset ti r0 (readingsOf s t r0)
      && inOrder None (readingsOf s t r0)
      && forallb (writes t r) (readingsOf s t r0)
  | _, _ => false
  end.

(** Two grouped parameters around an optional parameter. *)
Definition splitGroup : gotype :=
  TPtr (TStruct
    [sf "A" "param:a,group" TString;
     sf "O" "param:o,omitempty" TString;
     sf "B" "param:b,group" TString]).

(** *** Places in the fragments *)

(** The values of the fragment [i]. *)
Definition valuesAt (fs : list FragmentNode) (i : nat) : list ValueNode :=
  match nth_error fs i with
  | Some f => valuesOf f
  | None => []
  end.

(** The value [j] of the fragment [i]. *)
Definition nodeAt (fs : list FragmentNode) (i j : nat) : option ValueNode :=
  nth_error (valuesAt fs i) j.









(** The struct that [Unmarshal(s, &v)] leaves. *)
Definition resultOf (s : gostring) (t : gotype) (r0 : record) : record :=
  match Unmarshal s t r0 with
  | Ok r => r
  | _ => r0
  end.

(** The structs of the tests "private fields", "length derived from
    array", "number base" and "field types" of [TestUnmarshal], with
    their zero values. *)
Definition privateFields : gotype :=
  TPtr (TStruct
    [sf "S" "" TString;
     mkStructField (str "s") false false TString []]).

Definition arrayLength : gotype :=
  TPtr (TStruct [sf "S1" "" (TArray 3 (TUint 8))]).

Definition numberBase : gotype :=
  TPtr (TStruct [sf "S1" "base:16" (TInt 64)]).

Definition fieldTypes : gotype :=
  TPtr (TStruct
    [sf "I" "" (TInt 64);
     sf "U" "" (TUint 64);
     sf "S" "" TString;
     sf "B" "" (TArray 3 (TUint 8));
     sf "Sl" "" (TSlice (TUint 8))]).

Definition zeroFieldTypes : record :=
  fun i =>
    match i with
    | [0] => VInt 0
    | [1] => VUint 0
    | [3] => VBytes (repeat zeroByte 3)
    | [4] => VBytes []
    | _ => VString []
    end.

(** The zero value of the struct of the test "field override": the
    embedded pointer is nil. *)
Definition zeroFieldOverride : record :=
  fun i =>
    match i with
    | [0] => VPtr None
    | [2] => VInt 0
    | _ => VString []
    end.

(** A required value and an optional one that is set before the call. *)
Definition optionalSet : record :=
  fun i =>
    match i with
    | [1] => VString (str "x")
    | _ => VString []
    end.

(** The hash of the test "complex" of [TestUnmarshal]. *)
Definition complexInput : gostring :=
  str "$test$v=1a$m=512,t=6235,p=90,data=abc$c29tZXNhbHQ$SqlVijFGiPG+935vDSGEsA$r1=val$o1$o2$r2$o3$r3".

(** The hash [s] is canonical for a pointer to the struct [t] with the
    value [r0]. *)
Definition canonicalHash (s : string) (t : gotype) (r0 : record) : bool :=
  canonical (str s) (TPtr t) r0 (resultOf (str s) (TPtr t) r0).

(** * Properties *)

(** ** Evaluation helpers *)

Lemma gostring_eqb_eq (a b : gostring) : gostring_eqb a b = true <-> a = b.
Proof.
  revert b; induction a as [|x a IH]; intros [|y b]; simpl; split;
    try congruence; try reflexivity.
  - intros H. apply andb_true_iff in H as [H1 H2].
    apply Ascii.eqb_eq in H1. apply IH in H2. congruence.
  - intros H. injection H as -> ->. apply andb_true_iff. split.
    + apply Ascii.eqb_refl.
    + apply IH. reflexivity.
Qed.

Lemma gostring_eqb_refl (a : gostring) : gostring_eqb a a = true.
Proof. apply gostring_eqb_eq. reflexivity. Qed.

(** ** The prefix step and the end of [Unmarshal] *)

(** C7. When the schema has a prefix field that is not [omitempty] and the
    parse tree of the input has no prefix, [Unmarshal] fails with the
    message "prefix not found", the value "EOF" and the length of the
    input as offset; the empty input gives offset 0. *)
Theorem C7_prefix_not_found :
  (forall (hash : gostring) (t : gotype) (r : record) (tree : Tree)
          (ti : typeInfo) (pf : fieldInfo),
      kindOf t = KPtr ->
      kindOf (indirectType t) = KStruct ->
      Parse hash = Ok tree ->
      getTypeInfo t = Ok ti ->
      HashPrefix ti = Some pf ->
      OmitEmpty (Opts pf) = false ->
      Prefix tree = None ->
      Unmarshal hash t r =
      Err (UType (mkUnmarshalTypeError (str "EOF") (Type_ pf) (length hash)
                    (Some (ti_Struct ti)) (Name pf) (str "prefix not found"))))
  /\ (forall r : record,
        Unmarshal [] prefixOnly r =
        Err (UType (mkUnmarshalTypeError (str "EOF") TString 0
                      (Some prefixOnly) (str "HashPrefix")
                      (str "prefix not found")))).
Proof.
  split.
  - intros hash t r tree ti pf Hk1 Hk2 Hp Hti Hpf Hom Hnone.
    unfold Unmarshal. rewrite Hk1, Hk2, Hp, Hti.
    unfold unmarshalTree, unmarshalPrefix. rewrite Hpf, Hnone, Hom.
    reflexivity.
  - intros r. reflexivity.
Qed.

(** The test "missing hash prefix": the input [foo] against
    [struct { HashPrefix string }]. *)
Lemma C7_prefix_not_found_witness :
  Unmarshal (str "foo") prefixOnly zeroRecord =
  Err (UType (mkUnmarshalTypeError (str "EOF") TString 3
                (Some prefixOnly) (str "HashPrefix") (str "prefix not found"))).
Proof.
  refine (proj1 C7_prefix_not_found (str "foo") prefixOnly zeroRecord
            (mkTree None [FValue (mkValueNode (str "foo") 0 3)])
            (mkTypeInfo prefixOnly (indirectType prefixOnly)
               (Some (mkFieldInfo [0] (str "HashPrefix") TString
                        (mkFieldOpts true false false [] None 0 false 10)))
               [] 0)
            (mkFieldInfo [0] (str "HashPrefix") TString
               (mkFieldOpts true false false [] None 0 false 10))
            _ _ _ _ _ _ _); reflexivity.
Defined.

(** C6. After the loop over the fields: an open group with values left
    gives "excessive fragment" at the end offset of the group; otherwise a
    fragment left at the cursor (moved past the group when one is open)
    gives "excessive fragment" at the end offset of that fragment; this is
    what [Unmarshal] returns once the prefix step and the loop succeed.
    The input [x=bar,y=baz,z=foo] against two grouped fields [x] and [y]
    fails so at offset 17, the length of the input. *)
Theorem C6_excessive_fragment :
  (forall (t : gotype) (st : ustate) (e : nat),
      group st <> None ->
      (0 < numGroupValues st)%Z ->
      groupEnd st = Some e ->
      afterFields t st = Err (excessive NodeGroup t e))
  /\ (forall (t : gotype) (st : ustate) (frag : FragmentNode) (e : nat),
        (group st <> None -> (numGroupValues st <= 0)%Z) ->
        nth_error (frags st)
          (match group st with Some _ => fragIdx st + 1 | None => fragIdx st end)
        = Some frag ->
        FragmentNode_End frag = Some e ->
        afterFields t st = Err (excessive (FragmentNode_Type frag) t e))
  /\ (forall (hashLen : nat) (t : gotype) (ti : typeInfo) (tree : Tree)
             (r r' : record) (st : ustate),
        unmarshalPrefix hashLen ti tree r = Ok r' ->
        unmarshalFields hashLen ti (Fields ti)
          (mkUstate 0 0 None (Z.of_nat (length (Fragments tree)))
             (Z.of_nat (NumReqValues ti)) (Fragments tree) r') = Ok st ->
        unmarshalTree hashLen t ti tree r = afterFields t st)
  /\ (forall r : record,
        Unmarshal (str "x=bar,y=baz,z=foo") twoGrouped r =
        Err (excessive NodeGroup twoGrouped (length (str "x=bar,y=baz,z=foo")))).
Proof.
  split; [|split; [|split]].
  - intros t st e Hg Hn He. unfold afterFields.
    destruct (group st) as [i|]; [|congruence].
    apply Z.ltb_lt in Hn. rewrite Hn, He. reflexivity.
  - intros t st frag e Hg Hnth He. unfold afterFields.
    assert (Hlt : forall i, nth_error (frags st) i = Some frag ->
                            (i <? length (frags st)) = true).
    { intros i Hi. apply Nat.ltb_lt. apply nth_error_Some. congruence. }
    destruct (group st) as [i|].
    + assert (H0 : (0 <? numGroupValues st)%Z = false).
      { apply Z.ltb_ge. apply Hg. discriminate. }
      rewrite H0, (Hlt _ Hnth), Hnth, He. reflexivity.
    + rewrite (Hlt _ Hnth), Hnth, He. reflexivity.
  - intros hashLen t ti tree r r' st Hp Hf. unfold unmarshalTree.
    rewrite Hp, Hf. reflexivity.
  - intros r. vm_compute. reflexivity.
Qed.

(** An open group of one value that no field took. *)
Lemma C6_excessive_fragment_witness :
  afterFields twoGrouped
    (mkUstate 0 1 (Some 0) 0 0
       [FGroup (mkGroupNode [mkValueNode (str "z=foo") 0 5])] zeroRecord)
  = Err (excessive NodeGroup twoGrouped 5).
Proof.
  apply (proj1 C6_excessive_fragment).
  - discriminate.
  - reflexivity.
  - reflexivity.
Defined.

(** ** Fields bound to one value fragment *)

(** C5, at the input [xfoo] against one field tagged [param:x]: the value
    fragment does not start with [x=], and [Unmarshal] returns no error
    and stores the whole text; the same text against the grouped field
    [param:x,group] is refused, as is [foo] against [param:x]. *)
Theorem C5_param_without_equals_sign :
  (exists r : record,
      Unmarshal (str "xfoo") oneParam zeroRecord = Ok r
      /\ r [0] = VString (str "xfoo"))
  /\ Unmarshal (str "xfoo") oneGroupedParam zeroRecord =
     Err (UType (mkUnmarshalTypeError (str "value") TString 4
                   (Some oneGroupedParam) (str "S")
                   (str "grouped param not found")))
  /\ Unmarshal (str "foo") oneParam zeroRecord =
     Err (UType (mkUnmarshalTypeError (str "value") TString 3
                   (Some oneParam) (str "S") (str "param not found"))).
Proof.
  split; [|split].
  - eexists. split; [vm_compute; reflexivity|]. vm_compute. reflexivity.
  - vm_compute. reflexivity.
  - vm_compute. reflexivity.
Qed.

(** ** The optional fields *)

(** The skip of the loop body, on the two counters: an [omitempty] field
    reached with no group open, a fragment at the cursor and
    [numValues - numReqValues <= 0] ends its round with only [numValues]
    changed. *)
Lemma skip_rule_on_counters (hashLen : nat) (ti : typeInfo) (fi : fieldInfo)
    (st : ustate) :
  OmitEmpty (Opts fi) = true ->
  group st = None ->
  fragIdx st < length (frags st) ->
  (numValues st - numReqValues st <= 0)%Z ->
  exists st',
    unmarshalField hashLen ti fi st = Ok st'
    /\ fragIdx st' = fragIdx st
    /\ frags st' = frags st
    /\ rec st' = rec st
    /\ numValues st' = (numValues st - 1)%Z
    /\ numReqValues st' = numReqValues st.
Proof.
  intros Hom Hg Hlt Hle. unfold unmarshalField, endOfGroup.
  rewrite Hg, Hom. simpl.
  assert (H1 : (length (frags st) <=? fragIdx st) = false)
    by (apply Nat.leb_gt; exact Hlt).
  assert (H2 : (numValues st - numReqValues st <=? 0)%Z = true)
    by (apply Z.leb_le; exact Hle).
  rewrite H1, H2, Hg. eexists. split; [reflexivity|]. simpl. repeat split.
Qed.

(** C1, at the input [m=1$r] against a grouped parameter [M], an optional
    value [O] and a required value [R]: the schema compiles with one
    required value; when the loop reaches [O] the group is closed, one of
    the two fragments is left and one required field is still to come,
    and yet the counter [numValues] still holds 2, [O] is not skipped and
    takes [r], and [R] fails with "unexpected EOF". The struct [hash] of
    the test suite fails the same way on its own input without the
    optional values. *)
Theorem C1_optional_not_skipped_after_group :
  (exists (ti : typeInfo) (fM fO fR : fieldInfo) (st1 st1' st2 : ustate),
      getTypeInfo groupThenOptional = Ok ti
      /\ Fields ti = [fM; fO; fR]
      /\ NumReqValues ti = 1
      /\ OmitEmpty (Opts fO) = true /\ Group (Opts fO) = false
      /\ OmitEmpty (Opts fR) = false /\ Group (Opts fR) = false
      /\ Parse (str "m=1$r") =
         Ok (mkTree None [FValue (mkValueNode (str "m=1") 0 3);
                          FValue (mkValueNode (str "r") 4 5)])
      /\ unmarshalField 5 ti fM
           (mkUstate 0 0 None 2 1
              [FValue (mkValueNode (str "m=1") 0 3);
               FValue (mkValueNode (str "r") 4 5)] zeroRecord) = Ok st1
      /\ endOfGroup ti fO st1 = Ok st1'
      /\ group st1' = None
      /\ length (frags st1') - fragIdx st1' = 1
      /\ numValues st1' = 2%Z /\ numReqValues st1' = 1%Z
      /\ unmarshalField 5 ti fO st1 = Ok st2
      /\ fragIdx st2 = 2
      /\ rec st2 [1] = VString (str "r"))
  /\ Unmarshal (str "m=1$r") groupThenOptional zeroRecord =
     Err (UType (mkUnmarshalTypeError (str "EOF") TString 5
                   (Some groupThenOptional) (str "R") (str "unexpected EOF")))
  /\ Unmarshal
       (str "$test$v=1a$m=512,t=6235,p=90$c29tZXNhbHQ$SqlVijFGiPG+935vDSGEsA$r1=val$r2$r3")
       testHash zeroTestHash =
     Err (UType (mkUnmarshalTypeError (str "EOF") TString 76
                   (Some testHash) (str "R3") (str "unexpected EOF"))).
Proof.
  split; [|split].
  - do 7 eexists.
    split; [vm_compute; reflexivity|].
    split; [reflexivity|].
    split; [reflexivity|].
    do 4 (split; [reflexivity|]).
    split; [vm_compute; reflexivity|].
    split; [vm_compute; reflexivity|].
    split; [vm_compute; reflexivity|].
    split; [reflexivity|].
    split; [reflexivity|].
    split; [reflexivity|].
    split; [reflexivity|].
    split; [vm_compute; reflexivity|].
    split; [reflexivity|].
    vm_compute. reflexivity.
  - vm_compute. reflexivity.
  - vm_compute. reflexivity.
Qed.

(** The same engine on values only: [a$x$b] against a required [A], the
    optional [O1] and [O2] and a required [B] fills [O1] and skips [O2]. *)
Lemma optional_fields_fill_from_the_left :
  exists r : record,
    Unmarshal (str "a$x$b") twoOptional zeroRecord = Ok r
    /\ r [0] = VString (str "a") /\ r [1] = VString (str "x")
    /\ r [2] = VString [] /\ r [3] = VString (str "b").
Proof.
  eexists. split; [vm_compute; reflexivity|].
  repeat split; vm_compute; reflexivity.
Qed.

(** Scenario 2: [$test$a$b$c] against the struct of the test "optional
    fields" binds the prefix and the three required values and leaves the
    six optional fields as they were. *)
Lemma optional_fields_scenario :
  exists r : record,
    Unmarshal (str "$test$a$b$c") optionalFields zeroRecord = Ok r
    /\ r [0] = VString (str "$test$")
    /\ r [1] = VString (str "a") /\ r [4] = VString (str "b")
    /\ r [6] = VString (str "c")
    /\ (forall i, In i [2; 3; 5; 7; 8; 9] -> r [i] = zeroRecord [i]).
Proof.
  eexists. split; [vm_compute; reflexivity|].
  repeat split; try (vm_compute; reflexivity).
  intros i Hi. simpl in Hi.
  repeat (destruct Hi as [<-|Hi]; [vm_compute; reflexivity|]).
  contradiction.
Qed.

(** ** The lexer *)

Lemma run_None (fuel : nat) (l : lexer) : run fuel None l = Some l.
Proof. destruct fuel; reflexivity. Qed.

Lemma lex_missing_prefix_end (rest : gostring) :
  IndexAny rest delimChars = None ->
  lex ("$"%char :: rest) =
    Some [mkToken tokenError (S (length rest)) (str "missing prefix end")]
  /\ Parse ("$"%char :: rest) =
     Err (mkSyntaxError (S (length rest)) (str "missing prefix end")).
Proof.
  intros H.
  assert (Hl : lex ("$"%char :: rest) =
    Some [mkToken tokenError (S (length rest)) (str "missing prefix end")]).
  { unfold lex. cbn [length Nat.add run apply_state].
    unfold lexPrefix, delimChars in *. cbn in *. rewrite H. cbn.
    rewrite run_None. reflexivity. }
  split; [exact Hl|]. unfold Parse. rewrite Hl. reflexivity.
Qed.

Lemma lex_missing_prefix_identifier (rest : gostring) :
  IndexAny rest delimChars = Some 0 ->
  lex ("$"%char :: rest) =
    Some [mkToken tokenError 1 (str "missing prefix identifier")]
  /\ Parse ("$"%char :: rest) =
     Err (mkSyntaxError 1 (str "missing prefix identifier")).
Proof.
  intros H.
  assert (Hl : lex ("$"%char :: rest) =
    Some [mkToken tokenError 1 (str "missing prefix identifier")]).
  { unfold lex. cbn [length Nat.add run apply_state].
    unfold lexPrefix, delimChars in *. cbn in *. rewrite H. cbn.
    rewrite run_None. reflexivity. }
  split; [exact Hl|]. unfold Parse. rewrite Hl. reflexivity.
Qed.

Lemma IndexAny_Some (s chars : gostring) (i : nat) :
  IndexAny s chars = Some i ->
  exists c, nth_error s i = Some c /\ existsb (byte_eqb c) chars = true.
Proof.
  revert i. induction s as [|c s IH]; intros i H; simpl in H; [discriminate|].
  destruct (existsb (byte_eqb c) chars) eqn:E.
  - injection H as <-. exists c. split; [reflexivity|exact E].
  - destruct (IndexAny s chars) as [j|]; [|discriminate].
    injection H as <-. apply (IH j). reflexivity.
Qed.

Lemma nth_error_skipn_add (A : Type) (l : list A) (p i : nat) :
  nth_error (skipn p l) i = nth_error l (p + i).
Proof.
  revert l. induction p as [|p IH]; intros l; [reflexivity|].
  destruct l as [|x l]; simpl; [destruct i; reflexivity|apply IH].
Qed.

(** The fragment state always comes to its end: from a position inside the
    input, with more steps than bytes left, [run] returns, and what it
    sent is a sequence of [fragmentTokens] after what was sent before. *)
Lemma run_fragment_total (n : nat) :
  forall l : lexer,
    pos l <= length (input l) ->
    length (input l) - pos l < n ->
    exists l' more,
      run n (Some lexFragmentFn) l = Some l'
      /\ tokens l' = tokens l ++ more
      /\ fragmentTokens more.
Proof.
  induction n as [|n IH]; intros l Hle Hlt; [lia|].
  cbn [run apply_state]. unfold lexFragment.
  destruct (IndexAny (skipn (pos l) (input l)) delimChars) as [i|] eqn:E.
  - destruct (IndexAny_Some _ _ E) as (c & Hc & Hd).
    rewrite nth_error_skipn_add in Hc.
    assert (Hin : pos l + i < length (input l))
      by (apply nth_error_Some; congruence).
    unfold Next. cbn [emit set_pos input pos]. rewrite Hc.
    unfold delimChars, str in Hd. cbn [list_ascii_of_string existsb] in Hd.
    destruct (byte_eqb c "$") eqn:E1.
    + edestruct (IH (emit (set_pos (emit (set_pos l (pos l + i)) tokenValue)
                             (pos l + i + 1)) tokenDollar))
        as (l' & more & Hr & Ht & Hf).
      * cbn. lia.
      * cbn. lia.
      * exists l'. eexists. split; [exact Hr|]. split.
        -- rewrite Ht. cbn. rewrite <- !app_assoc. reflexivity.
        -- cbn. apply ft_delim; [reflexivity|left; reflexivity|exact Hf].
    + destruct (byte_eqb c ",") eqn:E2; [|discriminate].
      edestruct (IH (emit (set_pos (emit (set_pos l (pos l + i)) tokenValue)
                             (pos l + i + 1)) tokenComma))
        as (l' & more & Hr & Ht & Hf).
      * cbn. lia.
      * cbn. lia.
      * exists l'. eexists. split; [exact Hr|]. split.
        -- rewrite Ht. cbn. rewrite <- !app_assoc. reflexivity.
        -- cbn. apply ft_delim; [reflexivity|right; reflexivity|exact Hf].
  - rewrite run_None. cbn [set_pos start pos input tokens].
    destruct (start l <? length (input l)) eqn:E1.
    + eexists. eexists. split; [reflexivity|]. split.
      * cbn. rewrite <- app_assoc. reflexivity.
      * cbn. apply ft_last; reflexivity.
    + eexists. eexists. split; [reflexivity|]. split.
      * cbn. reflexivity.
      * apply ft_eof. reflexivity.
Qed.

Lemma HasPrefix_one (s : gostring) (c : ascii) :
  HasPrefix s [c] = true -> exists s', s = c :: s'.
Proof.
  destruct s as [|d s]; simpl; [discriminate|].
  intros H. apply andb_true_iff in H as [H _].
  apply Ascii.eqb_eq in H. subst. exists s. reflexivity.
Qed.

Lemma skipn_cons_lt (A : Type) (l : list A) (p : nat) (x : A) (l' : list A) :
  skipn p l = x :: l' -> p < length l.
Proof.
  intros H. destruct (Nat.lt_ge_cases p (length l)) as [Hlt|Hge]; [exact Hlt|].
  rewrite (skipn_all2 l Hge) in H. discriminate.
Qed.

(** The second test of [lexPrefix], for the prefix [_]. *)
Lemma underscore_step (l : lexer) :
  pos l <= length (input l) ->
  let l' := if HasPrefix (skipn (pos l) (input l)) (str "_")
            then emit (set_pos l (pos l + 1)) tokenPrefix else l in
  input l' = input l
  /\ pos l' <= length (input l)
  /\ exists pre, tokens l' = tokens l ++ pre
                 /\ Forall (fun t => tokType t = tokenPrefix
                                      /\ tokPos t = start l) pre
                 /\ length pre <= 1.
Proof.
  intros Hle. cbn zeta.
  destruct (HasPrefix (skipn (pos l) (input l)) (str "_")) eqn:E.
  - destruct (HasPrefix_one _ _ E) as (s' & Hs). apply skipn_cons_lt in Hs.
    cbn. split; [reflexivity|]. split; [lia|].
    eexists. split; [reflexivity|]. split; [|simpl; lia].
    constructor; [split; reflexivity|constructor].
  - split; [reflexivity|]. split; [exact Hle|].
    exists []. rewrite app_nil_r. split; [reflexivity|].
    split; [constructor|simpl; lia].
Qed.

Lemma Forall_prefix_only (start0 : nat) (pre : list token) :
  Forall (fun t => tokType t = tokenPrefix /\ tokPos t = start0) pre ->
  Forall (fun t => tokType t = tokenPrefix) pre.
Proof. apply Forall_impl. intros t [H _]. exact H. Qed.

Lemma fragmentTokens_types (ts : list token) :
  fragmentTokens ts ->
  Forall (fun t => tokType t <> tokenPrefix /\ tokType t <> tokenError) ts.
Proof.
  induction 1 as [t Ht|v t Hv Ht|v d ts Hv Hd _ IH];
    repeat constructor; try congruence; try exact IH;
    destruct Hd; congruence.
Qed.

(** [lexPrefix] from the start of the input: it stops on an error token
    sent alone, or goes on to the fragment state after at most two prefix
    tokens. *)
Lemma lexPrefix_shape (inp : gostring) :
  (exists l e, lexPrefix (mkLexer inp 0 0 []) = (None, l)
               /\ tokens l = [e] /\ tokType e = tokenError)
  \/ (exists l, lexPrefix (mkLexer inp 0 0 []) = (Some lexFragmentFn, l)
                /\ input l = inp /\ pos l <= length inp
                /\ Forall (fun t => tokType t = tokenPrefix) (tokens l)
                /\ length (tokens l) <= 2).
Proof.
  unfold lexPrefix. cbn [pos input skipn].
  destruct (HasPrefix inp (str "$")) eqn:E.
  - destruct (HasPrefix_one _ _ E) as (rest & ->).
    cbn [set_pos pos input Nat.add skipn].
    destruct (IndexAny rest delimChars) as [i|] eqn:Ei.
    + destruct i as [|i].
      * left. cbn. eexists. eexists. split; [reflexivity|].
        split; reflexivity.
      * right. cbn [Nat.eqb].
        destruct (IndexAny_Some _ _ Ei) as (c & Hc & _).
        assert (Hlt : S i < length rest) by (apply nth_error_Some; congruence).
        set (l1 := emit (set_pos (set_pos (mkLexer ("$"%char :: rest) 0 0 []) 1)
                           (S (S i + 1))) tokenPrefix).
        destruct (underscore_step l1) as (Hi & Hp & pre & Ht & Hf & Hn);
          [simpl; lia|].
        eexists. split; [reflexivity|].
        split; [exact Hi|]. split; [exact Hp|]. rewrite Ht. split.
        -- apply Forall_app. split; [|exact (Forall_prefix_only Hf)].
           constructor; [reflexivity|constructor].
        -- rewrite length_app. simpl. lia.
    + left. cbn. eexists. eexists. split; [reflexivity|]. split; reflexivity.
  - right.
    pose proof (underscore_step (mkLexer inp 0 0 [])) as Hu.
    cbn [pos input tokens app] in Hu.
    destruct Hu as (Hi & Hp & pre & Ht & Hf & Hn); [lia|].
    eexists. split; [reflexivity|]. cbn [pos input].
    split; [exact Hi|]. split; [exact Hp|]. rewrite Ht.
    split; [exact (Forall_prefix_only Hf)|lia].
Qed.

(** The lexer always stops, and what it sends is either one error token
    alone or prefix tokens followed by the tokens of the fragment state:
    nothing follows an error token. *)
Lemma lex_total (inp : gostring) :
  exists ts,
    lex inp = Some ts
    /\ ((exists e, ts = [e] /\ tokType e = tokenError)
        \/ (exists pre more,
               ts = pre ++ more
               /\ Forall (fun t => tokType t = tokenPrefix) pre
               /\ length pre <= 2
               /\ fragmentTokens more)).
Proof.
  unfold lex. replace (length inp + 2) with (S (length inp + 1)) by lia.
  cbn [run apply_state].
  destruct (lexPrefix_shape inp) as [(l & e & Hl & Ht & He)|(l & Hl & Hi & Hp & Hf & Hn)];
    rewrite Hl.
  - rewrite run_None. cbn. exists [e]. split; [congruence|].
    left. exists e. split; [reflexivity|exact He].
  - destruct (@run_fragment_total (length inp + 1) l) as (l' & more & Hr & Ht & Hm).
    + rewrite Hi. exact Hp.
    + rewrite Hi. lia.
    + rewrite Hr. cbn. eexists. split; [reflexivity|].
      right. exists (tokens l), more. repeat split; assumption.
Qed.

Lemma parseLoop_fragmentTokens (ts : list token) :
  fragmentTokens ts ->
  forall (tree : Tree) (g : option GroupNode) (v : option ValueNode),
  exists tree', parseLoop ts tree g v = Ok tree'.
Proof.
  induction 1 as [t Ht|v0 t Hv Ht|v0 d ts Hv Hd _ IH]; intros tree g v.
  - cbn [parseLoop]. rewrite Ht.
    destruct v as [x|]; [destruct g|]; eexists; reflexivity.
  - cbn [parseLoop]. rewrite Hv, Ht. destruct g; eexists; reflexivity.
  - cbn [parseLoop]. rewrite Hv. destruct Hd as [Hd|Hd]; rewrite Hd.
    + destruct g; apply IH.
    + apply IH.
Qed.

Lemma parseLoop_prefixTokens (pre more : list token) :
  Forall (fun t => tokType t = tokenPrefix) pre ->
  forall (tree : Tree) (g : option GroupNode) (v : option ValueNode),
  exists tree', parseLoop (pre ++ more) tree g v = parseLoop more tree' g v.
Proof.
  induction 1 as [|t pre Ht _ IH]; intros tree g v.
  - exists tree. reflexivity.
  - cbn [app parseLoop]. rewrite Ht. apply IH.
Qed.

(** [Parse] returns a tree or a syntax error on every input: the lexer
    stops, and the parser never appends a missing value to a group. *)
Lemma Parse_total (hash : gostring) :
  (exists tree, Parse hash = Ok tree) \/ (exists e, Parse hash = Err e).
Proof.
  unfold Parse.
  destruct (lex_total hash) as (ts & Hl & [(e & -> & He)|(pre & more & -> & Hp & _ & Hm)]);
    rewrite Hl.
  - right. cbn [parseLoop]. rewrite He. eexists. reflexivity.
  - left. destruct (parseLoop_prefixTokens more Hp (mkTree None []) None None)
      as (tree' & ->).
    apply parseLoop_fragmentTokens. exact Hm.
Qed.

(** A prefix that has its identifier and its end is sent as the first
    token, from offset 0 through the delimiter; no token after it is an
    error, and a prefix token after it does not start at offset 0. *)
Lemma lex_prefix_token (rest : gostring) (i : nat) :
  IndexAny rest delimChars = Some (S i) ->
  exists more,
    lex ("$"%char :: rest) =
    Some (mkToken tokenPrefix 0 ("$"%char :: firstn (S i + 1) rest) :: more)
    /\ Forall (fun t => tokType t <> tokenError) more
    /\ Forall (fun t => tokType t = tokenPrefix -> tokPos t <> 0) more.
Proof.
  intros Ei. unfold lex.
  replace (length ("$"%char :: rest) + 2) with (S (length rest + 2))
    by (simpl; lia).
  cbn [run apply_state]. unfold lexPrefix.
  cbn [pos input skipn set_pos Nat.add].
  change (HasPrefix ("$"%char :: rest) (str "$")) with true.
  cbn iota. cbn [skipn]. rewrite Ei. cbn [Nat.eqb].
  destruct (IndexAny_Some _ _ Ei) as (c & Hc & _).
  assert (Hlt : S i < length rest) by (apply nth_error_Some; congruence).
  set (l1 := emit (set_pos (set_pos (mkLexer ("$"%char :: rest) 0 0 []) 1)
                     (S (S i + 1))) tokenPrefix).
  destruct (underscore_step l1) as (Hi & Hp & pre & Ht & Hf & _); [simpl; lia|].
  cbn zeta in *.
  match goal with
  | |- context [run _ _ ?l2] =>
      destruct (@run_fragment_total (length rest + 2) l2)
        as (l' & more & Hr & Ht' & Hm);
      [rewrite Hi; exact Hp
      | rewrite Hi; change (input l1) with ("$"%char :: rest);
        cbn [length]; lia |]
  end.
  rewrite Hr. cbn [option_map]. rewrite Ht', Ht.
  exists (pre ++ more). split; [reflexivity|].
  apply fragmentTokens_types in Hm.
  split; apply Forall_app; split.
  - revert Hf. apply Forall_impl. intros t [H _]. congruence.
  - revert Hm. apply Forall_impl. intros t [_ H]. exact H.
  - revert Hf. apply Forall_impl. intros t [_ H] _. rewrite H. discriminate.
  - revert Hm. apply Forall_impl. intros t [H _] H'. contradiction.
Qed.

(** Nothing follows an error token, and nothing comes before it. *)
Lemma lex_error_alone (inp : gostring) (ts pre post : list token) (e : token) :
  lex inp = Some ts ->
  ts = pre ++ e :: post ->
  tokType e = tokenError ->
  pre = [] /\ post = [].
Proof.
  intros Hl Hts He.
  destruct (lex_total inp) as (ts' & Hl' & Hshape).
  rewrite Hl in Hl'. injection Hl' as <-.
  destruct Hshape as [(e' & Hone & _)|(p & more & Hpm & Hp & _ & Hm)].
  - rewrite Hts in Hone. destruct pre as [|x pre].
    + injection Hone as _ ->. split; reflexivity.
    + destruct pre; discriminate.
  - exfalso.
    assert (Hall : Forall (fun t => tokType t <> tokenError) ts).
    { rewrite Hpm. apply Forall_app. split.
      - revert Hp. apply Forall_impl. intros t H. congruence.
      - apply fragmentTokens_types in Hm. revert Hm. apply Forall_impl.
        intros t [_ H]. exact H. }
    rewrite Hts in Hall. apply Forall_app in Hall as [_ Hall].
    inversion Hall as [|? ? Hne _]. contradiction.
Qed.

(** C8. The claim fails on [$a$_b]: after the token of the prefix [$a$]
    the lexer sends a second prefix token, [_] at offset 3, because
    [lexPrefix] tests for [_] with [if], not [else if]; so the tokens do
    not hold exactly one prefix token. [Parse] then keeps [_] as the
    prefix of the tree, with the end offset 1, and [$a$] is lost. *)
Theorem C8_two_prefix_tokens :
  lex (str "$a$_b") =
    Some [mkToken tokenPrefix 0 (str "$a$");
          mkToken tokenPrefix 3 (str "_");
          mkToken tokenValue 4 (str "b");
          mkToken tokenEOF 5 []]
  /\ Parse (str "$a$_b") =
     Ok (mkTree (Some (mkPrefixNode (str "_") 1))
           [FValue (mkValueNode (str "b") 4 5)])
  /\ ~ (exists (ts : list token) (p : token) (more : list token),
          lex (str "$a$_b") = Some ts
          /\ ts = p :: more
          /\ tokType p = tokenPrefix
          /\ Forall (fun t => tokType t <> tokenPrefix) more).
Proof.
  assert (H : lex (str "$a$_b") =
              Some [mkToken tokenPrefix 0 (str "$a$");
                    mkToken tokenPrefix 3 (str "_");
                    mkToken tokenValue 4 (str "b");
                    mkToken tokenEOF 5 []])
    by (vm_compute; reflexivity).
  split; [exact H|]. split; [vm_compute; reflexivity|].
  intros (ts & p & more & Hl & Hts & _ & Hall).
  rewrite H in Hl. injection Hl as <-. injection Hts as _ <-.
  inversion Hall as [|? ? Hne _]. apply Hne. reflexivity.
Qed.

(** What holds of the prefix state for every input that starts with [$]:
    with no [$] or [,] after it the lexer sends the error "missing prefix
    end" and [Parse] returns it as a syntax error; with one right after
    it, the error "missing prefix identifier"; otherwise the first token
    is the prefix token from offset 0 through the delimiter, and it is
    the only prefix token that starts there (a second one, [_], may
    follow it). The lexer stops on every input, and an error token is the
    only token sent: nothing follows it. *)
Theorem C8_lexer_prefix_state :
  (forall rest : gostring,
      IndexAny rest delimChars = None ->
      lex ("$"%char :: rest) =
        Some [mkToken tokenError (length ("$"%char :: rest))
                (str "missing prefix end")]
      /\ Parse ("$"%char :: rest) =
         Err (mkSyntaxError (length ("$"%char :: rest))
                (str "missing prefix end")))
  /\ (forall rest : gostring,
        IndexAny rest delimChars = Some 0 ->
        lex ("$"%char :: rest) =
          Some [mkToken tokenError 1 (str "missing prefix identifier")]
        /\ Parse ("$"%char :: rest) =
           Err (mkSyntaxError 1 (str "missing prefix identifier")))
  /\ (forall (rest : gostring) (i : nat),
        IndexAny rest delimChars = Some (S i) ->
        exists more,
          lex ("$"%char :: rest) =
            Some (mkToken tokenPrefix 0
                    (slice ("$"%char :: rest) 0 (S i + 2)) :: more)
          /\ Forall (fun t => tokType t <> tokenError) more
          /\ Forall (fun t => tokType t = tokenPrefix -> tokPos t <> 0) more)
  /\ (forall inp : gostring, exists ts, lex inp = Some ts)
  /\ (forall (inp : gostring) (ts pre post : list token) (e : token),
        lex inp = Some ts ->
        ts = pre ++ e :: post ->
        tokType e = tokenError ->
        pre = [] /\ post = []).
Proof.
  split; [|split; [|split; [|split]]].
  - intros rest H. exact (lex_missing_prefix_end rest H).
  - intros rest H. exact (lex_missing_prefix_identifier rest H).
  - intros rest i H. destruct (lex_prefix_token rest H) as (more & Hl & H1 & H2).
    exists more. split; [|split; assumption].
    rewrite Hl. unfold slice. rewrite Nat.sub_0_r.
    replace (S i + 2) with (S (S i + 1)) by lia. reflexivity.
  - intros inp. destruct (lex_total inp) as (ts & H & _). exists ts. exact H.
  - intros inp ts pre post e. apply lex_error_alone.
Qed.

(** The test "invalid hash" of the parser: [$foo] has no prefix end. *)
Lemma C8_lexer_prefix_state_witness :
  lex (str "$foo") =
    Some [mkToken tokenError 4 (str "missing prefix end")]
  /\ Parse (str "$foo") =
     Err (mkSyntaxError 4 (str "missing prefix end")).
Proof.
  apply (proj1 C8_lexer_prefix_state (str "foo")). reflexivity.
Defined.

(** ** Inline fields *)

Lemma nth_error_replaceNth (A : Type) (l : list A) (n : nat) (x y : A) :
  nth_error l n = Some y -> nth_error (replaceNth l n x) n = Some x.
Proof.
  revert n. induction l as [|z l IH]; intros [|n] H; simpl in *;
    try discriminate; [reflexivity|apply IH; exact H].
Qed.

Lemma nth_error_writeValue (fs : list FragmentNode) (i : nat) (v : ValueNode)
    (s : gostring) :
  nth_error fs i = Some (FValue v) ->
  nth_error (writeValue fs i 0 s) i = Some (FValue (setValueText v s)).
Proof.
  intros H. unfold writeValue. rewrite H.
  apply nth_error_replaceNth with (y := FValue v). exact H.
Qed.

(** What [unmarshal] does for an inline field with a length: it decodes
    the first [Length] bytes of the node's text and leaves the rest of the
    text in the node. *)
Lemma unmarshal_inline (ti : typeInfo) (fi : fieldInfo) (v : ValueNode)
    (old : option govalue) (x : govalue) (remaining : gostring) :
  Inline (Opts fi) = true ->
  0 < Length (Opts fi) ->
  unmarshal (NValue v) ti fi old = Ok (x, remaining) ->
  remaining = skipn (Length (Opts fi)) (Value v)
  /\ decodeValue (NValue v) ti fi (firstn (Length (Opts fi)) (Value v)) old = Ok x.
Proof.
  intros Hin Hlen. unfold unmarshal. rewrite Hin.
  apply Nat.ltb_lt in Hlen. rewrite Hlen.
  match goal with
  | |- context [if ?c then Err _ else _] => destruct c
  end; [discriminate|].
  match goal with
  | |- context [match ?e with Some _ => Err _ | None => _ end] => destruct e
  end; [discriminate|].
  destruct (decodeValue (NValue v) ti fi (firstn (Length (Opts fi)) (Value v)) old)
    as [y|e|] eqn:E; try discriminate.
  intros H. injection H as <- <-. split; reflexivity.
Qed.

(** The test "inline fields" of the repository: an inline field of length
    3 followed by a field of length 3 that is not inline binds [foo] and
    [bar] from [foobar]. In general, a field with a length that is bound to the value
    fragment at the cursor, outside a group: when it is inline it decodes
    the first [Length] bytes, leaves the rest in the fragment and does not
    move the cursor; when it is not inline the cursor moves to the next
    fragment. *)
Theorem C3_inline_then_plain :
  (exists r : record,
      Unmarshal (str "foobar") inlineFields zeroRecord = Ok r
      /\ r [0] = VString (str "foo") /\ r [1] = VString (str "bar"))
  /\ (forall (hashLen : nat) (ti : typeInfo) (fi : fieldInfo) (st st' : ustate)
             (v : ValueNode),
        Group (Opts fi) = false ->
        OmitEmpty (Opts fi) = false ->
        0 < Length (Opts fi) ->
        group st = None ->
        nth_error (frags st) (fragIdx st) = Some (FValue v) ->
        unmarshalField hashLen ti fi st = Ok st' ->
        if Inline (Opts fi) then
          fragIdx st' = fragIdx st
          /\ nth_error (frags st') (fragIdx st) =
             Some (FValue (setValueText v (skipn (Length (Opts fi)) (Value v))))
          /\ exists x,
               decodeValue (NValue v) ti fi
                 (firstn (Length (Opts fi)) (Value v))
                 (indirect (rec st (Index fi))) = Ok x
               /\ rec st' (Index fi) = wrapPointers (Type_ fi) x
        else fragIdx st' = fragIdx st + 1).
Proof.
  split.
  - eexists. split; [vm_compute; reflexivity|]. split; vm_compute; reflexivity.
  - intros hashLen ti fi st st' v Hg Hom Hlen Hgr Hnth.
    unfold unmarshalField, endOfGroup. rewrite Hgr, Hom.
    assert (Hlt : (length (frags st) <=? fragIdx st) = false).
    { apply Nat.leb_gt. apply nth_error_Some. congruence. }
    rewrite Hlt. cbn [andb]. rewrite Hnth.
    unfold bindFragment. rewrite Hg, Hom. cbn [andb negb].
    destruct (gostring_eqb (Param (Opts fi)) [] || HasPrefix (Value v) (Param (Opts fi)));
      [|unfold notFound; cbn; discriminate].
    unfold bind.
    destruct (unmarshal (NValue v) ti fi (indirect (rec st (Index fi))))
      as [[x remaining]|e|] eqn:E; try discriminate.
    intros H. injection H as <-. cbn [fragIdx frags rec].
    destruct (Inline (Opts fi)) eqn:Hin; cbn [negb]; [|reflexivity].
    destruct (unmarshal_inline _ _ _ _ Hin Hlen E) as [-> Hd].
    split; [reflexivity|]. split.
    + apply nth_error_writeValue. exact Hnth.
    + exists x. split; [exact Hd|].
      unfold setField. replace (index_eqb (Index fi) (Index fi)) with true;
        [reflexivity|].
      clear. induction (Index fi) as [|a l IH]; simpl; [reflexivity|].
      rewrite Nat.eqb_refl. exact IH.
Qed.

(** The first round of the loop on [foobar] against [inlineFields]. *)
Lemma C3_inline_then_plain_witness :
  getTypeInfo inlineFields = Ok inlineInfo
  /\ fragIdx foobarAfterS1 = 0
  /\ nth_error (frags foobarAfterS1) 0 =
     Some (FValue (mkValueNode (str "bar") 0 6))
  /\ exists x,
       decodeValue (NValue (mkValueNode (str "foobar") 0 6)) inlineInfo inlineS1
         (str "foo") (indirect (zeroRecord [0])) = Ok x
       /\ rec foobarAfterS1 [0] = x.
Proof.
  split; [vm_compute; reflexivity|].
  refine (proj2 C3_inline_then_plain 6 inlineInfo inlineS1 foobarStart
            foobarAfterS1 (mkValueNode (str "foobar") 0 6) _ _ _ _ _ _).
  - reflexivity.
  - reflexivity.
  - simpl. lia.
  - reflexivity.
  - reflexivity.
  - vm_compute. reflexivity.
Defined.

(** C3. The scenario of the claim fails in the code: for the struct of
    two inline fields of length 3 that hold [foo] and [bar], [Marshal]
    writes [foobar]; [Unmarshal] of [foobar] into that struct type reads
    both fields but never moves the cursor past the fragment, since only
    a field that is not inline does, and returns "excessive fragment" at
    offset 6 instead of binding [foo] and [bar]. *)
Theorem C3_two_inline_fields_fail :
  Marshal twoInlineFields fooBar = Ok (str "foobar")
  /\ Unmarshal (str "foobar") twoInlineFields zeroRecord =
     Err (excessive NodeValue twoInlineFields 6)
  /\ ~ (exists r : record,
          Unmarshal (str "foobar") twoInlineFields zeroRecord = Ok r
          /\ r [0] = VString (str "foo") /\ r [1] = VString (str "bar")).
Proof.
  assert (H : Unmarshal (str "foobar") twoInlineFields zeroRecord =
              Err (excessive NodeValue twoInlineFields 6))
    by (vm_compute; reflexivity).
  split; [vm_compute; reflexivity|].
  split; [exact H|]. intros (r & Hr & _). rewrite H in Hr. discriminate.
Qed.

(** ** The schema compiler: the length of a byte array *)

Lemma HasPrefix_app (s p : gostring) :
  HasPrefix s p = true -> s = p ++ skipn (length p) s.
Proof.
  revert s. induction p as [|c p IH]; intros s H; [reflexivity|].
  destruct s as [|d s]; simpl in H; [discriminate|].
  apply andb_true_iff in H as [H1 H2]. apply Ascii.eqb_eq in H1. subst d.
  simpl. f_equal. apply IH. exact H2.
Qed.

(** Only a part that starts with [length:] changes the length. *)
Lemma applyTagPart_Length_other (o : fieldOpts) (part : gostring) :
  HasPrefix part (str "length:") = false ->
  Length (applyTagPart o part) = Length o.
Proof.
  intros H. unfold applyTagPart. rewrite H.
  repeat match goal with
         | |- context [if ?c then _ else _] => destruct c
         | |- context [match ?r with Ok _ => _ | Err _ => _ | Panic => _ end] =>
             destruct r
         end; reflexivity.
Qed.

Lemma fold_applyTagPart_Length_other (parts : list gostring) (o : fieldOpts) :
  Forall (fun p => HasPrefix p (str "length:") = false) parts ->
  Length (fold_left applyTagPart parts o) = Length o.
Proof.
  intros H. revert o. induction H as [|p parts Hp _ IH]; intros o; [reflexivity|].
  simpl. rewrite IH. apply applyTagPart_Length_other. exact Hp.
Qed.

(** A part [length:<n>] lowers the length, or sets it when it is 0. *)
Lemma applyTagPart_Length (o : fieldOpts) (part : gostring) (v : Z) :
  HasPrefix part (str "length:") = true ->
  ParseUint (skipn 7 part) 10 32 = Ok v ->
  Length (applyTagPart o part) =
  if Nat.eqb (Length o) 0 || (Z.to_nat v <? Length o) then Z.to_nat v
  else Length o.
Proof.
  intros H Hv. apply HasPrefix_app in H. rewrite H in *.
  cbn [str list_ascii_of_string length app skipn] in *.
  unfold applyTagPart.
  cbn [str list_ascii_of_string HasPrefix gostring_eqb byte_eqb Ascii.eqb
       Bool.eqb andb skipn].
  rewrite Hv.
  destruct (Nat.eqb (Length o) 0 || (Z.to_nat v <? Length o)); reflexivity.
Qed.

(** C10, as the code has it. For a field whose type, pointers followed,
    is a byte array [[N]byte]: with no part [length:...] in the tag the
    compiled length is [N]; with one part [length:<n>] it is [n] when
    [n < N] and [N] when [n >= N], for [N > 0]; for the empty array
    ([N = 0]) it is [n]. *)
Theorem C10_array_length :
  forall (i : nat) (name : gostring) (ty : gotype) (tag : gostring)
         (N : nat) (e : gotype),
    stripNamed (indirectType ty) = TArray N e ->
    isUint8 e = true ->
    (Forall (fun p => HasPrefix p (str "length:") = false) (tagParts tag) ->
     Length (Opts (rawFieldInfo i name ty tag)) = N)
    /\ (forall (pre post : list gostring) (p : gostring) (v : Z),
          tagParts tag = pre ++ p :: post ->
          Forall (fun p => HasPrefix p (str "length:") = false) pre ->
          Forall (fun p => HasPrefix p (str "length:") = false) post ->
          HasPrefix p (str "length:") = true ->
          ParseUint (skipn 7 p) 10 32 = Ok v ->
          let n := Z.to_nat v in
          (0 < N -> n < N -> Length (Opts (rawFieldInfo i name ty tag)) = n)
          /\ (0 < N -> N <= n -> Length (Opts (rawFieldInfo i name ty tag)) = N)
          /\ (N = 0 -> Length (Opts (rawFieldInfo i name ty tag)) = n)).
Proof.
  intros i name ty tag N e Hty He.
  unfold rawFieldInfo. rewrite Hty, He. cbn [Opts].
  set (o := set_Length _ N).
  assert (Ho : Length o = N) by reflexivity.
  split.
  - intros H. rewrite fold_applyTagPart_Length_other by exact H. exact Ho.
  - intros pre post p v Hparts Hpre Hpost Hp Hv.
    set (n := Z.to_nat v).
    rewrite Hparts, fold_left_app. cbn [fold_left].
    rewrite fold_applyTagPart_Length_other by exact Hpost.
    rewrite (applyTagPart_Length _ _ Hp Hv).
    rewrite fold_applyTagPart_Length_other by exact Hpre.
    rewrite Ho. fold n. repeat split.
    + intros H0 Hlt. apply Nat.ltb_lt in Hlt. rewrite Hlt, orb_true_r.
      reflexivity.
    + intros H0 Hge.
      assert (H1 : Nat.eqb N 0 = false) by (apply Nat.eqb_neq; lia).
      assert (H2 : (n <? N) = false) by (apply Nat.ltb_ge; lia).
      rewrite H1, H2. reflexivity.
    + intros ->. reflexivity.
Qed.

(** [[3]byte] with the tag [omitempty,length:2]. *)
Lemma C10_array_length_witness :
  Length (Opts (rawFieldInfo 0 (str "B") (TArray 3 (TUint 8))
                  (str "omitempty,length:2"))) = 2.
Proof.
  refine (proj1 (proj2 (@C10_array_length 0 (str "B") (TArray 3 (TUint 8))
                          (str "omitempty,length:2") 3 (TUint 8) _ _)
                   [str "omitempty"] [] (str "length:2") 2%Z _ _ _ _ _) _ _).
  - reflexivity.
  - reflexivity.
  - reflexivity.
  - repeat constructor.
  - constructor.
  - reflexivity.
  - reflexivity.
  - lia.
  - simpl. lia.
Defined.

(** C10 as stated fails for the empty array: [[0]byte] with [length:5]
    compiles to the length 5, though 5 is not below the size 0 of the
    array. *)
Lemma C10_empty_array_takes_the_tag :
  Length (Opts (rawFieldInfo 0 (str "B") (TArray 0 (TUint 8)) (str "length:5"))) = 5
  /\ exists ti f,
       getTypeInfo (TStruct [sf "B" "length:5" (TArray 0 (TUint 8))]) = Ok ti
       /\ Fields ti = [f] /\ Length (Opts f) = 5.
Proof.
  split; [reflexivity|].
  eexists. eexists. split; [vm_compute; reflexivity|].
  split; reflexivity.
Qed.

(** ** Marshal: what is written between the fields *)

(** C4, as the code has it. [Marshal] writes the text of the prefix field
    and then the written fields joined: nothing is put after an inline
    field, whatever follows it; otherwise a comma between two grouped
    fields and a dollar between any other two; a field with a parameter
    name is written as [param=text]. *)
Theorem C4_marshal_join :
  (forall (t : gotype) (r : record) (fields : list fieldInfo) (buf : gostring)
          (prev : option fieldInfo),
      marshalLoop t r fields buf prev =
      match rendered t r fields with
      | Ok l => Ok (buf ++ joinFrom prev l)
      | Err e => Err e
      | Panic => Panic
      end)
  /\ (forall prev fi : fieldInfo,
        (Inline (Opts prev) = true -> joinSeparator prev fi = [])
        /\ (Inline (Opts prev) = false ->
            Group (Opts prev) = true -> Group (Opts fi) = true ->
            joinSeparator prev fi = [","%char])
        /\ (Inline (Opts prev) = false ->
            Group (Opts prev) = false \/ Group (Opts fi) = false ->
            joinSeparator prev fi = ["$"%char]))
  /\ (forall (fi : fieldInfo) (s : gostring),
        Param (Opts fi) <> [] ->
        fieldText fi s = Param (Opts fi) ++ ["="%char] ++ s)
  /\ Marshal groupedThenValue groupedRecord = Ok (str "m=1,t=2$s").
Proof.
  split; [|split; [|split]].
  - intros t r fields. induction fields as [|fi fields IH]; intros buf prev.
    + simpl. rewrite app_nil_r. reflexivity.
    + cbn [marshalLoop rendered].
      destruct (OmitEmpty (Opts fi) && isEmpty (r (Index fi))); [apply IH|].
      destruct (marshalValue t fi (indirect (r (Index fi)))) as [s|e|];
        try reflexivity.
      rewrite IH. destruct (rendered t r fields) as [l|e|]; try reflexivity.
      f_equal. cbn [joinFrom]. unfold fieldText, separator, joinSeparator.
      destruct prev as [p|];
        destruct (gostring_eqb (Param (Opts fi)) []);
        try destruct (Inline (Opts p));
        try destruct (Group (Opts p) && Group (Opts fi));
        cbn [negb app]; rewrite <- ?app_assoc, ?app_nil_r;
        cbn [app]; rewrite <- ?app_assoc; reflexivity.
  - intros prev fi. unfold joinSeparator. repeat split.
    + intros ->. reflexivity.
    + intros -> -> ->. reflexivity.
    + intros -> [-> | ->]; [reflexivity|].
      rewrite andb_false_r. reflexivity.
  - intros fi s H. unfold fieldText.
    destruct (gostring_eqb (Param (Opts fi)) []) eqn:E; [|reflexivity].
    apply gostring_eqb_eq in E. contradiction.
  - vm_compute. reflexivity.
Qed.

(** The fields [S1] (inline) and [S2] of the test "inline fields". *)
Lemma C4_marshal_join_witness :
  joinSeparator inlineS1
    (mkFieldInfo [1] (str "S2") TString
       (mkFieldOpts false false false [] (Some HashEncoding) 3 false 10)) = [].
Proof.
  apply (proj1 (proj2 C4_marshal_join)). reflexivity.
Defined.

(** C4 as stated fails: an inline field followed by a field that is not
    inline is not one of the claim's two special pairs, and yet no dollar
    is written between them. *)
Lemma C4_no_dollar_after_inline :
  Marshal inlineFields fooBar = Ok (str "foobar")
  /\ Marshal inlineFields fooBar <> Ok (str "foo$bar")
  /\ exists ti f1 f2,
       getTypeInfo inlineFields = Ok ti /\ Fields ti = [f1; f2]
       /\ Inline (Opts f1) = true /\ Inline (Opts f2) = false
       /\ Group (Opts f1) = false /\ Group (Opts f2) = false.
Proof.
  assert (H : Marshal inlineFields fooBar = Ok (str "foobar"))
    by (vm_compute; reflexivity).
  split; [exact H|]. split; [rewrite H; discriminate|].
  do 3 eexists. split; [vm_compute; reflexivity|].
  split; [reflexivity|]. repeat split.
Qed.

(** ** The schema compiler: parameter names *)

Example fieldOverride_compiles :
  exists ti f1 f2,
    getTypeInfo fieldOverride = Ok ti
    /\ Fields ti = [f1; f2]
    /\ Index f1 = [1] /\ Name f1 = str "S" /\ Name f2 = str "I"
    /\ NumReqValues ti = 3.
Proof.
  do 3 eexists. split; [vm_compute; reflexivity|]. repeat split.
Qed.

Example duplicatedParam_fails :
  getTypeInfo duplicatedParam =
  Err (ErrTagParam (mkTagParamError duplicatedParam (str "S2") (str "S1")
                      (str "param:x") (str "param:x"))).
Proof. vm_compute. reflexivity. Qed.

Section ParamNames.

Variable ti : typeInfo.
Variable p : gostring.

(** Every field of [ti] has a tag that [FieldByIndex] finds. *)
Hypothesis tags_found :
  Forall (fun f => tagOf (ti_Type ti) f <> None) (Fields ti).

Lemma fieldLess_true (g f : fieldInfo) :
  fieldLess g f = true -> depth g <= depth f.
Proof.
  unfold fieldLess, depth.
  destruct (Nat.eqb (length (Index g)) (length (Index f))) eqn:E; cbn [negb].
  - apply Nat.eqb_eq in E. lia.
  - intros H. apply Nat.ltb_lt in H. lia.
Qed.

Lemma fieldLess_false (g f : fieldInfo) :
  fieldLess g f = false -> depth f <= depth g.
Proof.
  unfold fieldLess, depth.
  destruct (Nat.eqb (length (Index g)) (length (Index f))) eqn:E; cbn [negb].
  - apply Nat.eqb_eq in E. lia.
  - intros H. apply Nat.ltb_ge in H. lia.
Qed.

Lemma insertField_In (f x : fieldInfo) (l : list fieldInfo) :
  In x (insertField f l) <-> x = f \/ In x l.
Proof.
  induction l as [|g l IH]; simpl.
  - intuition.
  - destruct (fieldLess g f); simpl; rewrite ?IH; intuition.
Qed.

Lemma sortFields_In (x : fieldInfo) (l : list fieldInfo) :
  In x (sortFields l) <-> In x l.
Proof.
  induction l as [|f l IH]; simpl; [reflexivity|].
  rewrite insertField_In, IH. intuition.
Qed.

(** The first field after the sort is one of the list and no field of the
    list is less deep. *)
Lemma sortFields_head (l : list fieldInfo) (g : fieldInfo) (l' : list fieldInfo) :
  sortFields l = g :: l' ->
  In g l /\ forall x, In x l -> depth g <= depth x.
Proof.
  revert g l'. induction l as [|f l IH]; intros g l' H; [discriminate|].
  simpl in H. destruct (sortFields l) as [|g0 s] eqn:E.
  - simpl in H. injection H as <- <-.
    assert (Hl : l = []).
    { destruct l as [|y l]; [reflexivity|].
      assert (Hy : In y (sortFields (y :: l))) by (apply sortFields_In; left; reflexivity).
      rewrite E in Hy. contradiction. }
    subst l. split; [left; reflexivity|].
    intros x [<-|[]]. lia.
  - destruct (IH g0 s eq_refl) as [Hin Hmin].
    simpl in H. destruct (fieldLess g0 f) eqn:Hless; injection H as <- <-.
    + apply fieldLess_true in Hless. split; [right; exact Hin|].
      intros x [<-|Hx]; [exact Hless|apply Hmin; exact Hx].
    + apply fieldLess_false in Hless. split; [left; reflexivity|].
      intros x [<-|Hx]; [lia|]. specialize (Hmin x Hx). lia.
Qed.

Lemma sortFields_nil (l : list fieldInfo) : sortFields l = [] -> l = [].
Proof.
  destruct l as [|y l]; [reflexivity|]. intros E.
  assert (Hy : In y (sortFields (y :: l))) by (apply sortFields_In; left; reflexivity).
  rewrite E in Hy. contradiction.
Qed.

Lemma find_depth_none (f : fieldInfo) (acc : list fieldInfo) :
  find (fun fi2 => Nat.eqb (length (Index f)) (length (Index fi2))) acc = None ->
  ~ In (depth f) (map depth acc).
Proof.
  intros H Hin. apply in_map_iff in Hin as (a & Ha & Hacc).
  apply (find_none _ _ H) in Hacc. apply Nat.eqb_neq in Hacc.
  unfold depth in Ha. congruence.
Qed.

Lemma NoDup_snoc (A : Type) (l : list A) (x : A) :
  NoDup l -> ~ In x l -> NoDup (l ++ [x]).
Proof.
  intros Hl Hx. induction Hl as [|y l Hy Hl IH]; simpl.
  - constructor; [intros []|constructor].
  - constructor.
    + rewrite in_app_iff. simpl. intros [H|[H|[]]]; [contradiction|].
      subst. apply Hx. left. reflexivity.
    + apply IH. intros H. apply Hx. right. exact H.
Qed.

(** When the first loop of [field] ends without a conflict it has
    collected the fields of the parameter, in order, and no two of them
    have one depth. *)
Lemma fieldCollect_Ok (rest acc fs : list fieldInfo) :
  fieldCollect ti p rest acc = Ok fs ->
  fs = acc ++ filter (hasParam p) rest
  /\ (NoDup (map depth acc) -> NoDup (map depth fs)).
Proof.
  revert acc. induction rest as [|fi1 rest IH]; intros acc H; simpl in H.
  - injection H as <-. rewrite app_nil_r. split; [reflexivity|auto].
  - simpl. unfold hasParam at 1.
    destruct (gostring_eqb (Param (Opts fi1)) p) eqn:E; cbn [negb] in H.
    + destruct (find _ acc) as [fi2|] eqn:F.
      * destruct (tagOf (ti_Type ti) fi1), (tagOf (ti_Type ti) fi2); discriminate.
      * destruct (IH _ H) as [-> Hnd].
        split; [rewrite <- app_assoc; reflexivity|].
        intros Hacc. apply Hnd. rewrite map_app. simpl.
        apply NoDup_snoc; [exact Hacc|]. apply find_depth_none. exact F.
    + apply IH. exact H.
Qed.

(** And it ends so whenever no two of these fields have one depth. *)
Lemma fieldCollect_NoDup (rest acc : list fieldInfo) :
  NoDup (map depth (acc ++ filter (hasParam p) rest)) ->
  fieldCollect ti p rest acc = Ok (acc ++ filter (hasParam p) rest).
Proof.
  revert acc. induction rest as [|fi1 rest IH]; intros acc H; simpl.
  - rewrite app_nil_r. reflexivity.
  - simpl in H. unfold hasParam at 1 in H. unfold hasParam at 1.
    destruct (gostring_eqb (Param (Opts fi1)) p) eqn:E; cbn [negb].
    + destruct (find _ acc) as [fi2|] eqn:F.
      * exfalso. apply find_some in F as [Hin Heq]. apply Nat.eqb_eq in Heq.
        rewrite map_app in H. simpl in H. apply NoDup_remove_2 in H.
        apply H. apply in_or_app. left. apply in_map_iff.
        exists fi2. split; [unfold depth; congruence|exact Hin].
      * replace (acc ++ fi1 :: filter (hasParam p) rest)
          with ((acc ++ [fi1]) ++ filter (hasParam p) rest)
          by (rewrite <- app_assoc; reflexivity).
        apply IH. rewrite <- app_assoc. exact H.
    + apply IH. exact H.
Qed.

(** A conflict that [field] reports names two fields of the parameter at
    one depth, the later one first, with their tags. *)
Lemma fieldCollect_Err (rest done acc : list fieldInfo) (e : ConfigError) :
  Fields ti = done ++ rest ->
  p <> [] ->
  (forall a, In a acc ->
     Param (Opts a) = p /\ exists d1 d2, done = d1 ++ a :: d2) ->
  fieldCollect ti p rest acc = Err e ->
  exists e' h1 h2,
    e = ErrTagParam e'
    /\ conflictAt (Fields ti) h1 h2
    /\ tpe_Struct e' = ti_Struct ti
    /\ Field1 e' = Name h2 /\ Field2 e' = Name h1
    /\ tagOf (ti_Type ti) h2 = Some (Tag1 e')
    /\ tagOf (ti_Type ti) h1 = Some (Tag2 e').
Proof.
  intros Hf Hp. revert done acc Hf.
  induction rest as [|fi1 rest IH]; intros done acc Hf Hacc H; simpl in H;
    [discriminate|].
  assert (Hf' : Fields ti = (done ++ [fi1]) ++ rest)
    by (rewrite <- app_assoc; exact Hf).
  assert (Hgrow : forall a, (exists d1 d2, done = d1 ++ a :: d2) ->
                            exists d1 d2, done ++ [fi1] = d1 ++ a :: d2).
  { intros a (d1 & d2 & ->). exists d1, (d2 ++ [fi1]).
    rewrite <- app_assoc. reflexivity. }
  destruct (gostring_eqb (Param (Opts fi1)) p) eqn:E; cbn [negb] in H.
  - apply gostring_eqb_eq in E.
    destruct (find _ acc) as [fi2|] eqn:F.
    + apply find_some in F as [Hin Heq]. apply Nat.eqb_eq in Heq.
      destruct (Hacc _ Hin) as (Hp2 & d1 & d2 & Hd).
      destruct (tagOf (ti_Type ti) fi1) as [tag1|] eqn:T1; [|destruct (tagOf (ti_Type ti) fi2); discriminate].
      destruct (tagOf (ti_Type ti) fi2) as [tag2|] eqn:T2; [|discriminate].
      injection H as <-. eexists. exists fi2, fi1.
      split; [reflexivity|]. split.
      * split.
        -- exists d1, d2, rest. rewrite Hf, Hd, <- app_assoc. reflexivity.
        -- split; [congruence|]. split; [congruence|]. unfold depth. congruence.
      * repeat split; assumption.
    + apply (IH (done ++ [fi1]) (acc ++ [fi1]) Hf'); [|exact H].
      intros a Ha. apply in_app_or in Ha as [Ha|[<-|[]]].
      * destruct (Hacc _ Ha) as [Hpa Hd]. split; [exact Hpa|apply Hgrow; exact Hd].
      * split; [exact E|]. exists done, []. reflexivity.
  - apply (IH (done ++ [fi1]) acc Hf'); [|exact H].
    intros a Ha. destruct (Hacc _ Ha) as [Hpa Hd].
    split; [exact Hpa|apply Hgrow; exact Hd].
Qed.

Lemma fieldCollect_no_Panic (rest acc : list fieldInfo) :
  (forall f, In f rest -> In f (Fields ti)) ->
  (forall f, In f acc -> In f (Fields ti)) ->
  fieldCollect ti p rest acc <> Panic.
Proof.
  revert acc. induction rest as [|fi1 rest IH]; intros acc Hr Ha; simpl;
    [discriminate|].
  assert (Hr' : forall f, In f rest -> In f (Fields ti))
    by (intros f Hf; apply Hr; right; exact Hf).
  destruct (gostring_eqb (Param (Opts fi1)) p); cbn [negb];
    [|apply IH; assumption].
  destruct (find _ acc) as [fi2|] eqn:F.
  - apply find_some in F as [Hin _].
    pose proof (proj1 (Forall_forall _ _) tags_found) as Ht.
    destruct (tagOf (ti_Type ti) fi1) eqn:T1;
      [|exfalso; apply (Ht fi1); [apply Hr; left; reflexivity|exact T1]].
    destruct (tagOf (ti_Type ti) fi2) eqn:T2;
      [discriminate|exfalso; apply (Ht fi2); [apply Ha; exact Hin|exact T2]].
  - apply IH; [exact Hr'|].
    intros f Hf. apply in_app_or in Hf as [Hf|[<-|[]]];
      [apply Ha; exact Hf|apply Hr; left; reflexivity].
Qed.

End ParamNames.

Lemma hasParam_true (p : gostring) (f : fieldInfo) :
  hasParam p f = true <-> Param (Opts f) = p.
Proof. unfold hasParam. apply gostring_eqb_eq. Qed.

Lemma hasParam_false (p : gostring) (f : fieldInfo) :
  Param (Opts f) <> p -> hasParam p f = false.
Proof.
  intros H. destruct (hasParam p f) eqn:E; [|reflexivity].
  apply hasParam_true in E. contradiction.
Qed.

(** The field that [field] returns is a field of the parameter, and none
    of them is less deep. *)
Lemma field_Ok (ti : typeInfo) (p : gostring) (g : fieldInfo) :
  field ti p = Ok g ->
  In g (Fields ti)
  /\ Param (Opts g) = p
  /\ (forall f, In f (Fields ti) -> Param (Opts f) = p -> depth g <= depth f)
  /\ NoDup (map depth (filter (hasParam p) (Fields ti))).
Proof.
  unfold field.
  destruct (fieldCollect ti p (Fields ti) []) as [fs|e|] eqn:E; try discriminate.
  destruct (fieldCollect_Ok _ _ _ _ E) as [-> Hnd]. simpl in *.
  destruct (sortFields (filter (hasParam p) (Fields ti))) as [|g0 s] eqn:S;
    [discriminate|].
  intros H. injection H as <-.
  destruct (sortFields_head _ S) as [Hin Hmin].
  apply filter_In in Hin as [Hin Hp]. apply hasParam_true in Hp.
  split; [exact Hin|]. split; [exact Hp|]. split.
  - intros f Hf Hpf. apply Hmin. apply filter_In.
    split; [exact Hf|apply hasParam_true; exact Hpf].
  - apply Hnd. constructor.
Qed.

Lemma field_NoDup (ti : typeInfo) (p : gostring) (f : fieldInfo) :
  NoDup (map depth (filter (hasParam p) (Fields ti))) ->
  In f (Fields ti) -> Param (Opts f) = p ->
  exists g, field ti p = Ok g.
Proof.
  intros Hnd Hf Hp. unfold field.
  rewrite (fieldCollect_NoDup ti p (Fields ti) []) by exact Hnd. simpl.
  destruct (sortFields (filter (hasParam p) (Fields ti))) as [|g s] eqn:S.
  - apply sortFields_nil in S.
    assert (Hin : In f (filter (hasParam p) (Fields ti)))
      by (apply filter_In; split; [exact Hf|apply hasParam_true; exact Hp]).
    rewrite S in Hin. contradiction.
  - exists g. reflexivity.
Qed.

Lemma field_Err (ti : typeInfo) (p : gostring) (e : ConfigError) :
  p <> [] ->
  field ti p = Err e ->
  exists e' h1 h2,
    e = ErrTagParam e'
    /\ conflictAt (Fields ti) h1 h2
    /\ tpe_Struct e' = ti_Struct ti
    /\ Field1 e' = Name h2 /\ Field2 e' = Name h1
    /\ tagOf (ti_Type ti) h2 = Some (Tag1 e')
    /\ tagOf (ti_Type ti) h1 = Some (Tag2 e').
Proof.
  intros Hp. unfold field.
  destruct (fieldCollect ti p (Fields ti) []) as [fs|e0|] eqn:E.
  - destruct (sortFields fs); discriminate.
  - intros H. injection H as <-.
    apply (@fieldCollect_Err ti p (Fields ti) [] [] e0); try assumption.
    + reflexivity.
    + intros a [].
  - discriminate.
Qed.

Lemma field_no_Panic (ti : typeInfo) (p : gostring) (f : fieldInfo) :
  Forall (fun f => tagOf (ti_Type ti) f <> None) (Fields ti) ->
  In f (Fields ti) -> Param (Opts f) = p ->
  field ti p <> Panic.
Proof.
  intros Ht Hf Hp. unfold field.
  destruct (fieldCollect ti p (Fields ti) []) as [fs|e0|] eqn:E.
  - destruct (fieldCollect_Ok _ _ _ _ E) as [-> _]. simpl.
    destruct (sortFields (filter (hasParam p) (Fields ti))) as [|g s] eqn:S;
      [|discriminate].
    apply sortFields_nil in S.
    assert (Hin : In f (filter (hasParam p) (Fields ti)))
      by (apply filter_In; split; [exact Hf|apply hasParam_true; exact Hp]).
    rewrite S in Hin. contradiction.
  - discriminate.
  - exfalso. revert E. apply fieldCollect_no_Panic; [exact Ht|auto|intros ? []].
Qed.

(** Two fields of one parameter at one depth are two equal depths among
    the fields of that parameter. *)
Lemma conflict_not_NoDup (fields : list fieldInfo) (g1 g2 : fieldInfo) :
  conflictAt fields g1 g2 ->
  ~ NoDup (map depth (filter (hasParam (Param (Opts g1))) fields)).
Proof.
  intros ((l1 & l2 & l3 & ->) & Hne & Hp & Hd) Hnd.
  rewrite filter_app in Hnd. simpl in Hnd.
  rewrite (proj2 (hasParam_true _ g1) eq_refl) in Hnd.
  rewrite filter_app in Hnd. simpl in Hnd.
  rewrite (proj2 (hasParam_true _ g2) Hp) in Hnd.
  rewrite map_app in Hnd. simpl in Hnd. apply NoDup_remove_2 in Hnd.
  apply Hnd. apply in_or_app. right. rewrite map_app. apply in_or_app. right.
  simpl. left. symmetry. exact Hd.
Qed.

Lemma no_conflict_NoDup (fields : list fieldInfo) (p : gostring) :
  (forall g1 g2, ~ conflictAt fields g1 g2) ->
  p <> [] ->
  NoDup (map depth (filter (hasParam p) fields)).
Proof.
  intros Hno Hp. induction fields as [|f fields IH]; simpl; [constructor|].
  assert (Hno' : forall g1 g2, ~ conflictAt fields g1 g2).
  { intros g1 g2 ((l1 & l2 & l3 & ->) & H). apply (Hno g1 g2).
    split; [|exact H]. exists (f :: l1), l2, l3. reflexivity. }
  destruct (hasParam p f) eqn:E; [|apply IH; exact Hno'].
  simpl. constructor; [|apply IH; exact Hno'].
  intros Hin. apply in_map_iff in Hin as (g & Hd & Hg).
  apply filter_In in Hg as [Hg Hpg].
  apply hasParam_true in E. apply hasParam_true in Hpg.
  apply in_split in Hg as (l2 & l3 & ->).
  apply (Hno f g). split; [exists [], l2, l3; reflexivity|].
  split; [congruence|]. split; [congruence|]. symmetry. exact Hd.
Qed.

Lemma existsb_params (p : gostring) (params : list gostring) :
  existsb (gostring_eqb p) params = true <-> In p params.
Proof.
  rewrite existsb_exists. split.
  - intros (x & Hx & E). apply gostring_eqb_eq in E. subst. exact Hx.
  - intros H. exists p. split; [exact H|apply gostring_eqb_refl].
Qed.

Lemma isValid_prefix_no_param (o : fieldOpts) :
  isValid o = true -> opt_Prefix o = true -> Param o = [].
Proof.
  unfold isValid. intros H Hp. rewrite Hp in H.
  destruct (gostring_eqb (Param o) []) eqn:E.
  - apply gostring_eqb_eq. exact E.
  - cbn [negb] in H. rewrite !andb_false_r in H. simpl in H.
    destruct (if OmitEmpty o then negb (Inline o) else true);
      destruct (if Group o then true else true); discriminate.
Qed.

Lemma paramsInv_done (ti : typeInfo) (done fields : list fieldInfo)
    (params : list gostring) (f : fieldInfo) :
  paramsInv ti done fields params ->
  (Param (Opts f) <> [] -> In (Param (Opts f)) params) ->
  paramsInv ti (done ++ [f]) fields params.
Proof.
  intros (H1 & H2 & H3) Hf. split; [exact H1|]. split; [exact H2|].
  intros x Hx. apply in_app_or in Hx as [Hx|[<-|[]]]; [apply H3; exact Hx|exact Hf].
Qed.

Lemma paramsInv_value (ti : typeInfo) (done fields : list fieldInfo)
    (params : list gostring) (f : fieldInfo) :
  paramsInv ti done fields params ->
  Param (Opts f) = [] ->
  paramsInv ti (done ++ [f]) (fields ++ [f]) params.
Proof.
  intros (H1 & H2 & H3) Hf.
  assert (Hfil : forall p, p <> [] ->
            filter (hasParam p) (fields ++ [f]) = filter (hasParam p) fields).
  { intros p Hp. rewrite filter_app. simpl.
    rewrite hasParam_false by congruence. apply app_nil_r. }
  split; [|split].
  - intros p Hp. destruct (H1 p Hp) as (Hne & g & Hg & Hfl).
    split; [exact Hne|]. exists g. split; [exact Hg|].
    rewrite Hfil by exact Hne. exact Hfl.
  - intros p Hp Hn. rewrite Hfil by exact Hp. apply H2; assumption.
  - intros x Hx. apply in_app_or in Hx as [Hx|[<-|[]]]; [apply H3; exact Hx|].
    intros Hc. contradiction.
Qed.

Lemma paramsInv_param (ti : typeInfo) (done fields : list fieldInfo)
    (params : list gostring) (f fi : fieldInfo) :
  paramsInv ti done fields params ->
  Param (Opts f) <> [] ->
  ~ In (Param (Opts f)) params ->
  field ti (Param (Opts f)) = Ok fi ->
  paramsInv ti (done ++ [f]) (fields ++ [fi]) (Param (Opts f) :: params).
Proof.
  intros (H1 & H2 & H3) Hne Hnin Hfi.
  destruct (field_Ok _ _ Hfi) as (_ & Hpfi & _).
  split; [|split].
  - intros p [<-|Hp].
    + split; [exact Hne|]. exists fi. split; [exact Hfi|].
      rewrite filter_app. simpl.
      rewrite (proj2 (hasParam_true _ fi) Hpfi).
      rewrite (H2 _ Hne Hnin). reflexivity.
    + destruct (H1 p Hp) as (Hpne & g & Hg & Hfl).
      split; [exact Hpne|]. exists g. split; [exact Hg|].
      rewrite filter_app. simpl.
      rewrite hasParam_false by (intros E; apply Hnin; congruence).
      rewrite Hfl. reflexivity.
  - intros p Hp Hn. rewrite filter_app. simpl.
    rewrite hasParam_false
      by (intros E; apply Hn; left; congruence).
    rewrite H2; [reflexivity|exact Hp|].
    intros Hc. apply Hn. right. exact Hc.
  - intros x Hx Hxp. apply in_app_or in Hx as [Hx|[<-|[]]].
    + right. apply H3; assumption.
    + left. reflexivity.
Qed.

(** The loop of [normalize] on a struct whose tags are all valid: it ends
    with the invariant on all the fields, or with the conflict that
    [field] reports; it does not panic. *)
Lemma normalizeLoop_spec (ti : typeInfo) :
  Forall (fun f => isValid (Opts f) = true) (Fields ti) ->
  Forall (fun f => tagOf (ti_Type ti) f <> None) (Fields ti) ->
  forall (rest done fields : list fieldInfo) (params : list gostring)
         (prefix : option fieldInfo) (numReq : nat),
    Fields ti = done ++ rest ->
    paramsInv ti done fields params ->
    match normalizeLoop ti rest fields params prefix numReq with
    | Ok ti' =>
        ti_Struct ti' = ti_Struct ti
        /\ exists params', paramsInv ti (Fields ti) (Fields ti') params'
    | Err e =>
        exists e' h1 h2,
          e = ErrTagParam e'
          /\ conflictAt (Fields ti) h1 h2
          /\ tpe_Struct e' = ti_Struct ti
          /\ Field1 e' = Name h2 /\ Field2 e' = Name h1
          /\ tagOf (ti_Type ti) h2 = Some (Tag1 e')
          /\ tagOf (ti_Type ti) h1 = Some (Tag2 e')
    | Panic => False
    end.
Proof.
  intros Hvalid Htags rest.
  induction rest as [|f rest IH]; intros done fields params prefix numReq Hf Hinv.
  - simpl. split; [reflexivity|]. exists params.
    rewrite app_nil_r in Hf. rewrite Hf. exact Hinv.
  - assert (Hin : In f (Fields ti))
      by (rewrite Hf; apply in_or_app; right; left; reflexivity).
    assert (Hv : isValid (Opts f) = true)
      by (exact (proj1 (Forall_forall _ _) Hvalid f Hin)).
    assert (Hf' : Fields ti = (done ++ [f]) ++ rest)
      by (rewrite <- app_assoc; exact Hf).
    cbn [normalizeLoop]. rewrite Hv. cbn [negb].
    destruct (opt_Prefix (Opts f)) eqn:Hpre.
    + apply (IH (done ++ [f])); [exact Hf'|].
      apply paramsInv_done; [exact Hinv|].
      intros Hne. exfalso. apply Hne.
      apply isValid_prefix_no_param; assumption.
    + destruct (gostring_eqb (Param (Opts f)) []) eqn:Eempty.
      * apply gostring_eqb_eq in Eempty.
        apply (IH (done ++ [f])); [exact Hf'|].
        apply paramsInv_value; assumption.
      * assert (Hne : Param (Opts f) <> []).
        { intros E. rewrite E in Eempty. discriminate. }
        destruct (existsb (gostring_eqb (Param (Opts f))) params) eqn:Eex.
        -- apply existsb_params in Eex.
           apply (IH (done ++ [f])); [exact Hf'|].
           apply paramsInv_done; [exact Hinv|]. intros _. exact Eex.
        -- assert (Hnin : ~ In (Param (Opts f)) params).
           { intros Hc. apply existsb_params in Hc. congruence. }
           destruct (field ti (Param (Opts f))) as [fi|e|] eqn:Efield.
           ++ apply (IH (done ++ [f])); [exact Hf'|].
              apply paramsInv_param; assumption.
           ++ exact (@field_Err ti _ _ Hne Efield).
           ++ exact (@field_no_Panic ti _ f Htags Hin eq_refl Efield).
Qed.

Lemma NoDup_map_inj (A B : Type) (f : A -> B) (l : list A) (x y : A) :
  NoDup (map f l) -> In x l -> In y l -> f x = f y -> x = y.
Proof.
  induction l as [|a l IH]; intros Hnd Hx Hy E; [contradiction|].
  simpl in Hnd. inversion Hnd as [|? ? Hna Hnd']; subst.
  destruct Hx as [<-|Hx], Hy as [<-|Hy].
  - reflexivity.
  - exfalso. apply Hna. rewrite E. apply in_map. exact Hy.
  - exfalso. apply Hna. rewrite <- E. apply in_map. exact Hx.
  - apply IH; assumption.
Qed.

(** C9. For a struct type whose tags are all valid option combinations
    (and can be looked up by index path): when no two fields have one
    parameter name at one depth, the schema compiles, and for every
    parameter name of the struct the compiled list has exactly one field
    of that name, which is a field of the struct less deep than every
    other field of the name; when two fields have one parameter name at
    one depth, compilation fails with a [TagParamError] that names two
    such fields, the later one first, and their tags. *)
Theorem C9_param_conflicts :
  forall t : gotype,
    Forall (fun f => isValid (Opts f) = true) (Fields (rawInfo t)) ->
    Forall (fun f => tagOf (ti_Type (rawInfo t)) f <> None) (Fields (rawInfo t)) ->
    ((forall g1 g2, ~ conflictAt (Fields (rawInfo t)) g1 g2) ->
     exists ti',
       getTypeInfo t = Ok ti'
       /\ forall f, In f (Fields (rawInfo t)) -> Param (Opts f) <> [] ->
            exists g,
              filter (hasParam (Param (Opts f))) (Fields ti') = [g]
              /\ In g (Fields (rawInfo t))
              /\ Param (Opts g) = Param (Opts f)
              /\ forall f', In f' (Fields (rawInfo t)) ->
                   Param (Opts f') = Param (Opts f) ->
                   f' = g \/ depth g < depth f')
    /\ (forall g1 g2, conflictAt (Fields (rawInfo t)) g1 g2 ->
        exists e h1 h2,
          getTypeInfo t = Err (ErrTagParam e)
          /\ conflictAt (Fields (rawInfo t)) h1 h2
          /\ tpe_Struct e = t
          /\ Field1 e = Name h2 /\ Field2 e = Name h1
          /\ tagOf (indirectType t) h2 = Some (Tag1 e)
          /\ tagOf (indirectType t) h1 = Some (Tag2 e)).
Proof.
  intros t Hvalid Htags.
  pose proof (@normalizeLoop_spec (rawInfo t) Hvalid Htags
                (Fields (rawInfo t)) [] [] [] None 0 eq_refl) as Hspec.
  assert (Hinv0 : paramsInv (rawInfo t) [] [] []).
  { split; [intros p []|]. split; [reflexivity|intros f []]. }
  specialize (Hspec Hinv0).
  change (normalizeLoop (rawInfo t) (Fields (rawInfo t)) [] [] None 0)
    with (getTypeInfo t) in Hspec.
  split.
  - intros Hno. destruct (getTypeInfo t) as [ti'|e|].
    + exists ti'. split; [reflexivity|]. intros f Hf Hne.
      destruct Hspec as (_ & params' & H1 & _ & H3).
      destruct (H1 _ (H3 f Hf Hne)) as (_ & g & Hg & Hfl).
      destruct (field_Ok _ _ Hg) as (Hin & Hp & Hmin & Hnd).
      exists g. split; [exact Hfl|]. split; [exact Hin|]. split; [exact Hp|].
      intros f' Hf' Hp'. specialize (Hmin f' Hf' Hp').
      destruct (Nat.eq_dec (depth g) (depth f')) as [E|E]; [left|right; lia].
      symmetry. apply (NoDup_map_inj depth _ g f' Hnd); [| |exact E];
        apply filter_In; split; try assumption; apply hasParam_true; assumption.
    + exfalso. destruct Hspec as (e' & h1 & h2 & _ & Hc & _).
      exact (Hno h1 h2 Hc).
    + contradiction.
  - intros g1 g2 Hc. destruct (getTypeInfo t) as [ti'|e|].
    + exfalso. destruct Hspec as (_ & params' & H1 & _ & H3).
      destruct Hc as (Hdec & Hne & Hp & Hd).
      assert (Hin1 : In g1 (Fields (rawInfo t))).
      { destruct Hdec as (l1 & l2 & l3 & ->). apply in_or_app. right. left.
        reflexivity. }
      destruct (H1 _ (H3 g1 Hin1 Hne)) as (_ & g & Hg & _).
      destruct (field_Ok _ _ Hg) as (_ & _ & _ & Hnd).
      apply (@conflict_not_NoDup (Fields (rawInfo t)) g1 g2); [|exact Hnd].
      split; [exact Hdec|]. split; [exact Hne|]. split; assumption.
    + destruct Hspec as (e' & h1 & h2 & -> & Hc' & Hs & Hrest).
      exists e', h1, h2. split; [reflexivity|]. split; [exact Hc'|].
      split; [exact Hs|exact Hrest].
    + contradiction.
Qed.

(** The tests "field override" and "duplicated param name". *)
Lemma C9_param_conflicts_witness :
  (exists ti',
      getTypeInfo fieldOverride = Ok ti'
      /\ exists g,
           filter (hasParam (str "s")) (Fields ti') = [g]
           /\ In g (Fields (rawInfo fieldOverride))
           /\ Param (Opts g) = str "s")
  /\ (exists e h1 h2,
        getTypeInfo duplicatedParam = Err (ErrTagParam e)
        /\ conflictAt (Fields (rawInfo duplicatedParam)) h1 h2
        /\ tpe_Struct e = duplicatedParam
        /\ Field1 e = Name h2 /\ Field2 e = Name h1
        /\ tagOf (indirectType duplicatedParam) h2 = Some (Tag1 e)
        /\ tagOf (indirectType duplicatedParam) h1 = Some (Tag2 e)).
Proof.
  split.
  - assert (Hvalid : Forall (fun f => isValid (Opts f) = true)
                       (Fields (rawInfo fieldOverride)))
      by (repeat constructor).
    assert (Htags : Forall (fun f => tagOf (ti_Type (rawInfo fieldOverride)) f <> None)
                      (Fields (rawInfo fieldOverride)))
      by (repeat constructor; discriminate).
    destruct (proj1 (C9_param_conflicts fieldOverride Hvalid Htags))
      as (ti' & Hti & Hall).
    + intros g1 g2 ((l1 & l2 & l3 & H) & Hne & Hp & Hd).
      change (Fields (rawInfo fieldOverride))
        with [mkFieldInfo [0; 0] (str "S") TString
                (mkFieldOpts false false false (str "s") (Some HashEncoding) 0 false 10);
              mkFieldInfo [1] (str "S") TString
                (mkFieldOpts false false false (str "s") (Some HashEncoding) 0 false 10);
              mkFieldInfo [2] (str "I") (TInt 64)
                (mkFieldOpts false false false [] (Some HashEncoding) 0 false 10)]
        in H.
      destruct l1 as [|a1 [|a2 [|a3 l1]]]; simpl in H.
      * injection H as <- H. destruct l2 as [|b1 [|b2 l2]]; simpl in H.
        -- injection H as <- _. discriminate Hd.
        -- injection H as _ <- _. discriminate Hp.
        -- destruct l2; discriminate H.
      * injection H as _ <- H. destruct l2 as [|b1 l2]; simpl in H.
        -- injection H as <- _. discriminate Hp.
        -- destruct l2; discriminate H.
      * injection H as _ _ <- H. destruct l2; discriminate H.
      * destruct l1; discriminate H.
    + exists ti'. split; [exact Hti|].
      destruct (Hall (mkFieldInfo [1] (str "S") TString
                        (mkFieldOpts false false false (str "s")
                           (Some HashEncoding) 0 false 10)))
        as (g & Hg & Hin & Hpg & _).
      * right. left. reflexivity.
      * discriminate.
      * exists g. split; [exact Hg|]. split; [exact Hin|exact Hpg].
  - assert (Hvalid : Forall (fun f => isValid (Opts f) = true)
                       (Fields (rawInfo duplicatedParam)))
      by (repeat constructor).
    assert (Htags : Forall (fun f => tagOf (ti_Type (rawInfo duplicatedParam)) f <> None)
                      (Fields (rawInfo duplicatedParam)))
      by (repeat constructor; discriminate).
    apply (proj2 (C9_param_conflicts duplicatedParam Hvalid Htags)
             (mkFieldInfo [0] (str "S1") TString
                (mkFieldOpts false false false (str "x") (Some HashEncoding) 0 false 10))
             (mkFieldInfo [1] (str "S2") TString
                (mkFieldOpts false false false (str "x") (Some HashEncoding) 0 false 10))).
    split; [exists [], [], []; reflexivity|].
    split; [discriminate|]. split; reflexivity.
Defined.

(** ** Round trip of plain text fields *)

Lemma index_eqb_eq (a b : list nat) : index_eqb a b = true <-> a = b.
Proof.
  revert b. induction a as [|x a IH]; intros [|y b]; simpl; split;
    try congruence; try reflexivity.
  - intros H. apply andb_true_iff in H as [H1 H2].
    apply Nat.eqb_eq in H1. apply IH in H2. congruence.
  - intros H. injection H as -> ->. apply andb_true_iff. split.
    + apply Nat.eqb_refl.
    + apply IH. reflexivity.
Qed.

Lemma setField_same (r : record) (idx : list nat) (v : govalue) :
  setField r idx v idx = v.
Proof.
  unfold setField. rewrite (proj2 (index_eqb_eq idx idx) eq_refl). reflexivity.
Qed.

Lemma setField_other (r : record) (idx i : list nat) (v : govalue) :
  i <> idx -> setField r idx v i = r i.
Proof.
  intros H. unfold setField. destruct (index_eqb i idx) eqn:E; [|reflexivity].
  apply index_eqb_eq in E. contradiction.
Qed.

Lemma replaceNth_same (A : Type) (l : list A) (n : nat) (x : A) :
  nth_error l n = Some x -> replaceNth l n x = l.
Proof.
  revert n. induction l as [|y l IH]; intros [|n] H; simpl in *;
    try discriminate.
  - injection H as ->. reflexivity.
  - f_equal. apply IH. exact H.
Qed.

Lemma writeValue_same (fs : list FragmentNode) (i : nat) (v : ValueNode) :
  nth_error fs i = Some (FValue v) -> writeValue fs i 0 (Value v) = fs.
Proof.
  intros H. unfold writeValue. rewrite H.
  replace (setValueText v (Value v)) with v by (destruct v; reflexivity).
  apply replaceNth_same. exact H.
Qed.

Lemma skipn_nth_error (A : Type) (l : list A) (i : nat) (x : A) :
  nth_error l i = Some x -> skipn i l = x :: skipn (S i) l.
Proof.
  revert l. induction i as [|i IH]; intros [|y l] H; simpl in *;
    try discriminate.
  - injection H as ->. reflexivity.
  - apply IH. exact H.
Qed.

Lemma segment_cons (A : Type) (l : list A) (i j : nat) (x : A) :
  nth_error l i = Some x -> i < j ->
  firstn (j - i) (skipn i l) = x :: firstn (j - S i) (skipn (S i) l).
Proof.
  intros H Hlt. rewrite (skipn_nth_error _ _ H).
  replace (j - i) with (S (j - S i)) by lia. reflexivity.
Qed.

Lemma joinWith_cons (s : gostring) (l : list gostring) :
  joinWith "$" (s :: l) = s ++ emitJoin true l.
Proof.
  revert s. induction l as [|s' l IH]; intros s.
  - simpl. rewrite app_nil_r. reflexivity.
  - change (joinWith "$" (s :: s' :: l))
      with (s ++ "$"%char :: joinWith "$" (s' :: l)).
    rewrite IH. reflexivity.
Qed.

Lemma emitJoin_joinWith (l : list gostring) :
  emitJoin false l = joinWith "$" l.
Proof.
  destruct l as [|s l]; [reflexivity|].
  rewrite joinWith_cons. reflexivity.
Qed.

Lemma isTextType_cases (t : gotype) :
  isTextType t = true -> t = TString \/ t = TSlice (TUint 8).
Proof.
  destruct t as [| | | | |e| | |]; try discriminate; [left; reflexivity|].
  destruct e as [|b| | | | | | |]; try discriminate.
  do 9 (destruct b as [|b]; try discriminate).
  right. reflexivity.
Qed.

(** A plain field that [unmarshal] accepts holds the text of its value
    node afterwards, and [marshalValue] gives that text back. *)
Lemma plain_unmarshal (t : gotype) (ti : typeInfo) (f : fieldInfo)
    (v : ValueNode) (old : option govalue) (x : govalue) (remaining : gostring) :
  plainField f = true ->
  unmarshal (NValue v) ti f old = Ok (x, remaining) ->
  remaining = Value v
  /\ x = textValue (Type_ f) (Value v)
  /\ wrapPointers (Type_ f) x = x
  /\ marshalValue t f (Some x) = Ok (Value v).
Proof.
  unfold plainField. intros H.
  apply andb_true_iff in H as [H Ht].
  apply andb_true_iff in H as [H Hi].
  apply andb_true_iff in H as [Hp Hg].
  apply negb_true_iff in Hi.
  unfold unmarshal, marshalValue, marshal, decodeValue.
  rewrite Hp, Hi. cbn [negb Node_String].
  destruct (isTextType_cases _ Ht) as [E|E]; rewrite E;
    cbn [indirectType stripNamed methodsOf MarshalText UnmarshalText kindOf
         elemIsUint8 isUint8 textValue wrapPointers];
    destruct (0 <? Length (Opts f)) eqn:EL;
    try destruct (Nat.eqb (length (Value v)) (Length (Opts f))) eqn:En;
    cbn [negb andb];
    try discriminate;
    destruct (Encoding_ (Opts f)) as [enc|];
    try destruct (IndexAnyInvalid enc (Value v)) eqn:Einv;
    try discriminate;
    destruct (opt_Prefix (Opts f)); cbn [negb andb];
    try discriminate;
    intros H; injection H as <- <-; repeat split; try reflexivity;
    cbn [andb negb]; rewrite ?EL, ?En, ?Einv; cbn [andb negb];
    rewrite ?Einv; reflexivity.
Qed.

(** One round of the loop of [Unmarshal] on a plain field, with no group
    open: the field is left as it was (only when it is omitempty), or it
    takes the text of the value fragment at the cursor, which moves on. *)
Lemma plain_step (t : gotype) (hashLen : nat) (ti : typeInfo) (f : fieldInfo)
    (st st1 : ustate) :
  plainField f = true ->
  group st = None ->
  unmarshalField hashLen ti f st = Ok st1 ->
  group st1 = None /\ frags st1 = frags st
  /\ ((OmitEmpty (Opts f) = true /\ fragIdx st1 = fragIdx st
       /\ rec st1 = rec st)
      \/ (exists v,
             nth_error (frags st) (fragIdx st) = Some (FValue v)
             /\ fragIdx st1 = fragIdx st + 1
             /\ rec st1 = setField (rec st) (Index f)
                            (textValue (Type_ f) (Value v))
             /\ marshalValue t f (Some (textValue (Type_ f) (Value v)))
                = Ok (Value v))).
Proof.
  intros Hplain Hg.
  pose proof Hplain as Hp0. unfold plainField in Hp0.
  apply andb_true_iff in Hp0 as [Hp0 _].
  apply andb_true_iff in Hp0 as [Hp0 Hinl]. apply negb_true_iff in Hinl.
  apply andb_true_iff in Hp0 as [Hpar Hgr]. apply negb_true_iff in Hgr.
  unfold unmarshalField, endOfGroup. rewrite Hg.
  destruct (length (frags st) <=? fragIdx st).
  - destruct (OmitEmpty (Opts f)) eqn:Hom; [|discriminate].
    intros H. injection H as <-. repeat split; try assumption.
    left. repeat split.
  - destruct (OmitEmpty (Opts f)) eqn:Hom; rewrite ?Hg; cbn [andb].
    + destruct (numValues st - numReqValues st <=? 0)%Z.
      * intros H. injection H as <-. cbn. repeat split; try assumption.
        left. repeat split.
      * destruct (nth_error (frags st) (fragIdx st)) as [frag|] eqn:Hn;
          [|discriminate].
        unfold bindFragment. rewrite Hgr, Hom, Hpar. cbn [andb negb orb].
        destruct frag as [v|g].
        -- unfold bind.
           destruct (unmarshal (NValue v) ti f (indirect (rec st (Index f))))
             as [[x remaining]|e|] eqn:E; try discriminate.
           destruct (plain_unmarshal t _ _ _ _ Hplain E) as (-> & -> & Hw & Hm).
           intros H. injection H as <-. cbn. rewrite Hw, Hinl.
           split; [exact Hg|]. split; [apply writeValue_same; exact Hn|].
           right. exists v. repeat split. exact Hm.
        -- intros H. injection H as <-. repeat split; try assumption.
           left. repeat split.
    + destruct (nth_error (frags st) (fragIdx st)) as [frag|] eqn:Hn;
        [|discriminate].
      unfold bindFragment. rewrite Hgr, Hom, Hpar. cbn [andb negb orb].
      destruct frag as [v|g].
      * unfold bind.
        destruct (unmarshal (NValue v) ti f (indirect (rec st (Index f))))
          as [[x remaining]|e|] eqn:E; try discriminate.
        destruct (plain_unmarshal t _ _ _ _ Hplain E) as (-> & -> & Hw & Hm).
        intros H. injection H as <-. cbn. rewrite Hw, Hinl.
        split; [exact Hg|]. split; [apply writeValue_same; exact Hn|].
        right. exists v. repeat split. exact Hm.
      * unfold notFound. destruct (FragmentNode_End (FGroup g)); discriminate.
Qed.

Lemma indirect_textValue (t : gotype) (s : gostring) :
  indirect (textValue t s) = Some (textValue t s).
Proof. destruct t; reflexivity. Qed.

Lemma isEmpty_textValue (t : gotype) (s : gostring) :
  s <> [] -> isEmpty (textValue t s) = false.
Proof. intros H. destruct s; [contradiction|]. destruct t; reflexivity. Qed.

Lemma plainField_opts (f : fieldInfo) :
  plainField f = true ->
  Param (Opts f) = [] /\ Group (Opts f) = false /\ Inline (Opts f) = false.
Proof.
  unfold plainField. intros H.
  apply andb_true_iff in H as [H _].
  apply andb_true_iff in H as [H Hi]. apply negb_true_iff in Hi.
  apply andb_true_iff in H as [Hp Hg]. apply negb_true_iff in Hg.
  apply gostring_eqb_eq in Hp. repeat split; assumption.
Qed.

Lemma not_existsb_index (i : list nat) (l : list (list nat)) :
  existsb (index_eqb i) l = false -> ~ In i l.
Proof.
  intros H Hin.
  assert (E : existsb (index_eqb i) l = true).
  { apply existsb_exists. exists i. split; [exact Hin|].
    apply index_eqb_eq. reflexivity. }
  congruence.
Qed.

(** The loop of [Unmarshal] over plain fields, and the loop of [Marshal]
    over the same fields on the struct it leaves: [Marshal] writes the
    texts of the fragments that [Unmarshal] went through, joined by
    dollars. *)
Lemma roundtrip_fields (t : gotype) (hashLen : nat) (ti : typeInfo) :
  forall (fields : list fieldInfo) (st st' : ustate),
    forallb plainField fields = true ->
    distinctIndices (map Index fields) = true ->
    group st = None ->
    forallb (fun f => isEmpty (rec st (Index f))) fields = true ->
    (forall v, In (FValue v) (frags st) -> Value v <> []) ->
    unmarshalFields hashLen ti fields st = Ok st' ->
    group st' = None /\ frags st' = frags st /\ fragIdx st <= fragIdx st'
    /\ (forall idx, ~ In idx (map Index fields) -> rec st' idx = rec st idx)
    /\ (forall buf prev,
          (forall p, prev = Some p -> Inline (Opts p) = false) ->
          marshalLoop t (rec st') fields buf prev =
          Ok (buf ++
              emitJoin (match prev with Some _ => true | None => false end)
                (map fragmentText
                   (firstn (fragIdx st' - fragIdx st)
                      (skipn (fragIdx st) (frags st)))))).
Proof.
  induction fields as [|f fields IH];
    intros st st' Hplain Hdist Hg Hzero Hne Hrun.
  - simpl in Hrun. injection Hrun as <-.
    split; [exact Hg|]. split; [reflexivity|]. split; [lia|].
    split; [reflexivity|]. intros buf prev _.
    rewrite Nat.sub_diag. simpl. rewrite app_nil_r. reflexivity.
  - cbn [forallb] in Hplain, Hzero.
    apply andb_true_iff in Hplain as [Hpf Hplain].
    apply andb_true_iff in Hzero as [Hzf Hzero].
    cbn [map distinctIndices] in Hdist.
    apply andb_true_iff in Hdist as [Hfresh Hdist].
    apply negb_true_iff in Hfresh. apply not_existsb_index in Hfresh.
    destruct (plainField_opts _ Hpf) as (Hpar & Hgr & Hinl).
    cbn [unmarshalFields] in Hrun.
    destruct (unmarshalField hashLen ti f st) as [st1|e|] eqn:Estep;
      try discriminate.
    destruct (plain_step t _ _ _ _ Hpf Hg Estep) as (Hg1 & Hfr1 & Hcase).
    assert (Hzero1 : forallb (fun f0 => isEmpty (rec st1 (Index f0))) fields = true).
    { apply forallb_forall. intros f' Hf'.
      pose proof (proj1 (forallb_forall _ _) Hzero f' Hf') as Hz.
      destruct Hcase as [(_ & _ & ->)|(v & _ & _ & -> & _)]; [exact Hz|].
      rewrite setField_other; [exact Hz|].
      intros E. apply Hfresh. rewrite <- E. apply in_map. exact Hf'. }
    assert (Hne1 : forall v, In (FValue v) (frags st1) -> Value v <> [])
      by (rewrite Hfr1; exact Hne).
    destruct (IH st1 st' Hplain Hdist Hg1 Hzero1 Hne1 Hrun)
      as (Hg' & Hfr' & Hle & Hstable & Hmarshal).
    split; [exact Hg'|]. split; [congruence|].
    assert (Hhead : rec st' (Index f) = rec st1 (Index f))
      by (apply Hstable; exact Hfresh).
    destruct Hcase as [(Hom & Hidx & Hrec)|(v & Hnth & Hidx & Hrec & Hm)].
    + split; [lia|]. split.
      * intros idx Hidx'. rewrite Hstable, Hrec; [reflexivity|].
        intros Hc. apply Hidx'. right. exact Hc.
      * intros buf prev Hprev. cbn [marshalLoop].
        rewrite Hhead, Hrec, Hom, Hzf. cbn [andb].
        rewrite (Hmarshal buf prev Hprev), Hidx, Hfr1. reflexivity.
    + split; [lia|]. split.
      * intros idx Hidx'. rewrite Hstable, Hrec.
        -- apply setField_other. intros E. apply Hidx'. left. congruence.
        -- intros Hc. apply Hidx'. right. exact Hc.
      * intros buf prev Hprev. cbn [marshalLoop].
        assert (Hv : Value v <> []).
        { apply Hne. apply nth_error_In with (n := fragIdx st). exact Hnth. }
        rewrite Hhead, Hrec, setField_same.
        rewrite (isEmpty_textValue _ Hv), andb_false_r.
        rewrite indirect_textValue, Hm, Hpar. cbn [gostring_eqb negb].
        rewrite Hmarshal by (intros p0 Hp0; injection Hp0 as <-; exact Hinl).
        rewrite Hfr1, Hidx.
        rewrite (@segment_cons _ (frags st) (fragIdx st) (fragIdx st') (FValue v))
          by (exact Hnth || lia).
        replace (fragIdx st + 1) with (S (fragIdx st)) by lia.
        cbn [map emitJoin]. unfold fragmentText at 2. cbn [valuesOf map joinWith].
        f_equal. unfold separator.
        destruct prev as [p0|].
        -- rewrite (Hprev p0 eq_refl), Hgr, andb_false_r. cbn [negb].
           rewrite <- !app_assoc. reflexivity.
        -- rewrite app_nil_r, <- !app_assoc. reflexivity.
Qed.

(** The prefix step of [Unmarshal] on a plain prefix field, and what
    [Marshal] writes first on the struct it leaves. *)
Lemma prefix_roundtrip (t : gotype) (hashLen : nat) (ti : typeInfo)
    (tree : Tree) (r0 r1 : record) :
  match HashPrefix ti with Some pf => plainPrefix pf | None => true end = true ->
  prefixAgrees ti tree = true ->
  match HashPrefix ti with
  | Some pf => r0 (Index pf) = VString []
  | None => True
  end ->
  unmarshalPrefix hashLen ti tree r0 = Ok r1 ->
  match HashPrefix ti with
  | Some pf => marshalValue t pf (indirect (r1 (Index pf)))
  | None => Ok []
  end = Ok (match Prefix tree with Some p => Text p | None => [] end)
  /\ (forall idx,
        match HashPrefix ti with Some pf => idx <> Index pf | None => True end ->
        r1 idx = r0 idx).
Proof.
  unfold unmarshalPrefix, prefixAgrees.
  destruct (HashPrefix ti) as [pf|]; destruct (Prefix tree) as [p|];
    intros Hplain Hagree Hzero Hrun; try discriminate.
  - unfold plainPrefix in Hplain.
    apply andb_true_iff in Hplain as [Hplain Hty].
    apply andb_true_iff in Hplain as [Hpar Hinl].
    apply negb_true_iff in Hinl.
    destruct (Type_ pf) eqn:Ety; try discriminate.
    revert Hrun. unfold unmarshal, decodeValue, marshalValue, marshal.
    rewrite Hpar, Hinl, Ety.
    cbn [negb Node_String indirectType stripNamed methodsOf MarshalText
         UnmarshalText kindOf wrapPointers andb].
    rewrite andb_false_r.
    destruct (0 <? Length (Opts pf)) eqn:EL;
      try destruct (Nat.eqb (length (Text p)) (Length (Opts pf))) eqn:En;
      cbn [negb andb]; try discriminate;
      destruct (Encoding_ (Opts pf)) as [enc|];
      try destruct (IndexAnyInvalid enc (Text p)) eqn:Einv;
      try discriminate;
      intros H; injection H as <-; (split; [|intros idx Hidx; apply setField_other; exact Hidx]);
      rewrite setField_same; cbn [indirect andb negb];
      rewrite ?EL, ?En, ?Einv; cbn [andb negb]; rewrite ?Einv; reflexivity.
  - destruct (OmitEmpty (Opts pf)); cbn [negb] in Hrun; [|discriminate].
    injection Hrun as <-. split; [|reflexivity].
    apply Nat.eqb_eq in Hagree.
    unfold plainPrefix in Hplain.
    apply andb_true_iff in Hplain as [_ Hty].
    destruct (Type_ pf) eqn:Ety; try discriminate.
    rewrite Hzero. unfold marshalValue, marshal. rewrite Ety, Hagree.
    cbn [indirect indirectType stripNamed methodsOf MarshalText kindOf
         andb negb Nat.ltb Nat.leb length].
    rewrite andb_false_r.
    destruct (Encoding_ (Opts pf)); reflexivity.
  - injection Hrun as <-. split; reflexivity.
Qed.

(** Plain text fields, where the round trip needs no look at what was
    read. For a schema of plain text fields (strings and byte slices
    bound to a fragment of their own, omitempty or not, with any length
    and encoding, and a string prefix field or none), an input that is
    the text of its own parse tree, has no empty fragment and has a
    prefix only when the schema has a prefix field, and a struct that is
    the zero value: when [Unmarshal] succeeds, [Marshal] of the struct it
    leaves gives the input back. *)
Lemma round_trip_plain :
  forall (s : gostring) (t : gotype) (ti : typeInfo) (tree : Tree)
         (r0 r : record),
    Parse s = Ok tree ->
    getTypeInfo t = Ok ti ->
    plainSchema ti = true ->
    prefixAgrees ti tree = true ->
    noEmptyFragment tree = true ->
    isZeroFor ti r0 = true ->
    treeText tree = s ->
    Unmarshal s t r0 = Ok r ->
    Marshal t r = Ok s.
Proof.
  intros s t ti tree r0 r Hparse Hti Hschema Hagree Hnoempty Hzero Htext.
  unfold plainSchema in Hschema.
  apply andb_true_iff in Hschema as [Hschema Hdist].
  apply andb_true_iff in Hschema as [Hplain Hpre].
  unfold isZeroFor in Hzero. apply andb_true_iff in Hzero as [Hzf Hzp].
  unfold Unmarshal, Marshal.
  destruct (kindOf t); try discriminate.
  destruct (kindOf (indirectType t)); try discriminate.
  rewrite Hparse, Hti. unfold unmarshalTree, marshalWith.
  destruct (unmarshalPrefix (length s) ti tree r0) as [r1|e|] eqn:Epre;
    try discriminate.
  destruct (unmarshalFields (length s) ti (Fields ti) _) as [st'|e|] eqn:Erun;
    try discriminate.
  assert (Hzp' : match HashPrefix ti with
                 | Some pf => r0 (Index pf) = VString []
                 | None => True
                 end).
  { destruct (HashPrefix ti) as [pf|]; [|exact I].
    destruct (r0 (Index pf)) as [| |[|]| | |]; try discriminate. reflexivity. }
  destruct (prefix_roundtrip t _ _ _ _ Hpre Hagree Hzp' Epre) as [Hstart Hr1].
  assert (Hfresh : match HashPrefix ti with
                   | Some pf => ~ In (Index pf) (map Index (Fields ti))
                   | None => True
                   end
                   /\ distinctIndices (map Index (Fields ti)) = true).
  { unfold schemaIndices in Hdist. destruct (HashPrefix ti) as [pf|].
    - cbn [app distinctIndices] in Hdist.
      apply andb_true_iff in Hdist as [H1 H2]. apply negb_true_iff in H1.
      split; [apply not_existsb_index; exact H1|exact H2].
    - split; [exact I|exact Hdist]. }
  destruct Hfresh as [Hfresh Hdist'].
  set (st0 := mkUstate 0 0 None (Z.of_nat (length (Fragments tree)))
                (Z.of_nat (NumReqValues ti)) (Fragments tree) r1) in *.
  assert (Hz1 : forallb (fun f => isEmpty (rec st0 (Index f))) (Fields ti) = true).
  { apply forallb_forall. intros f Hf. cbn [rec st0].
    rewrite Hr1; [exact (proj1 (forallb_forall _ _) Hzf f Hf)|].
    destruct (HashPrefix ti) as [pf|]; [|exact I].
    intros E. apply Hfresh. rewrite <- E. apply in_map. exact Hf. }
  assert (Hne : forall v, In (FValue v) (frags st0) -> Value v <> []).
  { intros v Hv. cbn [frags st0] in Hv.
    pose proof (proj1 (forallb_forall _ _) Hnoempty _ Hv) as H.
    cbn in H. apply negb_true_iff in H. apply Nat.eqb_neq in H.
    intros E. rewrite E in H. apply H. reflexivity. }
  destruct (@roundtrip_fields t (length s) ti (Fields ti) st0 st'
              Hplain Hdist' eq_refl Hz1 Hne Erun)
    as (Hg' & Hfr' & _ & Hstable & Hmarshal).
  unfold afterFields. rewrite Hg'.
  destruct (fragIdx st' <? length (frags st')) eqn:Elt.
  { destruct (nth_error (frags st') (fragIdx st')) as [frag|]; [|discriminate].
    destruct (FragmentNode_End frag); discriminate. }
  intros H. injection H as <-.
  assert (Hpre_eq : match HashPrefix ti with
                    | Some p => marshalValue t p (indirect (rec st' (Index p)))
                    | None => Ok []
                    end
                    = Ok (match Prefix tree with Some p => Text p | None => [] end)).
  { rewrite <- Hstart. destruct (HashPrefix ti) as [pf|]; [|reflexivity].
    rewrite (Hstable _ Hfresh). reflexivity. }
  rewrite Hpre_eq, Hmarshal by discriminate.
  cbn [fragIdx frags st0]. rewrite Nat.sub_0_r. cbn [skipn].
  apply Nat.ltb_ge in Elt. rewrite Hfr' in Elt. cbn [frags st0] in Elt.
  rewrite firstn_all2 by exact Elt.
  rewrite emitJoin_joinWith. f_equal. exact Htext.
Qed.

(** The test "optional fields": [$test$a$b$c]. *)
Lemma round_trip_plain_example :
  Marshal optionalFields optionalResult = Ok optionalInput.
Proof.
  apply (@round_trip_plain optionalInput optionalFields optionalInfo
           optionalTree zeroRecord optionalResult);
    vm_compute; reflexivity.
Defined.


(** Other inputs that [Unmarshal] accepts and [Marshal] does not give
    back: a number with leading zeros, the entries of a group in another
    order than the fields, and an empty text bound to an omitempty
    field. *)
Lemma round_trip_other_failures :
  roundTrip (str "007") oneInt (fun _ => VInt 0) = Ok (str "7")
  /\ roundTrip (str "y=1,x=2") twoGrouped zeroRecord = Ok (str "x=2,y=1")
  /\ roundTrip (str "a$$b") oneOptional zeroRecord = Ok (str "a$b")
  /\ roundTrip (str "xfoo") oneParam zeroRecord = Ok (str "x=xfoo").
Proof.
  repeat split; vm_compute; reflexivity.
Qed.

(** ** The skip of optional fields in a schema without groups *)

Lemma countRequired_cons (f : fieldInfo) (rest : list fieldInfo) :
  countRequired (f :: rest) =
  (countRequired rest + if OmitEmpty (Opts f) then 0 else 1)%Z.
Proof.
  unfold countRequired. simpl. destruct (OmitEmpty (Opts f)); simpl; lia.
Qed.

Lemma length_replaceNth (A : Type) (l : list A) (n : nat) (x : A) :
  length (replaceNth l n x) = length l.
Proof.
  revert n. induction l as [|y l IH]; intros [|n]; simpl; auto.
Qed.

(** One round of the loop on a plain field keeps the counters on track. *)
Lemma plain_step_counters (hashLen : nat) (ti : typeInfo) (f : fieldInfo)
    (rest : list fieldInfo) (st st1 : ustate) :
  plainField f = true ->
  group st = None ->
  countersTrack st (f :: rest) ->
  unmarshalField hashLen ti f st = Ok st1 ->
  countersTrack st1 rest /\ group st1 = None.
Proof.
  intros Hplain Hg [Hle Heq].
  destruct (plainField_opts _ Hplain) as (Hpar & Hgr & Hinl).
  unfold countersTrack, surplus in *. rewrite countRequired_cons in *.
  unfold unmarshalField, endOfGroup. rewrite Hg.
  destruct (length (frags st) <=? fragIdx st) eqn:Eeof.
  - destruct (OmitEmpty (Opts f)) eqn:Hom; [|discriminate].
    intros H. injection H as <-. split; [|first [exact Hg|reflexivity]]. split; lia.
  - apply Nat.leb_gt in Eeof.
    destruct (OmitEmpty (Opts f)) eqn:Hom; rewrite ?Hg; cbn [andb].
    + destruct (numValues st - numReqValues st <=? 0)%Z eqn:Eskip.
      * apply Z.leb_le in Eskip.
        intros H. injection H as <-. cbn. split; [|first [exact Hg|reflexivity]]. split; lia.
      * apply Z.leb_gt in Eskip.
        destruct (nth_error (frags st) (fragIdx st)) as [frag|] eqn:Hn;
          [|discriminate].
        unfold bindFragment. rewrite Hgr, Hom, Hpar. cbn [andb negb orb gostring_eqb].
        destruct frag as [v|g].
        -- unfold bind.
           destruct (unmarshal (NValue v) ti f (indirect (rec st (Index f))))
             as [[x remaining]|e|]; try discriminate.
           intros H. injection H as <-. cbn. rewrite Hinl. cbn [negb].
           unfold writeValue. rewrite Hn, length_replaceNth.
           split; [|first [exact Hg|reflexivity]]. split; lia.
        -- intros H. injection H as <-. split; [|first [exact Hg|reflexivity]]. split; lia.
    + destruct (nth_error (frags st) (fragIdx st)) as [frag|] eqn:Hn;
        [|discriminate].
      unfold bindFragment. rewrite Hgr, Hom, Hpar. cbn [andb negb orb gostring_eqb].
      destruct frag as [v|g].
      * unfold bind.
        destruct (unmarshal (NValue v) ti f (indirect (rec st (Index f))))
          as [[x remaining]|e|]; try discriminate.
        intros H. injection H as <-. cbn. rewrite Hinl. cbn [negb].
        unfold writeValue. rewrite Hn, length_replaceNth.
        split; [|first [exact Hg|reflexivity]]. split; lia.
      * unfold notFound. destruct (FragmentNode_End (FGroup g)); discriminate.
Qed.

Lemma counters_invariant (hashLen : nat) (ti : typeInfo) :
  forall (done rest : list fieldInfo) (st0 st : ustate),
    forallb plainField done = true ->
    group st0 = None ->
    countersTrack st0 (done ++ rest) ->
    unmarshalFields hashLen ti done st0 = Ok st ->
    countersTrack st rest /\ group st = None.
Proof.
  induction done as [|f done IH]; intros rest st0 st Hplain Hg Htrack Hrun.
  - simpl in Hrun. injection Hrun as <-. split; assumption.
  - cbn [forallb] in Hplain. apply andb_true_iff in Hplain as [Hpf Hplain].
    cbn [unmarshalFields] in Hrun.
    destruct (unmarshalField hashLen ti f st0) as [st1|e|] eqn:Estep;
      try discriminate.
    destruct (@plain_step_counters hashLen ti f (done ++ rest) st0 st1
                Hpf Hg Htrack Estep) as [Htrack1 Hg1].
    exact (IH rest st1 st Hplain Hg1 Htrack1 Hrun).
Qed.

(** In a schema of plain fields whose [NumReqValues] is the number of its
    required fields, when the loop of [Unmarshal] reaches an omitempty
    field with a fragment at the cursor: the test of the code,
    [numValues - numReqValues <= 0], holds exactly when the fragments
    left are not more than the required fields still to come, and the
    field is then skipped with the cursor and the struct as they were. *)
Lemma skip_rule_without_groups (hashLen : nat) (ti : typeInfo) (tree : Tree)
    (r : record) (done rest : list fieldInfo) (f : fieldInfo) (st : ustate) :
  Fields ti = done ++ f :: rest ->
  forallb plainField (Fields ti) = true ->
  Z.of_nat (NumReqValues ti) = countRequired (Fields ti) ->
  unmarshalFields hashLen ti done
    (mkUstate 0 0 None (Z.of_nat (length (Fragments tree)))
       (Z.of_nat (NumReqValues ti)) (Fragments tree) r) = Ok st ->
  OmitEmpty (Opts f) = true ->
  fragIdx st < length (frags st) ->
  ((numValues st - numReqValues st <= 0)%Z <-> (surplus st rest <= 0)%Z)
  /\ ((surplus st rest <= 0)%Z ->
      exists st1,
        unmarshalField hashLen ti f st = Ok st1
        /\ fragIdx st1 = fragIdx st /\ frags st1 = frags st
        /\ rec st1 = rec st).
Proof.
  intros Hf Hplain Hreq Hrun Hom Hlt.
  rewrite Hf in Hplain. rewrite forallb_app in Hplain.
  apply andb_true_iff in Hplain as [Hdone _].
  destruct (@counters_invariant hashLen ti done (f :: rest)
              (mkUstate 0 0 None (Z.of_nat (length (Fragments tree)))
                 (Z.of_nat (NumReqValues ti)) (Fragments tree) r)
              st Hdone eq_refl)
    as [[Hle Heq] Hg]; [|exact Hrun|].
  { unfold countersTrack, surplus. cbn [numValues numReqValues frags fragIdx].
    rewrite <- Hf, Hreq. split; lia. }
  unfold surplus in *. rewrite countRequired_cons, Hom in *.
  assert (Hiff : (numValues st - numReqValues st <= 0)%Z <->
                 (Z.of_nat (length (frags st)) - Z.of_nat (fragIdx st)
                  - countRequired rest <= 0)%Z) by lia.
  split; [exact Hiff|]. intros Hs.
  destruct (@skip_rule_on_counters hashLen ti f st Hom Hg Hlt (proj2 Hiff Hs))
    as (st1 & H1 & H2 & H3 & H4 & _).
  exists st1. repeat split; assumption.
Qed.

(** ** Parameter fields on a value fragment: what holds *)

Lemma HasPrefix_self (p s : gostring) : HasPrefix (p ++ s) p = true.
Proof.
  induction p as [|c p IH]; [reflexivity|].
  simpl. unfold byte_eqb. rewrite Ascii.eqb_refl. exact IH.
Qed.

Lemma TrimPrefix_self (p s : gostring) : TrimPrefix (p ++ s) p = s.
Proof.
  unfold TrimPrefix. rewrite HasPrefix_self.
  induction p as [|c p IH]; [reflexivity|exact IH].
Qed.

(** A value fragment that does not start with the parameter name is
    refused with "param not found", or passed over by an omitempty field;
    and from a node whose text is [param=rest], [unmarshal] decodes
    [rest] alone. *)
Lemma param_field_rules :
  (forall (ti : typeInfo) (fi : fieldInfo) (v : ValueNode) (st : ustate),
      Group (Opts fi) = false ->
      Param (Opts fi) <> [] ->
      HasPrefix (Value v) (Param (Opts fi)) = false ->
      bindFragment ti fi (FValue v) st =
      if OmitEmpty (Opts fi) then Ok st
      else Err (mkError NodeValue (value_end v) ti fi (str "param not found")))
  /\ (forall (ti : typeInfo) (fi : fieldInfo) (v : ValueNode)
             (old : option govalue) (rest : gostring),
        Param (Opts fi) <> [] ->
        Length (Opts fi) = 0 ->
        Value v = Param (Opts fi) ++ ["="%char] ++ rest ->
        unmarshal (NValue v) ti fi old =
        match match Encoding_ (Opts fi) with
              | Some enc => IndexAnyInvalid enc rest
              | None => None
              end with
        | Some i =>
            Err (newUnmarshalError (NValue v) ti fi
                   (str "invalid character "
                    ++ QuoteRuneToASCII (nth i rest zeroByte)))
        | None =>
            match decodeValue (NValue v) ti fi rest old with
            | Ok x => Ok (x, Value v)
            | Err e => Err e
            | Panic => Panic
            end
        end).
Proof.
  split.
  - intros ti fi v st Hg Hp Hpre. unfold bindFragment. rewrite Hg, Hpre.
    cbn [andb negb]. 
    assert (E : gostring_eqb (Param (Opts fi)) [] = false).
    { destruct (gostring_eqb (Param (Opts fi)) []) eqn:E; [|reflexivity].
      apply gostring_eqb_eq in E. contradiction. }
    rewrite E. cbn [orb].
    destruct (OmitEmpty (Opts fi)); [reflexivity|].
    unfold notFound, fieldInfo_String. rewrite Hg, E. reflexivity.
  - intros ti fi v old rest Hp HL Hv. unfold unmarshal.
    assert (E : gostring_eqb (Param (Opts fi)) [] = false).
    { destruct (gostring_eqb (Param (Opts fi)) []) eqn:E; [|reflexivity].
      apply gostring_eqb_eq in E. contradiction. }
    rewrite E, HL. cbn [negb Nat.ltb Nat.leb Node_String].
    assert (Ht : TrimPrefix (Value v) (Param (Opts fi) ++ ["="%char]) = rest).
    { rewrite Hv, app_assoc. apply TrimPrefix_self. }
    rewrite Ht. reflexivity.
Qed.

(** ** The parts of a tag *)

(** More rounds than the tag has bytes change nothing: the loop over the
    tag has ended before. *)
Lemma tagPartsFuel_enough (n : nat) :
  forall (m : nat) (tag : gostring),
    length tag <= n -> length tag <= m ->
    tagPartsFuel n tag = tagPartsFuel m tag.
Proof.
  induction n as [|n IH]; intros m tag Hn Hm.
  - destruct tag; [|simpl in Hn; lia]. destruct m; reflexivity.
  - destruct tag as [|c tag]; [destruct m; reflexivity|].
    destruct m as [|m]; [simpl in Hm; lia|].
    cbn [tagPartsFuel]. destruct (IndexByte (c :: tag) ",") as [i|]; [|reflexivity].
    f_equal. apply IH; rewrite length_skipn; cbn [length] in *; lia.
Qed.

(** * More of the repository: alphabets, numbers, tables *)

(** ** The alphabets of [hashutil] *)

Lemma distinctBytes_NoDup (s : gostring) : distinctBytes s = true -> NoDup s.
Proof.
  induction s as [|c s IH]; intros H; [constructor|].
  cbn [distinctBytes] in H. apply andb_true_iff in H as [H1 H2].
  constructor; [|exact (IH H2)].
  intros Hin. apply negb_true_iff in H1.
  assert (E : existsb (byte_eqb c) s = true).
  { apply existsb_exists. exists c. split; [exact Hin|].
    unfold byte_eqb. apply Ascii.eqb_refl. }
  congruence.
Qed.

(** A byte that is not in the alphabet keeps the entry it had. *)
Lemma decodeMap_from_absent (enc : gostring) (i : nat) (c : ascii) (cur : nat) :
  ~ In c enc -> decodeMap_from enc i c cur = cur.
Proof.
  revert i cur. induction enc as [|e enc IH]; intros i cur H; [reflexivity|].
  cbn [decodeMap_from]. unfold byte_eqb.
  destruct (Ascii.eqb e c) eqn:E.
  - apply Ascii.eqb_eq in E. subst. exfalso. apply H. left. reflexivity.
  - apply IH. intros Hin. apply H. right. exact Hin.
Qed.

(** The entry of a byte is the index of its last place in the alphabet. *)
Lemma decodeMap_from_last (l1 l2 : gostring) (i : nat) (c : ascii) (cur : nat) :
  ~ In c l2 ->
  decodeMap_from (l1 ++ c :: l2) i c cur = (i + length l1) mod 256.
Proof.
  revert i cur. induction l1 as [|e l1 IH]; intros i cur H.
  - cbn [app decodeMap_from length]. unfold byte_eqb. rewrite Ascii.eqb_refl.
    rewrite decodeMap_from_absent by exact H. rewrite Nat.add_0_r. reflexivity.
  - cbn [app decodeMap_from length]. rewrite IH by exact H.
    f_equal. lia.
Qed.

Lemma in_split_last (c : ascii) (s : gostring) :
  In c s -> exists l1 l2, s = l1 ++ c :: l2 /\ ~ In c l2.
Proof.
  induction s as [|e s IH]; intros H; [contradiction|].
  destruct (in_dec ascii_dec c s) as [Hin|Hnin].
  - destruct (IH Hin) as (l1 & l2 & -> & Hl). exists (e :: l1), l2.
    split; [reflexivity|exact Hl].
  - destruct H as [->|H]; [|contradiction].
    exists [], s. split; [reflexivity|exact Hnin].
Qed.

Lemma decodeMap_absent (e : Encoding) (c : ascii) :
  ~ In c (encoder e) -> decodeMap e c = 255.
Proof. intros H. unfold decodeMap. apply decodeMap_from_absent. exact H. Qed.

Lemma decodeMap_present (e : Encoding) (c : ascii) :
  length (encoder e) <= 256 ->
  In c (encoder e) ->
  decodeMap e c < length (encoder e)
  /\ nth_error (encoder e) (decodeMap e c) = Some c.
Proof.
  intros Hlen Hin. destruct (in_split_last _ _ Hin) as (l1 & l2 & Hs & Hl).
  unfold decodeMap. rewrite Hs in *. rewrite decodeMap_from_last by exact Hl.
  rewrite length_app in *. cbn [length] in *.
  rewrite Nat.add_0_l, Nat.mod_small by lia.
  split; [lia|]. rewrite nth_error_app2 by lia.
  rewrite Nat.sub_diag. reflexivity.
Qed.

(** The byte at an index of the alphabet is decoded to this index. *)
Lemma Decode_Encode_lt (e : Encoding) (c : nat) :
  NoDup (encoder e) ->
  length (encoder e) <= 256 ->
  c < length (encoder e) ->
  Decode e (Encode e c) = c.
Proof.
  intros Hnd Hlen Hc.
  unfold Encode, Decode, decodeMap.
  destruct (length (encoder e) <=? c) eqn:E; [apply Nat.leb_le in E; lia|].
  pose proof (firstn_skipn c (encoder e)) as Hs.
  destruct (skipn c (encoder e)) as [|x l2] eqn:Hk.
  { apply (f_equal (@length ascii)) in Hk. rewrite length_skipn in Hk.
    simpl in Hk. lia. }
  assert (Hx : nth c (encoder e) zero = x).
  { rewrite <- Hs at 1. rewrite app_nth2; rewrite length_firstn;
      rewrite Nat.min_l by lia; [|lia].
    rewrite Nat.sub_diag. reflexivity. }
  rewrite Hx. rewrite <- Hs in Hnd |- *.
  apply NoDup_remove_2 in Hnd.
  rewrite decodeMap_from_last.
  - rewrite length_firstn, Nat.min_l by lia.
    apply Nat.mod_small. lia.
  - intros Hin. apply Hnd. apply in_or_app. right. exact Hin.
Qed.

(** A byte of the alphabet is decoded to an index that [Encode] turns
    into this byte. *)
Lemma Encode_Decode_in (e : Encoding) (ch : ascii) :
  length (encoder e) <= 256 ->
  In ch (encoder e) ->
  Decode e ch < length (encoder e) /\ Encode e (Decode e ch) = ch.
Proof.
  intros Hlen Hin. destruct (decodeMap_present e ch Hlen Hin) as [Hlt Hn].
  unfold Decode. split; [exact Hlt|].
  unfold Encode. destruct (length (encoder e) <=? decodeMap e ch) eqn:E.
  - apply Nat.leb_le in E. lia.
  - apply nth_error_nth. exact Hn.
Qed.

(** X1. [Decode] undoes [Encode]: in an alphabet of at most 256 bytes
    where no byte occurs twice, the byte that [Encode] gives for an index
    below the length of the alphabet is decoded to that index; for an
    index from the length on, [Encode] gives [0xFF]. *)
Theorem Decode_Encode (e : Encoding) (c : nat) :
  NoDup (encoder e) ->
  length (encoder e) <= 256 ->
  (c < length (encoder e) -> Decode e (Encode e c) = c)
  /\ (length (encoder e) <= c -> Encode e c = ascii_of_nat 255).
Proof.
  intros Hnd Hlen. split; intros Hc.
  - apply Decode_Encode_lt; assumption.
  - unfold Encode. apply Nat.leb_le in Hc. rewrite Hc. reflexivity.
Qed.

Lemma Decode_Encode_witness :
  Decode HashEncoding (Encode HashEncoding 37) = 37.
Proof.
  apply (Decode_Encode HashEncoding 37).
  - apply distinctBytes_NoDup. vm_compute. reflexivity.
  - cbn. lia.
  - cbn. lia.
Defined.

(** X2. [Encode] undoes [Decode]: in an alphabet of at most 256 bytes,
    a byte of the alphabet is decoded to an index below the length of the
    alphabet, and [Encode] gives the byte back for this index; a byte
    that is not in the alphabet is decoded to [0xFF]. *)
Theorem Encode_Decode (e : Encoding) (ch : ascii) :
  length (encoder e) <= 256 ->
  (In ch (encoder e) ->
   Decode e ch < length (encoder e) /\ Encode e (Decode e ch) = ch)
  /\ (~ In ch (encoder e) -> Decode e ch = 255).
Proof.
  intros Hlen. split.
  - intros Hin. apply Encode_Decode_in; assumption.
  - intros H. apply decodeMap_absent. exact H.
Qed.

Lemma Encode_Decode_witness :
  Decode Base64Encoding "k" < 64
  /\ Encode Base64Encoding (Decode Base64Encoding "k") = "k"%char.
Proof.
  apply (Encode_Decode Base64Encoding "k").
  - cbn. lia.
  - cbn. do 36 right. left. reflexivity.
Defined.

Lemma decodeMap_255 (e : Encoding) (c : ascii) :
  length (encoder e) <= 255 ->
  (decodeMap e c = 255 <-> ~ In c (encoder e)).
Proof.
  intros Hlen. split.
  - intros H Hin.
    destruct (decodeMap_present e c) as [Hlt _]; [lia|exact Hin|]. lia.
  - apply decodeMap_absent.
Qed.

(** X3. [IndexAnyInvalid], for an alphabet of at most 255 bytes: the
    result [-1] means that every byte of [b] is in the alphabet; a result
    [i] is the index of a byte of [b] that is not in the alphabet, and
    every byte before it is in the alphabet. *)
Theorem IndexAnyInvalid_first (e : Encoding) (b : gostring) :
  length (encoder e) <= 255 ->
  match IndexAnyInvalid e b with
  | None => Forall (fun c => In c (encoder e)) b
  | Some i =>
      (exists c, nth_error b i = Some c /\ ~ In c (encoder e))
      /\ Forall (fun c => In c (encoder e)) (firstn i b)
  end.
Proof.
  intros Hlen. induction b as [|c b IH]; [constructor|].
  cbn [IndexAnyInvalid].
  destruct (Nat.eqb (decodeMap e c) 255) eqn:E.
  - apply Nat.eqb_eq in E. apply (decodeMap_255 e c Hlen) in E.
    split; [exists c; split; [reflexivity|exact E]|constructor].
  - apply Nat.eqb_neq in E.
    assert (Hin : In c (encoder e)).
    { destruct (in_dec ascii_dec c (encoder e)) as [H|H]; [exact H|].
      exfalso. apply E. apply decodeMap_absent. exact H. }
    destruct (IndexAnyInvalid e b) as [i|]; cbn [option_map].
    + destruct IH as [(x & Hx & Hn) Hall]. split.
      * exists x. split; [exact Hx|exact Hn].
      * cbn [firstn]. constructor; assumption.
    + constructor; assumption.
Qed.

Lemma IndexAnyInvalid_first_witness :
  match IndexAnyInvalid HashEncoding (str "ab$c") with
  | None => Forall (fun c => In c (encoder HashEncoding)) (str "ab$c")
  | Some i =>
      (exists c, nth_error (str "ab$c") i = Some c
                 /\ ~ In c (encoder HashEncoding))
      /\ Forall (fun c => In c (encoder HashEncoding)) (firstn i (str "ab$c"))
  end.
Proof.
  apply (IndexAnyInvalid_first HashEncoding (str "ab$c")).
  cbn. lia.
Defined.

(** ** Numbers in the hash alphabet (descrypt) *)

Lemma decodeMap_from_le (enc : gostring) (i : nat) (c : ascii) (cur : nat) :
  cur <= 255 -> decodeMap_from enc i c cur <= 255.
Proof.
  revert i cur. induction enc as [|e enc IH]; intros i cur H; [exact H|].
  cbn [decodeMap_from]. apply IH. destruct (byte_eqb e c); [|exact H].
  pose proof (Nat.mod_upper_bound i 256). lia.
Qed.

Lemma Decode_le (e : Encoding) (c : ascii) : Decode e c <= 255.
Proof. unfold Decode, decodeMap. apply decodeMap_from_le. lia. Qed.

Lemma existsb_In (c : ascii) (s : gostring) :
  existsb (byte_eqb c) s = true -> In c s.
Proof.
  intros H. apply existsb_exists in H as (x & Hin & E).
  apply Ascii.eqb_eq in E. subst. exact Hin.
Qed.

Lemma HashEncoding_NoDup : NoDup (encoder HashEncoding).
Proof. apply distinctBytes_NoDup. vm_compute. reflexivity. Qed.

Lemma HashEncoding_length : length (encoder HashEncoding) = 64.
Proof. reflexivity. Qed.

(** The six bits of [v] from bit [6 * i] on. *)
Lemma six_bits (v : Z) (i : nat) :
  (0 <= v)%Z ->
  Z.land (Z.shiftr v (Z.of_nat (i * 6))) 63 = ((v / 2 ^ Z.of_nat (i * 6)) mod 64)%Z.
Proof.
  intros Hv. rewrite Z.shiftr_div_pow2 by lia.
  change 63%Z with (Z.ones 6). rewrite Z.land_ones by lia. reflexivity.
Qed.

(** [DecodeInt] of four bytes is the sum of their entries, six bits
    apart: nothing wraps. *)
Lemma wrap32_small (z : Z) : (0 <= z < 4294967296)%Z -> wrap32 z = z.
Proof. intros H. unfold wrap32. apply Z.mod_small. exact H. Qed.

Lemma DecodeInt_four (c0 c1 c2 c3 : ascii) :
  DecodeInt [c0; c1; c2; c3] =
  (Z.of_nat (Decode HashEncoding c0)
   + Z.of_nat (Decode HashEncoding c1) * 64
   + Z.of_nat (Decode HashEncoding c2) * 4096
   + Z.of_nat (Decode HashEncoding c3) * 262144)%Z.
Proof.
  unfold DecodeInt. cbn [DecodeIntFrom Nat.ltb Nat.leb Nat.mul Nat.add].
  pose proof (Decode_le HashEncoding c0).
  pose proof (Decode_le HashEncoding c1).
  pose proof (Decode_le HashEncoding c2).
  pose proof (Decode_le HashEncoding c3).
  rewrite !Z.shiftl_mul_pow2 by lia.
  change (2 ^ Z.of_nat 0)%Z with 1%Z.
  change (2 ^ Z.of_nat 6)%Z with 64%Z.
  change (2 ^ Z.of_nat 12)%Z with 4096%Z.
  change (2 ^ Z.of_nat 18)%Z with 262144%Z.
  generalize dependent (Decode HashEncoding c0).
  generalize dependent (Decode HashEncoding c1).
  generalize dependent (Decode HashEncoding c2).
  generalize dependent (Decode HashEncoding c3).
  intros d3 H3 d2 H2 d1 H1 d0 H0.
  rewrite (@wrap32_small (Z.of_nat d0 * 1)%Z) by lia.
  rewrite (@wrap32_small (0 + Z.of_nat d0 * 1)%Z) by lia.
  rewrite (@wrap32_small (Z.of_nat d1 * 64)%Z) by lia.
  rewrite (@wrap32_small (_ + Z.of_nat d1 * 64)%Z) by lia.
  rewrite (@wrap32_small (Z.of_nat d2 * 4096)%Z) by lia.
  rewrite (@wrap32_small (_ + Z.of_nat d2 * 4096)%Z) by lia.
  rewrite (@wrap32_small (Z.of_nat d3 * 262144)%Z) by lia.
  rewrite (@wrap32_small (_ + Z.of_nat d3 * 262144)%Z) by lia.
  lia.
Qed.

Local Open Scope Z_scope.

Lemma digits_of_sum (d0 d1 d2 d3 : Z) :
  0 <= d0 < 64 -> 0 <= d1 < 64 -> 0 <= d2 < 64 -> 0 <= d3 < 64 ->
  let v := d0 + d1 * 64 + d2 * 4096 + d3 * 262144 in
  (v / 1) mod 64 = d0 /\ (v / 64) mod 64 = d1
  /\ (v / 4096) mod 64 = d2 /\ (v / 262144) mod 64 = d3.
Proof.
  intros H0 H1 H2 H3 v.
  assert (Q1 : v / 64 = d1 + d2 * 64 + d3 * 4096).
  { symmetry. apply (Z.div_unique v 64 _ d0); unfold v; lia. }
  assert (Q2 : v / 4096 = d2 + d3 * 64).
  { symmetry. apply (Z.div_unique v 4096 _ (d0 + d1 * 64)); unfold v; lia. }
  assert (Q3 : v / 262144 = d3).
  { symmetry. apply (Z.div_unique v 262144 _ (d0 + d1 * 64 + d2 * 4096)); unfold v; lia. }
  rewrite Z.div_1_r, Q1, Q2, Q3.
  split; [|split; [|split]].
  - symmetry. apply (Z.mod_unique v 64 (d1 + d2 * 64 + d3 * 4096)); unfold v; lia.
  - symmetry. apply (Z.mod_unique _ 64 (d2 + d3 * 64)); lia.
  - symmetry. apply (Z.mod_unique _ 64 d3); lia.
  - apply Z.mod_small. lia.
Qed.

Lemma sum_of_digits (v : Z) :
  0 <= v ->
  (v / 1) mod 64 + (v / 64) mod 64 * 64 + (v / 4096) mod 64 * 4096
  + (v / 262144) mod 64 * 262144 = v mod 16777216.
Proof.
  intros Hv.
  rewrite Z.div_1_r.
  assert (E1 : v / 4096 = v / 64 / 64) by (rewrite Z.div_div by lia; reflexivity).
  assert (E2 : v / 262144 = v / 64 / 64 / 64) by (rewrite !Z.div_div by lia; reflexivity).
  assert (E3 : v / 16777216 = v / 64 / 64 / 64 / 64) by (rewrite !Z.div_div by lia; reflexivity).
  pose proof (Z.div_mod v 64 ltac:(lia)) as A0.
  pose proof (Z.div_mod (v / 64) 64 ltac:(lia)) as A1.
  pose proof (Z.div_mod (v / 64 / 64) 64 ltac:(lia)) as A2.
  pose proof (Z.div_mod (v / 64 / 64 / 64) 64 ltac:(lia)) as A3.
  pose proof (Z.mod_pos_bound v 64 ltac:(lia)) as B0.
  pose proof (Z.mod_pos_bound (v / 64) 64 ltac:(lia)) as B1.
  pose proof (Z.mod_pos_bound (v / 64 / 64) 64 ltac:(lia)) as B2.
  pose proof (Z.mod_pos_bound (v / 64 / 64 / 64) 64 ltac:(lia)) as B3.
  rewrite E1, E2.
  apply (Z.mod_unique v 16777216 (v / 64 / 64 / 64 / 64)); lia.
Qed.

Local Close Scope Z_scope.

Lemma EncodeInt_digit (v : Z) (i : nat) :
  (0 <= v)%Z ->
  Decode HashEncoding
    (Encode HashEncoding
       (Z.to_nat (Z.land (Z.shiftr v (Z.of_nat (i * 6))) 63))) =
  Z.to_nat ((v / 2 ^ Z.of_nat (i * 6)) mod 64)
  /\ In (Encode HashEncoding
           (Z.to_nat (Z.land (Z.shiftr v (Z.of_nat (i * 6))) 63)))
        (encoder HashEncoding).
Proof.
  intros Hv. rewrite six_bits by exact Hv.
  set (d := ((v / 2 ^ Z.of_nat (i * 6)) mod 64)%Z).
  assert (Hd : (0 <= d < 64)%Z) by (apply Z.mod_pos_bound; lia).
  assert (Hlt : Z.to_nat d < length (encoder HashEncoding))
    by (rewrite HashEncoding_length; lia).
  split.
  - apply (@Decode_Encode_lt HashEncoding (Z.to_nat d) HashEncoding_NoDup);
      [rewrite HashEncoding_length; lia|exact Hlt].
  - unfold Encode. destruct (length (encoder HashEncoding) <=? Z.to_nat d) eqn:E.
    + apply Nat.leb_le in E. lia.
    + apply nth_In. exact Hlt.
Qed.

(** [DecodeInt] of [EncodeInt(v)] is [v] without its bits from bit 24
    on. *)
Lemma DecodeInt_EncodeInt_mod (v : Z) :
  (0 <= v)%Z -> DecodeInt (EncodeInt v) = (v mod 2 ^ 24)%Z.
Proof.
  intros Hv. unfold EncodeInt. cbn [map]. rewrite DecodeInt_four.
  rewrite !(proj1 (EncodeInt_digit _ Hv)).
  rewrite !Z2Nat.id by (apply Z.mod_pos_bound; lia).
  change (2 ^ Z.of_nat (0 * 6))%Z with 1%Z.
  change (2 ^ Z.of_nat (1 * 6))%Z with 64%Z.
  change (2 ^ Z.of_nat (2 * 6))%Z with 4096%Z.
  change (2 ^ Z.of_nat (3 * 6))%Z with 262144%Z.
  change (2 ^ 24)%Z with 16777216%Z.
  apply sum_of_digits. exact Hv.
Qed.

Lemma EncodeInt_chars (v : Z) :
  (0 <= v)%Z -> Forall (fun c => In c (encoder HashEncoding)) (EncodeInt v).
Proof.
  intros Hv. unfold EncodeInt. cbn [map].
  repeat (apply Forall_cons; [apply (proj2 (EncodeInt_digit _ Hv))|]).
  apply Forall_nil.
Qed.

(** X4. [DecodeInt] undoes [EncodeInt] on 24 bits: for a [uint32] value
    [v], [EncodeInt(v)] is four bytes of the hash alphabet, and
    [DecodeInt] of them is [v] without its bits from bit 24 on; so a
    value below [2^24] comes back as it was. *)
Theorem DecodeInt_EncodeInt (v : Z) :
  (0 <= v < 2 ^ 32)%Z ->
  length (EncodeInt v) = 4
  /\ Forall (fun c => In c (encoder HashEncoding)) (EncodeInt v)
  /\ DecodeInt (EncodeInt v) = (v mod 2 ^ 24)%Z
  /\ ((v < 2 ^ 24)%Z -> DecodeInt (EncodeInt v) = v).
Proof.
  intros [Hv Hmax].
  split; [reflexivity|]. split; [|split].
  - apply EncodeInt_chars. exact Hv.
  - apply DecodeInt_EncodeInt_mod. exact Hv.
  - intros Hlt. rewrite DecodeInt_EncodeInt_mod by exact Hv.
    apply Z.mod_small. lia.
Qed.

Lemma DecodeInt_EncodeInt_witness :
  length (EncodeInt 5001) = 4
  /\ Forall (fun c => In c (encoder HashEncoding)) (EncodeInt 5001)
  /\ DecodeInt (EncodeInt 5001) = (5001 mod 2 ^ 24)%Z
  /\ ((5001 < 2 ^ 24)%Z -> DecodeInt (EncodeInt 5001) = 5001%Z).
Proof.
  apply (@DecodeInt_EncodeInt 5001%Z). lia.
Defined.

(** X5. [EncodeInt] undoes [DecodeInt] on four bytes of the hash
    alphabet: the number that [DecodeInt] reads from them is below
    [2^24], and [EncodeInt] writes the same four bytes for it. *)
Theorem EncodeInt_DecodeInt (b : gostring) :
  length b = 4 ->
  Forall (fun c => In c (encoder HashEncoding)) b ->
  (0 <= DecodeInt b < 2 ^ 24)%Z /\ EncodeInt (DecodeInt b) = b.
Proof.
  intros Hlen Hall.
  destruct b as [|c0 [|c1 [|c2 [|c3 [|? ?]]]]]; try discriminate Hlen.
  inversion Hall as [|? ? H0 Hall1]; subst.
  inversion Hall1 as [|? ? H1 Hall2]; subst.
  inversion Hall2 as [|? ? H2 Hall3]; subst.
  inversion Hall3 as [|? ? H3 _]; subst.
  assert (Hl : length (encoder HashEncoding) <= 256)
    by (rewrite HashEncoding_length; lia).
  destruct (@Encode_Decode_in HashEncoding c0 Hl H0) as [L0 E0].
  destruct (@Encode_Decode_in HashEncoding c1 Hl H1) as [L1 E1].
  destruct (@Encode_Decode_in HashEncoding c2 Hl H2) as [L2 E2].
  destruct (@Encode_Decode_in HashEncoding c3 Hl H3) as [L3 E3].
  rewrite HashEncoding_length in L0, L1, L2, L3.
  rewrite DecodeInt_four.
  set (d0 := Decode HashEncoding c0) in *.
  set (d1 := Decode HashEncoding c1) in *.
  set (d2 := Decode HashEncoding c2) in *.
  set (d3 := Decode HashEncoding c3) in *.
  set (v := (Z.of_nat d0 + Z.of_nat d1 * 64 + Z.of_nat d2 * 4096
             + Z.of_nat d3 * 262144)%Z).
  assert (Hv : (0 <= v < 2 ^ 24)%Z).
  { change (2 ^ 24)%Z with 16777216%Z. unfold v. lia. }
  split; [exact Hv|].
  unfold EncodeInt. cbn [map]. rewrite !six_bits by lia.
  change (2 ^ Z.of_nat (0 * 6))%Z with 1%Z.
  change (2 ^ Z.of_nat (1 * 6))%Z with 64%Z.
  change (2 ^ Z.of_nat (2 * 6))%Z with 4096%Z.
  change (2 ^ Z.of_nat (3 * 6))%Z with 262144%Z.
  destruct (@digits_of_sum (Z.of_nat d0) (Z.of_nat d1) (Z.of_nat d2) (Z.of_nat d3))
    as (D0 & D1 & D2 & D3); try lia.
  fold v in D0, D1, D2, D3.
  rewrite D0, D1, D2, D3, !Nat2Z.id, E0, E1, E2, E3. reflexivity.
Qed.

Lemma EncodeInt_DecodeInt_witness :
  (0 <= DecodeInt (str "7...") < 2 ^ 24)%Z
  /\ EncodeInt (DecodeInt (str "7...")) = str "7...".
Proof.
  apply (@EncodeInt_DecodeInt (str "7...")).
  - reflexivity.
  - repeat (apply Forall_cons; [apply existsb_In; vm_compute; reflexivity|]).
    apply Forall_nil.
Defined.

(** ** Rearranging bytes by a table (cryptoutil) *)

Lemma Permute_nth (b t bt : gostring) (i : nat) (j : ascii) :
  Permute b t = Some bt ->
  nth_error t i = Some j ->
  exists x, nth_error b (nat_of_ascii j) = Some x /\ nth_error bt i = Some x.
Proof.
  revert bt i. induction t as [|k t IH]; intros bt i Hp Hn.
  - destruct i; discriminate Hn.
  - cbn [Permute] in Hp.
    destruct (nth_error b (nat_of_ascii k)) as [x|] eqn:Ex; [|discriminate].
    destruct (Permute b t) as [r|] eqn:Er; [|discriminate].
    injection Hp as <-. destruct i as [|i].
    + injection Hn as <-. exists x. split; [exact Ex|reflexivity].
    + cbn [nth_error] in Hn |- *. apply (IH r i eq_refl Hn).
Qed.

Lemma Permute_length (b t bt : gostring) :
  Permute b t = Some bt -> length bt = length t.
Proof.
  revert bt. induction t as [|k t IH]; intros bt Hp.
  - injection Hp as <-. reflexivity.
  - cbn [Permute] in Hp.
    destruct (nth_error b (nat_of_ascii k)); [|discriminate].
    destruct (Permute b t) as [r|]; [|discriminate].
    injection Hp as <-. cbn [length]. f_equal. apply IH. reflexivity.
Qed.

(** [Permute] returns when every entry of the table is a place of [b]. *)
Lemma Permute_in_range (b t : gostring) :
  Forall (fun j => nat_of_ascii j < length b) t ->
  exists r, Permute b t = Some r.
Proof.
  induction 1 as [|j t Hj _ (r & IH)]; [exists []; reflexivity|].
  cbn [Permute]. rewrite IH.
  destruct (nth_error b (nat_of_ascii j)) as [x|] eqn:E.
  - exists (x :: r). reflexivity.
  - apply nth_error_None in E. lia.
Qed.

Lemma Permute_Permute (b t u bt tu : gostring) :
  Permute b t = Some bt ->
  Permute t u = Some tu ->
  Permute bt u = Permute b tu /\ exists r, Permute b tu = Some r.
Proof.
  intros Hbt. revert tu. induction u as [|j u IH]; intros tu Htu.
  - injection Htu as <-. split; [reflexivity|exists []; reflexivity].
  - cbn [Permute] in Htu.
    destruct (nth_error t (nat_of_ascii j)) as [k|] eqn:Ek; [|discriminate].
    destruct (Permute t u) as [r|] eqn:Er; [|discriminate].
    injection Htu as <-.
    destruct (IH r eq_refl) as (Heq & r' & Hr').
    destruct (@Permute_nth _ _ _ _ _ Hbt Ek) as (x & Hx & Hbx).
    cbn [Permute]. rewrite Hbx, Hx, Heq, Hr'.
    split; [reflexivity|exists (x :: r'); reflexivity].
Qed.

(** X6. Two tables compose: rearranging [b] by [t] and the result by [u]
    is rearranging [b] by the table [u] rearranges [t] to. *)
Theorem Permute_compose (b t u bt tu : gostring) :
  Permute b t = Some bt ->
  Permute t u = Some tu ->
  Permute bt u = Permute b tu /\ exists r, Permute b tu = Some r.
Proof.
  intros Hbt Htu.
  destruct (@Permute_Permute b t u bt tu Hbt Htu) as (Heq & r & Hr).
  split; [exact Heq|]. exists r. exact Hr.
Qed.

Lemma Permute_compose_witness :
  Permute (str "dacb") (bytesOf [3; 0; 1; 2]) =
  Permute (str "abcd") (bytesOf [1; 3; 0; 2])
  /\ exists r, Permute (str "abcd") (bytesOf [1; 3; 0; 2]) = Some r.
Proof.
  apply (@Permute_compose (str "abcd") (bytesOf [3; 0; 2; 1])
           (bytesOf [3; 0; 1; 2]) (str "dacb") (bytesOf [1; 3; 0; 2]));
    reflexivity.
Defined.

Lemma Permute_seq (b : gostring) (m : nat) :
  forall k : nat,
    k + m <= length b -> length b <= 256 ->
    Permute b (bytesOf (seq k m)) = Some (firstn m (skipn k b)).
Proof.
  induction m as [|m IH]; intros k Hk Hb; [reflexivity|].
  cbn [seq bytesOf map Permute]. fold (bytesOf (seq (S k) m)).
  rewrite nat_ascii_embedding by lia.
  rewrite IH by lia.
  destruct (nth_error b k) as [x|] eqn:Ex.
  - f_equal. rewrite <- (firstn_skipn k b) in Ex.
    rewrite nth_error_app2 in Ex by (rewrite length_firstn; lia).
    rewrite length_firstn, Nat.min_l, Nat.sub_diag in Ex by lia.
    destruct (skipn k b) as [|y l] eqn:Es; [discriminate|].
    injection Ex as ->.
    assert (Hs : skipn (S k) b = l).
    { replace (S k) with (1 + k) by lia. rewrite <- skipn_skipn, Es. reflexivity. }
    rewrite Hs. reflexivity.
  - apply nth_error_None in Ex. lia.
Qed.

(** The identity table leaves [b] as it is. *)
Lemma Permute_identity (b : gostring) :
  length b <= 256 -> Permute b (identityTable (length b)) = Some b.
Proof.
  intros H. unfold identityTable. rewrite Permute_seq by lia.
  cbn [skipn]. rewrite firstn_all. reflexivity.
Qed.

(** A table that [inverseTable] turns into the identity is undone by it. *)
Lemma Permute_inverse (t b : gostring) :
  Permute t (inverseTable t) = Some (identityTable (length t)) ->
  Forall (fun j => nat_of_ascii j < length t) t ->
  length t <= 256 ->
  length b = length t ->
  exists r, Permute b t = Some r
            /\ length r = length b
            /\ Permute r (inverseTable t) = Some b.
Proof.
  intros Hinv Hrange Ht Hb.
  destruct (@Permute_in_range b t) as (r & Hr);
    [rewrite Hb; exact Hrange|].
  exists r. split; [exact Hr|]. split.
  - rewrite (@Permute_length _ _ _ Hr). symmetry. exact Hb.
  - destruct (@Permute_Permute _ _ _ _ _ Hr Hinv) as [Heq _].
    rewrite Heq, <- Hb. apply Permute_identity. lia.
Qed.

Lemma range_check (t : gostring) :
  forallb (fun j => nat_of_ascii j <? length t) t = true ->
  Forall (fun j => nat_of_ascii j < length t) t.
Proof.
  intros H. apply Forall_forall. intros j Hj.
  rewrite forallb_forall in H. apply Nat.ltb_lt. apply H. exact Hj.
Qed.

(** X7. The final permutations of the MD5, SHA-256 and SHA-512 schemes
    lose nothing: on a digest of 16, 32 and 64 bytes, [Permute] with the
    table [permFinal] of the scheme returns (no index is out of range) as
    many bytes, and rearranging these by the inverse table gives the
    digest back. *)
Theorem Permute_permFinal (d : gostring) :
  (length d = 16 ->
   exists r, Permute d md5_permFinal = Some r /\ length r = 16
             /\ Permute r (inverseTable md5_permFinal) = Some d)
  /\ (length d = 32 ->
      exists r, Permute d sha256_permFinal = Some r /\ length r = 32
                /\ Permute r (inverseTable sha256_permFinal) = Some d)
  /\ (length d = 64 ->
      exists r, Permute d sha512_permFinal = Some r /\ length r = 64
                /\ Permute r (inverseTable sha512_permFinal) = Some d).
Proof.
  split; [|split]; intros Hd.
  - destruct (@Permute_inverse md5_permFinal d) as (r & H1 & H2 & H3).
    + vm_compute. reflexivity.
    + apply range_check. vm_compute. reflexivity.
    + cbn. lia.
    + exact Hd.
    + exists r. split; [exact H1|]. split; [rewrite H2; exact Hd|exact H3].
  - destruct (@Permute_inverse sha256_permFinal d) as (r & H1 & H2 & H3).
    + vm_compute. reflexivity.
    + apply range_check. vm_compute. reflexivity.
    + cbn. lia.
    + exact Hd.
    + exists r. split; [exact H1|]. split; [rewrite H2; exact Hd|exact H3].
  - destruct (@Permute_inverse sha512_permFinal d) as (r & H1 & H2 & H3).
    + vm_compute. reflexivity.
    + apply range_check. vm_compute. reflexivity.
    + cbn. lia.
    + exact Hd.
    + exists r. split; [exact H1|]. split; [rewrite H2; exact Hd|exact H3].
Qed.

Lemma Permute_permFinal_witness :
  exists r, Permute (str "0123456789abcdef") md5_permFinal = Some r
            /\ length r = 16
            /\ Permute r (inverseTable md5_permFinal)
               = Some (str "0123456789abcdef").
Proof.
  apply (Permute_permFinal (str "0123456789abcdef")). reflexivity.
Defined.

(** ** What the tree of [Parse] keeps of the input *)

Lemma IndexAny_firstn (s chars : gostring) (i : nat) :
  IndexAny s chars = Some i -> IndexAny (firstn i s) chars = None.
Proof.
  revert i. induction s as [|c s IH]; intros i H; [discriminate|].
  cbn [IndexAny] in H. destruct (existsb (byte_eqb c) chars) eqn:E.
  - injection H as <-. reflexivity.
  - destruct (IndexAny s chars) as [j|] eqn:Ej; [|discriminate].
    injection H as <-. cbn [firstn IndexAny]. rewrite E.
    rewrite (IH j eq_refl). reflexivity.
Qed.

Lemma length_slice (s : gostring) (lo hi : nat) :
  lo <= hi -> hi <= length s -> length (slice s lo hi) = hi - lo.
Proof.
  intros H1 H2. unfold slice. rewrite length_firstn, length_skipn. lia.
Qed.

(** The token that [emit] sends lies in the input when the text from
    [start] to [pos] holds no delimiter. *)
Lemma emit_tokenIn (inp : gostring) (ty : tokenType) (s p : nat) :
  s <= p -> p <= length inp ->
  IndexAny (slice inp s p) delimChars = None ->
  tokenIn inp (mkToken ty s (slice inp s p)).
Proof.
  intros H1 H2 H3 _. cbn [tokPos tokValue].
  rewrite length_slice by assumption.
  replace (s + (p - s)) with p by lia.
  split; [exact H2|]. split; [reflexivity|exact H3].
Qed.

Lemma other_tokenIn (inp : gostring) (t : token) :
  tokType t <> tokenValue -> tokenIn inp t.
Proof. intros H Hv. contradiction. Qed.

Lemma slice_from (s : gostring) (p i : nat) :
  slice s p (p + i) = firstn i (skipn p s).
Proof. unfold slice. replace (p + i - p) with i by lia. reflexivity. Qed.

Lemma slice_to_end (s : gostring) (p : nat) :
  slice s p (length s) = skipn p s.
Proof.
  unfold slice. rewrite <- (length_skipn p s). apply firstn_all.
Qed.

(** The fragment state sends value tokens that lie in the input. *)
Lemma run_fragment_tokens (n : nat) :
  forall l l' : lexer,
    start l = pos l ->
    pos l <= length (input l) ->
    Forall (tokenIn (input l)) (tokens l) ->
    run n (Some lexFragmentFn) l = Some l' ->
    Forall (tokenIn (input l)) (tokens l').
Proof.
  induction n as [|n IH]; intros l l' Hs Hle Hall Hrun; [discriminate|].
  cbn [run apply_state] in Hrun. unfold lexFragment in Hrun.
  destruct (IndexAny (skipn (pos l) (input l)) delimChars) as [i|] eqn:E.
  - destruct (IndexAny_Some _ _ E) as (c & Hc & Hd).
    rewrite nth_error_skipn_add in Hc.
    assert (Hin : pos l + i < length (input l))
      by (apply nth_error_Some; congruence).
    unfold Next in Hrun. cbn [emit set_pos input pos start tokens] in Hrun.
    rewrite Hc in Hrun.
    assert (Hv : tokenIn (input l)
                   (mkToken tokenValue (start l)
                      (slice (input l) (start l) (pos l + i)))).
    { apply emit_tokenIn; [lia|lia|].
      rewrite Hs, slice_from. apply IndexAny_firstn. exact E. }
    unfold delimChars, str in Hd. cbn [list_ascii_of_string existsb] in Hd.
    destruct (byte_eqb c "$") eqn:E1.
    + apply IH in Hrun; cbn [emit set_pos input pos start tokens] in *.
      * exact Hrun.
      * reflexivity.
      * lia.
      * apply Forall_app. split; [apply Forall_app; split|].
        -- exact Hall.
        -- constructor; [exact Hv|constructor].
        -- constructor; [apply other_tokenIn; discriminate|constructor].
    + destruct (byte_eqb c ",") eqn:E2; [|discriminate Hd].
      apply IH in Hrun; cbn [emit set_pos input pos start tokens] in *.
      * exact Hrun.
      * reflexivity.
      * lia.
      * apply Forall_app. split; [apply Forall_app; split|].
        -- exact Hall.
        -- constructor; [exact Hv|constructor].
        -- constructor; [apply other_tokenIn; discriminate|constructor].
  - rewrite run_None in Hrun. injection Hrun as <-.
    cbn [set_pos start pos input tokens].
    destruct (start l <? length (input l)) eqn:E1;
      cbn [emit set_pos input pos start tokens].
    + apply Forall_app. split; [apply Forall_app; split|].
      * exact Hall.
      * constructor; [|constructor]. apply emit_tokenIn; [lia|lia|].
        rewrite Hs, slice_to_end. exact E.
      * constructor; [apply other_tokenIn; discriminate|constructor].
    + apply Forall_app. split; [exact Hall|].
      constructor; [apply other_tokenIn; discriminate|constructor].
Qed.

(** [lexPrefix] leaves [start] at [pos] when it goes on. *)
Lemma lexPrefix_start (inp : gostring) (s : stateFn) (l : lexer) :
  lexPrefix (mkLexer inp 0 0 []) = (Some s, l) -> start l = pos l.
Proof.
  unfold lexPrefix. cbn [pos input skipn set_pos].
  destruct (HasPrefix inp (str "$")).
  - destruct (IndexAny (skipn (0 + 1) inp) delimChars) as [i|].
    + destruct (Nat.eqb i 0); [discriminate|].
      match goal with
      | |- context [if ?b then _ else _] => destruct b
      end; intros H; injection H as _ <-; reflexivity.
    + discriminate.
  - match goal with
    | |- context [if ?b then _ else _] => destruct b
    end; intros H; injection H as _ <-; reflexivity.
Qed.

Lemma lex_tokens_in (inp : gostring) (ts : list token) :
  lex inp = Some ts -> Forall (tokenIn inp) ts.
Proof.
  unfold lex. replace (length inp + 2) with (S (length inp + 1)) by lia.
  cbn [run apply_state].
  destruct (lexPrefix_shape inp)
    as [(l & e & Hl & Ht & He)|(l & Hl & Hi & Hp & Hf & Hn)]; rewrite Hl.
  - rewrite run_None. cbn [option_map]. intros H. injection H as <-.
    rewrite Ht. constructor; [|constructor].
    apply other_tokenIn. congruence.
  - destruct (run (length inp + 1) (Some lexFragmentFn) l) as [l'|] eqn:Hr;
      [|discriminate].
    cbn [option_map]. intros H. injection H as <-.
    rewrite <- Hi. apply (@run_fragment_tokens (length inp + 1) l l').
    + exact (lexPrefix_start _ Hl).
    + rewrite Hi. exact Hp.
    + revert Hf. apply Forall_impl. intros t Ht. apply other_tokenIn. congruence.
    + exact Hr.
Qed.

Lemma parseLoop_in (inp : gostring) (ts : list token) :
  Forall (tokenIn inp) ts ->
  forall (tree : Tree) (g : option GroupNode) (v : option ValueNode)
         (tree' : Tree),
    fragmentsIn inp (Fragments tree) ->
    (forall g0, g = Some g0 -> Forall (valueIn inp) (Values g0)) ->
    (forall v0, v = Some v0 -> valueIn inp v0) ->
    parseLoop ts tree g v = Ok tree' ->
    fragmentsIn inp (Fragments tree').
Proof.
  induction 1 as [|t ts Ht _ IH]; intros tree g v tree' Hf Hg Hv Hp;
    [discriminate|].
  cbn [parseLoop] in Hp. destruct (tokType t) eqn:Et.
  - discriminate.
  - apply IH in Hp; assumption.
  - destruct v as [v0|]; [destruct g as [g0|]|].
    + apply IH in Hp; try discriminate; [exact Hp|].
      cbn [Fragments]. apply Forall_app. split; [exact Hf|].
      constructor; [|constructor]. cbn [valuesOf Values].
      apply Forall_app. split; [exact (Hg g0 eq_refl)|].
      constructor; [exact (Hv v0 eq_refl)|constructor].
    + apply IH in Hp; try discriminate; [exact Hp|].
      cbn [Fragments]. apply Forall_app. split; [exact Hf|].
      constructor; [|constructor]. cbn [valuesOf].
      constructor; [exact (Hv v0 eq_refl)|constructor].
    + apply IH in Hp; assumption.
  - destruct v as [v0|]; [|discriminate].
    apply IH in Hp; try discriminate; [exact Hp|exact Hf|].
    intros g1 H1. injection H1 as <-. cbn [Values].
    apply Forall_app. split.
    + destruct g as [g0|]; [exact (Hg g0 eq_refl)|constructor].
    + constructor; [exact (Hv v0 eq_refl)|constructor].
  - apply IH in Hp; try assumption.
    intros v1 H1. injection H1 as <-.
    destruct (Ht Et) as (H2 & H3 & H4).
    unfold valueIn. cbn [value_pos value_end Value].
    split; [lia|]. split; [exact H2|]. split; [exact H3|exact H4].
  - destruct v as [v0|]; [destruct g as [g0|]|]; injection Hp as <-.
    + cbn [Fragments]. apply Forall_app. split; [exact Hf|].
      constructor; [|constructor]. cbn [valuesOf Values].
      apply Forall_app. split; [exact (Hg g0 eq_refl)|].
      constructor; [exact (Hv v0 eq_refl)|constructor].
    + cbn [Fragments]. apply Forall_app. split; [exact Hf|].
      constructor; [|constructor]. cbn [valuesOf].
      constructor; [exact (Hv v0 eq_refl)|constructor].
    + exact Hf.
Qed.

(** X8. The value nodes of a parsed tree are pieces of the input: for
    every value of every fragment (alone or in a group), its text is the
    input from its start offset to its end offset, the offsets are in
    range, and the text holds no [$] and no comma. *)
Theorem Parse_values_in_input (hash : gostring) (tree : Tree) :
  Parse hash = Ok tree -> fragmentsIn hash (Fragments tree).
Proof.
  unfold Parse. destruct (lex hash) as [ts|] eqn:Hl; [|discriminate].
  intros Hp.
  apply (@parseLoop_in hash ts (lex_tokens_in _ Hl) (mkTree None []) None None tree).
  - constructor.
  - discriminate.
  - discriminate.
  - exact Hp.
Qed.

Lemma Parse_values_in_input_witness :
  fragmentsIn (str "$1$ab$c=1,d=2")
    [FValue (mkValueNode (str "ab") 3 5);
     FGroup (mkGroupNode [mkValueNode (str "c=1") 6 9;
                          mkValueNode (str "d=2") 10 13])].
Proof.
  apply (@Parse_values_in_input (str "$1$ab$c=1,d=2")
           (mkTree (Some (mkPrefixNode (str "$1$") 3))
              [FValue (mkValueNode (str "ab") 3 5);
               FGroup (mkGroupNode [mkValueNode (str "c=1") 6 9;
                                    mkValueNode (str "d=2") 10 13])])).
  vm_compute. reflexivity.
Defined.

Lemma parseLoop_groups (ts : list token) :
  forall (tree : Tree) (g : option GroupNode) (v : option ValueNode)
         (tree' : Tree),
    groupsFull (Fragments tree) ->
    (forall g0, g = Some g0 -> 1 <= length (Values g0)) ->
    parseLoop ts tree g v = Ok tree' ->
    groupsFull (Fragments tree').
Proof.
  induction ts as [|t ts IH]; intros tree g v tree' Hf Hg Hp; [discriminate|].
  cbn [parseLoop] in Hp. destruct (tokType t) eqn:Et.
  - discriminate.
  - apply IH in Hp; assumption.
  - destruct v as [v0|]; [destruct g as [g0|]|].
    + apply IH in Hp; try discriminate; [exact Hp|].
      cbn [Fragments]. apply Forall_app. split; [exact Hf|].
      constructor; [|constructor]. cbn [Values].
      rewrite length_app. cbn [length]. pose proof (Hg g0 eq_refl). lia.
    + apply IH in Hp; try discriminate; [exact Hp|].
      cbn [Fragments]. apply Forall_app. split; [exact Hf|].
      constructor; [exact I|constructor].
    + apply IH in Hp; assumption.
  - destruct v as [v0|]; [|discriminate].
    apply IH in Hp; [exact Hp|exact Hf|].
    intros g1 H1. injection H1 as <-. cbn [Values].
    rewrite length_app. cbn [length]. lia.
  - apply IH in Hp; assumption.
  - destruct v as [v0|]; [destruct g as [g0|]|]; injection Hp as <-.
    + cbn [Fragments]. apply Forall_app. split; [exact Hf|].
      constructor; [|constructor]. cbn [Values].
      rewrite length_app. cbn [length]. pose proof (Hg g0 eq_refl). lia.
    + cbn [Fragments]. apply Forall_app. split; [exact Hf|].
      constructor; [exact I|constructor].
    + exact Hf.
Qed.

(** X9. Every group of a parsed tree has two values or more (the
    invariant [len(Values) > 0] that node.go states), so that [Pos] and
    [End] of a fragment of the tree never index an empty slice. *)
Theorem Parse_groups_full (hash : gostring) (tree : Tree) :
  Parse hash = Ok tree ->
  groupsFull (Fragments tree)
  /\ Forall (fun f => FragmentNode_End f <> None) (Fragments tree).
Proof.
  unfold Parse. destruct (lex hash) as [ts|] eqn:Hl; [|discriminate].
  intros Hp.
  assert (Hg : groupsFull (Fragments tree)).
  { apply (@parseLoop_groups ts (mkTree None []) None None tree).
    - constructor.
    - discriminate.
    - exact Hp. }
  split; [exact Hg|].
  revert Hg. apply Forall_impl. intros [v|g] H; cbn [FragmentNode_End].
  - discriminate.
  - unfold GroupNode_End. destruct (Values g) as [|x l] eqn:E using rev_ind.
    + cbn [length] in H. lia.
    + rewrite rev_app_distr. cbn [rev app]. discriminate.
Qed.

Lemma Parse_groups_full_witness :
  groupsFull [FGroup (mkGroupNode [mkValueNode (str "m=1") 3 6;
                                   mkValueNode (str "t=2") 7 10])]
  /\ Forall (fun f => FragmentNode_End f <> None)
       [FGroup (mkGroupNode [mkValueNode (str "m=1") 3 6;
                             mkValueNode (str "t=2") 7 10])].
Proof.
  apply (@Parse_groups_full (str "$a$m=1,t=2")
           (mkTree (Some (mkPrefixNode (str "$a$") 3))
              [FGroup (mkGroupNode [mkValueNode (str "m=1") 3 6;
                                    mkValueNode (str "t=2") 7 10])])).
  vm_compute. reflexivity.
Defined.

(** ** The prefix of a parsed tree, and the registry of [crypt] *)

Lemma parseLoop_keeps_prefix (ts : list token) :
  fragmentTokens ts ->
  forall (tree : Tree) (g : option GroupNode) (v : option ValueNode)
         (tree' : Tree),
    parseLoop ts tree g v = Ok tree' -> Prefix tree' = Prefix tree.
Proof.
  induction 1 as [t Ht|v0 t Hv Ht|v0 d ts Hv Hd _ IH]; intros tree g v tree'.
  - cbn [parseLoop]. rewrite Ht.
    destruct v as [x|]; [destruct g|]; intros H; injection H as <-;
      reflexivity.
  - cbn [parseLoop]. rewrite Hv, Ht.
    destruct g; intros H; injection H as <-; reflexivity.
  - cbn [parseLoop]. rewrite Hv. destruct Hd as [Hd|Hd]; rewrite Hd.
    + destruct g; intros H; apply IH in H; exact H.
    + intros H. apply IH in H. exact H.
Qed.

(** The prefix node that [Parse] builds from a prefix token. *)
Lemma parseLoop_prefix_app (pre more : list token) :
  Forall (fun t => tokType t = tokenPrefix) pre ->
  forall (tree : Tree) (g : option GroupNode) (v : option ValueNode),
    parseLoop (pre ++ more) tree g v =
    parseLoop more
      (mkTree (fold_left
                 (fun _ t => Some (mkPrefixNode (tokValue t) (length (tokValue t))))
                 pre (Prefix tree))
              (Fragments tree)) g v.
Proof.
  induction 1 as [|t pre Ht _ IH]; intros tree g v.
  - cbn [app fold_left]. destruct tree; reflexivity.
  - cbn [app parseLoop fold_left]. rewrite Ht. rewrite IH. reflexivity.
Qed.

Lemma Parse_after_prefix (inp : gostring) (l : lexer) :
  lexPrefix (mkLexer inp 0 0 []) = (Some lexFragmentFn, l) ->
  input l = inp ->
  pos l <= length inp ->
  Forall (fun t => tokType t = tokenPrefix) (tokens l) ->
  exists tree,
    Parse inp = Ok tree
    /\ Prefix tree =
       fold_left
         (fun _ t => Some (mkPrefixNode (tokValue t) (length (tokValue t))))
         (tokens l) None.
Proof.
  intros Hl Hi Hp Hf. unfold Parse, lex.
  replace (length inp + 2) with (S (length inp + 1)) by lia.
  cbn [run apply_state]. rewrite Hl.
  destruct (@run_fragment_total (length inp + 1) l) as (l' & more & Hr & Ht & Hm).
  - rewrite Hi. exact Hp.
  - rewrite Hi. lia.
  - rewrite Hr. cbn [option_map]. rewrite Ht.
    rewrite (parseLoop_prefix_app more Hf).
    cbn [Prefix Fragments].
    match goal with
    | |- context [parseLoop more ?t None None] =>
        destruct (parseLoop_fragmentTokens Hm t None None) as (tree' & Ht');
        exists tree'; split; [exact Ht'|];
        apply (parseLoop_keeps_prefix Hm) in Ht'; exact Ht'
    end.
Qed.

Lemma slice_one (s : gostring) (p : nat) (c : ascii) :
  HasPrefix (skipn p s) [c] = true -> slice s p (p + 1) = [c].
Proof.
  intros H. rewrite slice_from.
  destruct (HasPrefix_one _ _ H) as (s' & ->). reflexivity.
Qed.

(** The outcome of [Parse] on an input that does not start with a
    dollar. *)
Lemma Parse_no_dollar (hash : gostring) :
  HasPrefix hash (str "$") = false ->
  exists tree,
    Parse hash = Ok tree
    /\ Prefix tree = if HasPrefix hash (str "_")
                     then Some (mkPrefixNode (str "_") 1) else None.
Proof.
  intros E.
  destruct (HasPrefix hash (str "_")) eqn:E2.
  - destruct (@Parse_after_prefix hash
                (emit (set_pos (mkLexer hash 0 0 []) 1) tokenPrefix))
      as (tree & Hp & Hx).
    + unfold lexPrefix. cbn [pos input skipn]. rewrite E.
      cbv beta iota zeta. cbn [pos input skipn]. rewrite E2. reflexivity.
    + reflexivity.
    + cbn [emit set_pos pos]. destruct (HasPrefix_one _ _ E2) as (s' & ->).
      cbn [length]. lia.
    + cbn [emit set_pos tokens app]. constructor; [reflexivity|constructor].
    + exists tree. split; [exact Hp|]. rewrite Hx.
      cbn [emit set_pos tokens app fold_left tokValue input pos start].
      change 1 with (0 + 1). rewrite (@slice_one hash 0 "_" E2). reflexivity.
  - destruct (@Parse_after_prefix hash (mkLexer hash 0 0 []))
      as (tree & Hp & Hx).
    + unfold lexPrefix. cbn [pos input skipn]. rewrite E.
      cbv beta iota zeta. cbn [pos input skipn]. rewrite E2. reflexivity.
    + reflexivity.
    + cbn [pos]. lia.
    + constructor.
    + exists tree. split; [exact Hp|exact Hx].
Qed.

(** The outcome of [Parse] on an input that starts with a dollar and has
    a prefix identifier and its end. *)
Lemma Parse_dollar (rest : gostring) (i : nat) :
  IndexAny rest delimChars = Some (S i) ->
  exists tree,
    Parse ("$"%char :: rest) = Ok tree
    /\ Prefix tree =
       if HasPrefix (skipn (S i + 2) ("$"%char :: rest)) (str "_")
       then Some (mkPrefixNode (str "_") 1)
       else Some (mkPrefixNode (slice ("$"%char :: rest) 0 (S i + 2)) (S i + 2)).
Proof.
  intros Ei.
  destruct (IndexAny_Some _ _ Ei) as (c & Hc & _).
  assert (Hlt : S i < length rest) by (apply nth_error_Some; congruence).
  set (inp := "$"%char :: rest).
  set (l1 := emit (set_pos (set_pos (mkLexer inp 0 0 []) 1) (S i + 2))
               tokenPrefix).
  assert (Hlex : lexPrefix (mkLexer inp 0 0 []) =
                 (Some lexFragmentFn,
                  if HasPrefix (skipn (S i + 2) inp) (str "_")
                  then emit (set_pos l1 (S i + 2 + 1)) tokenPrefix else l1)).
  { unfold lexPrefix. cbn [pos input set_pos Nat.add].
    change (HasPrefix inp (str "$")) with true. cbn iota.
    change (skipn 1 inp) with rest. rewrite Ei. cbn [Nat.eqb].
    replace (S (S i + 1)) with (S i + 2) by lia. reflexivity. }
  assert (Hlen : length (slice inp 0 (S i + 2)) = S i + 2).
  { rewrite length_slice; [lia|lia|]. unfold inp. cbn [length]. lia. }
  destruct (HasPrefix (skipn (S i + 2) inp) (str "_")) eqn:E2.
  - destruct (@Parse_after_prefix inp
                (emit (set_pos l1 (S i + 2 + 1)) tokenPrefix))
      as (tree & Hp & Hx).
    + exact Hlex.
    + reflexivity.
    + cbn [emit set_pos pos].
      destruct (HasPrefix_one _ _ E2) as (s' & Hs). apply skipn_cons_lt in Hs.
      lia.
    + cbn [emit set_pos tokens l1 app].
      constructor; [reflexivity|constructor; [reflexivity|constructor]].
    + exists tree. split; [exact Hp|]. rewrite Hx.
      cbn [emit set_pos tokens l1 app fold_left tokValue input pos start].
      rewrite (@slice_one inp (S i + 2) "_" E2). reflexivity.
  - destruct (@Parse_after_prefix inp l1) as (tree & Hp & Hx).
    + exact Hlex.
    + reflexivity.
    + cbn [emit set_pos pos l1]. unfold inp. cbn [length]. lia.
    + cbn [emit set_pos tokens l1 app]. constructor; [reflexivity|constructor].
    + exists tree. split; [exact Hp|]. rewrite Hx.
      cbn [emit set_pos tokens l1 app fold_left tokValue input pos start].
      rewrite Hlen. reflexivity.
Qed.

(** X10. The outcome of [Parse] by the start of the input. An input that
    does not start with [$] always parses: its tree has the prefix [_]
    (end 1) when the input starts with [_], and no prefix otherwise. An
    input [$id] followed by [$] or a comma always parses: the prefix of
    its tree is the input through that delimiter, unless the text after
    the delimiter starts with [_], in which case the prefix of the tree is
    [_] with end 1. *)
Theorem Parse_prefix (hash : gostring) :
  (HasPrefix hash (str "$") = false ->
   exists tree,
     Parse hash = Ok tree
     /\ Prefix tree = if HasPrefix hash (str "_")
                      then Some (mkPrefixNode (str "_") 1) else None)
  /\ (forall (rest : gostring) (i : nat),
        hash = "$"%char :: rest ->
        IndexAny rest delimChars = Some (S i) ->
        exists tree,
          Parse hash = Ok tree
          /\ Prefix tree =
             if HasPrefix (skipn (S i + 2) hash) (str "_")
             then Some (mkPrefixNode (str "_") 1)
             else Some (mkPrefixNode (slice hash 0 (S i + 2)) (S i + 2))).
Proof.
  split.
  - intros E. destruct (Parse_no_dollar hash E) as (tree & H1 & H2).
    exists tree. split; assumption.
  - intros rest i -> Ei. destruct (Parse_dollar rest Ei) as (tree & H1 & H2).
    exists tree. split; assumption.
Qed.

Lemma Parse_prefix_witness :
  exists tree,
    Parse (str "_ab") = Ok tree
    /\ Prefix tree = if HasPrefix (str "_ab") (str "_")
                     then Some (mkPrefixNode (str "_") 1) else None.
Proof.
  apply (Parse_prefix (str "_ab")). reflexivity.
Defined.
(** X11. [crypt.Check] and the parser agree on the prefix. When [Parse]
    refuses the hash with a syntax error, [Check] returns [ErrHash]
    without a call. When [Parse] accepts it, [Check] calls the function
    stored for the prefix text of the parsed tree (the empty text when the
    tree has no prefix), with the hash and the password, and returns
    [ErrHash] when none is stored -- unless the hash starts with [$] and
    has [_] right after its [$id$] prefix, where the tree has the prefix
    [_] and [Check] looks up [$id$]. *)
Theorem Check_dispatch (cache : hashCacheMap) (hash password : gostring) :
  (forall e, Parse hash = Err e -> Check cache hash password = Some ErrHash)
  /\ (forall tree,
        Parse hash = Ok tree ->
        (forall i, HasPrefix hash (str "$") = true ->
                   IndexAny (skipn 1 hash) delimChars = Some i ->
                   HasPrefix (skipn (i + 2) hash) (str "_") = false) ->
        Check cache hash password =
        match cache (prefixText tree) with
        | Some check => check hash password
        | None => Some ErrHash
        end).
Proof.
  destruct (HasPrefix hash (str "$")) eqn:E.
  - destruct (HasPrefix_one _ _ E) as (rest & ->).
    assert (Hu : HasPrefix ("$"%char :: rest) (str "_") = false) by reflexivity.
    destruct (IndexAny rest delimChars) as [[|i]|] eqn:Ei.
    + destruct (lex_missing_prefix_identifier rest Ei) as [_ Hp]. split.
      * intros e _. unfold Check. rewrite E. cbn [skipn].
        change (str "$,") with delimChars. rewrite Ei. reflexivity.
      * intros tree Ht. congruence.
    + destruct (Parse_dollar rest Ei) as (tree0 & Hp & Hx). split.
      * intros e He. congruence.
      * intros tree Ht Hno. assert (tree = tree0) by congruence. subst tree0.
        specialize (Hno (S i) eq_refl Ei). rewrite Hno in Hx.
        unfold Check, prefixText. rewrite E, Hu, Hx. cbn [skipn Text].
        change (str "$,") with delimChars. rewrite Ei. reflexivity.
    + destruct (lex_missing_prefix_end rest Ei) as [_ Hp]. split.
      * intros e _. unfold Check. rewrite E. cbn [skipn].
        change (str "$,") with delimChars. rewrite Ei. reflexivity.
      * intros tree Ht. congruence.
  - destruct (Parse_no_dollar hash E) as (tree0 & Hp & Hx). split.
    + intros e He. congruence.
    + intros tree Ht _. assert (tree = tree0) by congruence. subst tree0.
      unfold Check, prefixText. rewrite E, Hx.
      destruct (HasPrefix hash (str "_")); reflexivity.
Qed.

(** The test [TestCheckNotMatchingPassword]. *)
Lemma Check_dispatch_witness :
  Check (RegisterHash (fun _ => None) (str "$foo$")
           (fun _ _ => Some ErrPasswordMismatch))
    (str "$foo$") (str "bar")
  = Some ErrPasswordMismatch.
Proof.
  rewrite (proj2 (Check_dispatch
                    (RegisterHash (fun _ => None) (str "$foo$")
                       (fun _ _ => Some ErrPasswordMismatch))
                    (str "$foo$") (str "bar"))
             (mkTree (Some (mkPrefixNode (str "$foo$") 5)) []) eq_refl).
  - reflexivity.
  - intros i _ H. vm_compute in H. injection H as <-. reflexivity.
Defined.

(** The hash [$a$_b]: the tree of [Parse] has the prefix [_], and [Check]
    calls the function stored for [$a$]. *)
Example Check_underscore_after_prefix :
  Check (RegisterHash (fun _ => None) (str "$a$") (fun _ _ => None))
    (str "$a$_b") (str "pw") = None
  /\ Check (RegisterHash (fun _ => None) (str "_") (fun _ _ => None))
       (str "$a$_b") (str "pw") = Some ErrHash.
Proof. split; reflexivity. Qed.

(** ** Numbers in a field: [Marshal] then [Unmarshal] *)

Lemma digitVal_digitChar (d : nat) : d < 36 -> digitVal (digitChar d) = Some d.
Proof.
  intros H.
  do 36 (destruct d as [|d]; [reflexivity|]). lia.
Qed.

Lemma formatDigits_keeps (base fuel : nat) :
  forall (n : nat) (acc : gostring),
    acc <> [] -> formatDigits fuel base n acc <> [].
Proof.
  induction fuel as [|fuel IH]; intros n acc Ha; [exact Ha|].
  cbn [formatDigits]. destruct (n / base =? 0); [discriminate|].
  apply IH. discriminate.
Qed.

Lemma formatDigits_nonempty (fuel base n : nat) (acc : gostring) :
  formatDigits (S fuel) base n acc <> [].
Proof.
  cbn [formatDigits]. destruct (n / base =? 0); [discriminate|].
  apply formatDigits_keeps. discriminate.
Qed.

(** Reading the digits that [formatDigits] writes for [n] gives [n]. *)
Lemma parseDigits_formatDigits (base : nat) (maxVal : Z) (fuel : nat) :
  2 <= base <= 36 ->
  forall (n : nat) (acc : gostring),
    n < fuel ->
    (Z.of_nat n <= maxVal)%Z ->
    parseDigits (formatDigits fuel base n acc) base maxVal 0 =
    parseDigits acc base maxVal (Z.of_nat n).
Proof.
  intros Hb. induction fuel as [|fuel IH]; intros n acc Hf Hm; [lia|].
  cbn [formatDigits].
  assert (Hmod : n mod base < base) by (apply Nat.mod_upper_bound; lia).
  assert (Hdm : n = base * (n / base) + n mod base)
    by (apply Nat.div_mod_eq).
  destruct (n / base =? 0) eqn:E.
  - apply Nat.eqb_eq in E.
    cbn [parseDigits]. rewrite digitVal_digitChar by lia.
    assert (Hlt : (base <=? n mod base) = false) by (apply Nat.leb_gt; lia).
    rewrite Hlt. rewrite Z.mul_0_l, Z.add_0_l.
    assert (En : n mod base = n) by nia. rewrite En.
    assert (Hle : (maxVal <? Z.of_nat n)%Z = false) by (apply Z.ltb_ge; lia).
    rewrite Hle. reflexivity.
  - apply Nat.eqb_neq in E.
    assert (Hq : n / base < n) by (apply Nat.div_lt; lia).
    rewrite IH by lia.
    cbn [parseDigits]. rewrite digitVal_digitChar by lia.
    assert (Hlt : (base <=? n mod base) = false) by (apply Nat.leb_gt; lia).
    rewrite Hlt.
    assert (En : (Z.of_nat (n / base) * Z.of_nat base + Z.of_nat (n mod base))%Z
                 = Z.of_nat n) by nia.
    rewrite En.
    assert (Hle : (maxVal <? Z.of_nat n)%Z = false) by (apply Z.ltb_ge; lia).
    rewrite Hle. reflexivity.
Qed.

Lemma formatDigits_chars (base fuel : nat) :
  2 <= base <= 36 ->
  forall (n : nat) (acc : gostring),
    Forall (fun c => exists d, d < 36 /\ c = digitChar d) acc ->
    Forall (fun c => exists d, d < 36 /\ c = digitChar d)
      (formatDigits fuel base n acc).
Proof.
  intros Hb. induction fuel as [|fuel IH]; intros n acc Ha; [exact Ha|].
  cbn [formatDigits].
  assert (Hc : Forall (fun c => exists d, d < 36 /\ c = digitChar d)
                 (digitChar (n mod base) :: acc)).
  { constructor; [|exact Ha]. exists (n mod base). split; [|reflexivity].
    pose proof (Nat.mod_upper_bound n base). lia. }
  destruct (n / base =? 0); [exact Hc|]. apply IH. exact Hc.
Qed.

(** [strconv.ParseUint] reads back the digits of [n]. *)
Lemma ParseUint_formatDigits (n base bits : nat) :
  2 <= base <= 36 ->
  (Z.of_nat n < 2 ^ Z.of_nat bits)%Z ->
  formatDigits (S n) base n [] <> []
  /\ Forall (fun c => exists d, d < 36 /\ c = digitChar d)
       (formatDigits (S n) base n [])
  /\ ParseUint (formatDigits (S n) base n []) base bits = Ok (Z.of_nat n).
Proof.
  intros Hb Hv.
  split; [apply formatDigits_nonempty|].
  split; [apply formatDigits_chars; [exact Hb|constructor]|].
  unfold ParseUint.
  destruct (formatDigits (S n) base n []) eqn:Ef.
  { exfalso. revert Ef. apply formatDigits_nonempty. }
  rewrite <- Ef.
  assert (E0 : Nat.eqb base 0 = false) by (apply Nat.eqb_neq; lia).
  assert (E1 : (base <? 2) || (36 <? base) = false).
  { apply orb_false_iff. split; apply Nat.ltb_ge; lia. }
  rewrite E0, E1.
  rewrite parseDigits_formatDigits; [|exact Hb|lia|lia].
  reflexivity.
Qed.

(** [strconv.ParseUint] reads back what [strconv.FormatUint] writes. *)
Lemma ParseUint_FormatUint (v : Z) (base bits : nat) :
  2 <= base <= 36 ->
  (0 <= v < 2 ^ Z.of_nat bits)%Z ->
  exists s, FormatUint v base = Ok s /\ s <> []
            /\ Forall (fun c => exists d, d < 36 /\ c = digitChar d) s
            /\ ParseUint s base bits = Ok v.
Proof.
  intros Hb Hv. unfold FormatUint.
  assert (E1 : (base <? 2) || (36 <? base) = false).
  { apply orb_false_iff. split; apply Nat.ltb_ge; lia. }
  rewrite E1. eexists. split; [reflexivity|].
  destruct (@ParseUint_formatDigits (Z.to_nat v) base bits Hb)
    as (H1 & H2 & H3); [rewrite Z2Nat.id; lia|].
  rewrite Z2Nat.id in H3 by lia.
  split; [exact H1|]. split; [exact H2|exact H3].
Qed.

Lemma digitChar_valid (d : nat) :
  d < 36 ->
  decodeMap HashEncoding (digitChar d) <> 255
  /\ decodeMap Base64Encoding (digitChar d) <> 255.
Proof.
  intros H.
  do 36 (destruct d as [|d]; [split; vm_compute; discriminate|]). lia.
Qed.

Lemma digits_pass (enc : option Encoding) (s : gostring) :
  enc = None \/ enc = Some HashEncoding \/ enc = Some Base64Encoding ->
  Forall (fun c => exists d, d < 36 /\ c = digitChar d) s ->
  match enc with
  | Some e => IndexAnyInvalid e s
  | None => None
  end = None.
Proof.
  intros He Hs. destruct He as [->|[->| ->]]; [reflexivity| |].
  - induction Hs as [|c s (d & Hd & ->) _ IH]; [reflexivity|].
    cbn [IndexAnyInvalid].
    destruct (Nat.eqb (decodeMap HashEncoding (digitChar d)) 255) eqn:E.
    + apply Nat.eqb_eq in E. destruct (digitChar_valid Hd) as [H _].
      contradiction.
    + rewrite IH. reflexivity.
  - induction Hs as [|c s (d & Hd & ->) _ IH]; [reflexivity|].
    cbn [IndexAnyInvalid].
    destruct (Nat.eqb (decodeMap Base64Encoding (digitChar d)) 255) eqn:E.
    + apply Nat.eqb_eq in E. destruct (digitChar_valid Hd) as [_ H].
      contradiction.
    + rewrite IH. reflexivity.
Qed.

Lemma TrimPrefix_fieldText (fi : fieldInfo) (s : gostring) :
  (if negb (gostring_eqb (Param (Opts fi)) [])
   then TrimPrefix (fieldText fi s) (Param (Opts fi) ++ ["="%char])
   else fieldText fi s) = s.
Proof.
  unfold fieldText. destruct (gostring_eqb (Param (Opts fi)) []); cbn [negb].
  - reflexivity.
  - rewrite app_assoc. apply TrimPrefix_self.
Qed.

(** X12. An unsigned number survives [Marshal] and [Unmarshal]: for a
    field of type [uint8] to [uint64] without a length, with a base from
    2 to 36 and one of the encodings of the package, [marshalValue]
    writes a text that is not empty for every value of the type, and
    [unmarshal] reads the value back from the node that holds this text
    (after [param=] when the field has a parameter name). *)
Theorem uint_field_round_trip (t : gotype) (ti : typeInfo) (fi : fieldInfo)
    (bits : nat) (v : Z) (p e : nat) (old : option govalue) :
  Type_ fi = TUint bits ->
  opt_Prefix (Opts fi) = false ->
  Length (Opts fi) = 0 ->
  2 <= Base (Opts fi) <= 36 ->
  Encoding_ (Opts fi) = None \/ Encoding_ (Opts fi) = Some HashEncoding
  \/ Encoding_ (Opts fi) = Some Base64Encoding ->
  (0 <= v < 2 ^ Z.of_nat bits)%Z ->
  exists s,
    marshalValue t fi (Some (VUint v)) = Ok s
    /\ s <> []
    /\ unmarshal (NValue (mkValueNode (fieldText fi s) p e)) ti fi old
       = Ok (VUint v, fieldText fi s).
Proof.
  intros Hty Hpre Hlen Hbase Henc Hv.
  destruct (@ParseUint_FormatUint v (Base (Opts fi)) bits Hbase Hv)
    as (s & Hf & Hne & Hchars & Hp).
  pose proof (digits_pass Henc Hchars) as Hpass.
  exists s. split; [|split; [exact Hne|]].
  - unfold marshalValue, marshal. rewrite Hty, Hpre, Hlen.
    cbn [indirectType methodsOf MarshalText kindOf andb]. rewrite Hf.
    cbn [Nat.ltb Nat.leb andb].
    destruct (Encoding_ (Opts fi)) as [enc|]; [rewrite Hpass|]; reflexivity.
  - unfold unmarshal. cbn [Node_String Value].
    rewrite TrimPrefix_fieldText, Hlen. cbn [Nat.ltb Nat.leb].
    rewrite Hpass. unfold decodeValue. rewrite Hty, Hpre.
    cbn [indirectType methodsOf UnmarshalText kindOf andb bitsOf stripNamed].
    rewrite Hp. reflexivity.
Qed.

Lemma uint_field_round_trip_witness :
  exists s,
    marshalValue (TStruct []) 
      (mkFieldInfo [0] (str "Rounds") (TUint 32)
         (mkFieldOpts false true false (str "rounds") (Some HashEncoding) 0 false 10))
      (Some (VUint 5000)) = Ok s
    /\ s <> []
    /\ unmarshal
         (NValue (mkValueNode
                    (fieldText
                       (mkFieldInfo [0] (str "Rounds") (TUint 32)
                          (mkFieldOpts false true false (str "rounds")
                             (Some HashEncoding) 0 false 10)) s) 3 14))
         (rawInfo (TStruct []))
         (mkFieldInfo [0] (str "Rounds") (TUint 32)
            (mkFieldOpts false true false (str "rounds") (Some HashEncoding) 0 false 10))
         None
       = Ok (VUint 5000,
             fieldText
               (mkFieldInfo [0] (str "Rounds") (TUint 32)
                  (mkFieldOpts false true false (str "rounds")
                     (Some HashEncoding) 0 false 10)) s).
Proof.
  apply (@uint_field_round_trip (TStruct []) (rawInfo (TStruct []))
           (mkFieldInfo [0] (str "Rounds") (TUint 32)
              (mkFieldOpts false true false (str "rounds") (Some HashEncoding) 0 false 10))
           32 5000%Z 3 14 None).
  - reflexivity.
  - reflexivity.
  - reflexivity.
  - cbn. lia.
  - right. left. reflexivity.
  - cbn. lia.
Defined.
Lemma digitChar_no_sign (d : nat) :
  d < 36 ->
  byte_eqb (digitChar d) "-" = false /\ byte_eqb (digitChar d) "+" = false.
Proof.
  intros H.
  do 36 (destruct d as [|d]; [split; reflexivity|]). lia.
Qed.

(** [strconv.ParseInt] reads back what [strconv.FormatInt] writes. *)
Lemma ParseInt_FormatInt (v : Z) (base bits : nat) :
  2 <= base <= 36 ->
  1 <= bits <= 64 ->
  (- 2 ^ (Z.of_nat bits - 1) <= v < 2 ^ (Z.of_nat bits - 1))%Z ->
  exists digits,
    FormatInt v base = Ok (if (v <? 0)%Z then "-"%char :: digits else digits)
    /\ digits <> []
    /\ Forall (fun c => exists d, d < 36 /\ c = digitChar d) digits
    /\ ParseInt (if (v <? 0)%Z then "-"%char :: digits else digits) base bits
       = Ok v.
Proof.
  intros Hb Hbits Hv. unfold FormatInt.
  assert (E1 : (base <? 2) || (36 <? base) = false).
  { apply orb_false_iff. split; apply Nat.ltb_ge; lia. }
  rewrite E1.
  assert (Hpow : (2 ^ (Z.of_nat bits - 1) <= 2 ^ 63)%Z)
    by (apply Z.pow_le_mono_r; lia).
  assert (Hpow' : (2 ^ 63 < 2 ^ Z.of_nat 64)%Z) by (cbn; lia).
  destruct (@ParseUint_formatDigits (Z.abs_nat v) base 64 Hb)
    as (H1 & H2 & H3); [lia|].
  exists (formatDigits (S (Z.abs_nat v)) base (Z.abs_nat v) []).
  split; [reflexivity|]. split; [exact H1|]. split; [exact H2|].
  set (digits := formatDigits (S (Z.abs_nat v)) base (Z.abs_nat v) []) in *.
  destruct (v <? 0)%Z eqn:En.
  - apply Z.ltb_lt in En. unfold ParseInt.
    change (byte_eqb "-" "-") with true. cbn [orb andb negb].
    rewrite H3.
    assert (Ec : (2 ^ (Z.of_nat bits - 1) <? Z.of_nat (Z.abs_nat v))%Z = false)
      by (apply Z.ltb_ge; lia).
    rewrite Ec. f_equal. lia.
  - apply Z.ltb_ge in En. unfold ParseInt.
    destruct digits as [|c s'] eqn:Ed; [contradiction|].
    inversion H2 as [|? ? (d & Hd & Hc) _]; subst c.
    destruct (digitChar_no_sign Hd) as [Em Ep]. rewrite Em, Ep.
    cbn [orb andb negb]. rewrite H3.
    assert (Ec : (2 ^ (Z.of_nat bits - 1) <=? Z.of_nat (Z.abs_nat v))%Z = false)
      by (apply Z.leb_gt; lia).
    rewrite Ec. f_equal. lia.
Qed.

Lemma minus_invalid :
  decodeMap HashEncoding "-" = 255 /\ decodeMap Base64Encoding "-" = 255.
Proof. split; reflexivity. Qed.

(** X13. A signed number in a field of type [int8] to [int64] without a
    length, with a base from 2 to 36: a value that is not negative
    survives [Marshal] and [Unmarshal] under every encoding of the
    package, and a negative value under [enc:none]; under the hash
    alphabet (the default) or [enc:base64], [marshalValue] refuses a
    negative value for the character [-]. *)
Theorem int_field_round_trip (t : gotype) (ti : typeInfo) (fi : fieldInfo)
    (bits : nat) (v : Z) (p e : nat) (old : option govalue) :
  Type_ fi = TInt bits ->
  opt_Prefix (Opts fi) = false ->
  Length (Opts fi) = 0 ->
  2 <= Base (Opts fi) <= 36 ->
  1 <= bits <= 64 ->
  (- 2 ^ (Z.of_nat bits - 1) <= v < 2 ^ (Z.of_nat bits - 1))%Z ->
  ((0 <= v)%Z /\ (Encoding_ (Opts fi) = Some HashEncoding
                  \/ Encoding_ (Opts fi) = Some Base64Encoding)
   \/ Encoding_ (Opts fi) = None ->
   exists s,
     marshalValue t fi (Some (VInt v)) = Ok s
     /\ s <> []
     /\ unmarshal (NValue (mkValueNode (fieldText fi s) p e)) ti fi old
        = Ok (VInt v, fieldText fi s))
  /\ ((v < 0)%Z ->
      Encoding_ (Opts fi) = Some HashEncoding
      \/ Encoding_ (Opts fi) = Some Base64Encoding ->
      marshalValue t fi (Some (VInt v)) =
      Err (UnsupportedValueError t (Name fi) (str "invalid character '-'"))).
Proof.
  intros Hty Hpre Hlen Hbase Hbits Hv.
  destruct (@ParseInt_FormatInt v (Base (Opts fi)) bits Hbase Hbits Hv)
    as (digits & Hf & Hne & Hchars & Hp).
  assert (Hm : marshal t fi (Some (VInt v)) =
               Ok (if (v <? 0)%Z then "-"%char :: digits else digits)).
  { unfold marshal. rewrite Hty, Hpre.
    cbn [indirectType methodsOf MarshalText kindOf andb]. rewrite Hf.
    reflexivity. }
  split.
  - intros Henc.
    remember (if (v <? 0)%Z then "-"%char :: digits else digits) as s eqn:Es in *.
    assert (Hpass : match Encoding_ (Opts fi) with
                    | Some enc => IndexAnyInvalid enc s
                    | None => None
                    end = None).
    { destruct Henc as [[H0 He]|He].
      - assert (Es' : s = digits).
        { rewrite Es. destruct (v <? 0)%Z eqn:En; [|reflexivity].
          apply Z.ltb_lt in En. lia. }
        rewrite Es'. apply digits_pass; [|exact Hchars]. right. exact He.
      - rewrite He. reflexivity. }
    exists s. split; [|split].
    + unfold marshalValue. rewrite Hm, Hlen. cbn [Nat.ltb Nat.leb andb].
      destruct (Encoding_ (Opts fi)) as [enc|]; [rewrite Hpass|]; reflexivity.
    + rewrite Es. destruct (v <? 0)%Z; [discriminate|exact Hne].
    + unfold unmarshal. cbn [Node_String Value].
      rewrite TrimPrefix_fieldText, Hlen. cbn [Nat.ltb Nat.leb].
      rewrite Hpass. unfold decodeValue. rewrite Hty, Hpre.
      cbn [indirectType methodsOf UnmarshalText kindOf andb bitsOf stripNamed].
      assert (Hp' : ParseInt s (Base (Opts fi)) bits = Ok v)
        by (rewrite Es; exact Hp).
      rewrite Hp'. reflexivity.
  - intros Hneg Henc. apply Z.ltb_lt in Hneg. rewrite Hneg in Hm.
    unfold marshalValue. rewrite Hm, Hlen. cbn [Nat.ltb Nat.leb andb].
    destruct minus_invalid as [M1 M2].
    destruct Henc as [-> | ->]; cbn [IndexAnyInvalid].
    + rewrite M1. reflexivity.
    + rewrite M2. reflexivity.
Qed.

Lemma int_field_round_trip_witness :
  marshalValue (TStruct [])
    (mkFieldInfo [0] (str "I") (TInt 64)
       (mkFieldOpts false false false [] (Some HashEncoding) 0 false 10))
    (Some (VInt (-5))) =
  Err (UnsupportedValueError (TStruct []) (str "I")
         (str "invalid character '-'")).
Proof.
  apply (@int_field_round_trip (TStruct []) (rawInfo (TStruct []))
           (mkFieldInfo [0] (str "I") (TInt 64)
              (mkFieldOpts false false false [] (Some HashEncoding) 0 false 10))
           64 (-5)%Z 0 2 None).
  - reflexivity.
  - reflexivity.
  - reflexivity.
  - cbn. lia.
  - lia.
  - cbn. lia.
  - lia.
  - left. reflexivity.
Defined.

(** ** Writing a tree and parsing it again *)

Lemma IndexAny_app_delim (v rest : gostring) (d : ascii) :
  IndexAny v delimChars = None ->
  d = "$"%char \/ d = ","%char ->
  IndexAny (v ++ d :: rest) delimChars = Some (length v).
Proof.
  intros Hv Hd. induction v as [|c v IH].
  - cbn [app IndexAny length]. destruct Hd as [-> | ->]; reflexivity.
  - cbn [app IndexAny length] in *.
    destruct (existsb (byte_eqb c) delimChars); [discriminate|].
    destruct (IndexAny v delimChars); [discriminate|].
    rewrite IH by reflexivity. reflexivity.
Qed.

Lemma skipn_app_length (A : Type) (a b : list A) :
  skipn (length a) (a ++ b) = b.
Proof. induction a as [|x a IH]; [reflexivity|exact IH]. Qed.

Lemma firstn_app_length (A : Type) (a b : list A) :
  firstn (length a) (a ++ b) = a.
Proof. induction a as [|x a IH]; [reflexivity|]. cbn. f_equal. exact IH. Qed.

(** One round of the fragment state on a value that a delimiter ends. *)
Lemma lexFragment_delim (l : lexer) (v rest : gostring) (d : ascii) :
  start l = pos l ->
  skipn (pos l) (input l) = v ++ d :: rest ->
  IndexAny v delimChars = None ->
  d = "$"%char \/ d = ","%char ->
  lexFragment l =
  Some (Some lexFragmentFn,
        mkLexer (input l) (pos l + length v + 1) (pos l + length v + 1)
          (tokens l
           ++ [mkToken tokenValue (pos l) v;
               mkToken (if byte_eqb d "$" then tokenDollar else tokenComma)
                 (pos l + length v) [d]])).
Proof.
  intros Hs Hk Hv Hd. unfold lexFragment.
  rewrite Hk, (@IndexAny_app_delim v rest d Hv Hd).
  assert (Hn : nth_error (input l) (pos l + length v) = Some d).
  { rewrite <- nth_error_skipn_add, Hk, nth_error_app2 by lia.
    rewrite Nat.sub_diag. reflexivity. }
  assert (H1 : slice (input l) (start l) (pos l + length v) = v).
  { rewrite Hs, slice_from, Hk. apply firstn_app_length. }
  assert (H2 : slice (input l) (pos l + length v) (pos l + length v + 1) = [d]).
  { rewrite slice_from, (Nat.add_comm (pos l) (length v)).
    rewrite <- skipn_skipn, Hk, skipn_app_length.
    reflexivity. }
  unfold Next. cbn [emit set_pos input pos start tokens]. rewrite Hn.
  destruct Hd as [-> | ->].
  - change (byte_eqb "$" "$") with true. cbn iota.
    unfold emit, set_pos. cbn [input pos start tokens].
    rewrite H1, H2, <- app_assoc, Hs. reflexivity.
  - change (byte_eqb "," "$") with false. change (byte_eqb "," ",") with true.
    cbn iota. unfold emit, set_pos. cbn [input pos start tokens].
    rewrite H1, H2, <- app_assoc, Hs. reflexivity.
Qed.
(** The last round of the fragment state: the text left holds no
    delimiter. *)
Lemma lexFragment_end (l : lexer) (v : gostring) :
  start l = pos l ->
  pos l <= length (input l) ->
  skipn (pos l) (input l) = v ->
  IndexAny v delimChars = None ->
  lexFragment l =
  Some (None,
        mkLexer (input l) (length (input l)) (length (input l))
          (tokens l
           ++ match v with
              | [] => []
              | _ => [mkToken tokenValue (pos l) v]
              end
           ++ [mkToken tokenEOF (length (input l)) []])).
Proof.
  intros Hs Hle Hk Hv. unfold lexFragment. rewrite Hk, Hv.
  cbn [set_pos start pos input tokens].
  assert (He : slice (input l) (length (input l)) (length (input l)) = []).
  { unfold slice. rewrite Nat.sub_diag. reflexivity. }
  destruct v as [|c v'].
  - assert (Hge : length (input l) <= pos l).
    { destruct (Nat.le_gt_cases (length (input l)) (pos l)) as [H|H]; [exact H|].
      apply (f_equal (@length ascii)) in Hk. rewrite length_skipn in Hk.
      cbn [length] in Hk. lia. }
    assert (E : (start l <? length (input l)) = false)
      by (apply Nat.ltb_ge; lia).
    assert (Hp : start l = length (input l)) by lia.
    rewrite E. unfold emit, set_pos. cbn [input pos start tokens].
    rewrite Hp, He. reflexivity.
  - assert (Hlt : pos l < length (input l)) by (exact (skipn_cons_lt _ _ Hk)).
    assert (E : (start l <? length (input l)) = true)
      by (apply Nat.ltb_lt; lia).
    rewrite E. unfold emit, set_pos. cbn [input pos start tokens].
    rewrite He, Hs, slice_to_end, Hk, <- app_assoc. reflexivity.
Qed.

Lemma skipn_past (s v rest : gostring) (d : ascii) (p : nat) :
  skipn p s = v ++ d :: rest ->
  skipn (p + length v + 1) s = rest /\ p + length v + 1 <= length s.
Proof.
  intros H. split.
  - replace (p + length v + 1) with (S (length v) + p) by lia.
    rewrite <- skipn_skipn, H. cbn [skipn].
    change (match v ++ d :: rest with [] => [] | _ :: l => skipn (length v) l end)
      with (skipn (S (length v)) (v ++ d :: rest)).
    replace (S (length v)) with (length (v ++ [d]))
      by (rewrite length_app; cbn [length]; lia).
    replace (v ++ d :: rest) with ((v ++ [d]) ++ rest)
      by (rewrite <- app_assoc; reflexivity).
    apply skipn_app_length.
  - apply (f_equal (@length ascii)) in H.
    rewrite length_skipn, length_app in H. cbn [length] in H. lia.
Qed.

Lemma groupOf_snoc (gacc : list ValueNode) (x : ValueNode) :
  groupOf (gacc ++ [x]) = Some (mkGroupNode (gacc ++ [x])).
Proof. destruct gacc; reflexivity. Qed.

Lemma groupOf_values (gacc : list ValueNode) :
  Values (match groupOf gacc with
          | Some g => g
          | None => mkGroupNode []
          end) = gacc.
Proof. destruct gacc; reflexivity. Qed.

(** What [Parse] appends when a dollar or the end of the input follows a
    value: the value alone, or the group with this value. *)
Lemma fragmentOf_snoc (gacc : list ValueNode) (x : ValueNode) :
  fragmentOf (gacc ++ [x]) =
  match groupOf gacc with
  | Some g => FGroup (mkGroupNode (Values g ++ [x]))
  | None => FValue x
  end.
Proof.
  destruct gacc as [|a gacc]; [reflexivity|].
  cbn [groupOf Values app fragmentOf].
  destruct (gacc ++ [x]) as [|b r] eqn:E; [|reflexivity].
  destruct gacc; discriminate.
Qed.
(** One round of the lexer on a value and its delimiter, and what
    [Parse] has after the two tokens. *)
Lemma round_delim (n : nat) (l : lexer) (v rest : gostring) (d : ascii)
    (tree : Tree) (gacc : list ValueNode) :
  start l = pos l ->
  skipn (pos l) (input l) = v ++ d :: rest ->
  IndexAny v delimChars = None ->
  d = "$"%char \/ d = ","%char ->
  length (input l) - pos l < S n ->
  (forall more,
      parseLoop (tokens l ++ more) (mkTree None []) None None =
      parseLoop more tree (groupOf gacc) None) ->
  exists l1,
    run (S n) (Some lexFragmentFn) l = run n (Some lexFragmentFn) l1
    /\ input l1 = input l
    /\ start l1 = pos l1
    /\ pos l1 = pos l + length v + 1
    /\ skipn (pos l1) (input l1) = rest
    /\ length (input l1) - pos l1 < n
    /\ (forall more,
          parseLoop (tokens l1 ++ more) (mkTree None []) None None =
          if byte_eqb d "$"
          then parseLoop more
                 (mkTree (Prefix tree)
                    (Fragments tree
                     ++ [fragmentOf
                           (gacc ++ [mkValueNode v (pos l) (pos l + length v)])]))
                 None None
          else parseLoop more tree
                 (groupOf (gacc ++ [mkValueNode v (pos l) (pos l + length v)]))
                 None).
Proof.
  intros Hs Hk Hv Hd Hn Hinv.
  destruct (@skipn_past _ _ _ _ _ Hk) as [Hk1 Hle].
  eexists. split.
  { cbn [run apply_state]. rewrite (@lexFragment_delim l v rest d Hs Hk Hv Hd).
    reflexivity. }
  cbn [input pos start tokens].
  split; [reflexivity|]. split; [reflexivity|]. split; [reflexivity|].
  split; [exact Hk1|]. split; [lia|].
  intros more. rewrite <- app_assoc, Hinv.
  cbn [app parseLoop tokType tokPos tokValue].
  destruct Hd as [-> | ->].
  - change (byte_eqb "$" "$") with true. cbn iota.
    rewrite fragmentOf_snoc. destruct (groupOf gacc); reflexivity.
  - change (byte_eqb "," "$") with false. cbn iota.
    rewrite groupOf_values, groupOf_snoc. reflexivity.
Qed.

(** The last round, and the tree that [Parse] returns. *)
Lemma round_end (n : nat) (l : lexer) (v : gostring)
    (tree : Tree) (gacc : list ValueNode) :
  start l = pos l ->
  skipn (pos l) (input l) = v ->
  IndexAny v delimChars = None ->
  v <> [] ->
  (forall more,
      parseLoop (tokens l ++ more) (mkTree None []) None None =
      parseLoop more tree (groupOf gacc) None) ->
  exists l1,
    run (S n) (Some lexFragmentFn) l = Some l1
    /\ parseLoop (tokens l1) (mkTree None []) None None =
       Ok (mkTree (Prefix tree)
             (Fragments tree
              ++ [fragmentOf
                    (gacc ++ [mkValueNode v (pos l) (pos l + length v)])])).
Proof.
  intros Hs Hk Hv Hne Hinv.
  assert (Hle : pos l <= length (input l)).
  { destruct v as [|c v']; [contradiction|].
    pose proof (skipn_cons_lt _ _ Hk). lia. }
  eexists. split.
  { cbn [run apply_state]. rewrite (@lexFragment_end l v Hs Hle Hk Hv).
    rewrite run_None. reflexivity. }
  cbn [tokens]. rewrite Hinv.
  destruct v as [|c v']; [contradiction|].
  cbn [app parseLoop tokType tokPos tokValue].
  rewrite fragmentOf_snoc. destruct (groupOf gacc); reflexivity.
Qed.

Lemma renderFragments_cons (vs : list gostring) (frs : list (list gostring)) :
  renderFragments (vs :: frs) = joinWith "," vs ++ afterFragment frs.
Proof.
  unfold renderFragments, afterFragment. destruct frs as [|vs2 frs].
  - cbn [map joinWith]. rewrite app_nil_r. reflexivity.
  - reflexivity.
Qed.

(** The lexer and the parser on the values [vs] of a fragment and the
    fragments [frs] after it, from a state in which [Parse] has the
    fragments of [tree] and the values [gacc] of the fragment it reads. *)
Lemma lex_parse_fragments (frs : list (list gostring)) :
  forall (vs : list gostring) (gacc : list ValueNode) (tree : Tree)
         (n : nat) (l : lexer),
    vs <> [] ->
    Forall (fun v => IndexAny v delimChars = None) vs ->
    fragmentsClean frs ->
    (forall front v, vs ++ concat frs = front ++ [v] -> v <> []) ->
    start l = pos l ->
    skipn (pos l) (input l) = joinWith "," vs ++ afterFragment frs ->
    length (input l) - pos l < n ->
    (forall more,
        parseLoop (tokens l ++ more) (mkTree None []) None None =
        parseLoop more tree (groupOf gacc) None) ->
    exists l',
      run n (Some lexFragmentFn) l = Some l'
      /\ parseLoop (tokens l') (mkTree None []) None None =
         Ok (mkTree (Prefix tree)
               (Fragments tree
                ++ fragmentOf (gacc ++ placeValues (pos l) vs)
                   :: placeFragments (pos l + length (joinWith "," vs) + 1) frs)).
Proof.
  induction frs as [|vs2 frs2 IHf];
    (induction vs as [|v vs' IHv];
     intros gacc tree n l Hne Hclean Hfrs Hlast Hs Hk Hn Hinv;
     [contradiction|]);
    (destruct n as [|n]; [lia|]);
    inversion Hclean as [|? ? Hv Hclean']; subst.
  - (* the last fragment *)
    destruct vs' as [|v2 vs''].
    + cbn [joinWith afterFragment] in Hk. rewrite app_nil_r in Hk.
      destruct (@round_end n l v tree gacc Hs Hk Hv) as (l1 & Hr & Hp).
      * apply (Hlast []). reflexivity.
      * exact Hinv.
      * exists l1. split; [exact Hr|]. rewrite Hp. reflexivity.
    + change (joinWith "," (v :: v2 :: vs''))
        with (v ++ ","%char :: joinWith "," (v2 :: vs'')) in Hk |- *.
      rewrite <- app_assoc in Hk. cbn [app] in Hk.
      destruct (@round_delim n l v _ ","%char tree gacc Hs Hk Hv
                  (or_intror eq_refl) Hn Hinv)
        as (l1 & Hr & Hi & Hs1 & Hp1 & Hk1 & Hn1 & Hinv1).
      change (byte_eqb "," "$") with false in Hinv1. cbn iota in Hinv1.
      destruct (IHv (gacc ++ [mkValueNode v (pos l) (pos l + length v)])
                  tree n l1) as (l' & Hr' & Hp').
      * discriminate.
      * exact Hclean'.
      * exact Hfrs.
      * intros front x Hx. apply (Hlast (v :: front) x).
        cbn [app]. rewrite <- Hx. reflexivity.
      * exact Hs1.
      * exact Hk1.
      * exact Hn1.
      * exact Hinv1.
      * exists l'. split; [rewrite Hr; exact Hr'|]. rewrite Hp'.
        rewrite Hp1, <- app_assoc. cbn [app placeValues].
        rewrite length_app. cbn [length].
        replace (pos l + (length v + S (length (joinWith "," (v2 :: vs''))))
                 + 1)
          with (pos l + length v + 1 + length (joinWith "," (v2 :: vs'')) + 1)
          by lia.
        reflexivity.
  - (* a fragment with fragments after it *)
    destruct vs' as [|v2 vs''].
    + cbn [joinWith] in Hk. unfold afterFragment in Hk.
      destruct (@round_delim n l v _ "$"%char tree gacc Hs Hk Hv
                  (or_introl eq_refl) Hn Hinv)
        as (l1 & Hr & Hi & Hs1 & Hp1 & Hk1 & Hn1 & Hinv1).
      change (byte_eqb "$" "$") with true in Hinv1. cbn iota in Hinv1.
      inversion Hfrs as [|? ? [Hne2 Hclean2] Hfrs2]; subst.
      rewrite renderFragments_cons in Hk1.
      destruct (IHf vs2 []
                  (mkTree (Prefix tree)
                     (Fragments tree
                      ++ [fragmentOf
                            (gacc ++ [mkValueNode v (pos l) (pos l + length v)])]))
                  n l1) as (l' & Hr' & Hp').
      * exact Hne2.
      * exact Hclean2.
      * exact Hfrs2.
      * intros front x Hx. apply (Hlast (v :: front) x).
        cbn [app concat]. rewrite <- Hx. reflexivity.
      * exact Hs1.
      * exact Hk1.
      * exact Hn1.
      * exact Hinv1.
      * exists l'. split; [rewrite Hr; exact Hr'|]. rewrite Hp'.
        cbn [Prefix Fragments app placeValues placeFragments joinWith].
        rewrite Hp1, <- app_assoc. reflexivity.
    + change (joinWith "," (v :: v2 :: vs''))
        with (v ++ ","%char :: joinWith "," (v2 :: vs'')) in Hk |- *.
      rewrite <- app_assoc in Hk. cbn [app] in Hk.
      destruct (@round_delim n l v _ ","%char tree gacc Hs Hk Hv
                  (or_intror eq_refl) Hn Hinv)
        as (l1 & Hr & Hi & Hs1 & Hp1 & Hk1 & Hn1 & Hinv1).
      change (byte_eqb "," "$") with false in Hinv1. cbn iota in Hinv1.
      destruct (IHv (gacc ++ [mkValueNode v (pos l) (pos l + length v)])
                  tree n l1) as (l' & Hr' & Hp').
      * discriminate.
      * exact Hclean'.
      * exact Hfrs.
      * intros front x Hx. apply (Hlast (v :: front) x).
        cbn [app]. rewrite <- Hx. reflexivity.
      * exact Hs1.
      * exact Hk1.
      * exact Hn1.
      * exact Hinv1.
      * exists l'. split; [rewrite Hr; exact Hr'|]. rewrite Hp'.
        rewrite Hp1, <- app_assoc. cbn [app placeValues].
        rewrite length_app. cbn [length].
        replace (pos l + (length v + S (length (joinWith "," (v2 :: vs''))))
                 + 1)
          with (pos l + length v + 1 + length (joinWith "," (v2 :: vs'')) + 1)
          by lia.
        reflexivity.
Qed.
(** [lexPrefix] on a prefix of the grammar followed by a text that
    [startsClean]: it sends the prefix as one token, or nothing when
    there is no prefix, and stops right after the prefix. *)
Lemma lexPrefix_render (pre text : gostring) :
  prefixShape pre ->
  startsClean pre text ->
  exists l,
    lexPrefix (mkLexer (pre ++ text) 0 0 []) = (Some lexFragmentFn, l)
    /\ input l = pre ++ text
    /\ start l = pos l
    /\ pos l = length pre
    /\ tokens l = match pre with
                  | [] => []
                  | _ => [mkToken tokenPrefix 0 pre]
                  end.
Proof.
  intros [->|[->|(id & d & -> & Hid & Hclean & Hd)]] [Hc1 Hc2].
  - cbn [app]. eexists. split.
    + unfold lexPrefix. cbn [pos input skipn]. rewrite (Hc1 eq_refl).
      cbv beta iota zeta. cbn [pos input skipn].
      rewrite Hc2 by discriminate. reflexivity.
    + repeat split; reflexivity.
  - eexists. split.
    + unfold lexPrefix. cbn [pos input skipn].
      change (HasPrefix (str "_" ++ text) (str "$")) with false.
      cbv beta iota zeta. cbn [pos input skipn].
      change (HasPrefix (str "_" ++ text) (str "_")) with true.
      cbv beta iota zeta. reflexivity.
    + cbn [emit set_pos input pos start tokens app].
      repeat split; reflexivity.
  - assert (Hin : ("$"%char :: id ++ [d]) ++ text
                  = "$"%char :: id ++ d :: text).
    { cbn [app]. rewrite <- app_assoc. reflexivity. }
    rewrite Hin.
    assert (Hlen : length id <> 0) by (destruct id; [contradiction|discriminate]).
    assert (Hpos : 0 + 1 + (length id + 1) = length ("$"%char :: id ++ [d])).
    { cbn [length]. rewrite length_app. cbn [length]. lia. }
    assert (Hsl : slice ("$"%char :: id ++ d :: text) 0
                    (length ("$"%char :: id ++ [d]))
                  = "$"%char :: id ++ [d]).
    { unfold slice. rewrite Nat.sub_0_r. cbn [skipn].
      rewrite <- Hin. apply firstn_app_length. }
    assert (Hsk : skipn (length ("$"%char :: id ++ [d]))
                    ("$"%char :: id ++ d :: text) = text).
    { rewrite <- Hin. apply skipn_app_length. }
    eexists. split.
    + unfold lexPrefix. cbn [pos input set_pos].
      change (skipn 0 ("$"%char :: id ++ d :: text))
        with ("$"%char :: id ++ d :: text).
      change (HasPrefix ("$"%char :: id ++ d :: text) (str "$")) with true.
      cbv beta iota zeta. cbn [pos input set_pos].
      change (skipn (0 + 1) ("$"%char :: id ++ d :: text))
        with (id ++ d :: text).
      rewrite (@IndexAny_app_delim id text d Hclean Hd).
      apply Nat.eqb_neq in Hlen. rewrite Hlen.
      cbv beta iota zeta. cbn [emit set_pos pos input start tokens].
      rewrite Hpos, Hsk, Hc2; [reflexivity|].
      intros H. injection H as _ H. destruct id; [contradiction|discriminate].
    + cbn [emit set_pos input pos start tokens app]. rewrite ?Hpos, ?Hsl.
      repeat split; reflexivity.
Qed.

(** [Parse] on a prefix and fragments written out. *)
Lemma Parse_rendered (pre : gostring) (frs : list (list gostring)) :
  prefixShape pre ->
  fragmentsClean frs ->
  lastValueFull frs ->
  startsClean pre (renderFragments frs) ->
  Parse (pre ++ renderFragments frs) =
  Ok (mkTree (prefixNodeOf pre) (placeFragments (length pre) frs)).
Proof.
  intros Hpre Hclean Hlast Hstart.
  destruct (lexPrefix_render Hpre Hstart) as (l & Hl & Hi & Hs & Hp & Ht).
  assert (Hinv : forall more,
             parseLoop (tokens l ++ more) (mkTree None []) None None =
             parseLoop more (mkTree (prefixNodeOf pre) []) (groupOf []) None).
  { intros more. rewrite Ht. destruct pre; reflexivity. }
  assert (Hk : skipn (pos l) (input l) = renderFragments frs).
  { rewrite Hi, Hp. apply skipn_app_length. }
  unfold Parse, lex.
  replace (length (pre ++ renderFragments frs) + 2)
    with (S (length (pre ++ renderFragments frs) + 1)) by lia.
  cbn [run apply_state]. rewrite Hl.
  destruct frs as [|vs frs].
  - replace (length (pre ++ renderFragments []) + 1)
      with (S (length (pre ++ renderFragments []))) by lia.
    cbn [run apply_state].
    rewrite (@lexFragment_end l [] Hs); [| |exact Hk|reflexivity].
    + rewrite run_None. cbn [option_map tokens app].
      rewrite Hinv. reflexivity.
    + rewrite Hi, Hp, length_app. lia.
  - inversion Hclean as [|? ? [Hne Hvs] Hfrs]; subst.
    rewrite renderFragments_cons in Hk.
    destruct (@lex_parse_fragments frs vs [] (mkTree (prefixNodeOf pre) [])
                (length (pre ++ renderFragments (vs :: frs)) + 1) l)
      as (l' & Hr & Hparse).
    + exact Hne.
    + exact Hvs.
    + exact Hfrs.
    + intros front v Hv. apply (Hlast front v). exact Hv.
    + exact Hs.
    + exact Hk.
    + rewrite Hi. lia.
    + exact Hinv.
    + rewrite Hr. cbn [option_map]. rewrite Hparse, Hp.
      reflexivity.
Qed.

Lemma map_Value_placeValues (vs : list gostring) :
  forall p : nat, map Value (placeValues p vs) = vs.
Proof.
  induction vs as [|v vs IH]; intros p; [reflexivity|].
  cbn [placeValues map Value]. rewrite IH. reflexivity.
Qed.

Lemma valuesOf_fragmentOf (vals : list ValueNode) :
  valuesOf (fragmentOf vals) = vals.
Proof. destruct vals as [|a [|b vals]]; reflexivity. Qed.

Lemma fragmentText_placed (frs : list (list gostring)) :
  forall p : nat,
    map fragmentText (placeFragments p frs) = map (joinWith ",") frs.
Proof.
  induction frs as [|vs frs IH]; intros p; [reflexivity|].
  cbn [placeFragments map]. rewrite IH. unfold fragmentText at 1.
  rewrite valuesOf_fragmentOf, map_Value_placeValues. reflexivity.
Qed.

(** X14. Parsing what was written. For a prefix of the grammar (none,
    [_], or [$id] with its delimiter) and fragments given by the texts of
    their values -- every fragment with a value, no value with a [$] or a
    comma, the last value not empty, the text of the fragments not
    starting with [_] (unless the prefix is [_]) nor, without a prefix,
    with [$] -- [Parse] of the prefix followed by the values joined by
    commas and the fragments joined by dollars returns the tree with this
    prefix and these fragments, every value at the offsets it has in the
    text, a fragment of one value as a value node and one of more values
    as a group; and the text of this tree is the input. *)
Theorem Parse_render (pre : gostring) (frs : list (list gostring)) :
  prefixShape pre ->
  fragmentsClean frs ->
  lastValueFull frs ->
  startsClean pre (renderFragments frs) ->
  Parse (pre ++ renderFragments frs) =
  Ok (mkTree (prefixNodeOf pre) (placeFragments (length pre) frs))
  /\ treeText (mkTree (prefixNodeOf pre) (placeFragments (length pre) frs))
     = pre ++ renderFragments frs.
Proof.
  intros Hpre Hclean Hlast Hstart. split.
  - apply Parse_rendered; assumption.
  - unfold treeText. cbn [Prefix Fragments].
    rewrite fragmentText_placed. unfold renderFragments.
    destruct pre; reflexivity.
Qed.

Lemma Parse_render_witness :
  Parse (str "$5$" ++ renderFragments [[str "rounds=5000"]; [str "salt"];
                                        [str "m=1"; str "t=2"]]) =
  Ok (mkTree (prefixNodeOf (str "$5$"))
        (placeFragments (length (str "$5$"))
           [[str "rounds=5000"]; [str "salt"]; [str "m=1"; str "t=2"]]))
  /\ treeText
       (mkTree (prefixNodeOf (str "$5$"))
          (placeFragments (length (str "$5$"))
             [[str "rounds=5000"]; [str "salt"]; [str "m=1"; str "t=2"]]))
     = str "$5$" ++ renderFragments [[str "rounds=5000"]; [str "salt"];
                                     [str "m=1"; str "t=2"]].
Proof.
  apply (@Parse_render (str "$5$")
           [[str "rounds=5000"]; [str "salt"]; [str "m=1"; str "t=2"]]).
  - right. right. exists (str "5"), "$"%char.
    split; [reflexivity|]. split; [discriminate|].
    split; [reflexivity|left; reflexivity].
  - repeat (apply Forall_cons;
            [split; [discriminate|
                     repeat (apply Forall_cons; [reflexivity|]);
                     apply Forall_nil]|]).
    apply Forall_nil.
  - intros front v H.
    change (concat [[str "rounds=5000"]; [str "salt"]; [str "m=1"; str "t=2"]])
      with ([str "rounds=5000"; str "salt"; str "m=1"] ++ [str "t=2"]) in H.
    apply app_inj_tail in H as [_ <-]. discriminate.
  - split; [discriminate|]. intros _. reflexivity.
Defined.

(** ** The schemes *)

(** One round of the loop of [Unmarshal] that binds a field to the value
    fragment at the cursor, outside a group. *)
Lemma value_round (hashLen : nat) (ti : typeInfo) (fi : fieldInfo)
    (st : ustate) (v : ValueNode) (x : govalue) (remaining : gostring) :
  group st = None ->
  nth_error (frags st) (fragIdx st) = Some (FValue v) ->
  Group (Opts fi) = false ->
  gostring_eqb (Param (Opts fi)) [] || HasPrefix (Value v) (Param (Opts fi))
    = true ->
  OmitEmpty (Opts fi) = false \/ (0 < numValues st - numReqValues st)%Z ->
  unmarshal (NValue v) ti fi (indirect (rec st (Index fi))) = Ok (x, remaining) ->
  unmarshalField hashLen ti fi st =
  Ok (mkUstate
        (if negb (Inline (Opts fi)) then fragIdx st + 1 else fragIdx st)
        (numGroupValues st) None
        (numValues st - 1)
        (if negb (OmitEmpty (Opts fi)) then numReqValues st - 1
         else numReqValues st)
        (writeValue (frags st) (fragIdx st) 0 remaining)
        (setField (rec st) (Index fi) (wrapPointers (Type_ fi) x))).
Proof.
  intros Hg Hn Hgr Hpar Hskip Hu.
  unfold unmarshalField, endOfGroup. rewrite Hg.
  assert (Hlt : (length (frags st) <=? fragIdx st) = false).
  { apply Nat.leb_gt. apply nth_error_Some. congruence. }
  rewrite Hlt, Hg.
  assert (Hno : OmitEmpty (Opts fi) && true
                && (numValues st - numReqValues st <=? 0)%Z = false).
  { destruct Hskip as [->|H]; [reflexivity|].
    rewrite andb_true_r. apply andb_false_iff. right. apply Z.leb_gt. exact H. }
  rewrite Hno, Hn. unfold bindFragment. rewrite Hgr. cbn [andb negb].
  rewrite Hpar. unfold bind. rewrite Hu. cbn [fragIdx numGroupValues group
    numValues numReqValues frags rec]. rewrite Hg. reflexivity.
Qed.

(** Characters of the hash alphabet are no delimiters. *)
Lemma hash_text_clean (s : gostring) :
  IndexAnyInvalid HashEncoding s = None -> IndexAny s delimChars = None.
Proof.
  induction s as [|c s IH]; [reflexivity|].
  cbn [IndexAnyInvalid IndexAny].
  destruct (Nat.eqb (decodeMap HashEncoding c) 255) eqn:E; [discriminate|].
  destruct (IndexAnyInvalid HashEncoding s); [discriminate|].
  intros _. rewrite IH by reflexivity.
  destruct (existsb (byte_eqb c) delimChars) eqn:Ed; [|reflexivity].
  exfalso. unfold delimChars, str in Ed.
  cbn [list_ascii_of_string existsb] in Ed.
  apply orb_true_iff in Ed as [Ed|Ed].
  - apply Ascii.eqb_eq in Ed. subst c. discriminate E.
  - apply orb_true_iff in Ed as [Ed|Ed]; [|discriminate].
    apply Ascii.eqb_eq in Ed. subst c. discriminate E.
Qed.

(** A text of the hash alphabet does not start with [_] or [$]. *)
Lemma hash_text_start (s rest : gostring) :
  IndexAnyInvalid HashEncoding s = None ->
  HasPrefix (s ++ "$"%char :: rest) (str "_") = false.
Proof.
  destruct s as [|c s]; [reflexivity|].
  cbn [IndexAnyInvalid app].
  destruct (Nat.eqb (decodeMap HashEncoding c) 255) eqn:E; [discriminate|].
  intros _. cbn [HasPrefix str list_ascii_of_string]. 
  destruct (byte_eqb "_" c) eqn:Eu; [|reflexivity].
  apply Ascii.eqb_eq in Eu. subst c. discriminate E.
Qed.

Lemma md5_compiles : getTypeInfo (TPtr md5_scheme) = Ok md5_typeInfo.
Proof. reflexivity. Qed.

Lemma md5_Parse (salt sum : gostring) :
  IndexAnyInvalid HashEncoding salt = None ->
  IndexAnyInvalid HashEncoding sum = None ->
  sum <> [] ->
  Parse (md5_Prefix ++ salt ++ "$"%char :: sum) =
  Ok (mkTree (Some (mkPrefixNode md5_Prefix 3))
        [FValue (mkValueNode salt 3 (3 + length salt));
         FValue (mkValueNode sum (3 + length salt + 1)
                   (3 + length salt + 1 + length sum))]).
Proof.
  intros Hsalt Hsum Hne.
  change (salt ++ "$"%char :: sum) with (renderFragments [[salt]; [sum]]).
  rewrite Parse_rendered.
  - reflexivity.
  - right. right. exists (str "1"), "$"%char.
    split; [reflexivity|]. split; [discriminate|].
    split; [reflexivity|left; reflexivity].
  - constructor; [|constructor; [|constructor]].
    + split; [discriminate|]. constructor; [|constructor].
      apply hash_text_clean. exact Hsalt.
    + split; [discriminate|]. constructor; [|constructor].
      apply hash_text_clean. exact Hsum.
  - intros front v H.
    change (concat [[salt]; [sum]]) with ([salt] ++ [sum]) in H.
    apply app_inj_tail in H as [_ <-]. exact Hne.
  - split; [discriminate|]. intros _.
    change (renderFragments [[salt]; [sum]]) with (salt ++ "$"%char :: sum).
    apply hash_text_start. exact Hsalt.
Qed.
(** [unmarshal] of a text of the alphabet into a byte slice without a
    parameter name: the field takes the text, of the length it asks for. *)
Lemma unmarshal_bytes (ti : typeInfo) (fi : fieldInfo) (v : ValueNode)
    (old : option govalue) :
  Type_ fi = bytesType ->
  Param (Opts fi) = [] ->
  opt_Prefix (Opts fi) = false ->
  Inline (Opts fi) = false ->
  Encoding_ (Opts fi) = Some HashEncoding ->
  Length (Opts fi) = 0 \/ length (Value v) = Length (Opts fi) ->
  IndexAnyInvalid HashEncoding (Value v) = None ->
  unmarshal (NValue v) ti fi old = Ok (VBytes (Value v), Value v).
Proof.
  intros Hty Hp Hpre Hin Henc Hlen Hok. unfold unmarshal, decodeValue.
  rewrite Hty, Hp, Hpre, Hin, Henc. cbn [gostring_eqb negb Node_String].
  assert (Hcut : (if 0 <? Length (Opts fi)
                  then if negb (Nat.eqb (length (Value v)) (Length (Opts fi)))
                       then Err (newUnmarshalError (NValue v) ti fi
                                   (str "length mismatch"))
                       else Ok (Value v, Value v)
                  else Ok (Value v, Value v))
                 = Ok (Value v, Value v)).
  { destruct Hlen as [->|Hl]; [reflexivity|].
    rewrite Hl, Nat.eqb_refl. destruct (0 <? Length (Opts fi)); reflexivity. }
  rewrite Hcut, Hok. reflexivity.
Qed.

(** X15. The MD5 scheme, written and read: for a salt and a sum of 22
    bytes, both of the hash alphabet, [Marshal] of the struct that
    [NewHash] fills gives [$1$], the salt, [$] and the sum; [Unmarshal]
    of this text into an empty [scheme] gives the three fields back, and
    [Salt] returns the salt. *)
Theorem md5_round_trip (salt sum : gostring) :
  IndexAnyInvalid HashEncoding salt = None ->
  IndexAnyInvalid HashEncoding sum = None ->
  length sum = 22 ->
  Marshal md5_scheme (scheme3 md5_Prefix salt sum)
  = Ok (md5_Prefix ++ salt ++ "$"%char :: sum)
  /\ (exists r,
         Unmarshal (md5_Prefix ++ salt ++ "$"%char :: sum) (TPtr md5_scheme)
           (scheme3 [] [] []) = Ok r
         /\ r [0] = VString md5_Prefix
         /\ r [1] = VBytes salt
         /\ r [2] = VBytes sum)
  /\ md5_Salt (md5_Prefix ++ salt ++ "$"%char :: sum) = Ok salt.
Proof.
  intros Hsalt Hsum Hlen.
  assert (Hne : sum <> []) by (destruct sum; [discriminate|discriminate]).
  assert (Hun : Unmarshal (md5_Prefix ++ salt ++ "$"%char :: sum)
                  (TPtr md5_scheme) (scheme3 [] [] [])
                = Ok (setField
                        (setField (setField (scheme3 [] [] []) [0]
                                     (VString md5_Prefix))
                           [1] (VBytes salt))
                        [2] (VBytes sum))).
  { unfold Unmarshal. cbn [kindOf indirectType stripNamed md5_scheme].
    rewrite (@md5_Parse salt sum Hsalt Hsum Hne), md5_compiles.
    unfold unmarshalTree.
    set (tree := mkTree _ _).
    assert (Hpre : unmarshalPrefix
                     (length (md5_Prefix ++ salt ++ "$"%char :: sum))
                     md5_typeInfo tree (scheme3 [] [] [])
                   = Ok (setField (scheme3 [] [] []) [0] (VString md5_Prefix)))
      by reflexivity.
    rewrite Hpre. cbn [Fields md5_typeInfo unmarshalFields NumReqValues].
    unfold tree. cbn [Fragments length].
    rewrite (@value_round _ md5_typeInfo _ _
               (mkValueNode salt 3 (3 + length salt)) (VBytes salt) salt);
      [|reflexivity|reflexivity|reflexivity|reflexivity|left; reflexivity|
       apply unmarshal_bytes; try reflexivity; [left; reflexivity|exact Hsalt]].
    cbn [Inline Opts negb OmitEmpty fragIdx numGroupValues numValues
         numReqValues frags rec writeValue nth_error replaceNth setValueText
         Value value_pos value_end Index Type_ wrapPointers bytesType Nat.add].
    rewrite (@value_round _ md5_typeInfo _ _
               (mkValueNode sum (3 + length salt + 1)
                  (3 + length salt + 1 + length sum)) (VBytes sum) sum);
      [|reflexivity|reflexivity|reflexivity|reflexivity|left; reflexivity|
       apply unmarshal_bytes; try reflexivity; [right; exact Hlen|exact Hsum]].
    cbn [Inline Opts negb OmitEmpty fragIdx numGroupValues numValues
         numReqValues frags rec writeValue nth_error replaceNth setValueText
         Value value_pos value_end Index Type_ wrapPointers bytesType Nat.add].
    reflexivity. }
  split; [|split].
  - unfold Marshal. cbn [kindOf indirectType stripNamed md5_scheme].
    assert (Hti : getTypeInfo md5_scheme =
                  Ok (mkTypeInfo md5_scheme md5_scheme (HashPrefix md5_typeInfo)
                        (Fields md5_typeInfo) 2)) by reflexivity.
    rewrite Hti. unfold marshalWith.
    cbn [HashPrefix Fields md5_typeInfo marshalLoop Index Opts OmitEmpty
         scheme3 andb indirect].
    unfold marshalValue, marshal.
    cbn [Type_ Opts indirectType hashPrefixType bytesType methodsOf MarshalText
         opt_Prefix Length Encoding_ kindOf andb negb elemIsUint8 stripNamed
         isUint8 Nat.ltb Nat.leb Param gostring_eqb separator Inline Group].
    rewrite Hsalt, Hsum, Hlen. cbn [Nat.eqb negb andb].
    rewrite <- !app_assoc. reflexivity.
  - eexists. split; [exact Hun|]. repeat split.
  - unfold md5_Salt. rewrite Hun. reflexivity.
Qed.

(** The hash of the test [TestParse] of the package. *)
Lemma md5_round_trip_witness :
  md5_Salt (md5_Prefix ++ str "aaa" ++ "$"%char :: str "sZbbxWYvlgYNZhB78yYjM0")
  = Ok (str "aaa").
Proof.
  apply (@md5_round_trip (str "aaa") (str "sZbbxWYvlgYNZhB78yYjM0"));
    reflexivity.
Defined.

(** One round of the loop of [Unmarshal] that skips an omitempty field. *)
Lemma skip_round (hashLen : nat) (ti : typeInfo) (fi : fieldInfo)
    (st : ustate) :
  OmitEmpty (Opts fi) = true ->
  group st = None ->
  fragIdx st < length (frags st) ->
  (numValues st - numReqValues st <= 0)%Z ->
  unmarshalField hashLen ti fi st =
  Ok (mkUstate (fragIdx st) (numGroupValues st) None
        (numValues st - 1) (numReqValues st) (frags st) (rec st)).
Proof.
  intros Hom Hg Hlt Hle. unfold unmarshalField, endOfGroup.
  rewrite Hg, Hom.
  assert (H1 : (length (frags st) <=? fragIdx st) = false)
    by (apply Nat.leb_gt; exact Hlt).
  assert (H2 : (numValues st - numReqValues st <=? 0)%Z = true)
    by (apply Z.leb_le; exact Hle).
  rewrite H1, Hg, H2. reflexivity.
Qed.

(** [unmarshal] of a text of the alphabet into a byte array of its
    length. *)
Lemma unmarshal_array (ti : typeInfo) (fi : fieldInfo) (s : gostring)
    (p e : nat) (b : gostring) (n : nat) :
  Type_ fi = TArray n (TUint 8) ->
  Param (Opts fi) = [] ->
  opt_Prefix (Opts fi) = false ->
  Inline (Opts fi) = false ->
  Encoding_ (Opts fi) = Some HashEncoding ->
  Length (Opts fi) = n ->
  length s = n ->
  length b = n ->
  IndexAnyInvalid HashEncoding s = None ->
  unmarshal (NValue (mkValueNode s p e)) ti fi (Some (VBytes b))
  = Ok (VBytes s, s).
Proof.
  intros Hty Hp Hpre Hin Henc Hlen Hv Hb Hok. unfold unmarshal, decodeValue.
  rewrite Hty, Hp, Hpre, Hin, Henc, Hlen.
  cbn [gostring_eqb negb Node_String Value]. rewrite Hv, Nat.eqb_refl.
  cbn [negb].
  assert (Hcut : (if 0 <? n then Ok (s, s) else Ok (s, s))
                 = (Ok (s, s) : result (gostring * gostring) UnmarshalError))
    by (destruct (0 <? n); reflexivity).
  rewrite Hcut, Hok.
  cbn [indirectType methodsOf UnmarshalText andb kindOf elemIsUint8
       stripNamed isUint8].
  rewrite Hv, Nat.min_id, firstn_all2, skipn_all2, app_nil_r by lia.
  reflexivity.
Qed.

Lemma IndexAny_app_none (a b chars : gostring) :
  IndexAny a chars = None -> IndexAny b chars = None ->
  IndexAny (a ++ b) chars = None.
Proof.
  intros Ha Hb. induction a as [|c a IH]; [exact Hb|].
  cbn [app IndexAny] in *.
  destruct (existsb (byte_eqb c) chars); [discriminate|].
  destruct (IndexAny a chars); [discriminate|].
  rewrite IH by reflexivity. reflexivity.
Qed.

(** The digits of a number are of the hash alphabet. *)
Lemma digits_hash (s : gostring) :
  Forall (fun c => exists d, d < 36 /\ c = digitChar d) s ->
  IndexAnyInvalid HashEncoding s = None.
Proof.
  intros H.
  apply (@digits_pass (Some HashEncoding) s); [right; left; reflexivity|exact H].
Qed.

Lemma sha256_compiles : getTypeInfo (TPtr sha256_scheme) = Ok sha256_typeInfo.
Proof. reflexivity. Qed.

Lemma sha256_prefixShape : prefixShape sha256_Prefix.
Proof.
  right. right. exists (str "5"), "$"%char.
  split; [reflexivity|]. split; [discriminate|].
  split; [reflexivity|left; reflexivity].
Qed.

Lemma sha256_Parse (salt sum : gostring) :
  IndexAnyInvalid HashEncoding salt = None ->
  IndexAnyInvalid HashEncoding sum = None ->
  sum <> [] ->
  Parse (sha256_Prefix ++ salt ++ "$"%char :: sum) =
  Ok (mkTree (Some (mkPrefixNode sha256_Prefix 3))
        [FValue (mkValueNode salt 3 (3 + length salt));
         FValue (mkValueNode sum (3 + length salt + 1)
                   (3 + length salt + 1 + length sum))]).
Proof.
  intros Hsalt Hsum Hne.
  change (salt ++ "$"%char :: sum) with (renderFragments [[salt]; [sum]]).
  rewrite Parse_rendered.
  - reflexivity.
  - exact sha256_prefixShape.
  - constructor; [|constructor; [|constructor]].
    + split; [discriminate|]. constructor; [|constructor].
      apply hash_text_clean. exact Hsalt.
    + split; [discriminate|]. constructor; [|constructor].
      apply hash_text_clean. exact Hsum.
  - intros front v H.
    change (concat [[salt]; [sum]]) with ([salt] ++ [sum]) in H.
    apply app_inj_tail in H as [_ <-]. exact Hne.
  - split; [discriminate|]. intros _.
    change (renderFragments [[salt]; [sum]]) with (salt ++ "$"%char :: sum).
    apply hash_text_start. exact Hsalt.
Qed.

Lemma sha256_Parse_rounds (digits salt sum : gostring) :
  IndexAnyInvalid HashEncoding digits = None ->
  IndexAnyInvalid HashEncoding salt = None ->
  IndexAnyInvalid HashEncoding sum = None ->
  sum <> [] ->
  Parse (sha256_Prefix ++ (str "rounds=" ++ digits) ++ "$"%char
         :: salt ++ "$"%char :: sum) =
  Ok (mkTree (Some (mkPrefixNode sha256_Prefix 3))
        [FValue (mkValueNode (str "rounds=" ++ digits) 3 (3 + (7 + length digits)));
         FValue (mkValueNode salt (3 + (7 + length digits) + 1)
                   (3 + (7 + length digits) + 1 + length salt));
         FValue (mkValueNode sum (3 + (7 + length digits) + 1 + length salt + 1)
                   (3 + (7 + length digits) + 1 + length salt + 1 + length sum))]).
Proof.
  intros Hd Hsalt Hsum Hne.
  change ((str "rounds=" ++ digits) ++ "$"%char :: salt ++ "$"%char :: sum)
    with (renderFragments [[str "rounds=" ++ digits]; [salt]; [sum]]).
  rewrite Parse_rendered.
  - reflexivity.
  - exact sha256_prefixShape.
  - constructor; [|constructor; [|constructor; [|constructor]]].
    + split; [discriminate|]. constructor; [|constructor].
      apply IndexAny_app_none; [reflexivity|].
      apply hash_text_clean. exact Hd.
    + split; [discriminate|]. constructor; [|constructor].
      apply hash_text_clean. exact Hsalt.
    + split; [discriminate|]. constructor; [|constructor].
      apply hash_text_clean. exact Hsum.
  - intros front v H.
    change (concat [[str "rounds=" ++ digits]; [salt]; [sum]])
      with ([str "rounds=" ++ digits; salt] ++ [sum]) in H.
    apply app_inj_tail in H as [_ <-]. exact Hne.
  - split; [discriminate|]. intros _. reflexivity.
Qed.
(** [unmarshal] of [rounds=] and the digits of a number into the field
    [Rounds] of [sha256.scheme]. *)
Lemma unmarshal_rounds (ti : typeInfo) (p e : nat) (digits : gostring)
    (rounds : Z) (old : option govalue) :
  IndexAnyInvalid HashEncoding digits = None ->
  ParseUint digits 10 32 = Ok rounds ->
  unmarshal (NValue (mkValueNode (str "rounds=" ++ digits) p e)) ti
    (mkFieldInfo [1] (str "Rounds") (TUint 32)
       (mkFieldOpts false true false (str "rounds") (Some HashEncoding) 0 false 10))
    old
  = Ok (VUint rounds, str "rounds=" ++ digits).
Proof.
  intros Hok Hp. unfold unmarshal, decodeValue.
  cbn [Opts Param Length Inline Encoding_ Type_ opt_Prefix Base Node_String
       negb Nat.ltb Nat.leb indirectType methodsOf UnmarshalText kindOf andb
       bitsOf stripNamed Value].
  change (negb (gostring_eqb (str "rounds") [])) with true. cbn iota.
  change (str "rounds" ++ ["="%char]) with (str "rounds=").
  rewrite TrimPrefix_self, Hok, Hp. reflexivity.
Qed.

(** X16. The SHA-256 scheme and its rounds. For a salt and a sum of 43
    bytes, both of the hash alphabet: [Params] of [$5$salt$sum] returns
    the salt and the implicit 5000 rounds, the field [Rounds] being
    skipped; for rounds from 1 to [2^32 - 1], [Marshal] writes
    [$5$rounds=N$salt$sum] with the decimal digits of the rounds, and
    [Params] of this text returns the salt and the rounds; with rounds
    0, [Marshal] leaves the parameter out. *)
Theorem sha256_rounds (salt sum : gostring) (rounds : Z) :
  IndexAnyInvalid HashEncoding salt = None ->
  IndexAnyInvalid HashEncoding sum = None ->
  length sum = 43 ->
  sha256_Params (sha256_Prefix ++ salt ++ "$"%char :: sum)
  = Ok (salt, sha256_ImplicitRounds)
  /\ Marshal sha256_scheme (sha256_value sha256_Prefix 0 salt sum)
     = Ok (sha256_Prefix ++ salt ++ "$"%char :: sum)
  /\ ((0 < rounds < 2 ^ 32)%Z ->
      exists digits,
        FormatUint rounds 10 = Ok digits
        /\ Marshal sha256_scheme (sha256_value sha256_Prefix rounds salt sum)
           = Ok (sha256_Prefix ++ (str "rounds=" ++ digits) ++ "$"%char
                 :: salt ++ "$"%char :: sum)
        /\ sha256_Params (sha256_Prefix ++ (str "rounds=" ++ digits)
                          ++ "$"%char :: salt ++ "$"%char :: sum)
           = Ok (salt, rounds)).
Proof.
  intros Hsalt Hsum Hlen.
  assert (Hne : sum <> []) by (destruct sum; discriminate).
  assert (Hti : getTypeInfo sha256_scheme =
                Ok (mkTypeInfo sha256_scheme sha256_scheme
                      (HashPrefix sha256_typeInfo) (Fields sha256_typeInfo) 2))
    by reflexivity.
  split; [|split].
  - unfold sha256_Params, Unmarshal.
    cbn [kindOf indirectType stripNamed sha256_scheme].
    rewrite (@sha256_Parse salt sum Hsalt Hsum Hne), sha256_compiles.
    unfold unmarshalTree.
    set (tree := mkTree _ _).
    assert (Hpre : unmarshalPrefix
                     (length (sha256_Prefix ++ salt ++ "$"%char :: sum))
                     sha256_typeInfo tree
                     (sha256_value [] 0 [] (repeat zeroByte 43))
                   = Ok (setField (sha256_value [] 0 [] (repeat zeroByte 43))
                           [0] (VString sha256_Prefix)))
      by reflexivity.
    rewrite Hpre. cbn [Fields sha256_typeInfo unmarshalFields NumReqValues].
    unfold tree. cbn [Fragments length].
    rewrite skip_round;
      [|reflexivity|reflexivity|cbn [fragIdx frags length]; lia|
       cbn [numValues numReqValues]; lia].
    cbn [fragIdx numGroupValues numValues numReqValues frags rec].
    rewrite (@value_round _ sha256_typeInfo _ _
               (mkValueNode salt 3 (3 + length salt)) (VBytes salt) salt);
      [|reflexivity|reflexivity|reflexivity|reflexivity|left; reflexivity|
       apply unmarshal_bytes; try reflexivity; [left; reflexivity|exact Hsalt]].
    cbn [Inline Opts negb OmitEmpty fragIdx numGroupValues numValues
         numReqValues frags rec writeValue nth_error replaceNth setValueText
         Value value_pos value_end Index Type_ wrapPointers bytesType Nat.add].
    rewrite (@value_round _ sha256_typeInfo _ _
               (mkValueNode sum (3 + length salt + 1)
                  (3 + length salt + 1 + length sum)) (VBytes sum) sum);
      [|reflexivity|reflexivity|reflexivity|reflexivity|left; reflexivity|
       cbn [rec Index indirect setField index_eqb Nat.eqb andb sha256_value];
       apply (@unmarshal_array _ _ _ _ _ (repeat zeroByte 43) 43);
       try reflexivity; [exact Hlen|exact Hsum]].
    reflexivity.
  - unfold Marshal. cbn [kindOf indirectType stripNamed sha256_scheme].
    rewrite Hti. unfold marshalWith.
    cbn [HashPrefix Fields sha256_typeInfo marshalLoop Index Opts OmitEmpty
         sha256_value andb indirect isEmpty Z.eqb].
    unfold marshalValue, marshal.
    cbn [Type_ Opts indirectType hashPrefixType bytesType methodsOf MarshalText
         opt_Prefix Length Encoding_ kindOf andb negb elemIsUint8 stripNamed
         isUint8 Nat.ltb Nat.leb Param gostring_eqb separator Inline Group].
    rewrite Hsalt, Hsum, Hlen. cbn [Nat.eqb negb andb].
    rewrite <- !app_assoc. reflexivity.
  - intros Hr.
    destruct (@ParseUint_FormatUint rounds 10 32) as (digits & Hf & Hdne & Hch & Hp);
      [lia|cbn; lia|].
    pose proof (digits_hash Hch) as Hd.
    exists digits. split; [exact Hf|]. split.
    + unfold Marshal. cbn [kindOf indirectType stripNamed sha256_scheme].
      rewrite Hti. unfold marshalWith.
      cbn [HashPrefix Fields sha256_typeInfo marshalLoop Index Opts OmitEmpty
           sha256_value andb indirect isEmpty].
      assert (Hz : (rounds =? 0)%Z = false) by (apply Z.eqb_neq; lia).
      rewrite Hz.
      unfold marshalValue, marshal.
      cbn [Type_ Opts indirectType hashPrefixType bytesType methodsOf MarshalText
           opt_Prefix Length Encoding_ kindOf andb negb elemIsUint8 stripNamed
           isUint8 Nat.ltb Nat.leb Param separator Inline Group Base].
      rewrite Hf, Hd, Hsalt, Hsum, Hlen. cbn [Nat.eqb negb andb].
      change (negb (gostring_eqb (str "rounds") [])) with true.
      change (negb (gostring_eqb [] [])) with false. cbn iota.
      rewrite <- !app_assoc. reflexivity.
    + assert (Hun : Unmarshal
                      (sha256_Prefix ++ (str "rounds=" ++ digits)
                       ++ "$"%char :: salt ++ "$"%char :: sum)
                      (TPtr sha256_scheme)
                      (sha256_value [] 0 [] (repeat zeroByte 43))
                    = Ok (setField
                            (setField
                               (setField
                                  (setField
                                     (sha256_value [] 0 [] (repeat zeroByte 43))
                                     [0] (VString sha256_Prefix))
                                  [1] (VUint rounds))
                               [2] (VBytes salt))
                            [3] (VBytes sum))).
      { unfold Unmarshal.
        cbn [kindOf indirectType stripNamed sha256_scheme].
        rewrite (@sha256_Parse_rounds digits salt sum Hd Hsalt Hsum Hne),
          sha256_compiles.
        unfold unmarshalTree.
        set (tree := mkTree _ _).
        assert (Hpre : forall n,
                   unmarshalPrefix n sha256_typeInfo tree
                     (sha256_value [] 0 [] (repeat zeroByte 43))
                   = Ok (setField (sha256_value [] 0 [] (repeat zeroByte 43))
                           [0] (VString sha256_Prefix)))
          by reflexivity.
        rewrite Hpre. cbn [Fields sha256_typeInfo unmarshalFields NumReqValues].
        unfold tree. cbn [Fragments length].
        rewrite (@value_round _ sha256_typeInfo _ _
                   (mkValueNode (str "rounds=" ++ digits) 3
                      (3 + (7 + length digits)))
                   (VUint rounds) (str "rounds=" ++ digits));
          [|reflexivity|reflexivity|reflexivity|reflexivity|
           right; cbn [numValues numReqValues]; lia|
           apply (@unmarshal_rounds _ _ _ digits rounds);
           [exact Hd|exact Hp]].
        cbn [Inline Opts negb OmitEmpty fragIdx numGroupValues numValues
             numReqValues frags rec writeValue nth_error replaceNth setValueText
             Value value_pos value_end Index Type_ wrapPointers Nat.add].
        rewrite (@value_round _ sha256_typeInfo _ _
                   (mkValueNode salt (3 + (7 + length digits) + 1)
                      (3 + (7 + length digits) + 1 + length salt))
                   (VBytes salt) salt);
          [|reflexivity|reflexivity|reflexivity|reflexivity|left; reflexivity|
           apply unmarshal_bytes; try reflexivity;
           [left; reflexivity|exact Hsalt]].
        cbn [Inline Opts negb OmitEmpty fragIdx numGroupValues numValues
             numReqValues frags rec writeValue nth_error replaceNth setValueText
             Value value_pos value_end Index Type_ wrapPointers bytesType Nat.add].
        rewrite (@value_round _ sha256_typeInfo _ _
                   (mkValueNode sum
                      (3 + (7 + length digits) + 1 + length salt + 1)
                      (3 + (7 + length digits) + 1 + length salt + 1
                       + length sum))
                   (VBytes sum) sum);
          [|reflexivity|reflexivity|reflexivity|reflexivity|left; reflexivity|
           cbn [rec Index indirect setField index_eqb Nat.eqb andb sha256_value];
           apply (@unmarshal_array _ _ _ _ _ (repeat zeroByte 43) 43);
           try reflexivity; [exact Hlen|exact Hsum]].
        reflexivity. }
      unfold sha256_Params. rewrite Hun.
      cbn [setField index_eqb Nat.eqb andb].
      assert (Hz : (rounds =? 0)%Z = false) by (apply Z.eqb_neq; lia).
      rewrite Hz. reflexivity.
Qed.

(** The hashes of the test [TestParse] of the package. *)
Lemma sha256_rounds_witness :
  sha256_Params
    (sha256_Prefix ++ str "aaa"
     ++ "$"%char :: str "KzSJfmMb9SO88yzOh42fPm3ckBI944gGvTRvr.psx20")
  = Ok (str "aaa", sha256_ImplicitRounds).
Proof.
  apply (@sha256_rounds (str "aaa")
           (str "KzSJfmMb9SO88yzOh42fPm3ckBI944gGvTRvr.psx20") 6000%Z);
    reflexivity.
Defined.

(** A text of bytes of the alphabet passes [IndexAnyInvalid]. *)
Lemma valid_chars (e : Encoding) (s : gostring) :
  length (encoder e) <= 255 ->
  Forall (fun c => In c (encoder e)) s ->
  IndexAnyInvalid e s = None.
Proof.
  intros Hlen H. induction H as [|c s Hc _ IH]; [reflexivity|].
  cbn [IndexAnyInvalid].
  destruct (Nat.eqb (decodeMap e c) 255) eqn:E.
  - apply Nat.eqb_eq in E. apply (decodeMap_255 e c Hlen) in E. contradiction.
  - rewrite IH. reflexivity.
Qed.

Lemma IndexAnyInvalid_app (e : Encoding) (a b : gostring) :
  IndexAnyInvalid e a = None -> IndexAnyInvalid e b = None ->
  IndexAnyInvalid e (a ++ b) = None.
Proof.
  intros Ha Hb. induction a as [|c a IH]; [exact Hb|].
  cbn [app IndexAnyInvalid] in *.
  destruct (Nat.eqb (decodeMap e c) 255); [discriminate|].
  destruct (IndexAnyInvalid e a); [discriminate|].
  rewrite IH by reflexivity. reflexivity.
Qed.

(** [unmarshal] for an inline field with a length [n] on a node whose
    text starts with [n] bytes of the alphabet: these are decoded, and
    the rest of the text is left in the node. *)
Lemma unmarshal_inline_text (ti : typeInfo) (fi : fieldInfo)
    (a rest : gostring) (p e : nat) (old : option govalue) (x : govalue) :
  Param (Opts fi) = [] ->
  Inline (Opts fi) = true ->
  Encoding_ (Opts fi) = Some HashEncoding ->
  0 < Length (Opts fi) ->
  length a = Length (Opts fi) ->
  IndexAnyInvalid HashEncoding a = None ->
  decodeValue (NValue (mkValueNode (a ++ rest) p e)) ti fi a old = Ok x ->
  unmarshal (NValue (mkValueNode (a ++ rest) p e)) ti fi old = Ok (x, rest).
Proof.
  intros Hp Hin Henc Hpos Hlen Hok Hdec. unfold unmarshal.
  rewrite Hp, Hin, Henc. cbn [gostring_eqb negb Node_String Value].
  apply Nat.ltb_lt in Hpos. rewrite Hpos.
  assert (Hl : (length (a ++ rest) <? Length (Opts fi)) = false).
  { apply Nat.ltb_ge. rewrite length_app. lia. }
  rewrite Hl, <- Hlen, firstn_app_length, skipn_app_length, Hok, Hdec.
  reflexivity.
Qed.

Lemma desext_compiles : getTypeInfo (TPtr desext_scheme) = Ok desext_typeInfo.
Proof. reflexivity. Qed.

Lemma desext_Parse (text : gostring) :
  IndexAnyInvalid HashEncoding text = None ->
  text <> [] ->
  Parse (desext_Prefix ++ text) =
  Ok (mkTree (Some (mkPrefixNode desext_Prefix 1))
        [FValue (mkValueNode text 1 (1 + length text))]).
Proof.
  intros Hok Hne.
  change text with (renderFragments [[text]]) at 1.
  rewrite Parse_rendered.
  - reflexivity.
  - right. left. reflexivity.
  - constructor; [|constructor].
    split; [discriminate|]. constructor; [|constructor].
    apply hash_text_clean. exact Hok.
  - intros front v H.
    change (concat [[text]]) with ([] ++ [text]) in H.
    apply app_inj_tail in H as [_ <-]. exact Hne.
  - split; [discriminate|]. intros H. exfalso. apply H. reflexivity.
Qed.

(** What [desext.Params] reads: four bytes of rounds, four of salt and
    eleven of the sum after [_]. *)
Lemma desext_Unmarshal (r4 salt sum : gostring) :
  length r4 = 4 -> IndexAnyInvalid HashEncoding r4 = None ->
  length salt = 4 -> IndexAnyInvalid HashEncoding salt = None ->
  length sum = 11 -> IndexAnyInvalid HashEncoding sum = None ->
  Unmarshal (desext_Prefix ++ r4 ++ salt ++ sum) (TPtr desext_scheme)
    (desext_value [] 0 [] (repeat zeroByte 11))
  = Ok (setField
          (setField
             (setField
                (setField (desext_value [] 0 [] (repeat zeroByte 11))
                   [0] (VString desext_Prefix))
                [1] (VUint (DecodeInt r4)))
             [2] (VBytes salt))
          [3] (VBytes sum)).
Proof.
  intros Lr Hr Ls Hs Lm Hm.
  assert (Hok : IndexAnyInvalid HashEncoding (r4 ++ salt ++ sum) = None)
    by (repeat apply IndexAnyInvalid_app; assumption).
  assert (Hne : r4 ++ salt ++ sum <> [])
    by (destruct r4; [discriminate|discriminate]).
  unfold Unmarshal. cbn [kindOf indirectType stripNamed desext_scheme].
  rewrite (@desext_Parse (r4 ++ salt ++ sum) Hok Hne), desext_compiles.
  unfold unmarshalTree.
  set (tree := mkTree _ _).
  assert (Hpre : forall n,
             unmarshalPrefix n desext_typeInfo tree
               (desext_value [] 0 [] (repeat zeroByte 11))
             = Ok (setField (desext_value [] 0 [] (repeat zeroByte 11))
                     [0] (VString desext_Prefix)))
    by reflexivity.
  rewrite Hpre. cbn [Fields desext_typeInfo unmarshalFields NumReqValues].
  unfold tree. cbn [Fragments length].
  rewrite (@value_round _ desext_typeInfo _ _
             (mkValueNode (r4 ++ salt ++ sum) 1 (1 + length (r4 ++ salt ++ sum)))
             (VUint (DecodeInt r4)) (salt ++ sum));
    [|reflexivity|reflexivity|reflexivity|reflexivity|left; reflexivity|
     apply unmarshal_inline_text; try reflexivity;
     [cbn [Opts Length]; lia|exact Lr|exact Hr]].
  cbn [Inline Opts negb OmitEmpty fragIdx numGroupValues numValues
       numReqValues frags rec writeValue nth_error replaceNth setValueText
       Value value_pos value_end Index Type_ wrapPointers hashRounds Nat.add].
  rewrite (@value_round _ desext_typeInfo _ _
             (mkValueNode (salt ++ sum) 1 (1 + length (r4 ++ salt ++ sum)))
             (VBytes salt) sum);
    [|reflexivity|reflexivity|reflexivity|reflexivity|left; reflexivity|
     apply unmarshal_inline_text; try reflexivity;
     [cbn [Opts Length]; lia|exact Ls|exact Hs]].
  cbn [Inline Opts negb OmitEmpty fragIdx numGroupValues numValues
       numReqValues frags rec writeValue nth_error replaceNth setValueText
       Value value_pos value_end Index Type_ wrapPointers bytesType Nat.add].
  rewrite (@value_round _ desext_typeInfo _ _
             (mkValueNode sum 1 (1 + length (r4 ++ salt ++ sum)))
             (VBytes sum) sum);
    [|reflexivity|reflexivity|reflexivity|reflexivity|left; reflexivity|
     cbn [rec Index indirect setField index_eqb Nat.eqb andb desext_value];
     apply (@unmarshal_array _ _ _ _ _ (repeat zeroByte 11) 11);
     try reflexivity; [exact Lm|exact Hm]].
  reflexivity.
Qed.
(** X17. The DES Extended scheme, written and read: for rounds below
    [2^24], a salt of four bytes and a sum of eleven, all of the hash
    alphabet, [Marshal] of the scheme struct gives [_], the four bytes of
    [EncodeInt(rounds)], the salt and the sum with nothing between them
    (the fields are inline), and [Params] of this text returns the salt
    and the rounds. For any four bytes of the alphabet in the place of
    the rounds, [Params] returns the number [DecodeInt] reads from them. *)
Theorem desext_round_trip (rounds : Z) (r4 salt sum : gostring) :
  length salt = 4 -> IndexAnyInvalid HashEncoding salt = None ->
  length sum = 11 -> IndexAnyInvalid HashEncoding sum = None ->
  ((0 <= rounds < 2 ^ 24)%Z ->
   Marshal desext_scheme (desext_value desext_Prefix rounds salt sum)
   = Ok (desext_Prefix ++ EncodeInt rounds ++ salt ++ sum)
   /\ desext_Params (desext_Prefix ++ EncodeInt rounds ++ salt ++ sum)
      = Ok (salt, rounds))
  /\ (length r4 = 4 -> IndexAnyInvalid HashEncoding r4 = None ->
      desext_Params (desext_Prefix ++ r4 ++ salt ++ sum)
      = Ok (salt, DecodeInt r4)).
Proof.
  intros Ls Hs Lm Hm.
  assert (Hread : forall a,
             length a = 4 -> IndexAnyInvalid HashEncoding a = None ->
             desext_Params (desext_Prefix ++ a ++ salt ++ sum)
             = Ok (salt, DecodeInt a)).
  { intros a La Ha. unfold desext_Params.
    rewrite (@desext_Unmarshal a salt sum La Ha Ls Hs Lm Hm). reflexivity. }
  split; [|exact (Hread r4)].
  intros [Hr0 Hr1].
  assert (He : IndexAnyInvalid HashEncoding (EncodeInt rounds) = None).
  { apply valid_chars; [rewrite HashEncoding_length; lia|].
    apply EncodeInt_chars. exact Hr0. }
  split.
  - unfold Marshal. cbn [kindOf indirectType stripNamed desext_scheme].
    assert (Hti : getTypeInfo desext_scheme =
                  Ok (mkTypeInfo desext_scheme desext_scheme
                        (HashPrefix desext_typeInfo) (Fields desext_typeInfo) 1))
      by reflexivity.
    rewrite Hti. unfold marshalWith.
    cbn [HashPrefix Fields desext_typeInfo marshalLoop Index Opts OmitEmpty
         desext_value andb indirect].
    unfold marshalValue, marshal.
    cbn [Type_ Opts indirectType hashPrefixType hashRounds bytesType methodsOf
         MarshalText opt_Prefix Length Encoding_ kindOf andb negb elemIsUint8
         stripNamed isUint8 Nat.ltb Nat.leb Param gostring_eqb separator
         Inline Group].
    change (length (EncodeInt rounds)) with 4.
    rewrite He, Hs, Hm, Ls, Lm. cbn [Nat.eqb negb andb].
    rewrite <- !app_assoc. reflexivity.
  - rewrite Hread; [|reflexivity|exact He].
    rewrite DecodeInt_EncodeInt_mod by exact Hr0.
    rewrite Z.mod_small by lia. reflexivity.
Qed.

(** The hash of the test [TestParse] of the package. *)
Lemma desext_round_trip_witness :
  desext_Params
    (desext_Prefix ++ str "1111" ++ str "aaaa" ++ str "5FiuKrpisKM")
  = Ok (str "aaaa", DecodeInt (str "1111")).
Proof.
  apply (@desext_round_trip 0%Z (str "1111") (str "aaaa") (str "5FiuKrpisKM"));
    reflexivity.
Defined.

(** ** More schemes *)

(** [unmarshal] of the digits of a number, after [param=] when the field
    has a parameter name, into an unsigned field without a length. *)
Lemma unmarshal_uint (ti : typeInfo) (fi : fieldInfo) (bits : nat)
    (digits : gostring) (z : Z) (p e : nat) (old : option govalue) :
  Type_ fi = TUint bits ->
  opt_Prefix (Opts fi) = false ->
  Length (Opts fi) = 0 ->
  Encoding_ (Opts fi) = Some HashEncoding ->
  IndexAnyInvalid HashEncoding digits = None ->
  ParseUint digits (Base (Opts fi)) bits = Ok z ->
  unmarshal (NValue (mkValueNode (fieldText fi digits) p e)) ti fi old
  = Ok (VUint z, fieldText fi digits).
Proof.
  intros Hty Hpre Hlen Henc Hok Hp. unfold unmarshal.
  cbn [Node_String Value].
  rewrite TrimPrefix_fieldText, Hlen, Henc. cbn [Nat.ltb Nat.leb].
  rewrite Hok. unfold decodeValue. rewrite Hty, Hpre.
  cbn [indirectType methodsOf UnmarshalText kindOf andb bitsOf stripNamed].
  rewrite Hp. reflexivity.
Qed.

Ltac read_uint bits digits z :=
  match goal with
  | |- unmarshal _ ?ti ?fi _ = _ => apply (@unmarshal_uint ti fi bits digits z)
  end.

Ltac round_done :=
  cbn [Inline Opts negb OmitEmpty fragIdx numGroupValues numValues
       numReqValues frags rec group writeValue nth_error replaceNth
       setValueText Values Value value_pos value_end Index Type_
       wrapPointers bytesType Nat.add].

Lemma sha1_compiles : getTypeInfo (TPtr sha1_scheme) = Ok sha1_typeInfo.
Proof. reflexivity. Qed.

Lemma sha1_Parse (digits salt sum : gostring) :
  IndexAnyInvalid HashEncoding digits = None ->
  IndexAnyInvalid HashEncoding salt = None ->
  IndexAnyInvalid HashEncoding sum = None ->
  sum <> [] ->
  Parse (sha1_Prefix ++ digits ++ "$"%char :: salt ++ "$"%char :: sum) =
  Ok (mkTree (Some (mkPrefixNode sha1_Prefix 6))
        [FValue (mkValueNode digits 6 (6 + length digits));
         FValue (mkValueNode salt (6 + length digits + 1)
                   (6 + length digits + 1 + length salt));
         FValue (mkValueNode sum (6 + length digits + 1 + length salt + 1)
                   (6 + length digits + 1 + length salt + 1 + length sum))]).
Proof.
  intros Hd Hsalt Hsum Hne.
  change (digits ++ "$"%char :: salt ++ "$"%char :: sum)
    with (renderFragments [[digits]; [salt]; [sum]]).
  rewrite Parse_rendered.
  - reflexivity.
  - right. right. exists (str "sha1"), "$"%char.
    split; [reflexivity|]. split; [discriminate|].
    split; [reflexivity|left; reflexivity].
  - constructor; [|constructor; [|constructor; [|constructor]]];
      (split; [discriminate|]); (constructor; [|constructor]);
      apply hash_text_clean; assumption.
  - intros front v H.
    change (concat [[digits]; [salt]; [sum]]) with ([digits; salt] ++ [sum]) in H.
    apply app_inj_tail in H as [_ <-]. exact Hne.
  - split; [discriminate|]. intros _.
    change (renderFragments [[digits]; [salt]; [sum]])
      with (digits ++ "$"%char :: salt ++ "$"%char :: sum).
    apply hash_text_start. exact Hd.
Qed.

(** X18. The SHA-1 scheme, written and read: the rounds are a value of
    their own, without a name. For rounds below [2^32], a salt and a sum
    of 28 bytes, both of the hash alphabet, [Marshal] of the scheme struct
    gives [$sha1$], the decimal digits of the rounds, [$], the salt, [$]
    and the sum, and [Params] of this text returns the salt and the
    rounds. *)
Theorem sha1_round_trip (rounds : Z) (salt sum : gostring) :
  (0 <= rounds < 2 ^ 32)%Z ->
  IndexAnyInvalid HashEncoding salt = None ->
  IndexAnyInvalid HashEncoding sum = None ->
  length sum = 28 ->
  exists digits,
    FormatUint rounds 10 = Ok digits
    /\ Marshal sha1_scheme (sha256_value sha1_Prefix rounds salt sum)
       = Ok (sha1_Prefix ++ digits ++ "$"%char :: salt ++ "$"%char :: sum)
    /\ sha1_Params (sha1_Prefix ++ digits ++ "$"%char :: salt ++ "$"%char :: sum)
       = Ok (salt, rounds).
Proof.
  intros Hr Hsalt Hsum Hlen.
  assert (Hne : sum <> []) by (destruct sum; discriminate).
  destruct (@ParseUint_FormatUint rounds 10 32) as (digits & Hf & Hdne & Hch & Hp);
    [lia|cbn; lia|].
  pose proof (digits_hash Hch) as Hd.
  exists digits. split; [exact Hf|]. split.
  - unfold Marshal. cbn [kindOf indirectType stripNamed sha1_scheme].
    assert (Hti : getTypeInfo sha1_scheme =
                  Ok (mkTypeInfo sha1_scheme sha1_scheme
                        (HashPrefix sha1_typeInfo) (Fields sha1_typeInfo) 3))
      by reflexivity.
    rewrite Hti. unfold marshalWith.
    cbn [HashPrefix Fields sha1_typeInfo marshalLoop Index Opts OmitEmpty
         sha256_value andb indirect].
    unfold marshalValue, marshal.
    cbn [Type_ Opts indirectType hashPrefixType bytesType methodsOf MarshalText
         opt_Prefix Length Encoding_ kindOf andb negb elemIsUint8 stripNamed
         isUint8 Nat.ltb Nat.leb Param gostring_eqb separator Inline Group Base].
    rewrite Hf, Hd, Hsalt, Hsum, Hlen. cbn [Nat.eqb negb andb].
    rewrite <- !app_assoc. reflexivity.
  - assert (Hun : Unmarshal
                    (sha1_Prefix ++ digits ++ "$"%char :: salt ++ "$"%char :: sum)
                    (TPtr sha1_scheme)
                    (sha256_value [] 0 [] (repeat zeroByte 28))
                  = Ok (setField
                          (setField
                             (setField
                                (setField
                                   (sha256_value [] 0 [] (repeat zeroByte 28))
                                   [0] (VString sha1_Prefix))
                                [1] (VUint rounds))
                             [2] (VBytes salt))
                          [3] (VBytes sum))).
    { unfold Unmarshal.
      cbn [kindOf indirectType stripNamed sha1_scheme].
      rewrite (@sha1_Parse digits salt sum Hd Hsalt Hsum Hne), sha1_compiles.
      unfold unmarshalTree.
      set (tree := mkTree _ _).
      assert (Hpre : forall n,
                 unmarshalPrefix n sha1_typeInfo tree
                   (sha256_value [] 0 [] (repeat zeroByte 28))
                 = Ok (setField (sha256_value [] 0 [] (repeat zeroByte 28))
                         [0] (VString sha1_Prefix)))
        by reflexivity.
      rewrite Hpre. cbn [Fields sha1_typeInfo unmarshalFields NumReqValues].
      unfold tree. cbn [Fragments length].
      rewrite (@value_round _ sha1_typeInfo _ _
                 (mkValueNode digits 6 (6 + length digits))
                 (VUint rounds) digits);
        [|reflexivity|reflexivity|reflexivity|reflexivity|left; reflexivity|
         read_uint 32 digits rounds; try reflexivity;
         [exact Hd|exact Hp]].
      round_done.
      rewrite (@value_round _ sha1_typeInfo _ _
                 (mkValueNode salt (6 + length digits + 1)
                    (6 + length digits + 1 + length salt))
                 (VBytes salt) salt);
        [|reflexivity|reflexivity|reflexivity|reflexivity|left; reflexivity|
         apply unmarshal_bytes; try reflexivity;
         [left; reflexivity|exact Hsalt]].
      round_done.
      rewrite (@value_round _ sha1_typeInfo _ _
                 (mkValueNode sum (6 + length digits + 1 + length salt + 1)
                    (6 + length digits + 1 + length salt + 1 + length sum))
                 (VBytes sum) sum);
        [|reflexivity|reflexivity|reflexivity|reflexivity|left; reflexivity|
         cbn [rec Index indirect setField index_eqb Nat.eqb andb sha256_value];
         apply (@unmarshal_array _ _ _ _ _ (repeat zeroByte 28) 28);
         try reflexivity; [exact Hlen|exact Hsum]].
      reflexivity. }
    unfold sha1_Params. rewrite Hun. reflexivity.
Qed.

(** A hash of the test [TestParse] of the package. *)
Lemma sha1_round_trip_witness :
  exists digits,
    FormatUint 40000 10 = Ok digits
    /\ Marshal sha1_scheme
         (sha256_value sha1_Prefix 40000 (str "aaa")
            (str "RgfGsUx52n.yarrkcZHeaI7X8pQo"))
       = Ok (sha1_Prefix ++ digits ++ "$"%char :: str "aaa"
             ++ "$"%char :: str "RgfGsUx52n.yarrkcZHeaI7X8pQo")
    /\ sha1_Params (sha1_Prefix ++ digits ++ "$"%char :: str "aaa"
                    ++ "$"%char :: str "RgfGsUx52n.yarrkcZHeaI7X8pQo")
       = Ok (str "aaa", 40000%Z).
Proof.
  apply (@sha1_round_trip 40000%Z (str "aaa")
           (str "RgfGsUx52n.yarrkcZHeaI7X8pQo"));
    [cbn; lia|reflexivity|reflexivity|reflexivity].
Defined.


(** A text of the hash alphabet starts with neither [_] nor [$]. *)
Lemma hash_text_first (s : gostring) :
  IndexAnyInvalid HashEncoding s = None ->
  HasPrefix s (str "$") = false /\ HasPrefix s (str "_") = false.
Proof.
  destruct s as [|c s]; [split; reflexivity|].
  cbn [IndexAnyInvalid].
  destruct (Nat.eqb (decodeMap HashEncoding c) 255) eqn:E; [discriminate|].
  intros _. cbn [HasPrefix str list_ascii_of_string]. split.
  - destruct (byte_eqb "$" c) eqn:Eu; [|reflexivity].
    apply Ascii.eqb_eq in Eu. subst c. discriminate E.
  - destruct (byte_eqb "_" c) eqn:Eu; [|reflexivity].
    apply Ascii.eqb_eq in Eu. subst c. discriminate E.
Qed.

Lemma nthash_compiles : getTypeInfo (TPtr nthash_scheme) = Ok nthash_typeInfo.
Proof. reflexivity. Qed.

Lemma nthash_Parse (sum : gostring) :
  IndexAnyInvalid HashEncoding sum = None ->
  sum <> [] ->
  Parse (nthash_Prefix ++ "$"%char :: sum) =
  Ok (mkTree (Some (mkPrefixNode nthash_Prefix 3))
        [FValue (mkValueNode [] 3 3);
         FValue (mkValueNode sum 4 (4 + length sum))]).
Proof.
  intros Hsum Hne.
  change ("$"%char :: sum) with (renderFragments [[[]]; [sum]]).
  rewrite Parse_rendered.
  - reflexivity.
  - right. right. exists (str "3"), "$"%char.
    split; [reflexivity|]. split; [discriminate|].
    split; [reflexivity|left; reflexivity].
  - constructor; [|constructor; [|constructor]];
      (split; [discriminate|]); (constructor; [|constructor]).
    + reflexivity.
    + apply hash_text_clean. exact Hsum.
  - intros front v H.
    change (concat [[[]]; [sum]]) with ([[]] ++ [sum]) in H.
    apply app_inj_tail in H as [_ <-]. exact Hne.
  - split; [discriminate|]. intros _. reflexivity.
Qed.

Lemma nthash_Parse_one (sum : gostring) :
  IndexAnyInvalid HashEncoding sum = None ->
  sum <> [] ->
  Parse (nthash_Prefix ++ sum) =
  Ok (mkTree (Some (mkPrefixNode nthash_Prefix 3))
        [FValue (mkValueNode sum 3 (3 + length sum))]).
Proof.
  intros Hsum Hne.
  change sum with (renderFragments [[sum]]) at 1.
  rewrite Parse_rendered.
  - reflexivity.
  - right. right. exists (str "3"), "$"%char.
    split; [reflexivity|]. split; [discriminate|].
    split; [reflexivity|left; reflexivity].
  - constructor; [|constructor].
    split; [discriminate|]. constructor; [|constructor].
    apply hash_text_clean. exact Hsum.
  - intros front v H.
    change (concat [[sum]]) with ([] ++ [sum]) in H.
    apply app_inj_tail in H as [_ <-]. exact Hne.
  - split; [discriminate|]. intros _.
    apply (proj2 (@hash_text_first sum Hsum)).
Qed.

(** X19. The NT Hash scheme and its empty field. For a sum of 32 bytes
    of the hash alphabet, [Marshal] of the scheme struct gives [$3$$] and
    the sum: the field [Empty], an array of no bytes, is the empty value
    between the two dollars; [Unmarshal] of this text gives the prefix
    and the sum back. The text with one dollar only is refused: [Empty]
    takes the value, and [Sum] finds the end of the hash. *)
Theorem nthash_round_trip (sum : gostring) :
  IndexAnyInvalid HashEncoding sum = None ->
  length sum = 32 ->
  Marshal nthash_scheme (scheme3 nthash_Prefix [] sum)
  = Ok (nthash_Prefix ++ "$"%char :: sum)
  /\ (exists r,
         Unmarshal (nthash_Prefix ++ "$"%char :: sum) (TPtr nthash_scheme)
           (scheme3 [] [] (repeat zeroByte 32)) = Ok r
         /\ r [0] = VString nthash_Prefix
         /\ r [1] = VBytes []
         /\ r [2] = VBytes sum)
  /\ Unmarshal (nthash_Prefix ++ sum) (TPtr nthash_scheme)
       (scheme3 [] [] (repeat zeroByte 32))
     = Err (eofError (3 + 32) nthash_typeInfo
              (mkFieldInfo [2] (str "Sum") (TArray 32 (TUint 8))
                 (mkFieldOpts false false false [] (Some HashEncoding) 32
                    false 10))
              (str "unexpected EOF")).
Proof.
  intros Hsum Hlen.
  assert (Hne : sum <> []) by (destruct sum; discriminate).
  split; [|split].
  - unfold Marshal. cbn [kindOf indirectType stripNamed nthash_scheme].
    assert (Hti : getTypeInfo nthash_scheme =
                  Ok (mkTypeInfo nthash_scheme nthash_scheme
                        (HashPrefix nthash_typeInfo) (Fields nthash_typeInfo) 2))
      by reflexivity.
    rewrite Hti. unfold marshalWith.
    cbn [HashPrefix Fields nthash_typeInfo marshalLoop Index Opts OmitEmpty
         scheme3 andb indirect].
    unfold marshalValue, marshal.
    cbn [Type_ Opts indirectType hashPrefixType bytesType methodsOf MarshalText
         opt_Prefix Length Encoding_ kindOf andb negb elemIsUint8 stripNamed
         isUint8 Nat.ltb Nat.leb Param gostring_eqb separator Inline Group
         IndexAnyInvalid length].
    rewrite Hsum, Hlen. cbn [Nat.eqb negb andb].
    reflexivity.
  - eexists. split.
    + unfold Unmarshal. cbn [kindOf indirectType stripNamed nthash_scheme].
      rewrite (@nthash_Parse sum Hsum Hne), nthash_compiles.
      unfold unmarshalTree.
      set (tree := mkTree _ _).
      assert (Hpre : forall n,
                 unmarshalPrefix n nthash_typeInfo tree
                   (scheme3 [] [] (repeat zeroByte 32))
                 = Ok (setField (scheme3 [] [] (repeat zeroByte 32))
                         [0] (VString nthash_Prefix)))
        by reflexivity.
      rewrite Hpre. cbn [Fields nthash_typeInfo unmarshalFields NumReqValues].
      unfold tree. cbn [Fragments length].
      rewrite (@value_round _ nthash_typeInfo _ _
                 (mkValueNode [] 3 3) (VBytes []) []);
        [|reflexivity|reflexivity|reflexivity|reflexivity|left; reflexivity|
         reflexivity].
      round_done.
      rewrite (@value_round _ nthash_typeInfo _ _
                 (mkValueNode sum 4 (4 + length sum)) (VBytes sum) sum);
        [|reflexivity|reflexivity|reflexivity|reflexivity|left; reflexivity|
         cbn [rec Index indirect setField index_eqb Nat.eqb andb scheme3];
         apply (@unmarshal_array _ _ _ _ _ (repeat zeroByte 32) 32);
         try reflexivity; [exact Hlen|exact Hsum]].
      reflexivity.
    + repeat split.
  - unfold Unmarshal. cbn [kindOf indirectType stripNamed nthash_scheme].
    rewrite (@nthash_Parse_one sum Hsum Hne), nthash_compiles.
    unfold unmarshalTree.
    set (tree := mkTree _ _).
    assert (Hpre : forall n,
               unmarshalPrefix n nthash_typeInfo tree
                 (scheme3 [] [] (repeat zeroByte 32))
               = Ok (setField (scheme3 [] [] (repeat zeroByte 32))
                       [0] (VString nthash_Prefix)))
      by reflexivity.
    rewrite Hpre. cbn [Fields nthash_typeInfo unmarshalFields NumReqValues].
    unfold tree. cbn [Fragments length].
    rewrite (@value_round _ nthash_typeInfo _ _
               (mkValueNode sum 3 (3 + length sum)) (VBytes []) sum);
      [|reflexivity|reflexivity|reflexivity|reflexivity|left; reflexivity|].
    + round_done. rewrite length_app, Hlen. reflexivity.
    + unfold unmarshal, decodeValue.
      cbn [Opts Param Length Inline Encoding_ Type_ opt_Prefix Node_String
           negb gostring_eqb Nat.ltb Nat.leb indirectType methodsOf
           UnmarshalText kindOf andb elemIsUint8 stripNamed isUint8 Value].
      rewrite Hsum, Nat.min_0_r. reflexivity.
Qed.

(** The hash of the examples of the package. *)
Lemma nthash_round_trip_witness :
  Marshal nthash_scheme
    (scheme3 nthash_Prefix [] (str "8846f7eaee8fb117ad06bdd830b7586c"))
  = Ok (nthash_Prefix ++ "$"%char :: str "8846f7eaee8fb117ad06bdd830b7586c").
Proof.
  apply (@nthash_round_trip (str "8846f7eaee8fb117ad06bdd830b7586c"));
    reflexivity.
Defined.


Lemma des_compiles : getTypeInfo (TPtr des_scheme) = Ok des_typeInfo.
Proof. reflexivity. Qed.

Lemma des_Parse (text : gostring) :
  IndexAnyInvalid HashEncoding text = None ->
  text <> [] ->
  Parse text = Ok (mkTree None [FValue (mkValueNode text 0 (length text))]).
Proof.
  intros Hok Hne.
  change text with ([] ++ renderFragments [[text]]) at 1.
  rewrite Parse_rendered.
  - reflexivity.
  - left. reflexivity.
  - constructor; [|constructor].
    split; [discriminate|]. constructor; [|constructor].
    apply hash_text_clean. exact Hok.
  - intros front v H.
    change (concat [[text]]) with ([] ++ [text]) in H.
    apply app_inj_tail in H as [_ <-]. exact Hne.
  - split; intros _; apply (@hash_text_first text Hok).
Qed.

(** X20. The DES scheme, which has no prefix. For a salt of two bytes
    and a sum of eleven, all of the hash alphabet, [Marshal] of the
    scheme struct gives the salt and the sum with nothing before and
    between them; [Unmarshal] of this text skips the prefix field, which
    is [omitempty], and cuts the salt off the one value of the hash, and
    [Salt] returns the salt. A text that starts with [_], as the hashes
    of DES Extended do, is refused for its prefix. *)
Theorem des_round_trip (salt sum text : gostring) :
  length salt = 2 -> IndexAnyInvalid HashEncoding salt = None ->
  length sum = 11 -> IndexAnyInvalid HashEncoding sum = None ->
  Marshal des_scheme (scheme3 des_Prefix salt sum) = Ok (salt ++ sum)
  /\ (exists r,
         Unmarshal (salt ++ sum) (TPtr des_scheme)
           (scheme3 [] [] (repeat zeroByte 11)) = Ok r
         /\ r [0] = VString des_Prefix
         /\ r [1] = VBytes salt
         /\ r [2] = VBytes sum)
  /\ des_Salt (salt ++ sum) = Ok salt
  /\ (IndexAnyInvalid HashEncoding text = None -> text <> [] ->
      des_Salt (desext_Prefix ++ text)
      = Err (mkError NodePrefix 1 des_typeInfo
               (mkFieldInfo [0] (str "HashPrefix") (hashPrefixType des_Prefix)
                  (mkFieldOpts true true false [] None 0 false 10))
               (UnsupportedPrefixError desext_Prefix))).
Proof.
  intros Ls Hs Lm Hm.
  assert (Hok : IndexAnyInvalid HashEncoding (salt ++ sum) = None)
    by (apply IndexAnyInvalid_app; assumption).
  assert (Hne : salt ++ sum <> []) by (destruct salt; discriminate).
  assert (Hun : Unmarshal (salt ++ sum) (TPtr des_scheme)
                  (scheme3 [] [] (repeat zeroByte 11))
                = Ok (setField
                        (setField (scheme3 [] [] (repeat zeroByte 11))
                           [1] (VBytes salt))
                        [2] (VBytes sum))).
  { unfold Unmarshal. cbn [kindOf indirectType stripNamed des_scheme].
    rewrite (@des_Parse (salt ++ sum) Hok Hne), des_compiles.
    unfold unmarshalTree.
    set (tree := mkTree _ _).
    assert (Hpre : forall n,
               unmarshalPrefix n des_typeInfo tree
                 (scheme3 [] [] (repeat zeroByte 11))
               = Ok (scheme3 [] [] (repeat zeroByte 11)))
      by reflexivity.
    rewrite Hpre. cbn [Fields des_typeInfo unmarshalFields NumReqValues].
    unfold tree. cbn [Fragments length].
    rewrite (@value_round _ des_typeInfo _ _
               (mkValueNode (salt ++ sum) 0 (length (salt ++ sum)))
               (VBytes salt) sum);
      [|reflexivity|reflexivity|reflexivity|reflexivity|left; reflexivity|
       apply unmarshal_inline_text; try reflexivity;
       [cbn [Opts Length]; lia|exact Ls|exact Hs]].
    round_done.
    rewrite (@value_round _ des_typeInfo _ _
               (mkValueNode sum 0 (length (salt ++ sum)))
               (VBytes sum) sum);
      [|reflexivity|reflexivity|reflexivity|reflexivity|left; reflexivity|
       cbn [rec Index indirect setField index_eqb Nat.eqb andb scheme3];
       apply (@unmarshal_array _ _ _ _ _ (repeat zeroByte 11) 11);
       try reflexivity; [exact Lm|exact Hm]].
    reflexivity. }
  split; [|split; [|split]].
  - unfold Marshal. cbn [kindOf indirectType stripNamed des_scheme].
    assert (Hti : getTypeInfo des_scheme =
                  Ok (mkTypeInfo des_scheme des_scheme
                        (HashPrefix des_typeInfo) (Fields des_typeInfo) 1))
      by reflexivity.
    rewrite Hti. unfold marshalWith.
    cbn [HashPrefix Fields des_typeInfo marshalLoop Index Opts OmitEmpty
         scheme3 andb indirect des_Prefix].
    unfold marshalValue, marshal.
    cbn [Type_ Opts indirectType hashPrefixType bytesType methodsOf MarshalText
         opt_Prefix Length Encoding_ kindOf andb negb elemIsUint8 stripNamed
         isUint8 Nat.ltb Nat.leb Param gostring_eqb separator Inline Group].
    rewrite Hs, Hm, Ls, Lm. cbn [Nat.eqb negb andb app].
    rewrite !app_nil_r. reflexivity.
  - eexists. split; [exact Hun|]. repeat split.
  - unfold des_Salt. rewrite Hun. reflexivity.
  - intros Ht Htne. unfold des_Salt, Unmarshal.
    cbn [kindOf indirectType stripNamed des_scheme].
    rewrite (@desext_Parse text Ht Htne), des_compiles.
    reflexivity.
Qed.

(** The hash of the test [TestParse] of the package. *)
Lemma des_round_trip_witness :
  des_Salt (str "aa" ++ str "jfMKNH1hTm2") = Ok (str "aa").
Proof.
  apply (@des_round_trip (str "aa") (str "jfMKNH1hTm2") (str "a"));
    reflexivity.
Defined.


(** The text of a cost below 100: two digits that read as the cost. *)
Lemma hashCost_text (cost : Z) :
  (0 <= cost < 100)%Z ->
  exists cs,
    hashCost_MarshalText (VUint cost) = Ok cs
    /\ length cs = 2
    /\ IndexAnyInvalid HashEncoding cs = None
    /\ ParseUint cs 10 8 = Ok cost.
Proof.
  intros H.
  assert (Hn : exists n, n < 100 /\ cost = Z.of_nat n).
  { exists (Z.to_nat cost). split; [lia|]. rewrite Z2Nat.id; lia. }
  destruct Hn as (n & Hn & ->). clear H.
  do 100 (destruct n as [|n];
          [eexists; split; [vm_compute; reflexivity|]; repeat split|]).
  lia.
Qed.

Lemma bcrypt_compiles : getTypeInfo (TPtr bcrypt_scheme) = Ok bcrypt_typeInfo.
Proof. reflexivity. Qed.

Lemma bcrypt_prefixShape (pre : gostring) :
  In pre bcrypt_prefixes -> prefixShape pre.
Proof.
  intros [<-|[<-|[<-|[]]]]; right; right.
  - exists (str "2"), "$"%char. repeat split; [discriminate|left; reflexivity].
  - exists (str "2a"), "$"%char. repeat split; [discriminate|left; reflexivity].
  - exists (str "2b"), "$"%char. repeat split; [discriminate|left; reflexivity].
Qed.

Lemma bcrypt_Parse (pre cs text : gostring) :
  In pre bcrypt_prefixes ->
  IndexAnyInvalid HashEncoding cs = None ->
  IndexAnyInvalid HashEncoding text = None ->
  text <> [] ->
  Parse (pre ++ cs ++ "$"%char :: text) =
  Ok (mkTree (prefixNodeOf pre)
        [FValue (mkValueNode cs (length pre) (length pre + length cs));
         FValue (mkValueNode text (length pre + length cs + 1)
                   (length pre + length cs + 1 + length text))]).
Proof.
  intros Hin Hc Ht Hne.
  change (cs ++ "$"%char :: text) with (renderFragments [[cs]; [text]]).
  rewrite Parse_rendered.
  - reflexivity.
  - apply bcrypt_prefixShape. exact Hin.
  - constructor; [|constructor; [|constructor]];
      (split; [discriminate|]); (constructor; [|constructor]);
      apply hash_text_clean; assumption.
  - intros front v H.
    change (concat [[cs]; [text]]) with ([cs] ++ [text]) in H.
    apply app_inj_tail in H as [_ <-]. exact Hne.
  - split.
    + intros ->. destruct Hin as [H|[H|[H|[]]]]; discriminate H.
    + intros _.
      change (renderFragments [[cs]; [text]]) with (cs ++ "$"%char :: text).
      apply hash_text_start. exact Hc.
Qed.

(** [unmarshal] of two digits into the field [Cost] of [bcrypt.scheme]. *)
Lemma unmarshal_cost (ti : typeInfo) (cs : gostring) (cost : Z) (p e : nat)
    (old : option govalue) :
  length cs = 2 ->
  IndexAnyInvalid HashEncoding cs = None ->
  ParseUint cs 10 8 = Ok cost ->
  unmarshal (NValue (mkValueNode cs p e)) ti
    (mkFieldInfo [1] (str "Cost") hashCost
       (mkFieldOpts false false false [] (Some HashEncoding) 2 false 10))
    old
  = Ok (VUint cost, cs).
Proof.
  intros Hl Hok Hp. unfold unmarshal, decodeValue.
  cbn [Opts Param Length Inline Encoding_ Type_ opt_Prefix Base Node_String
       negb gostring_eqb Nat.ltb Nat.leb indirectType hashCost methodsOf
       UnmarshalText kindOf andb bitsOf stripNamed Value].
  rewrite Hl. cbn [Nat.eqb negb]. rewrite Hok, Hp. reflexivity.
Qed.

(** X21. The bcrypt scheme, written and read. For one of the three
    prefixes, a cost below 100, a salt of 22 bytes and a sum of 31, all
    of the hash alphabet: [MarshalText] of the cost gives two digits (a
    [0] before a cost below 10), [Marshal] of the scheme struct gives the
    prefix, the two digits, [$], the salt and the sum, the salt being
    inline, and [Params] of this text returns the salt, the cost and the
    prefix. *)
Theorem bcrypt_round_trip (pre : gostring) (cost : Z) (salt sum : gostring) :
  In pre bcrypt_prefixes ->
  (0 <= cost < 100)%Z ->
  length salt = 22 -> IndexAnyInvalid HashEncoding salt = None ->
  length sum = 31 -> IndexAnyInvalid HashEncoding sum = None ->
  exists cs,
    hashCost_MarshalText (VUint cost) = Ok cs
    /\ length cs = 2
    /\ Marshal bcrypt_scheme (bcrypt_value pre cost salt sum)
       = Ok (pre ++ cs ++ "$"%char :: salt ++ sum)
    /\ bcrypt_Params (pre ++ cs ++ "$"%char :: salt ++ sum)
       = Ok (salt, cost, pre).
Proof.
  intros Hin Hc Ls Hs Lm Hm.
  destruct (hashCost_text Hc) as (cs & Hcs & Lc & Hcok & Hcp).
  assert (Hok : IndexAnyInvalid HashEncoding (salt ++ sum) = None)
    by (apply IndexAnyInvalid_app; assumption).
  assert (Hne : salt ++ sum <> []) by (destruct salt; discriminate).
  exists cs. split; [exact Hcs|]. split; [exact Lc|]. split.
  - unfold Marshal. cbn [kindOf indirectType stripNamed bcrypt_scheme].
    assert (Hti : getTypeInfo bcrypt_scheme =
                  Ok (mkTypeInfo bcrypt_scheme bcrypt_scheme
                        (HashPrefix bcrypt_typeInfo) (Fields bcrypt_typeInfo) 2))
      by reflexivity.
    rewrite Hti. unfold marshalWith.
    cbn [HashPrefix Fields bcrypt_typeInfo marshalLoop Index Opts OmitEmpty
         bcrypt_value andb indirect].
    unfold marshalValue, marshal.
    cbn [Type_ Opts indirectType hashPrefixesType hashCost bytesType methodsOf
         MarshalText opt_Prefix Length Encoding_ kindOf andb negb elemIsUint8
         stripNamed isUint8 Nat.ltb Nat.leb Param gostring_eqb separator
         Inline Group].
    rewrite Hcs, Lc, Hcok, Hs, Hm, Ls, Lm. cbn [Nat.eqb negb andb].
    rewrite <- !app_assoc. reflexivity.
  - assert (Hun : Unmarshal (pre ++ cs ++ "$"%char :: salt ++ sum)
                    (TPtr bcrypt_scheme)
                    (bcrypt_value [] 0 [] (repeat zeroByte 31))
                  = Ok (setField
                          (setField
                             (setField
                                (setField
                                   (bcrypt_value [] 0 [] (repeat zeroByte 31))
                                   [0] (VString pre))
                                [1] (VUint cost))
                             [2] (VBytes salt))
                          [3] (VBytes sum))).
    { unfold Unmarshal. cbn [kindOf indirectType stripNamed bcrypt_scheme].
      rewrite (@bcrypt_Parse pre cs (salt ++ sum) Hin Hcok Hok Hne),
        bcrypt_compiles.
      unfold unmarshalTree.
      set (tree := mkTree _ _).
      assert (Hpre : forall n,
                 unmarshalPrefix n bcrypt_typeInfo tree
                   (bcrypt_value [] 0 [] (repeat zeroByte 31))
                 = Ok (setField (bcrypt_value [] 0 [] (repeat zeroByte 31))
                         [0] (VString pre))).
      { intros n. unfold tree.
        destruct Hin as [<-|[<-|[<-|[]]]]; reflexivity. }
      rewrite Hpre. cbn [Fields bcrypt_typeInfo unmarshalFields NumReqValues].
      unfold tree. cbn [Fragments length].
      rewrite (@value_round _ bcrypt_typeInfo _ _
                 (mkValueNode cs (length pre) (length pre + length cs))
                 (VUint cost) cs);
        [|reflexivity|reflexivity|reflexivity|reflexivity|left; reflexivity|
         apply unmarshal_cost; assumption].
      round_done.
      rewrite (@value_round _ bcrypt_typeInfo _ _
                 (mkValueNode (salt ++ sum) (length pre + length cs + 1)
                    (length pre + length cs + 1 + length (salt ++ sum)))
                 (VBytes salt) sum);
        [|reflexivity|reflexivity|reflexivity|reflexivity|left; reflexivity|
         apply unmarshal_inline_text; try reflexivity;
         [cbn [Opts Length]; lia|exact Ls|exact Hs]].
      round_done.
      rewrite (@value_round _ bcrypt_typeInfo _ _
                 (mkValueNode sum (length pre + length cs + 1)
                    (length pre + length cs + 1 + length (salt ++ sum)))
                 (VBytes sum) sum);
        [|reflexivity|reflexivity|reflexivity|reflexivity|left; reflexivity|
         cbn [rec Index indirect setField index_eqb Nat.eqb andb bcrypt_value];
         apply (@unmarshal_array _ _ _ _ _ (repeat zeroByte 31) 31);
         try reflexivity; [exact Lm|exact Hm]].
      reflexivity. }
    unfold bcrypt_Params. rewrite Hun. reflexivity.
Qed.

(** A hash of the test [TestParse] of the package. *)
Lemma bcrypt_round_trip_witness :
  exists cs,
    hashCost_MarshalText (VUint 5) = Ok cs
    /\ length cs = 2
    /\ Marshal bcrypt_scheme
         (bcrypt_value bcrypt_Prefix2a 5 (str "CCCCCCCCCCCCCCCCCCCCC.")
            (str "E5YPO9kmyuRGyh0XouQYb4YMJKvyOeW"))
       = Ok (bcrypt_Prefix2a ++ cs ++ "$"%char
             :: str "CCCCCCCCCCCCCCCCCCCCC."
                ++ str "E5YPO9kmyuRGyh0XouQYb4YMJKvyOeW")
    /\ bcrypt_Params (bcrypt_Prefix2a ++ cs ++ "$"%char
                      :: str "CCCCCCCCCCCCCCCCCCCCC."
                         ++ str "E5YPO9kmyuRGyh0XouQYb4YMJKvyOeW")
       = Ok (str "CCCCCCCCCCCCCCCCCCCCC.", 5%Z, bcrypt_Prefix2a).
Proof.
  apply (@bcrypt_round_trip bcrypt_Prefix2a 5%Z (str "CCCCCCCCCCCCCCCCCCCCC.")
           (str "E5YPO9kmyuRGyh0XouQYb4YMJKvyOeW"));
    [right; left; reflexivity|lia|reflexivity|reflexivity|reflexivity|
     reflexivity].
Defined.


Ltac clean_value :=
  first [ reflexivity
        | apply hash_text_clean; assumption
        | apply IndexAny_app_none;
          [reflexivity|apply hash_text_clean; assumption] ].

Ltac clean_fragments :=
  repeat (apply Forall_cons;
          [split; [discriminate
                  |repeat (apply Forall_cons; [clean_value|]);
                   apply Forall_nil]|]);
  apply Forall_nil.

Lemma sunmd5_compiles : getTypeInfo (TPtr sunmd5_scheme) = Ok sunmd5_typeInfo.
Proof. reflexivity. Qed.

Lemma sunmd5_prefixShape (pre : gostring) :
  In pre sunmd5_prefixes -> prefixShape pre.
Proof.
  intros [<-|[<-|[]]]; right; right.
  - exists (str "md5"), ","%char.
    repeat split; [discriminate|right; reflexivity].
  - exists (str "md5"), "$"%char.
    repeat split; [discriminate|left; reflexivity].
Qed.

Lemma sunmd5_startsClean (pre rest : gostring) :
  In pre sunmd5_prefixes -> startsClean pre (str "rounds=" ++ rest).
Proof.
  intros Hin. split; [|intros _; reflexivity].
  intros ->. destruct Hin as [H|[H|[]]]; discriminate H.
Qed.

(** The prefix step of [Unmarshal] for [sunmd5.scheme]. *)
Lemma sunmd5_prefix_step (pre : gostring) (n : nat) (fs : list FragmentNode)
    (r : record) :
  In pre sunmd5_prefixes ->
  r [0; 0] = VString [] ->
  unmarshalPrefix n sunmd5_typeInfo (mkTree (prefixNodeOf pre) fs) r
  = Ok (setField r [0; 0] (VString pre)).
Proof.
  intros Hin Hr. unfold unmarshalPrefix.
  cbn [HashPrefix sunmd5_typeInfo Prefix].
  destruct Hin as [<-|[<-|[]]];
    cbn [prefixNodeOf sunmd5_PrefixNonZeroRounds sunmd5_PrefixZeroRounds str
         list_ascii_of_string];
    unfold unmarshal; cbn [Index]; rewrite Hr; reflexivity.
Qed.

(** [Unmarshal] of a Sun MD5 hash with a salt and the empty value of the
    separator. *)
Lemma sunmd5_Unmarshal_full (pre digits salt sum : gostring) (rounds : Z) :
  In pre sunmd5_prefixes ->
  IndexAnyInvalid HashEncoding digits = None ->
  ParseUint digits 10 32 = Ok rounds ->
  IndexAnyInvalid HashEncoding salt = None ->
  IndexAnyInvalid HashEncoding sum = None ->
  length sum = 22 ->
  Unmarshal (pre ++ renderFragments
                      [[str "rounds=" ++ digits]; [salt]; [[]]; [sum]])
    (TPtr sunmd5_scheme) sunmd5_zero
  = Ok (setField
          (setField
             (setField
                (setField
                   (setField sunmd5_zero [0; 0] (VString pre))
                   [0; 1] (VUint rounds))
                [0; 2] (VBytes salt))
             [0; 3] (VPtr (Some (VString []))))
          [1] (VBytes sum)).
Proof.
  intros Hin Hd Hp Hsalt Hsum Hlen.
  assert (Hne : sum <> []) by (destruct sum; discriminate).
  unfold Unmarshal. cbn [kindOf indirectType stripNamed sunmd5_scheme].
  rewrite Parse_rendered;
    [|apply sunmd5_prefixShape; exact Hin
     |clean_fragments
     |intros front v H;
      change (concat [[str "rounds=" ++ digits]; [salt]; [[]]; [sum]])
        with ([str "rounds=" ++ digits; salt; []] ++ [sum]) in H;
      apply app_inj_tail in H as [_ <-]; exact Hne
     |apply sunmd5_startsClean; exact Hin].
  rewrite sunmd5_compiles. unfold unmarshalTree.
  rewrite sunmd5_prefix_step; [|exact Hin|reflexivity].
  cbn [Fields sunmd5_typeInfo unmarshalFields NumReqValues Fragments
       placeFragments placeValues fragmentOf length].
  erewrite (@value_round _ sunmd5_typeInfo _ _ _ (VUint rounds)
             (str "rounds=" ++ digits));
    [|reflexivity|reflexivity|reflexivity|reflexivity|left; reflexivity|
     read_uint 32 digits rounds; try reflexivity; [exact Hd|exact Hp]].
  round_done.
  erewrite (@value_round _ sunmd5_typeInfo _ _ _ (VBytes salt) salt);
    [|reflexivity|reflexivity|reflexivity|reflexivity|
     right; cbn [numValues numReqValues]; lia|
     apply unmarshal_bytes; try reflexivity;
     [left; reflexivity|exact Hsalt]].
  round_done.
  erewrite (@value_round _ sunmd5_typeInfo _ _ _ (VString []) []);
    [|reflexivity|reflexivity|reflexivity|reflexivity|
     right; cbn [numValues numReqValues]; lia|reflexivity].
  round_done.
  erewrite (@value_round _ sunmd5_typeInfo _ _ _ (VBytes sum) sum);
    [|reflexivity|reflexivity|reflexivity|reflexivity|left; reflexivity|
     cbn [rec Index indirect setField index_eqb Nat.eqb andb sunmd5_zero
          sunmd5_value];
     apply (@unmarshal_array _ _ _ _ _ (repeat zeroByte 22) 22);
     try reflexivity; [exact Hlen|exact Hsum]].
  reflexivity.
Qed.

(** [Unmarshal] of a Sun MD5 hash with one value between the rounds and
    the sum: it is the salt, also when it is empty. *)
Lemma sunmd5_Unmarshal_salt (pre digits salt sum : gostring) (rounds : Z) :
  In pre sunmd5_prefixes ->
  IndexAnyInvalid HashEncoding digits = None ->
  ParseUint digits 10 32 = Ok rounds ->
  IndexAnyInvalid HashEncoding salt = None ->
  IndexAnyInvalid HashEncoding sum = None ->
  length sum = 22 ->
  Unmarshal (pre ++ renderFragments [[str "rounds=" ++ digits]; [salt]; [sum]])
    (TPtr sunmd5_scheme) sunmd5_zero
  = Ok (setField
          (setField
             (setField
                (setField sunmd5_zero [0; 0] (VString pre))
                [0; 1] (VUint rounds))
             [0; 2] (VBytes salt))
          [1] (VBytes sum)).
Proof.
  intros Hin Hd Hp Hsalt Hsum Hlen.
  assert (Hne : sum <> []) by (destruct sum; discriminate).
  unfold Unmarshal. cbn [kindOf indirectType stripNamed sunmd5_scheme].
  rewrite Parse_rendered;
    [|apply sunmd5_prefixShape; exact Hin
     |clean_fragments
     |intros front v H;
      change (concat [[str "rounds=" ++ digits]; [salt]; [sum]])
        with ([str "rounds=" ++ digits; salt] ++ [sum]) in H;
      apply app_inj_tail in H as [_ <-]; exact Hne
     |apply sunmd5_startsClean; exact Hin].
  rewrite sunmd5_compiles. unfold unmarshalTree.
  rewrite sunmd5_prefix_step; [|exact Hin|reflexivity].
  cbn [Fields sunmd5_typeInfo unmarshalFields NumReqValues Fragments
       placeFragments placeValues fragmentOf length].
  erewrite (@value_round _ sunmd5_typeInfo _ _ _ (VUint rounds)
              (str "rounds=" ++ digits));
    [|reflexivity|reflexivity|reflexivity|reflexivity|left; reflexivity|
     read_uint 32 digits rounds; try reflexivity; [exact Hd|exact Hp]].
  round_done.
  erewrite (@value_round _ sunmd5_typeInfo _ _ _ (VBytes salt) salt);
    [|reflexivity|reflexivity|reflexivity|reflexivity|
     right; cbn [numValues numReqValues]; lia|
     apply unmarshal_bytes; try reflexivity;
     [left; reflexivity|exact Hsalt]].
  round_done.
  rewrite skip_round;
    [|reflexivity|reflexivity|cbn [fragIdx frags length]; lia|
     cbn [numValues numReqValues]; lia].
  round_done.
  erewrite (@value_round _ sunmd5_typeInfo _ _ _ (VBytes sum) sum);
    [|reflexivity|reflexivity|reflexivity|reflexivity|left; reflexivity|
     cbn [rec Index indirect setField index_eqb Nat.eqb andb sunmd5_zero
          sunmd5_value];
     apply (@unmarshal_array _ _ _ _ _ (repeat zeroByte 22) 22);
     try reflexivity; [exact Hlen|exact Hsum]].
  reflexivity.
Qed.

(** [Unmarshal] of a Sun MD5 hash with the rounds and the sum only. *)
Lemma sunmd5_Unmarshal_none (pre digits sum : gostring) (rounds : Z) :
  In pre sunmd5_prefixes ->
  IndexAnyInvalid HashEncoding digits = None ->
  ParseUint digits 10 32 = Ok rounds ->
  IndexAnyInvalid HashEncoding sum = None ->
  length sum = 22 ->
  Unmarshal (pre ++ renderFragments [[str "rounds=" ++ digits]; [sum]])
    (TPtr sunmd5_scheme) sunmd5_zero
  = Ok (setField
          (setField
             (setField sunmd5_zero [0; 0] (VString pre))
             [0; 1] (VUint rounds))
          [1] (VBytes sum)).
Proof.
  intros Hin Hd Hp Hsum Hlen.
  assert (Hne : sum <> []) by (destruct sum; discriminate).
  unfold Unmarshal. cbn [kindOf indirectType stripNamed sunmd5_scheme].
  rewrite Parse_rendered;
    [|apply sunmd5_prefixShape; exact Hin
     |clean_fragments
     |intros front v H;
      change (concat [[str "rounds=" ++ digits]; [sum]])
        with ([str "rounds=" ++ digits] ++ [sum]) in H;
      apply app_inj_tail in H as [_ <-]; exact Hne
     |apply sunmd5_startsClean; exact Hin].
  rewrite sunmd5_compiles. unfold unmarshalTree.
  rewrite sunmd5_prefix_step; [|exact Hin|reflexivity].
  cbn [Fields sunmd5_typeInfo unmarshalFields NumReqValues Fragments
       placeFragments placeValues fragmentOf length].
  erewrite (@value_round _ sunmd5_typeInfo _ _ _ (VUint rounds)
              (str "rounds=" ++ digits));
    [|reflexivity|reflexivity|reflexivity|reflexivity|left; reflexivity|
     read_uint 32 digits rounds; try reflexivity; [exact Hd|exact Hp]].
  round_done.
  rewrite skip_round;
    [|reflexivity|reflexivity|cbn [fragIdx frags length]; lia|
     cbn [numValues numReqValues]; lia].
  round_done.
  rewrite skip_round;
    [|reflexivity|reflexivity|cbn [fragIdx frags length]; lia|
     cbn [numValues numReqValues]; lia].
  round_done.
  erewrite (@value_round _ sunmd5_typeInfo _ _ _ (VBytes sum) sum);
    [|reflexivity|reflexivity|reflexivity|reflexivity|left; reflexivity|
     cbn [rec Index indirect setField index_eqb Nat.eqb andb sunmd5_zero
          sunmd5_value];
     apply (@unmarshal_array _ _ _ _ _ (repeat zeroByte 22) 22);
     try reflexivity; [exact Hlen|exact Hsum]].
  reflexivity.
Qed.

(** Rewriting in the goal with what [Unmarshal] gives for the hash there;
    the text of the hash is the one of [pf] up to computation. *)
Ltac read_hash pf :=
  match goal with
  | |- context [Unmarshal ?t ?ty ?z] =>
      let H := fresh "Hun" in
      pose proof (pf : Unmarshal t ty z = _) as H; rewrite H
  end.

(** X22. The Sun MD5 scheme, whose fields lie in an embedded struct, with
    an optional salt and an optional separator behind a pointer. For one
    of the two prefixes, rounds below [2^32], a salt of the hash alphabet
    and a sum of 22 bytes of it, [Marshal] of the scheme struct gives the
    prefix, [rounds=] and the digits of the rounds, then [$] and the salt
    unless the salt is empty, then [$] when the separator is set, then
    [$] and the sum. [Params] of this text returns the salt, the rounds
    and the prefix; it reports the separator as set exactly when it was
    set and the salt is not empty: after an empty salt the empty value
    of the separator is read as the salt. *)
Theorem sunmd5_round_trip (pre : gostring) (rounds : Z) (salt : gostring)
    (sep : bool) (sum : gostring) :
  In pre sunmd5_prefixes ->
  (0 <= rounds < 2 ^ 32)%Z ->
  IndexAnyInvalid HashEncoding salt = None ->
  IndexAnyInvalid HashEncoding sum = None ->
  length sum = 22 ->
  exists digits,
    FormatUint rounds 10 = Ok digits
    /\ Marshal sunmd5_scheme (sunmd5_value pre rounds salt sep sum)
       = Ok (pre ++ (str "rounds=" ++ digits)
             ++ match salt with [] => [] | _ => "$"%char :: salt end
             ++ (if sep then ["$"%char] else [])
             ++ "$"%char :: sum)
    /\ sunmd5_Params
         (pre ++ (str "rounds=" ++ digits)
          ++ match salt with [] => [] | _ => "$"%char :: salt end
          ++ (if sep then ["$"%char] else [])
          ++ "$"%char :: sum)
       = Ok (salt, rounds,
             mkSunmd5Options pre
               (negb sep || match salt with [] => true | _ => false end)).
Proof.
  intros Hin Hr Hsalt Hsum Hlen.
  destruct (@ParseUint_FormatUint rounds 10 32) as (digits & Hf & Hdne & Hch & Hp);
    [lia|cbn; lia|].
  pose proof (digits_hash Hch) as Hd.
  exists digits. split; [exact Hf|]. split.
  - unfold Marshal. cbn [kindOf indirectType stripNamed sunmd5_scheme].
    assert (Hti : getTypeInfo sunmd5_scheme =
                  Ok (mkTypeInfo sunmd5_scheme sunmd5_scheme
                        (HashPrefix sunmd5_typeInfo) (Fields sunmd5_typeInfo) 2))
      by reflexivity.
    rewrite Hti. unfold marshalWith.
    cbn [HashPrefix Fields sunmd5_typeInfo marshalLoop Index Opts OmitEmpty
         sunmd5_value andb indirect isEmpty].
    unfold marshalValue, marshal.
    cbn [Type_ Opts indirectType hashPrefixesType bytesType methodsOf
         MarshalText opt_Prefix Length Encoding_ kindOf andb negb elemIsUint8
         stripNamed isUint8 Nat.ltb Nat.leb Param separator Inline Group Base].
    rewrite Hf, Hd, Hsum, Hlen. cbn [Nat.eqb negb andb].
    change (negb (gostring_eqb (str "rounds") [])) with true.
    change (negb (gostring_eqb [] [])) with false. cbn iota.
    destruct salt as [|c salt], sep;
      cbn [length Nat.eqb isEmpty indirect]; rewrite ?Hsalt;
      cbn [IndexAnyInvalid app]; rewrite <- ?app_assoc; cbn [app];
      rewrite ?app_nil_r; reflexivity.
  - unfold sunmd5_Params. fold sunmd5_zero.
    destruct salt as [|c salt], sep; cbn [negb orb].
    + read_hash (@sunmd5_Unmarshal_salt pre digits [] sum rounds
                   Hin Hd Hp Hsalt Hsum Hlen).
      reflexivity.
    + read_hash (@sunmd5_Unmarshal_none pre digits sum rounds
                   Hin Hd Hp Hsum Hlen).
      reflexivity.
    + read_hash (@sunmd5_Unmarshal_full pre digits (c :: salt) sum rounds
                   Hin Hd Hp Hsalt Hsum Hlen).
      reflexivity.
    + read_hash (@sunmd5_Unmarshal_salt pre digits (c :: salt) sum rounds
                   Hin Hd Hp Hsalt Hsum Hlen).
      reflexivity.
Qed.

(** A hash of the test [TestParse] of the package. *)
Lemma sunmd5_round_trip_witness :
  exists digits,
    FormatUint 5000 10 = Ok digits
    /\ Marshal sunmd5_scheme
         (sunmd5_value sunmd5_PrefixNonZeroRounds 5000 (str "aaa") true
            (str "abAU9NFKS6nog0MbB4WmM."))
       = Ok (sunmd5_PrefixNonZeroRounds ++ (str "rounds=" ++ digits)
             ++ ("$"%char :: str "aaa") ++ ["$"%char]
             ++ "$"%char :: str "abAU9NFKS6nog0MbB4WmM.")
    /\ sunmd5_Params
         (sunmd5_PrefixNonZeroRounds ++ (str "rounds=" ++ digits)
          ++ ("$"%char :: str "aaa") ++ ["$"%char]
          ++ "$"%char :: str "abAU9NFKS6nog0MbB4WmM.")
       = Ok (str "aaa", 5000%Z,
             mkSunmd5Options sunmd5_PrefixNonZeroRounds false).
Proof.
  apply (@sunmd5_round_trip sunmd5_PrefixNonZeroRounds 5000%Z (str "aaa") true
           (str "abAU9NFKS6nog0MbB4WmM."));
    [left; reflexivity|lia|reflexivity|reflexivity|reflexivity].
Defined.

(** ** Round trip of canonical inputs *)



Lemma valuesAt_nodeAt (fs : list FragmentNode) (i j : nat) (v : ValueNode) :
  nodeAt fs i j = Some v ->
  exists f, nth_error fs i = Some f /\ nth_error (valuesOf f) j = Some v.
Proof.
  unfold nodeAt, valuesAt. destruct (nth_error fs i) as [f|].
  - intros H. exists f. split; [reflexivity|exact H].
  - destruct j; discriminate.
Qed.




(** *** Writes to a value node *)



Lemma setValueText_same (v : ValueNode) : setValueText v (Value v) = v.
Proof. destruct v; reflexivity. Qed.






Lemma length_writeValue (fs : list FragmentNode) (i j : nat) (s : gostring) :
  length (writeValue fs i j s) = length fs.
Proof.
  unfold writeValue. destruct (nth_error fs i) as [[w|g]|]; [| |reflexivity].
  - apply length_replaceNth.
  - destruct (nth_error (Values g) j); [|reflexivity]. apply length_replaceNth.
Qed.




(** Writing the text of a node to it changes nothing. *)
Lemma writeValue_id (fs : list FragmentNode) (i j : nat) (v : ValueNode) :
  nodeAt fs i j = Some v -> writeValue fs i j (Value v) = fs.
Proof.
  intros H. destruct (valuesAt_nodeAt _ _ _ H) as (f & Hf & Hv).
  unfold writeValue. rewrite Hf. destruct f as [w|g].
  - destruct j as [|j]; [|destruct j; discriminate]. injection Hv as ->.
    rewrite setValueText_same. apply replaceNth_same. exact Hf.
  - cbn [valuesOf] in Hv. rewrite Hv, setValueText_same.
    rewrite (replaceNth_same _ _ Hv). destruct g. apply replaceNth_same. exact Hf.
Qed.


(** *** What a reading takes and leaves *)



(** *** One round of the loop *)














(** *** The loops of [Unmarshal] and [Marshal] *)








(** *** The compiled schema *)




















(** The hashes of [TestUnmarshal] are canonical for their structs. *)
Lemma canonical_tests :
  canonical (str "s=bar$0") fieldOverride zeroFieldOverride
    (resultOf (str "s=bar$0") fieldOverride zeroFieldOverride) = true
  /\ canonical (str "bar") privateFields zeroRecord
       (resultOf (str "bar") privateFields zeroRecord) = true
  /\ canonical (str "foo") arrayLength (fun _ => VBytes (repeat zeroByte 3))
       (resultOf (str "foo") arrayLength (fun _ => VBytes (repeat zeroByte 3)))
     = true
  /\ canonical (str "10") numberBase (fun _ => VInt 0)
       (resultOf (str "10") numberBase (fun _ => VInt 0)) = true
  /\ canonical (str "123$124$foo$bar$baz") fieldTypes zeroFieldTypes
       (resultOf (str "123$124$foo$bar$baz") fieldTypes zeroFieldTypes) = true
  /\ canonical (str "foobar") inlineFields zeroRecord
       (resultOf (str "foobar") inlineFields zeroRecord) = true
  /\ canonical optionalInput optionalFields zeroRecord
       (resultOf optionalInput optionalFields zeroRecord) = true
  /\ canonical complexInput testHash zeroTestHash
       (resultOf complexInput testHash zeroTestHash) = true.
Proof. repeat split; vm_compute; reflexivity. Qed.

(** Hashes from the tests of the schemes of the repository are canonical
    for the structs of their packages: argon2, bcrypt, DES and extended
    DES, MD5, NT hash, SHA-1, SHA-256 with and without rounds, and Sun
    MD5 with and without a salt. *)
Lemma canonical_schemes :
  canonicalHash "$argon2id$v=19$m=512,t=3,p=1$qXMlAYBABLl$/OuG+qcZ1ntdTRfhUGFVp2YMcTPJ7aH3e4j7KIEnRho"
     argon2_scheme argon2_zero = true
  /\ canonicalHash "$2a$05$CCCCCCCCCCCCCCCCCCCCC.E5YPO9kmyuRGyh0XouQYb4YMJKvyOeW"
        bcrypt_scheme (bcrypt_value [] 0 [] (repeat zeroByte 31)) = true
  /\ canonicalHash "aajfMKNH1hTm2" des_scheme (scheme3 [] [] (repeat zeroByte 11)) = true
  /\ canonicalHash "_1111aaaa5FiuKrpisKM"
        desext_scheme (desext_value [] 0 [] (repeat zeroByte 11)) = true
  /\ canonicalHash "$1$aaa$sZbbxWYvlgYNZhB78yYjM0" md5_scheme (scheme3 [] [] []) = true
  /\ canonicalHash "$3$$8846f7eaee8fb117ad06bdd830b7586c"
        nthash_scheme (scheme3 [] [] (repeat zeroByte 32)) = true
  /\ canonicalHash "$sha1$40000$aaa$RgfGsUx52n.yarrkcZHeaI7X8pQo"
        sha1_scheme (sha256_value [] 0 [] (repeat zeroByte 28)) = true
  /\ canonicalHash "$5$rounds=5000$aaa$KzSJfmMb9SO88yzOh42fPm3ckBI944gGvTRvr.psx20"
        sha256_scheme (sha256_value [] 0 [] (repeat zeroByte 43)) = true
  /\ canonicalHash "$5$aaa$KzSJfmMb9SO88yzOh42fPm3ckBI944gGvTRvr.psx20"
        sha256_scheme (sha256_value [] 0 [] (repeat zeroByte 43)) = true
  /\ canonicalHash "$md5,rounds=5000$aaa$$abAU9NFKS6nog0MbB4WmM."
        sunmd5_scheme sunmd5_zero = true
  /\ canonicalHash "$md5,rounds=5000$z3L69cPJTnwjRDTAFtqGE."
        sunmd5_scheme sunmd5_zero = true.
Proof. repeat split; vm_compute; reflexivity. Qed.

(** Each condition of a canonical input is needed: an input that
    [Unmarshal] accepts and [Marshal] does not give back, with the
    condition that it fails. *)
Lemma canonical_conditions_needed :
  (* a prefix that no field holds *)
  (writesPrefix oneValue
     (match getTypeInfo oneValue with Ok ti => ti | _ => rawInfo oneValue end)
     (match Parse (str "$a$b") with Ok tree => tree | _ => mkTree None [] end)
     (resultOf (str "$a$b") oneValue zeroRecord) = false
   /\ roundTrip (str "$a$b") oneValue zeroRecord = Ok (str "b"))
  (* an optional field that reads nothing and is set before the call *)
  /\ (optionalUnset
        (match getTypeInfo oneOptional with Ok ti => ti | _ => rawInfo oneOptional end)
        optionalSet (readingsOf (str "a$b") oneOptional optionalSet) = false
      /\ roundTrip (str "a$b") oneOptional optionalSet = Ok (str "a$x$b"))
  (* the entries of a group in another order than the fields *)
  /\ (inOrder None (readingsOf (str "y=1,x=2") twoGrouped zeroRecord) = false
      /\ roundTrip (str "y=1,x=2") twoGrouped zeroRecord = Ok (str "x=2,y=1"))
  (* grouped fields read from two fragments *)
  /\ (inOrder None (readingsOf (str "a=1$b=2") splitGroup zeroRecord) = false
      /\ roundTrip (str "a=1$b=2") splitGroup zeroRecord = Ok (str "a=1,b=2"))
  (* a number with leading zeros *)
  /\ (forallb (writes oneInt (resultOf (str "007") oneInt (fun _ => VInt 0)))
        (readingsOf (str "007") oneInt (fun _ => VInt 0)) = false
      /\ roundTrip (str "007") oneInt (fun _ => VInt 0) = Ok (str "7"))
  (* an empty text read by an optional field *)
  /\ (forallb (writes oneOptional (resultOf (str "a$$b") oneOptional zeroRecord))
        (readingsOf (str "a$$b") oneOptional zeroRecord) = false
      /\ roundTrip (str "a$$b") oneOptional zeroRecord = Ok (str "a$b")).
Proof. repeat split; vm_compute; reflexivity. Qed.
